(** * List indentation of [@remirror/extension-list]: a shallow embedding

    The command under verification is [indentList] together with its helpers
    [findPreviousItem] and [sliceSelectedItems]
    (packages/remirror__extension-list/src/list-command-indent.ts).

    The command runs against the document model of the host editor
    (prosemirror-model, prosemirror-transform, prosemirror-state).  The part
    of the host that the command reaches is embedded in the modules [Model],
    [Resolve], [Replace] and [Transform] below, function by function and under
    the host's own names.  Simplifications of the host, all of them stated
    where they are made:
    - nodes carry no marks (text nodes therefore always share their markup);
    - the only leaves are text nodes;
    - the general fitting algorithm of prosemirror-transform (class [Fitter])
      is not embedded: a run that would need it ends in [Unmodelled]. *)

From Stdlib Require Import ZArith List String Ascii Bool Lia.
Import ListNotations.
Local Open Scope string_scope.
Local Open Scope list_scope.
Local Open Scope Z_scope.

Set Implicit Arguments.
Set Warnings "-register-all".

(* ================================================================== *)
(** * The document model (prosemirror-model) *)
(* ================================================================== *)

Module Model.

(** A node type is identified by its name in the schema. *)
Definition NodeType := string.
Definition Attrs := list (string * string).

(** [Node]: a text leaf, or an element with a type, attributes and a
    fragment (ordered sequence) of children. *)
Inductive Node : Type :=
| Text (text : string)
| Elem (type : NodeType) (attrs : Attrs) (content : list Node).

Definition Fragment := list Node.

Definition isText (n : Node) : bool :=
  match n with Text _ => true | Elem _ _ _ => false end.

Definition typeOf (n : Node) : NodeType :=
  match n with Text _ => "text" | Elem t _ _ => t end.

Definition attrsOf (n : Node) : Attrs :=
  match n with Text _ => [] | Elem _ a _ => a end.

(** [node.content] (a text node has the empty fragment). *)
Definition contentOf (n : Node) : Fragment :=
  match n with Text _ => [] | Elem _ _ c => c end.

Definition childCount (n : Node) : nat := List.length (contentOf n).

(** [node.nodeSize]: the length of a text node, content size plus the two
    boundary tokens for an element. *)
Fixpoint nodeSize (n : Node) : Z :=
  match n with
  | Text s => Z.of_nat (String.length s)
  | Elem _ _ c =>
      2 + (fix sizes (l : list Node) : Z :=
             match l with
             | [] => 0
             | x :: l' => nodeSize x + sizes l'
             end) c
  end.

(** [fragment.size]. *)
Fixpoint fragSize (l : Fragment) : Z :=
  match l with
  | [] => 0
  | x :: l' => nodeSize x + fragSize l'
  end.

(** [node.content.size]. *)
Definition contentSize (n : Node) : Z := fragSize (contentOf n).

(** [node.copy(content)]: same type and attributes, new content. *)
Definition copy (n : Node) (c : Fragment) : Node :=
  match n with
  | Text s => Text s
  | Elem t a _ => Elem t a c
  end.

(** [fragment.append(other)]: concatenation that merges a trailing text node
    with a leading text node of the same markup. *)
Fixpoint append (a b : Fragment) : Fragment :=
  match a with
  | [] => b
  | [Text s] =>
      match b with
      | Text s' :: b' => Text (s ++ s')%string :: b'
      | _ => [Text s] ++ b
      end
  | x :: a' => x :: append a' b
  end.

(** [fragment.findIndex(pos)] (with the default rounding): the index of the
    child boundary at [pos], or of the child that strictly contains [pos],
    together with the offset of that child.  [None] is the [RangeError]. *)
Fixpoint findIndexFrom (l : Fragment) (i : nat) (cur : Z) (p : Z) : option (nat * Z) :=
  match l with
  | [] => if p =? cur then Some (i, cur) else None
  | x :: l' =>
      if p =? cur then Some (i, cur)
      else if p <? cur + nodeSize x then Some (i, cur)
      else findIndexFrom l' (S i) (cur + nodeSize x) p
  end.

Definition findIndex (l : Fragment) (p : Z) : option (nat * Z) :=
  if p <? 0 then None else findIndexFrom l 0%nat 0 p.

(** [fragment.replaceChild(index, node)]. *)
Fixpoint replaceChild (l : Fragment) (index : nat) (n : Node) : Fragment :=
  match l, index with
  | [], _ => []
  | _ :: l', O => n :: l'
  | x :: l', S i => x :: replaceChild l' i n
  end.

(** [text.slice(from, to)] of a JavaScript string, for [0 <= from]. *)
Definition textSlice (s : string) (from to : Z) : string :=
  substring (Z.to_nat from) (Z.to_nat (to - from)) s.

(** The loop of [fragment.cut(from, to)], parametrised by the cut of a child
    ([node.cut]); [posn] is the offset of the first child of [l]. *)
Definition cutLoop (cutNode : Node -> Z -> Z -> Node) (from to : Z) :=
  fix loop (l : Fragment) (posn : Z) {struct l} : Fragment :=
    match l with
    | [] => []
    | child :: l' =>
        if posn <? to then
          let e := posn + nodeSize child in
          let rest := loop l' e in
          if from <? e then
            (if (posn <? from) || (to <? e)
             then (if isText child
                   then cutNode child (Z.max 0 (from - posn))
                                (Z.min (nodeSize child) (to - posn))
                   else cutNode child (Z.max 0 (from - posn - 1))
                                (Z.min (contentSize child) (to - posn - 1)))
             else child) :: rest
          else rest
        else []
    end.

(** [node.cut(from, to)]. *)
Fixpoint cutNode (n : Node) (from to : Z) {struct n} : Node :=
  match n with
  | Text s => Text (textSlice s from to)
  | Elem t a c =>
      if (from =? 0) && (to =? fragSize c) then n
      else Elem t a (if from <? to then cutLoop cutNode from to c 0 else [])
  end.

(** [fragment.cut(from, to)]. *)
Definition cut (l : Fragment) (from to : Z) : Fragment :=
  if (from =? 0) && (to =? fragSize l) then l
  else if from <? to then cutLoop cutNode from to l 0 else [].

(** A slice: a fragment with the depths at which it is open on either side. *)
Record Slice : Type := mkSlice {
  sContent : Fragment;
  openStart : nat;
  openEnd : nat
}.

Definition emptySlice : Slice := mkSlice [] 0 0.

(** [slice.size]. *)
Definition sliceSize (s : Slice) : Z :=
  fragSize (sContent s) - Z.of_nat (openStart s) - Z.of_nat (openEnd s).

(** The schema, as far as the command and the host functions it reaches
    consult it.  Content expressions are deterministic automata over the
    types of the children, so validity is a predicate on the list of child
    types. *)
Record Schema : Type := mkSchema {
  (** [type.validContent(fragment)] *)
  validContent : NodeType -> list NodeType -> bool;
  (** [type.compatibleContent(other)] *)
  compatibleContent : NodeType -> NodeType -> bool;
  (** [type.inlineContent] *)
  inlineContent : NodeType -> bool;
  (** [type.spec.isolating] *)
  isolating : NodeType -> bool;
  (** membership of the list-container group *)
  isList : NodeType -> bool;
  (** membership of the list-item group *)
  isListItem : NodeType -> bool
}.

Definition childTypes (c : Fragment) : list NodeType := map typeOf c.

(** [node.check()]: the content of the node and of every descendant matches
    the schema ([false] is the [RangeError] it raises). *)
Fixpoint check (sch : Schema) (n : Node) {struct n} : bool :=
  match n with
  | Text _ => true
  | Elem t _ c =>
      validContent sch t (childTypes c) &&
      (fix all (l : Fragment) : bool :=
         match l with
         | [] => true
         | x :: l' => check sch x && all l'
         end) c
  end.

(** [node.canReplace(from, to, replacement)] on a node whose content is
    valid: the content that results matches the content expression. *)
Definition canReplace (sch : Schema) (n : Node) (from to : nat) (repl : Fragment) : bool :=
  validContent sch (typeOf n)
    (childTypes (firstn from (contentOf n)) ++ childTypes repl
       ++ childTypes (skipn to (contentOf n))).

End Model.

(* ================================================================== *)
(** * Resolved positions, node ranges and slices (prosemirror-model) *)
(* ================================================================== *)

Module Resolve.
Import Model.

(** One level of the path of a resolved position: the ancestor at that
    depth, the index into it, and the absolute position of the child (or
    child boundary) at that index. *)
Record PathEntry : Type := mkEntry {
  peNode : Node;
  peIndex : nat;
  peOffset : Z
}.

(** [f] applied to [l[i]], or [d] when the index is out of range. *)
Definition withChild (A : Type) (d : A) (f : Node -> A) :=
  fix go (l : Fragment) (i : nat) {struct l} : A :=
    match l, i with
    | [], _ => d
    | x :: _, O => f x
    | _ :: l', S i' => go l' i'
    end.

(** The loop of [ResolvedPos.resolve]: push [(node, index, start + offset)],
    stop on a child boundary or in front of a text node, otherwise descend
    into the child with [parentOffset = rem - 1] and
    [start += offset + 1]. *)
Fixpoint resolveLoop (node : Node) (start parentOffset : Z) {struct node}
  : list PathEntry :=
  match findIndex (contentOf node) parentOffset with
  | None => []
  | Some (index, offset) =>
      let rem := parentOffset - offset in
      mkEntry node index (start + offset) ::
      (if rem =? 0 then []
       else match node with
            | Text _ => []
            | Elem _ _ c =>
                withChild []
                  (fun child =>
                     if isText child then []
                     else resolveLoop child (start + offset + 1) (rem - 1))
                  c index
            end)
  end.

(** A resolved position.  The loop keeps [start + parentOffset = pos], so
    [parentOffset] is [pos - start(depth)] (see [parentOffset] below). *)
Record ResolvedPos : Type := mkResolved {
  pos : Z;
  path : list PathEntry
}.

(** [doc.resolve(pos)]; [None] is the [RangeError] for a position outside the
    document. *)
Definition resolve (doc : Node) (p : Z) : option ResolvedPos :=
  if (0 <=? p) && (p <=? contentSize doc)
  then Some (mkResolved p (resolveLoop doc 0 p))
  else None.

Definition noEntry : PathEntry := mkEntry (Elem "" [] []) 0 0.

Section Accessors.
Variable rp : ResolvedPos.

Definition depth : nat := (List.length (path rp) - 1)%nat.
Definition entry (d : nat) : PathEntry := nth d (path rp) noEntry.

(** [resolveDepth(val)]: a negative depth counts from the innermost. *)
Definition resolveDepth (val : Z) : nat :=
  if val <? 0 then Z.to_nat (Z.of_nat depth + val) else Z.to_nat val.

Definition node (d : nat) : Node := peNode (entry d).
Definition index (d : nat) : nat := peIndex (entry d).
Definition parent : Node := node depth.
Definition textOffset : Z := pos rp - peOffset (entry depth).

Definition indexAfter (d : nat) : nat :=
  (index d + (if (d =? depth)%nat && (textOffset =? 0)%Z then 0 else 1))%nat.

Definition start (d : nat) : Z :=
  match d with
  | O => 0
  | S d' => peOffset (entry d') + 1
  end.

Definition end_ (d : nat) : Z := start d + contentSize (node d).

Definition parentOffset : Z := pos rp - start depth.

(** [before(d)] and [after(d)] for [1 <= d <= depth + 1]. *)
Definition before (d : nat) : Z :=
  if (d =? depth + 1)%nat then pos rp else peOffset (entry (d - 1)).

Definition after (d : nat) : Z :=
  if (d =? depth + 1)%nat then pos rp
  else peOffset (entry (d - 1)) + nodeSize (node d).

(** [nodeAfter] and [nodeBefore]: the sibling after or before the
    position, cut at the position when it falls inside a text node. *)
Definition nodeAfter : option Node :=
  match nth_error (contentOf parent) (index depth) with
  | None => None
  | Some child =>
      if textOffset =? 0 then Some child
      else Some (cutNode child textOffset (nodeSize child))
  end.

Definition nodeBefore : option Node :=
  if textOffset =? 0 then
    match index depth with
    | O => None
    | S i => nth_error (contentOf parent) i
    end
  else
    match nth_error (contentOf parent) (index depth) with
    | None => None
    | Some child => Some (cutNode child 0 textOffset)
    end.

(** [sharedDepth(pos)]: scans [d = k, k - 1, ..., 1]. *)
Fixpoint sharedDepthFrom (p : Z) (k : nat) : nat :=
  match k with
  | O => O
  | S k' =>
      if (start k <=? p) && (p <=? end_ k) then k
      else sharedDepthFrom p k'
  end.

Definition sharedDepth (p : Z) : nat := sharedDepthFrom p depth.
End Accessors.

(** [NodeRange]: the flat range around [$from] and [$to] at [depth]. *)
Record NodeRange : Type := mkRange {
  rFrom : ResolvedPos;
  rTo : ResolvedPos;
  rDepth : nat
}.

Definition rStart (r : NodeRange) : Z := before (rFrom r) (rDepth r + 1).
Definition rEnd (r : NodeRange) : Z := after (rTo r) (rDepth r + 1).
Definition rParent (r : NodeRange) : Node := node (rFrom r) (rDepth r).
Definition startIndex (r : NodeRange) : nat := index (rFrom r) (rDepth r).
Definition endIndex (r : NodeRange) : nat := indexAfter (rTo r) (rDepth r).

(** The loop of [blockRange]: scans the depths [k - 1, ..., 0]. *)
Fixpoint blockRangeFrom (this other : ResolvedPos) (pred : Node -> bool)
  (k : nat) : option NodeRange :=
  match k with
  | O => None
  | S d =>
      if (pos other <=? end_ this d) && pred (node this d)
      then Some (mkRange this other d)
      else blockRangeFrom this other pred d
  end.

(** [$from.blockRange($to, pred)]. *)
Definition blockRange (sch : Schema) (this other : ResolvedPos)
  (pred : Node -> bool) : option NodeRange :=
  let go (this other : ResolvedPos) :=
    let skip :=
      if inlineContent sch (typeOf (parent this)) || (pos this =? pos other)
      then 1%nat else 0%nat in
    blockRangeFrom this other pred (depth this + 1 - skip) in
  if pos other <? pos this then go other this else go this other.

(** [doc.slice(from, to)]; [None] is the [RangeError] of [resolve]. *)
Definition slice (doc : Node) (from to : Z) : option Slice :=
  if from =? to then Some emptySlice
  else
    match resolve doc from, resolve doc to with
    | Some rfrom, Some rto =>
        let d := sharedDepth rfrom to in
        let st := start rfrom d in
        Some (mkSlice (cut (contentOf (node rfrom d)) (pos rfrom - st) (pos rto - st))
                (depth rfrom - d) (depth rto - d))
    | _, _ => None
    end.

End Resolve.

(* ================================================================== *)
(** * Structural replace (prosemirror-model, replace.js) *)
(* ================================================================== *)

Module Replace.
Import Model Resolve.

(** Sequencing of computations that may raise [ReplaceError] ([None]). *)
Definition bind (A B : Type) (x : option A) (f : A -> option B) : option B :=
  match x with
  | Some a => f a
  | None => None
  end.

Notation "'do' x <- e ; k" := (bind e (fun x => k))
  (at level 10, x name, e at level 100, k at level 200).

Section WithSchema.
Variable sch : Schema.

(** [checkJoin(main, sub)]: [false] is the [ReplaceError]. *)
Definition checkJoin (main sub : Node) : bool :=
  compatibleContent sch (typeOf sub) (typeOf main).

Definition joinable (rbefore rafter : ResolvedPos) (d : nat) : option Node :=
  let n := node rbefore d in
  if checkJoin n (node rafter d) then Some n else None.

(** [addNode(child, target)]: push, merging adjacent text nodes. *)
Definition addNode (target : Fragment) (child : Node) : Fragment :=
  append target [child].

Definition addNodes (target : Fragment) (l : Fragment) : Fragment :=
  fold_left addNode l target.

Definition addOpt (target : Fragment) (o : option Node) : Fragment :=
  match o with
  | Some n => addNode target n
  | None => target
  end.

(** [addRange($start, $end, depth, target)].  The children with indices
    from [startIndex] up to [endIndex] are added in order. *)
Definition addRange (rstart rend : option ResolvedPos) (d : nat)
  (target : Fragment) : Fragment :=
  let n := match rend with
           | Some e => node e d
           | None => match rstart with Some s => node s d | None => Text "" end
           end in
  let endIdx := match rend with
                | Some e => index e d
                | None => childCount n
                end in
  let '(startIdx, target1) :=
    match rstart with
    | None => (0%nat, target)
    | Some s =>
        if (d <? depth s)%nat then (S (index s d), target)
        else if negb (textOffset s =? 0)
             then (S (index s d), addOpt target (nodeAfter s))
             else (index s d, target)
    end in
  let target2 :=
    addNodes target1 (firstn (endIdx - startIdx) (skipn startIdx (contentOf n))) in
  match rend with
  | Some e =>
      if (depth e =? d)%nat && negb (textOffset e =? 0)
      then addOpt target2 (nodeBefore e)
      else target2
  | None => target2
  end.

(** [close(node, content)]. *)
Definition close (n : Node) (content : Fragment) : option Node :=
  if validContent sch (typeOf n) (childTypes content)
  then Some (copy n content) else None.

(** [replaceTwoWay($from, $to, depth)].  [fuel] bounds the number of
    levels below [depth]; it is given as [$from.depth - depth] and so
    cannot run out. *)
Fixpoint replaceTwoWay (fuel : nat) (rfrom rto : ResolvedPos) (d : nat)
  {struct fuel} : option Fragment :=
  let content := addRange None (Some rfrom) d [] in
  do content1 <-
    (if (d <? depth rfrom)%nat then
       match fuel with
       | O => None
       | S fuel' =>
           do type <- joinable rfrom rto (d + 1);
           do inner <- replaceTwoWay fuel' rfrom rto (d + 1);
           do closed <- close type inner;
           Some (addNode content closed)
       end
     else Some content);
  Some (addRange (Some rto) None d content1).

(** [replaceThreeWay($from, $start, $end, $to, depth)]. *)
Fixpoint replaceThreeWay (fuel : nat) (rfrom rstart rend rto : ResolvedPos)
  (d : nat) {struct fuel} : option Fragment :=
  do openS <- (if (d <? depth rfrom)%nat
               then option_map Some (joinable rfrom rstart (d + 1))
               else Some None);
  do openE <- (if (d <? depth rto)%nat
               then option_map Some (joinable rend rto (d + 1))
               else Some None);
  let content := addRange None (Some rfrom) d [] in
  let separate :=
    do c1 <- match openS with
             | Some os =>
                 do inner <- replaceTwoWay (depth rfrom - (d + 1)) rfrom rstart (d + 1);
                 do closed <- close os inner;
                 Some (addNode content closed)
             | None => Some content
             end;
    let c2 := addRange (Some rstart) (Some rend) d c1 in
    match openE with
    | Some oe =>
        do inner <- replaceTwoWay (depth rend - (d + 1)) rend rto (d + 1);
        do closed <- close oe inner;
        Some (addNode c2 closed)
    | None => Some c2
    end in
  do content1 <-
    match openS, openE with
    | Some os, Some oe =>
        if (index rstart d =? index rend d)%nat then
          if checkJoin os oe then
            match fuel with
            | O => None
            | S fuel' =>
                do inner <- replaceThreeWay fuel' rfrom rstart rend rto (d + 1);
                do closed <- close os inner;
                Some (addNode content closed)
            end
          else None
        else separate
    | _, _ => separate
    end;
  Some (addRange (Some rto) None d content1).

(** [prepareSliceForReplace(slice, $along)]; [None] stands for the
    [RangeError] of a position outside the wrapped slice. *)
Fixpoint wrapAlong (ralong : ResolvedPos) (n : Node) (i : nat) : Node :=
  match i with
  | O => n
  | S i' => wrapAlong ralong (copy (node ralong i') [n]) i'
  end.

Definition prepareSliceForReplace (s : Slice) (ralong : ResolvedPos)
  : option (ResolvedPos * ResolvedPos) :=
  let extra := (depth ralong - openStart s)%nat in
  let par := node ralong extra in
  let n := wrapAlong ralong (copy par (sContent s)) extra in
  match resolve n (Z.of_nat (openStart s) + Z.of_nat extra),
        resolve n (contentSize n - Z.of_nat (openEnd s) - Z.of_nat extra) with
  | Some a, Some b => Some (a, b)
  | _, _ => None
  end.

(** [replaceOuter($from, $to, slice, depth)]. *)
Fixpoint replaceOuter (fuel : nat) (rfrom rto : ResolvedPos) (s : Slice)
  (d : nat) {struct fuel} : option Node :=
  let idx := index rfrom d in
  let n := node rfrom d in
  if (idx =? index rto d)%nat && (d <? depth rfrom - openStart s)%nat then
    match fuel with
    | O => None
    | S fuel' =>
        do inner <- replaceOuter fuel' rfrom rto s (d + 1);
        Some (copy n (replaceChild (contentOf n) idx inner))
    end
  else if fragSize (sContent s) =? 0 then
    do c <- replaceTwoWay (depth rfrom - d) rfrom rto d;
    close n c
  else if (openStart s =? 0)%nat && (openEnd s =? 0)%nat
          && (depth rfrom =? d)%nat && (depth rto =? d)%nat then
    let par := parent rfrom in
    let content := contentOf par in
    close par
      (append (append (cut content 0 (parentOffset rfrom)) (sContent s))
         (cut content (parentOffset rto) (fragSize content)))
  else
    do se <- prepareSliceForReplace s rfrom;
    do c <- replaceThreeWay (depth rfrom - d) rfrom (fst se) (snd se) rto d;
    close n c.

(** [replace($from, $to, slice)]. *)
Definition replace (rfrom rto : ResolvedPos) (s : Slice) : option Node :=
  if (depth rfrom <? openStart s)%nat then None
  else if negb (Z.of_nat (depth rfrom) - Z.of_nat (openStart s)
                =? Z.of_nat (depth rto) - Z.of_nat (openEnd s)) then None
  else replaceOuter (depth rfrom) rfrom rto s 0.

(** [insertInto(content, dist, insert, parent)] of [Slice.insertAt].  The
    recursive call of the host passes no parent, so only the outermost
    fragment can be checked against one.  The function descends into the
    child that strictly contains [dist]. *)
Definition insertHere (content : Fragment) (dist : Z) (ins : Fragment)
  (par : option Node) (idx : nat) : option Fragment :=
  match par with
  | Some p =>
      if canReplace sch p idx idx ins
      then Some (append (append (cut content 0 dist) ins)
                   (cut content dist (fragSize content)))
      else None
  | None => Some (append (append (cut content 0 dist) ins)
                    (cut content dist (fragSize content)))
  end.

Fixpoint insertIntoNode (n : Node) (dist : Z) (ins : Fragment)
  (par : option Node) {struct n} : option Fragment :=
  let content := contentOf n in
  match findIndex content dist with
  | None => None
  | Some (idx, offset) =>
      if offset =? dist then insertHere content dist ins par idx
      else
        match n with
        | Text _ => None
        | Elem _ _ c =>
            withChild None
              (fun child =>
                 if isText child then insertHere content dist ins par idx
                 else
                   do inner <- insertIntoNode child (dist - offset - 1) ins None;
                   Some (replaceChild content idx (copy child inner)))
              c idx
        end
  end.

Definition insertInto (content : Fragment) (dist : Z) (ins : Fragment)
  (par : option Node) : option Fragment :=
  insertIntoNode (Elem "" [] content) dist ins par.

(** [slice.insertAt(pos, fragment)]. *)
Definition insertAt (s : Slice) (p : Z) (frag : Fragment) : option Slice :=
  do content <- insertInto (sContent s) (p + Z.of_nat (openStart s)) frag None;
  Some (mkSlice content (openStart s) (openEnd s)).

End WithSchema.
End Replace.

(* ================================================================== *)
(** * Steps, position maps and transactions
      (prosemirror-transform, prosemirror-state) *)
(* ================================================================== *)

Module Transform.
Import Model Resolve Replace.

(** ** Position maps *)

(** A [StepMap]: triples [(start, oldSize, newSize)]. *)
Definition StepMap := list (Z * Z * Z).

(** The loop of [StepMap.map(pos, assoc)] on a map that is not inverted;
    [diff] is the accumulated shift. *)
Fixpoint mapRanges (ranges : StepMap) (diff : Z) (p assoc : Z) : Z :=
  match ranges with
  | [] => p + diff
  | (start, oldSize, newSize) :: rest =>
      if p <? start then p + diff
      else
        let e := start + oldSize in
        if p <=? e then
          let side :=
            if oldSize =? 0 then assoc
            else if p =? start then -1
            else if p =? e then 1
            else assoc in
          start + diff + (if side <? 0 then 0 else newSize)
        else mapRanges rest (diff + newSize - oldSize) p assoc
  end.

(** [stepMap.map(pos)] with the default association [assoc = 1]. *)
Definition mapPos (m : StepMap) (p : Z) : Z := mapRanges m 0 p 1.

(** [mapping.map(pos)]: through every step map in order. *)
Definition mappingMap (maps : list StepMap) (p : Z) : Z :=
  fold_left (fun q m => mapPos m q) maps p.

(** ** Steps *)

(** The steps the command creates; none of them sets the [structure] flag. *)
Inductive Step : Type :=
| ReplaceStep (from to : Z) (slice : Slice)
| ReplaceAroundStep (from to gapFrom gapTo : Z) (slice : Slice) (insert : Z).

(** [step.getMap()]. *)
Definition getMap (s : Step) : StepMap :=
  match s with
  | ReplaceStep from to sl => [(from, to - from, sliceSize sl)]
  | ReplaceAroundStep from to gapFrom gapTo sl insert =>
      [(from, gapFrom - from, insert);
       (gapTo, to - gapTo, sliceSize sl - insert)]
  end.

Inductive Exn : Type := RangeError | TransformError.

(** The result of applying a step: a new document, a failed step, or an
    exception that [StepResult.fromReplace] does not catch. *)
Inductive StepResult : Type :=
| StepOk (doc : Node)
| StepFail
| StepRaise (e : Exn).

Section WithSchema.
Variable sch : Schema.

(** [StepResult.fromReplace(doc, from, to, slice)]: [doc.replace] with the
    [ReplaceError] turned into a failed step. *)
Definition fromReplace (doc : Node) (from to : Z) (s : Slice) : StepResult :=
  match resolve doc from, resolve doc to with
  | Some rfrom, Some rto =>
      match replace sch rfrom rto s with
      | Some d => StepOk d
      | None => StepFail
      end
  | _, _ => StepRaise RangeError
  end.

(** [step.apply(doc)]. *)
Definition apply (doc : Node) (s : Step) : StepResult :=
  match s with
  | ReplaceStep from to sl => fromReplace doc from to sl
  | ReplaceAroundStep from to gapFrom gapTo sl insert =>
      match slice doc gapFrom gapTo with
      | None => StepRaise RangeError
      | Some gap =>
          if negb (openStart gap =? 0)%nat || negb (openEnd gap =? 0)%nat
          then StepFail
          else
            match insertAt sch sl insert (sContent gap) with
            | None => StepFail
            | Some inserted => fromReplace doc from to inserted
            end
      end
  end.

(** ** Transactions *)

(** The state of a transaction that the command reads and writes: the
    current document, the steps applied so far, and the selection as the
    transaction stores it.  The host maps the stored selection through the
    steps added since only when [tr.selection] is read; the command reads
    it once, before its first step, and writes it with [tr.setSelection] at
    its end. *)
Record Transaction : Type := mkTr {
  doc : Node;
  steps : list Step;
  anchor : Z;
  head : Z
}.

(** [tr.mapping]. *)
Definition mapping (tr : Transaction) : list StepMap := map getMap (steps tr).

(** The outcome of a host operation on a transaction: done, an exception
    (with the state of the transaction when it was raised), or a call into
    the part of the host that is not embedded. *)
Inductive TrResult : Type :=
| TrOk (tr : Transaction)
| TrThrow (e : Exn) (tr : Transaction)
| TrUnmodelled (tr : Transaction).

(** [tr.step(step)]: a failed step raises [TransformError].  The stored
    selection stays as it is: the host maps it when it is next read, which
    no code embedded here does after a step. *)
Definition step (tr : Transaction) (s : Step) : TrResult :=
  match apply (doc tr) s with
  | StepOk d => TrOk (mkTr d (steps tr ++ [s]) (anchor tr) (head tr))
  | StepFail => TrThrow TransformError tr
  | StepRaise e => TrThrow e tr
  end.

(** [fitsTrivially($from, $to, slice)]. *)
Definition fitsTrivially (rfrom rto : ResolvedPos) (s : Slice) : bool :=
  (openStart s =? 0)%nat && (openEnd s =? 0)%nat
  && (start rfrom (depth rfrom) =? start rto (depth rto))
  && canReplace sch (parent rfrom) (index rfrom (depth rfrom))
       (index rto (depth rto)) (sContent s).

(** [tr.replace(from, to, slice)]: [replaceStep] and [tr.step].  Content
    that does not fit trivially goes to the host's [Fitter]. *)
Definition trReplace (tr : Transaction) (from to : Z) (s : Slice) : TrResult :=
  if (from =? to) && (sliceSize s =? 0) then TrOk tr
  else
    match resolve (doc tr) from, resolve (doc tr) to with
    | Some rfrom, Some rto =>
        if fitsTrivially rfrom rto s then step tr (ReplaceStep from to s)
        else TrUnmodelled tr
    | _, _ => TrThrow RangeError tr
    end.

(** [tr.delete(from, to)]. *)
Definition trDelete (tr : Transaction) (from to : Z) : TrResult :=
  trReplace tr from to emptySlice.

(** [coveredDepths($from, $to)]: scans [d = k - 1, ..., 0]. *)
Fixpoint coveredDepthsFrom (rfrom rto : ResolvedPos) (k : nat) : list nat :=
  match k with
  | O => []
  | S d =>
      let st := start rfrom d in
      if (st <? pos rfrom - (Z.of_nat (depth rfrom) - Z.of_nat d))
         || (pos rto + (Z.of_nat (depth rto) - Z.of_nat d) <? end_ rto d)
         || isolating sch (typeOf (node rfrom d))
         || isolating sch (typeOf (node rto d))
      then []
      else
        let rest := coveredDepthsFrom rfrom rto d in
        if (st =? start rto d)
           || ((d =? depth rfrom)%nat && (d =? depth rto)%nat
               && inlineContent sch (typeOf (parent rfrom))
               && inlineContent sch (typeOf (parent rto))
               && negb (d =? 0)%nat
               && (start rto (d - 1) =? st - 1))
        then d :: rest else rest
  end.

Definition coveredDepths (rfrom rto : ResolvedPos) : list nat :=
  coveredDepthsFrom rfrom rto (Nat.min (depth rfrom) (depth rto) + 1).

(** The first loop of [deleteRange], over the covered depths. *)
Fixpoint deleteCovered (rfrom rto : ResolvedPos) (covered : list nat)
  : option (Z * Z) :=
  match covered with
  | [] => None
  | d :: rest =>
      let last := match rest with [] => true | _ => false end in
      if (last && (d =? 0)%nat)
         || validContent sch (typeOf (node rfrom d)) []
      then Some (start rfrom d, end_ rto d)
      else if negb (d =? 0)%nat
              && (last || canReplace sch (node rfrom (d - 1))
                            (index rfrom (d - 1)) (indexAfter rto (d - 1)) [])
      then Some (before rfrom d, after rto d)
      else deleteCovered rfrom rto rest
  end.

(** The second loop of [deleteRange]: [d] runs from [d0] upwards over [k]
    depths. *)
Fixpoint deleteOpenStart (rfrom rto : ResolvedPos) (from to : Z)
  (d0 k : nat) : option (Z * Z) :=
  match k with
  | O => None
  | S k' =>
      if (from - start rfrom d0 =? Z.of_nat (depth rfrom) - Z.of_nat d0)
         && (end_ rfrom d0 <? to)
         && negb (end_ rto d0 - to =? Z.of_nat (depth rto) - Z.of_nat d0)
      then Some (before rfrom d0, to)
      else deleteOpenStart rfrom rto from to (S d0) k'
  end.

(** [tr.deleteRange(from, to)]. *)
Definition deleteRange (tr : Transaction) (from to : Z) : TrResult :=
  match resolve (doc tr) from, resolve (doc tr) to with
  | Some rfrom, Some rto =>
      match deleteCovered rfrom rto (coveredDepths rfrom rto) with
      | Some (a, b) => trDelete tr a b
      | None =>
          match deleteOpenStart rfrom rto from to 1
                  (Nat.min (depth rfrom) (depth rto)) with
          | Some (a, b) => trDelete tr a b
          | None => trDelete tr from to
          end
      end
  | _, _ => TrThrow RangeError tr
  end.

(** [tr.replaceRange(from, to, slice)]. *)
Definition replaceRange (tr : Transaction) (from to : Z) (s : Slice) : TrResult :=
  if sliceSize s =? 0 then deleteRange tr from to
  else
    match resolve (doc tr) from, resolve (doc tr) to with
    | Some rfrom, Some rto =>
        if fitsTrivially rfrom rto s then step tr (ReplaceStep from to s)
        else TrUnmodelled tr
    | _, _ => TrThrow RangeError tr
    end.

(** [tr.replaceRangeWith(from, to, node)].  For a block node and
    [from = to] inside non-empty content the host first looks for an
    insertion point; that search is not embedded. *)
Definition replaceRangeWith (tr : Transaction) (from to : Z) (n : Node) : TrResult :=
  if negb (isText n) && (from =? to) then
    match resolve (doc tr) from with
    | None => TrThrow RangeError tr
    | Some r =>
        if contentSize (parent r) =? 0
        then replaceRange tr from to (mkSlice [n] 0 0)
        else TrUnmodelled tr
    end
  else replaceRange tr from to (mkSlice [n] 0 0).

(** [tr.setSelection(TextSelection.create(tr.doc, anchor, head))]: both
    positions are resolved in the current document. *)
Definition setSelection (tr : Transaction) (a h : Z) : TrResult :=
  match resolve (doc tr) a, resolve (doc tr) h with
  | Some _, Some _ => TrOk (mkTr (doc tr) (steps tr) a h)
  | _, _ => TrThrow RangeError tr
  end.

End WithSchema.
End Transform.

(* ================================================================== *)
(** * The command: list-command-indent.ts *)
(* ================================================================== *)

Module Indent.
Import Model Resolve Replace Transform.

(** The result of a computation that may raise. *)
Inductive res (A : Type) : Type :=
| Ok (a : A)
| Raise (e : Exn).
Arguments Ok {A} a.
Arguments Raise {A} e.

Section WithSchema.
Variable sch : Schema.

(** Modelled from the spec: [isListNode] of list-utils.ts, which is not
    under src/.  "List node: container node whose children are list
    items, tagged by list kind (ordered/unordered/task)"; the schema says
    which node types are list kinds. *)
Definition isListNode (n : Node) : bool := isList sch (typeOf n).

(** Modelled from the spec: [isListItemNode] of list-utils.ts, which is
    not under src/.  "List-item node: block-content container that may
    optionally own one nested list node"; the schema says which node types
    are list items. *)
Definition isListItemNode (n : Node) : bool := isListItem sch (typeOf n).

(** [selection.$from] and [selection.$to] of the transaction. *)
Definition selFrom (tr : Transaction) : Z := Z.min (anchor tr) (head tr).
Definition selTo (tr : Transaction) : Z := Z.max (anchor tr) (head tr).

(** Modelled from the spec: [calculateItemRange] of list-commands.ts, which
    is not under src/.  "Given a selection (anchor, head) over the current
    document, determine the deepest list node enclosing both endpoints and
    the contiguous span of its item children covered by the selection";
    "returns 'no range' (failure) if the selection is not inside any list
    item".  This is the host's [$from.blockRange($to, isListNode)]. *)
Definition calculateItemRange (rfrom rto : ResolvedPos) : option NodeRange :=
  blockRange sch rfrom rto isListNode.

(** What [findPreviousItem] returns when it finds the item.
    [previousIsSelected] records whether [previousList] is the very object
    [selectedList] (the command later compares them with [===]). *)
Record PreviousItem : Type := mkPrevious {
  previousItem : Node;
  previousList : Node;
  previousItemStart : Z;
  previousListStart : Z;
  previousIsSelected : bool
}.

(** [node.child(i)]: [RangeError] when the index is out of range. *)
Definition child (n : Node) (i : nat) : res Node :=
  match nth_error (contentOf n) i with
  | Some c => Ok c
  | None => Raise RangeError
  end.

(** [for (let i = 0; i < k; i++) acc += node.child(i).nodeSize]. *)
Fixpoint addSizes (n : Node) (k : nat) (acc : Z) : res Z :=
  match k with
  | O => Ok acc
  | S k' =>
      match addSizes n k' acc with
      | Ok a =>
          match child n k' with
          | Ok c => Ok (a + nodeSize c)
          | Raise e => Raise e
          end
      | Raise e => Raise e
      end
  end.

(** [findPreviousItem(selectedList, $from, range)]: [Ok None] is the
    result [false]. *)
Definition findPreviousItem (selectedList : Node) (rfrom : ResolvedPos)
  (range : NodeRange) : res (option PreviousItem) :=
  let doc := node rfrom 0 in
  if (1 <=? startIndex range)%nat then
    match child selectedList (startIndex range - 1) with
    | Raise e => Raise e
    | Ok prevItem =>
        match resolve doc (rStart range) with
        | None => Raise RangeError
        | Some rs =>
            let prevListStart := start rs (rDepth range) in
            match addSizes selectedList (startIndex range - 1) (prevListStart + 1) with
            | Raise e => Raise e
            | Ok prevItemStart =>
                Ok (Some (mkPrevious prevItem selectedList prevItemStart
                            prevListStart true))
            end
        end
    end
  else
    let d1 := resolveDepth rfrom (Z.of_nat (rDepth range) - 1) in
    let listIndex := index rfrom d1 in
    if (1 <=? listIndex)%nat then
      let listParent := node rfrom d1 in
      let listParentStart := start rfrom d1 in
      match child listParent (listIndex - 1) with
      | Raise e => Raise e
      | Ok prevList =>
          if negb (isListNode prevList) then Ok None
          else
            match addSizes listParent (listIndex - 1) (listParentStart + 1) with
            | Raise e => Raise e
            | Ok prevListStart =>
                match nth_error (contentOf prevList) (childCount prevList - 1) with
                | None => Raise RangeError
                | Some prevItem =>
                    let prevItemStart :=
                      prevListStart + nodeSize prevList - nodeSize prevItem - 1 in
                    if negb (isListItemNode prevItem) then Ok None
                    else Ok (Some (mkPrevious prevItem prevList prevItemStart
                                     prevListStart false))
                end
            end
      end
    else Ok None.

(** [sliceSelectedItems(doc, $to, range)]. *)
Definition sliceSelectedItems (doc : Node) (rto : ResolvedPos)
  (range : NodeRange) : res (Slice * option Slice) :=
  let st := rStart range in
  let mid := if (rDepth range + 2 <=? depth rto)%nat
             then end_ rto (rDepth range + 2)
             else rEnd range - 1 in
  let en := rEnd range in
  if en <=? mid + 1 then
    match slice doc st en with
    | Some sel => Ok (sel, None)
    | None => Raise RangeError
    end
  else
    match slice doc st mid, slice doc (mid + 1) (en - 1) with
    | Some sel, Some unsel => Ok (sel, Some unsel)
    | _, _ => Raise RangeError
    end.

(** How a call of the command ends: it returns a flag, it raises (the
    transaction is a mutable object, so the state it is left in is part of
    the outcome), or it calls into the part of the host that is not
    embedded. *)
Inductive Outcome : Type :=
| Returned (b : bool) (tr : Transaction)
| Threw (e : Exn) (tr : Transaction)
| Unmodelled (tr : Transaction).

Definition andThen (r : TrResult) (k : Transaction -> Outcome) : Outcome :=
  match r with
  | TrOk tr => k tr
  | TrThrow e tr => Threw e tr
  | TrUnmodelled tr => Unmodelled tr
  end.

(** The content of the rebuilt previous item (second branch). *)
Definition newPreviousItemContent (prevItem selectedList : Node)
  (sel : Slice) (unsel : option Slice) : Fragment :=
  append (append (contentOf prevItem) [copy selectedList (sContent sel)])
    (match unsel with Some u => sContent u | None => [] end).

(** The step of the first branch. *)
Definition indentStep (selectedList : Node) (range : NodeRange) : Step :=
  ReplaceAroundStep (rStart range - 1) (rEnd range - 1)
    (rStart range) (rEnd range)
    (mkSlice [copy selectedList []] 0 0) 1.

(** [indentList(tr)]. *)
Definition indentList (tr : Transaction) : Outcome :=
  match resolve (doc tr) (selFrom tr), resolve (doc tr) (selTo tr) with
  | Some rfrom, Some rto =>
    match calculateItemRange rfrom rto with
    | None => Returned false tr
    | Some range =>
      match resolve (doc tr) (rStart range) with
      | None => Threw RangeError tr
      | Some rs =>
        let selectedList := parent rs in
        if negb (isListNode selectedList) then Returned false tr
        else
          match findPreviousItem selectedList rfrom range with
          | Raise e => Threw e tr
          | Ok None => Returned false tr
          | Ok (Some found) =>
            let finish (tr1 : Transaction) : Outcome :=
              andThen
                (if previousIsSelected found
                 then setSelection tr1 (pos rfrom) (pos rto)
                 else setSelection tr1 (pos rfrom - 2) (pos rto - 2))
                (fun tr2 => Returned true tr2) in
            if String.eqb (typeOf (previousList found)) (typeOf selectedList) then
              andThen (step sch tr (indentStep selectedList range)) finish
            else
              match sliceSelectedItems (doc tr) rto range with
              | Raise e => Threw e tr
              | Ok (sel, unsel) =>
                let content :=
                  newPreviousItemContent (previousItem found) selectedList sel unsel in
                andThen (deleteRange sch tr (rStart range) (rEnd range))
                  (fun tr1 =>
                     let previousItemEnd :=
                       previousItemStart found + nodeSize (previousItem found) - 2 in
                     let newPreviousItem := copy (previousItem found) content in
                     if negb (check sch newPreviousItem) then Threw RangeError tr1
                     else
                       andThen
                         (replaceRangeWith sch tr1 (previousItemStart found - 1)
                            (previousItemEnd + 1) newPreviousItem)
                         finish)
              end
          end
      end
    end
  | _, _ => Threw RangeError tr
  end.

End WithSchema.
End Indent.

(* ================================================================== *)
(** * The schema of the list editor and the documents of the tests *)
(* ================================================================== *)

Module Setup.
Import Model Resolve Replace Transform Indent.

Definition isBlock (t : NodeType) : bool :=
  String.eqb t "paragraph" || String.eqb t "bulletList"
  || String.eqb t "orderedList" || String.eqb t "taskList".

Definition allOf (p : NodeType -> bool) (l : list NodeType) : bool := forallb p l.

Definition nonEmpty (A : Type) (l : list A) : bool :=
  match l with [] => false | _ => true end.

(** The first node types that the content expression of a type admits. *)
Definition firstTypes (t : NodeType) : list NodeType :=
  if String.eqb t "doc" then ["paragraph"; "bulletList"; "orderedList"; "taskList"]
  else if String.eqb t "paragraph" then ["text"]
  else if String.eqb t "bulletList" || String.eqb t "orderedList" then ["listItem"]
  else if String.eqb t "taskList" then ["taskListItem"]
  else if String.eqb t "listItem" || String.eqb t "taskListItem" then ["paragraph"]
  else [].

Definition compatible (a b : NodeType) : bool :=
  String.eqb a b
  || existsb (fun x => existsb (String.eqb x) (firstTypes b)) (firstTypes a).

(** Modelled from the spec: the schema that [setupListEditor]
    (__tests__/list-setup.ts) builds from the list extensions, whose node
    specs are not under src/.  "List node: a node whose children are
    list-item nodes"; "ordered vs. unordered vs. task list are distinct
    types"; "List-item node: a node whose content is an ordered sequence of
    arbitrary block content, optionally containing one nested list node as an
    additional block".  The content expressions are [block+] for the
    document, [inline*] for a paragraph, [listItem+] for bullet and ordered
    lists, [taskListItem+] for task lists and [paragraph block*] for both
    kinds of item. *)
Definition itemContent (l : list NodeType) : bool :=
  match l with
  | [] => false
  | t :: rest => String.eqb t "paragraph" && allOf isBlock rest
  end.

Definition listValid (t : NodeType) (l : list NodeType) : bool :=
  if String.eqb t "doc" then nonEmpty l && allOf isBlock l
  else if String.eqb t "paragraph" then allOf (String.eqb "text") l
  else if String.eqb t "bulletList" || String.eqb t "orderedList"
       then nonEmpty l && allOf (String.eqb "listItem") l
  else if String.eqb t "taskList"
       then nonEmpty l && allOf (String.eqb "taskListItem") l
  else if String.eqb t "listItem" || String.eqb t "taskListItem"
       then itemContent l
  else false.

Definition listSchema : Schema :=
  mkSchema listValid compatible
    (fun t => String.eqb t "paragraph")
    (fun _ => false)
    (fun t => String.eqb t "bulletList" || String.eqb t "orderedList"
              || String.eqb t "taskList")
    (fun t => String.eqb t "listItem" || String.eqb t "taskListItem").

(** A schema in which items hold paragraphs only ([paragraph+]), so that no
    list can be nested in an item; everything else is as in [listSchema]. *)
Definition flatValid (t : NodeType) (l : list NodeType) : bool :=
  if String.eqb t "listItem" || String.eqb t "taskListItem"
  then nonEmpty l && allOf (String.eqb "paragraph") l
  else listValid t l.

Definition flatSchema : Schema :=
  mkSchema flatValid compatible
    (inlineContent listSchema) (isolating listSchema)
    (isList listSchema) (isListItem listSchema).

(** The builders of the tests. *)
Definition docN (c : Fragment) : Node := Elem "doc" [] c.
Definition p (s : string) : Node := Elem "paragraph" [] [Text s].
Definition ul (c : Fragment) : Node := Elem "bulletList" [] c.
Definition ol (c : Fragment) : Node := Elem "orderedList" [("order", "1")] c.
Definition taskList (c : Fragment) : Node := Elem "taskList" [] c.
Definition li (c : Fragment) : Node := Elem "listItem" [] c.
Definition checked (c : Fragment) : Node := Elem "taskListItem" [("checked", "true")] c.
Definition unchecked (c : Fragment) : Node := Elem "taskListItem" [("checked", "false")] c.

(** The four list kinds of [describe.each]: a list builder and its item
    builder. *)
Inductive ListKind : Type :=
| OrderedList | UnorderedList | TaskListChecked | TaskListUnchecked.

Definition listOf (k : ListKind) : Fragment -> Node :=
  match k with
  | OrderedList => ol
  | UnorderedList => ul
  | TaskListChecked | TaskListUnchecked => taskList
  end.

Definition itemOf (k : ListKind) : Fragment -> Node :=
  match k with
  | OrderedList | UnorderedList => li
  | TaskListChecked => checked
  | TaskListUnchecked => unchecked
  end.

(** A fresh transaction on [d] with the selection [(a, h)]. *)
Definition startTr (d : Node) (a h : Z) : Transaction := mkTr d [] a h.

(** [doc(type(item(p('item 1')), item(p('item 2')), item(p('item 3'))))];
    the cursor of the tests is at position 13, the start of "item 2". *)
Definition threeItems (k : ListKind) : Node :=
  docN [listOf k [itemOf k [p "item 1"]; itemOf k [p "item 2"]; itemOf k [p "item 3"]]].

(** [doc(type(item(p('item 1'), type(item(p('item 2')))), item(p('item 3'))))]. *)
Definition secondNested (k : ListKind) : Node :=
  docN [listOf k [itemOf k [p "item 1"; listOf k [itemOf k [p "item 2"]]];
                  itemOf k [p "item 3"]]].

End Setup.

(* ================================================================== *)
(** * The inverse command *)
(* ================================================================== *)

Module Dedent.
Import Model Resolve Replace Transform Indent.

Section WithSchema.
Variable sch : Schema.

(** Modelled from the spec: [dedentList] of list-command-dedent.ts, which
    is not under src/ (only its test is).  "Lift the selected item range
    out of its list and splice it as sibling(s) immediately after the item
    that currently contains that list, inside the grandparent list."
    Preconditions: "the selected range's list must itself be nested inside
    a list-item that belongs to another list (nesting depth >= 2)".
    Algorithm: "split the parent item's content into the portion before
    the nested list, the nested list itself, and the portion after; remove
    the selected item range from the nested list (if the nested list
    becomes empty, remove the nested list node entirely from the parent
    item); insert the selected item range as new siblings of the parent
    item, immediately following it, at the grandparent list's level"; the
    content after the nested list stays with the parent item when some
    items stay nested and migrates to the end of the first promoted item
    otherwise.  "Check candidate structure validity first, abort with
    false if invalid."  The change is made by one replace step on the
    parent item; the selection moves with the promoted items. *)
Definition dedentList (tr : Transaction) : Outcome :=
  match resolve (doc tr) (selFrom tr), resolve (doc tr) (selTo tr) with
  | Some rfrom, Some rto =>
    match calculateItemRange sch rfrom rto with
    | None => Returned false tr
    | Some range =>
      let d := rDepth range in
      if (d <? 2)%nat then Returned false tr
      else
        let nested := node rfrom d in
        let parentItem := node rfrom (d - 1) in
        let grand := node rfrom (d - 2) in
        if negb (isListItemNode sch parentItem) || negb (isListNode sch grand)
        then Returned false tr
        else
          let items := contentOf nested in
          let stay := firstn (startIndex range) items ++ skipn (endIndex range) items in
          let promoted :=
            firstn (endIndex range - startIndex range) (skipn (startIndex range) items) in
          let pidx := index rfrom (d - 1) in
          let gidx := index rfrom (d - 2) in
          let before_ := firstn pidx (contentOf parentItem) in
          let trailing := skipn (S pidx) (contentOf parentItem) in
          let parentItem' :=
            match stay with
            | [] => copy parentItem before_
            | _ => copy parentItem (before_ ++ copy nested stay :: trailing)
            end in
          let promoted' :=
            match stay, promoted with
            | [], first :: rest => copy first (contentOf first ++ trailing) :: rest
            | _, _ => promoted
            end in
          let replacement := parentItem' :: promoted' in
          if negb (forallb (check sch) replacement)
             || negb (canReplace sch grand gidx (S gidx) replacement)
          then Returned false tr
          else
            let from := before rfrom (d - 1) in
            let to := after rfrom (d - 1) in
            andThen (step sch tr (ReplaceStep from to (mkSlice replacement 0 0)))
              (fun tr1 =>
                 let shift := from + nodeSize parentItem' - rStart range in
                 andThen (setSelection tr1 (anchor tr + shift) (head tr + shift))
                   (fun tr2 => Returned true tr2))
    end
  | _, _ => Threw RangeError tr
  end.

End WithSchema.
End Dedent.

(* ================================================================== *)
(** * Documents seen from a node: contexts *)
(* ================================================================== *)

(** The positional functions of the host address a node by an integer
    offset.  To state what the command does to the tree, a document is also
    decomposed into a node and the context around it. *)
Module Context.
Import Model Resolve.

(** One level of context: the element that is open at that level, with the
    siblings to the left and to the right of the child on the path. *)
Record Frame : Type := mkFrame {
  fType : NodeType;
  fAttrs : Attrs;
  fLeft : Fragment;
  fRight : Fragment
}.

Definition fill (f : Frame) (n : Node) : Node :=
  Elem (fType f) (fAttrs f) (fLeft f ++ n :: fRight f).

(** [plug ctx n]: the document with [n] in the hole of [ctx] (outermost
    frame first). *)
Fixpoint plug (ctx : list Frame) (n : Node) : Node :=
  match ctx with
  | [] => n
  | f :: ctx' => fill f (plug ctx' n)
  end.

(** The position at which the content of the node in the hole starts, when
    the content of the outermost node starts at [st]. *)
Fixpoint ctxStart (st : Z) (ctx : list Frame) : Z :=
  match ctx with
  | [] => st
  | f :: ctx' => ctxStart (st + fragSize (fLeft f) + 1) ctx'
  end.

(** The path entries of the levels of the context. *)
Fixpoint ctxPath (st : Z) (ctx : list Frame) (n : Node) : list PathEntry :=
  match ctx with
  | [] => []
  | f :: ctx' =>
      mkEntry (plug ctx n) (List.length (fLeft f)) (st + fragSize (fLeft f))
      :: ctxPath (st + fragSize (fLeft f) + 1) ctx' n
  end.

(** The host keeps every fragment normalised: no text node is empty and no
    two text nodes of the same markup are adjacent. *)
Fixpoint noAdjacentText (l : Fragment) : bool :=
  match l with
  | [] => true
  | x :: l' =>
      negb (isText x && match l' with y :: _ => isText y | [] => false end)
      && noAdjacentText l'
  end.

Fixpoint normal (n : Node) : bool :=
  match n with
  | Text s => negb (String.eqb s "")
  | Elem _ _ c =>
      noAdjacentText c &&
      (fix all (l : Fragment) : bool :=
         match l with
         | [] => true
         | x :: l' => normal x && all l'
         end) c
  end.

Definition normals (l : Fragment) : bool := forallb normal l.

(** The children of every list node are elements of a list-item type. *)
Definition isItem (sch : Schema) (x : Node) : bool :=
  negb (isText x) && isListItem sch (typeOf x).

Fixpoint itemsOnly (sch : Schema) (n : Node) : bool :=
  match n with
  | Text _ => true
  | Elem t _ c =>
      (negb (isList sch t) || forallb (isItem sch) c) &&
      (fix all (l : Fragment) : bool :=
         match l with
         | [] => true
         | x :: l' => itemsOnly sch x && all l'
         end) c
  end.

(** The documents the command is given: the top node is an element that is
    not itself a list, fragments are normalised, and the children of lists
    are list items. *)
Definition wellFormed (sch : Schema) (d : Node) : bool :=
  negb (isText d) && negb (isList sch (typeOf d)) && normal d && itemsOnly sch d.

(** Every list node of the tree has at least one child of a list-item
    type. *)
Fixpoint noEmptyList (sch : Schema) (n : Node) : bool :=
  match n with
  | Text _ => true
  | Elem t _ c =>
      (negb (isList sch t) || existsb (isListItem sch) (childTypes c)) &&
      (fix all (l : Fragment) : bool :=
         match l with
         | [] => true
         | x :: l' => noEmptyList sch x && all l'
         end) c
  end.

(** ** The token stream of a document

    A position is an offset into the flattened token stream: entering an
    element is one token, leaving it is one token, and every character of a
    text node is one token. *)
Inductive Token : Type :=
| TOpen (t : NodeType) (a : Attrs)
| TClose
| TChar (c : ascii).

Fixpoint tokens (n : Node) : list Token :=
  match n with
  | Text s => map TChar (list_ascii_of_string s)
  | Elem t a c =>
      TOpen t a ::
      (fix go (l : Fragment) : list Token :=
         match l with
         | [] => []
         | x :: l' => tokens x ++ go l'
         end) c ++ [TClose]
  end.

Fixpoint fragTokens (l : Fragment) : list Token :=
  match l with
  | [] => []
  | x :: l' => tokens x ++ fragTokens l'
  end.

(** The tokens that positions of the document count: those of its content. *)
Definition docTokens (d : Node) : list Token := fragTokens (contentOf d).

End Context.

(* ================================================================== *)
(** * Shapes of documents and runs, used to state the theorems *)
(* ================================================================== *)

Module Shapes.
Import Model Resolve Replace Transform Indent Context.

(** Every node of the fragment has positive size. *)
Definition positive (l : Fragment) : Prop := Forall (fun x => 0 < nodeSize x) l.

Definition ctxPositive (ctx : list Frame) : Prop :=
  Forall (fun f => positive (fLeft f)) ctx.

(** No node of the fragment is a text node. *)
Definition nonText (l : Fragment) : Prop := Forall (fun x => isText x = false) l.

(** A frame without siblings. *)
Definition bare (f : Frame) : Prop := fLeft f = [] /\ fRight f = [].

(** What [calculateItemRange] found, read off the tree: the document is a
    list node [L] in a context, both ends of the selection lie in the
    content of [L], and the range is the run of children of [L] from
    [startIndex] up to [endIndex]. *)
Record RangeShape (sch : Schema) (doc : Node) (from to : Z)
  (rfrom rto : ResolvedPos) (range : NodeRange)
  (ctx : list Frame) (lt : NodeType) (la : Attrs) (cs : Fragment) : Prop := {
  rs_doc : doc = plug ctx (Elem lt la cs);
  rs_depth : List.length ctx = rDepth range;
  rs_list : isList sch lt = true;
  rs_from : rFrom range = rfrom;
  rs_to : rTo range = rto;
  rs_pfrom : rfrom = mkResolved from
      (ctxPath 0 ctx (Elem lt la cs)
       ++ resolveLoop (Elem lt la cs) (ctxStart 0 ctx) (from - ctxStart 0 ctx));
  rs_pto : rto = mkResolved to
      (ctxPath 0 ctx (Elem lt la cs)
       ++ resolveLoop (Elem lt la cs) (ctxStart 0 ctx) (to - ctxStart 0 ctx));
  rs_lo : ctxStart 0 ctx <= from;
  rs_hi : to <= ctxStart 0 ctx + fragSize cs;
  rs_idx : (startIndex range < endIndex range <= List.length cs)%nat;
  rs_start : rStart range = ctxStart 0 ctx + fragSize (firstn (startIndex range) cs);
  rs_end : rEnd range = ctxStart 0 ctx + fragSize (firstn (endIndex range) cs);
  rs_from_in : rStart range <= from;
  rs_to_in : to <= rEnd range;
  rs_ctx : ctxPositive ctx;
  rs_normal : normal (Elem lt la cs) = true;
  rs_items : nonText cs
}.

(** The checks that the replace of the first branch makes when it joins
    the previous item with its rebuilt copy and with the last selected
    item. *)
Definition joinChecks (sch : Schema) (pt st : NodeType) : bool :=
  compatibleContent sch pt pt && compatibleContent sch st pt.

(** The document and the selection of a run of the first branch: the list
    [L] in its context, the previous item, the selected items (the last one
    is named), and the items after them. *)
Record SameListShape (sch : Schema) (tr : Transaction)
  (rfrom rto : ResolvedPos) (range : NodeRange)
  (ctx : list Frame) (lt : NodeType) (la : Attrs)
  (pre : Fragment) (pt : NodeType) (pa : Attrs) (pc : Fragment)
  (sel0 : Fragment) (st : NodeType) (sa : Attrs) (sc : Fragment)
  (post : Fragment) : Prop := {
  sl_doc : doc tr = plug ctx (Elem lt la
             (pre ++ Elem pt pa pc :: (sel0 ++ [Elem st sa sc]) ++ post));
  sl_list : isList sch lt = true;
  sl_depth : List.length ctx = rDepth range;
  sl_pre : List.length pre = (startIndex range - 1)%nat;
  sl_sel : List.length (sel0 ++ [Elem st sa sc])
           = (endIndex range - startIndex range)%nat;
  sl_ctx : ctxPositive ctx;
  sl_normal : normal (Elem lt la
                (pre ++ Elem pt pa pc :: (sel0 ++ [Elem st sa sc]) ++ post)) = true;
  sl_items : nonText (pre ++ Elem pt pa pc :: (sel0 ++ [Elem st sa sc]) ++ post);
  sl_start : rStart range
             = ctxStart 0 ctx + fragSize pre + nodeSize (Elem pt pa pc);
  sl_end : rEnd range
           = ctxStart 0 ctx + fragSize pre + nodeSize (Elem pt pa pc)
             + fragSize (sel0 ++ [Elem st sa sc]);
  sl_from : rStart range <= selFrom tr;
  sl_to : selTo tr <= rEnd range;
  sl_root : node rfrom 0 = doc tr;
  sl_range : RangeShape sch (doc tr) (selFrom tr) (selTo tr) rfrom rto range
               ctx lt la (pre ++ Elem pt pa pc :: (sel0 ++ [Elem st sa sc]) ++ post)
}.

(** A level of a path, moved by [k] positions. *)
Definition shiftEntry (k : Z) (e : PathEntry) : PathEntry :=
  mkEntry (peNode e) (peIndex e) (peOffset e + k).

End Shapes.

(* ================================================================== *)
(** * Notions used in the statements of the properties *)
(* ================================================================== *)

Module Statements.
Import Model Resolve Replace Transform Indent Dedent Setup Context Shapes.

(** The steps that a call added to the transaction. *)
Definition emitted (tr tr' : Transaction) : list Step :=
  skipn (List.length (steps tr)) (steps tr').

(** What [indentList] has in hand once [findPreviousItem] has found the
    previous item: the resolved ends of the selection, the item range, the
    selected list and the result of [findPreviousItem]. *)
Record Located : Type := mkLocated {
  lFrom : ResolvedPos;
  lTo : ResolvedPos;
  lRange : NodeRange;
  lList : Node;
  lFound : PreviousItem
}.

Definition located (sch : Schema) (tr : Transaction) : option Located :=
  match resolve (doc tr) (selFrom tr), resolve (doc tr) (selTo tr) with
  | Some rfrom, Some rto =>
      match calculateItemRange sch rfrom rto with
      | Some range =>
          match resolve (doc tr) (rStart range) with
          | Some rs =>
              if isListNode sch (parent rs) then
                match findPreviousItem sch (parent rs) rfrom range with
                | Ok (Some found) => Some (mkLocated rfrom rto range (parent rs) found)
                | _ => None
                end
              else None
          | None => None
          end
      | None => None
      end
  | _, _ => None
  end.

(** The test [previousList.type === selectedList.type] that selects the
    branch. *)
Definition sameType (l : Located) : bool :=
  String.eqb (typeOf (previousList (lFound l))) (typeOf (lList l)).

(** The previous item that the second branch builds
    ([newPreviousItem]). *)
Definition rebuiltPreviousItem (sch : Schema) (tr : Transaction) : option Node :=
  match located sch tr with
  | Some l =>
      if sameType l then None
      else
        match sliceSelectedItems (doc tr) (lTo l) (lRange l) with
        | Ok (sel, unsel) =>
            Some (copy (previousItem (lFound l))
                    (newPreviousItemContent (previousItem (lFound l)) (lList l) sel unsel))
        | Raise _ => None
        end
  | None => None
  end.

(** The range starts at the first item of its list, and the list has no
    list in front of it in its parent. *)
Definition noPreviousSibling (sch : Schema) (rfrom : ResolvedPos)
  (range : NodeRange) : Prop :=
  startIndex range = 0%nat /\
  let d1 := resolveDepth rfrom (Z.of_nat (rDepth range) - 1) in
  (index rfrom d1 = 0%nat \/
   exists pl, nth_error (contentOf (node rfrom d1)) (index rfrom d1 - 1) = Some pl
              /\ isListNode sch pl = false).

(** Where a position lies: the item around it (two levels up), the node it
    is directly in, and the offset into that node. *)
Definition cursorAt (d : Node) (p : Z) : option (Node * Node * Z) :=
  option_map (fun r => (node r (depth r - 1), parent r, parentOffset r))
    (resolve d p).

(** The content expression of every list type asks for at least one
    list item. *)
Definition listsNeedItems (sch : Schema) : Prop :=
  forall t l, isList sch t = true -> validContent sch t l = true ->
  existsb (isListItem sch) l = true.

(** The content expression of a list type accepts every non-empty run of a
    sequence it accepts (as [item+] does). *)
Definition runsStayValid (sch : Schema) : Prop :=
  forall t l1 l2 l3,
    isList sch t = true -> validContent sch t (l1 ++ l2 ++ l3) = true ->
    l2 <> [] -> validContent sch t l2 = true.

(** A position map keeps the order of positions. *)
Definition monotone (f : Z -> Z) : Prop := forall p1 p2, p1 < p2 -> f p1 <= f p2.

(** ** The documents of the counterexamples *)

(** The previous item already holds a nested list:
    [doc(ul(li(p('A'), ul(li(p('X')))), li(p('B'))))], cursor in "B" (16). *)
Definition existingNested : Node :=
  docN [ul [li [p "A"; ul [li [p "X"]]]; li [p "B"]]].

(** The moved item spliced into the tail of the existing nested list. *)
Definition splicedIntoExisting : Node :=
  docN [ul [li [p "A"; ul [li [p "X"]; li [p "B"]]]]].

(** What the command builds instead: a second nested list. *)
Definition secondNestedList : Node :=
  docN [ul [li [p "A"; ul [li [p "X"]]; ul [li [p "B"]]]]].

(** Two adjacent lists of the same type:
    [doc(ul(li(p('A'))), ul(li(p('B'))))], cursor in "B" (10). *)
Definition adjacentSameType : Node := docN [ul [li [p "A"]]; ul [li [p "B"]]].

(** Two adjacent lists of different types:
    [doc(ul(li(p('A'))), ol(li(p('B'))))], cursor in "B" (10). *)
Definition adjacentCrossType : Node := docN [ul [li [p "A"]]; ol [li [p "B"]]].

(** The cross-type indent of [adjacentCrossType], and what the dedent of
    the nested item then gives. *)
Definition crossTypeIndented : Node := docN [ul [li [p "A"; ol [li [p "B"]]]]].
Definition crossTypeDedented : Node := docN [ul [li [p "A"]; li [p "B"]]].

(** The items of the range. *)
Definition selectedItems (l : Located) : Fragment :=
  firstn (endIndex (lRange l) - startIndex (lRange l))
    (skipn (startIndex (lRange l)) (contentOf (lList l))).

(** An item whose last child is a list of the given type, with a run of
    items added at the tail of that list. *)
Definition spliceIntoTail (sch : Schema) (item : Node) (lt : NodeType)
  (items : Fragment) : option Node :=
  match rev (contentOf item) with
  | Elem t a c :: before =>
      if isList sch t && String.eqb t lt
      then Some (copy item (rev before ++ [Elem t a (c ++ items)]))
      else None
  | _ => None
  end.

(** The node that starts at a position. *)
Definition nodeAt (d : Node) (p : Z) : option Node :=
  match resolve d p with
  | Some r => nodeAfter r
  | None => None
  end.

(** ** The claims of the specification that the code does not meet, as they
    are stated *)

(** "For every document and selection on which the indent transform
    succeeds, applying the dedent transform to the same (now-nested) item
    range restores the original sibling structure and the original item
    content." *)
Definition roundTripClaim (sch : Schema) (tr : Transaction) : Prop :=
  forall tr1, indentList sch tr = Returned true tr1 ->
  exists tr2, dedentList sch tr1 = Returned true tr2 /\ doc tr2 = doc tr.

(** "Whenever the previous item's enclosing list and the selected range's
    list share the same list type, the indent transform splices the selected
    item range, as a run of items, into the tail of that existing nested
    list": where the previous item ends with a nested list of that type,
    the item found at its place after the run is the previous item with the
    selected items at the tail of that list. *)
Definition spliceClaim (sch : Schema) (tr : Transaction) : Prop :=
  forall l tr' spliced,
    located sch tr = Some l -> sameType l = true ->
    spliceIntoTail sch (previousItem (lFound l)) (typeOf (lList l)) (selectedItems l)
    = Some spliced ->
    indentList sch tr = Returned true tr' ->
    nodeAt (doc tr') (previousItemStart (lFound l) - 1) = Some spliced.

(** "When a constructed replacement node would violate the content model,
    indentList detects this before mutating the live transaction and aborts
    by returning false, with zero steps applied to the transaction." *)
Definition abortClaim (sch : Schema) (tr : Transaction) : Prop :=
  forall n, rebuiltPreviousItem sch tr = Some n -> check sch n = false ->
  indentList sch tr = Returned false tr.

(** "If previous item and selected list were the same list (Case A kept
    structural continuity), keep the anchor/head as directly mapped
    positions; if the tree was reconstructed (Case B), shift positions by
    the fixed offset introduced by the extra wrapping boundary (two
    structural tokens)": the directly mapped positions are the anchor and
    the head of the selection, mapped through the steps of the run. *)
Definition selectionClaim (sch : Schema) (tr : Transaction) : Prop :=
  forall tr' l,
    indentList sch tr = Returned true tr' -> located sch tr = Some l ->
    if previousIsSelected (lFound l)
    then anchor tr' = mappingMap (map getMap (emitted tr tr')) (anchor tr)
         /\ head tr' = mappingMap (map getMap (emitted tr tr')) (head tr)
    else anchor tr' = anchor tr - 2 /\ head tr' = head tr - 2.

End Statements.

(* ================================================================== *)
(** * Runs of the command, read off the tree *)
(* ================================================================== *)

Module RunShapes.
Import Model Resolve Replace Transform Indent Dedent Setup Context Shapes Statements.

(** A [ReplaceStep] that inserts a slice of non-negative size. *)
Definition plainStep (s : Step) : Prop :=
  match s with
  | ReplaceStep _ _ sl => 0 <= sliceSize sl
  | ReplaceAroundStep _ _ _ _ _ _ => False
  end.

(** A position map that keeps the order of positions that may coincide. *)
Definition weakly (f : Z -> Z) : Prop := forall p1 p2, p1 <= p2 -> f p1 <= f p2.

(** The second transaction has the steps of the first and then some more,
    all of which satisfy [P]. *)
Definition adds (P : Step -> Prop) (tr tr' : Transaction) : Prop :=
  exists l, steps tr' = steps tr ++ l /\ Forall P l.

(** The document before and after a run that rebuilds the previous item:
    the previous list [PL] and the selected list [L] are neighbours; the
    last item of [PL] is replaced by the rebuilt item [n]; of [L] the items
    after the range stay, and when there are none the list goes. *)
Record Rebuilt (sch : Schema) (tr tr' : Transaction) (l : Located)
  (ctx : list Frame) (ft : NodeType) (fa : Attrs) (fl : Fragment)
  (plt : NodeType) (pla : Attrs) (pis : Fragment) (prev : Node)
  (lt : NodeType) (la : Attrs) (cs : Fragment) (fr : Fragment)
  (n : Node) (rest : Fragment) : Prop := {
  rb_doc : doc tr = plug ctx (Elem ft fa
             (fl ++ Elem plt pla (pis ++ [prev]) :: Elem lt la cs :: fr));
  rb_doc' : doc tr' = plug ctx (Elem ft fa
              (fl ++ Elem plt pla (pis ++ [n]) :: rest ++ fr));
  rb_rest : (rest = [] /\ endIndex (lRange l) = List.length cs
             /\ validContent sch ft
                  (childTypes (fl ++ Elem plt pla (pis ++ [prev]) :: fr)) = true)
            \/ (rest = [Elem lt la (skipn (endIndex (lRange l)) cs)]
                /\ validContent sch lt
                     (childTypes (skipn (endIndex (lRange l)) cs)) = true);
  rb_prev : isText prev = false;
  rb_item : rebuiltPreviousItem sch tr = Some n;
  rb_check : check sch n = true;
  rb_n : isText n = false;
  rb_valid : validContent sch plt (childTypes (pis ++ [n])) = true;
  rb_from : previousItemStart (lFound l) - 1
            = ctxStart 0 ctx + fragSize fl + 1 + fragSize pis;
  rb_to : rEnd (lRange l)
          = ctxStart 0 ctx + fragSize fl + nodeSize (Elem plt pla (pis ++ [prev]))
            + 1 + fragSize (firstn (endIndex (lRange l)) cs);
  rb_idx : (0 < endIndex (lRange l) <= List.length cs)%nat;
  rb_lists : isList sch plt = true /\ isList sch lt = true
}.

End RunShapes.

(* ================================================================== *)
(** * Concrete runs *)
(* ================================================================== *)

Module Runs.
Import Model Resolve Replace Transform Indent Dedent Setup Context Shapes Statements.

(** A position of a document with its path. *)
Definition resolvedAt (d : Node) (p : Z) : ResolvedPos :=
  mkResolved p (resolveLoop d 0 p).

(** The item range of a selection of a document. *)
Definition itemRangeAt (sch : Schema) (d : Node) (a b : Z) : NodeRange :=
  match calculateItemRange sch (resolvedAt d a) (resolvedAt d b) with
  | Some r => r
  | None => mkRange (resolvedAt d a) (resolvedAt d b) 0
  end.

(** The list of the three-item document. *)
Definition threeItemList (k : ListKind) : Node :=
  listOf k [itemOf k [p "item 1"]; itemOf k [p "item 2"]; itemOf k [p "item 3"]].

(** A paragraph in front of a list: the list has a previous sibling that is
    not a list.  The cursor is in "A" (position 6). *)
Definition paragraphThenList : Node := docN [p "x"; ul [li [p "A"]]].

(** The first run of the tests, and its result. *)
Definition secondItemRun (k : ListKind) : Transaction := startTr (threeItems k) 13 13.

Definition secondItemResult (k : ListKind) : Transaction :=
  mkTr (secondNested k)
    [ReplaceAroundStep 10 20 11 21 (mkSlice [listOf k []] 0 0) 1] 13 13.

End Runs.

(* ================================================================== *)
(** * The command function *)
(* ================================================================== *)

Module Command.
Import Model Resolve Replace Transform Indent.

(** How a call of the command function ends: it returns a flag, possibly
    after handing the transaction to [dispatch]; or the exception of
    [indentList] escapes; or the run leaves the embedded part of the host.
    The flag that [scrollIntoView()] sets on the dispatched transaction is
    not part of the embedded state. *)
Inductive CommandOutcome : Type :=
| Handled (result : bool) (dispatched : option Transaction) (tr : Transaction)
| Escaped (e : Exn) (tr : Transaction)
| Beyond (tr : Transaction).

(** [indentListCommand({ tr, dispatch })]; [hasDispatch] says whether the
    caller passed a [dispatch] function ([dispatch?.(...)]). *)
Definition indentListCommand (sch : Schema) (tr : Transaction)
  (hasDispatch : bool) : CommandOutcome :=
  match indentList sch tr with
  | Returned b tr' =>
      Handled true
        (if b then (if hasDispatch then Some tr' else None) else None) tr'
  | Threw e tr' => Escaped e tr'
  | Unmodelled tr' => Beyond tr'
  end.

End Command.

(* ================================================================== *)
(** * The two branches of the command, read off the tree *)
(* ================================================================== *)

Module Branches.
Import Model Resolve Replace Transform Indent Dedent Setup Context Shapes Statements.

(** A run of the first branch that returns [true]: the list [L] in its
    context, the previous item [P] in front of the selected items, and the
    transaction that results. *)
Record Wrapped (sch : Schema) (tr tr' : Transaction) (l : Located)
  (ctx : list Frame) (lt : NodeType) (la : Attrs)
  (pre : Fragment) (pt : NodeType) (pa : Attrs) (pc : Fragment)
  (post : Fragment) : Prop := {
  wr_doc : doc tr
           = plug ctx (Elem lt la (pre ++ Elem pt pa pc :: selectedItems l ++ post));
  wr_list : lList l = Elem lt la (pre ++ Elem pt pa pc :: selectedItems l ++ post);
  wr_found : lFound l
             = mkPrevious (Elem pt pa pc) (lList l)
                 (ctxStart 0 ctx + 1 + fragSize pre) (ctxStart 0 ctx) true;
  wr_sel : selectedItems l <> [];
  wr_tr : tr' = mkTr
            (plug ctx (Elem lt la
               (pre ++ Elem pt pa (pc ++ [Elem lt la (selectedItems l)]) :: post)))
            (steps tr ++ [indentStep (lList l) (lRange l)])
            (selFrom tr) (selTo tr);
  wr_depth : List.length ctx = rDepth (lRange l);
  wr_pre : List.length pre = (startIndex (lRange l) - 1)%nat;
  wr_first : (1 <= startIndex (lRange l))%nat;
  wr_count : List.length (selectedItems l)
             = (endIndex (lRange l) - startIndex (lRange l))%nat;
  wr_start : rStart (lRange l)
             = ctxStart 0 ctx + fragSize pre + nodeSize (Elem pt pa pc);
  wr_end : rEnd (lRange l) = rStart (lRange l) + fragSize (selectedItems l);
  wr_from : rStart (lRange l) <= selFrom tr;
  wr_to : selTo tr <= rEnd (lRange l);
  wr_ctx : ctxPositive ctx;
  wr_normal : normal (Elem lt la (pre ++ Elem pt pa pc :: selectedItems l ++ post)) = true;
  wr_items : nonText (pre ++ Elem pt pa pc :: selectedItems l ++ post);
  wr_valid : validContent sch pt (childTypes (pc ++ [Elem lt la (selectedItems l)])) = true
}.

(** A located run whose range starts at the first item of its list [L]:
    the previous list [PL] is the sibling in front of [L], and the previous
    item is the last child of [PL]. *)
Record AcrossShape (sch : Schema) (tr : Transaction) (l : Located)
  (ctx : list Frame) (ft : NodeType) (fa : Attrs) (fl : Fragment)
  (plt : NodeType) (pla : Attrs) (pis : Fragment)
  (pit : NodeType) (pia : Attrs) (pic : Fragment)
  (lt : NodeType) (la : Attrs) (cs : Fragment) (fr : Fragment) : Prop := {
  ac_doc : doc tr = plug ctx (Elem ft fa
             (fl ++ Elem plt pla (pis ++ [Elem pit pia pic]) :: Elem lt la cs :: fr));
  ac_list : lList l = Elem lt la cs;
  ac_found : lFound l
             = mkPrevious (Elem pit pia pic) (Elem plt pla (pis ++ [Elem pit pia pic]))
                 (ctxStart 0 ctx + 1 + fragSize fl + fragSize pis + 1)
                 (ctxStart 0 ctx + 1 + fragSize fl) false;
  ac_range : RangeShape sch (doc tr) (selFrom tr) (selTo tr) (lFrom l) (lTo l) (lRange l)
               (ctx ++ [mkFrame ft fa (fl ++ [Elem plt pla (pis ++ [Elem pit pia pic])]) fr])
               lt la cs;
  ac_first : startIndex (lRange l) = 0%nat;
  ac_prev_list : isList sch plt = true;
  ac_ctx : ctxPositive ctx;
  ac_parent : normal (Elem ft fa
                (fl ++ Elem plt pla (pis ++ [Elem pit pia pic]) :: Elem lt la cs :: fr))
              = true;
  ac_start : rStart (lRange l)
             = ctxStart 0 ctx + fragSize fl
               + nodeSize (Elem plt pla (pis ++ [Elem pit pia pic])) + 1
}.

(** The token stream after a same-list indent of the positions [s] to [e]
    by a list of type [t] with attributes [a]: the closing token in front
    of [s] becomes the opening token of the new list, and two closing
    tokens follow the tokens of the items. *)
Definition wrapTokens (T : list Token) (s e : Z) (t : NodeType) (a : Attrs)
  : list Token :=
  firstn (Z.to_nat (s - 1)) T
  ++ TOpen t a :: firstn (Z.to_nat (e - s)) (skipn (Z.to_nat s) T)
  ++ TClose :: TClose :: skipn (Z.to_nat e) T.

(** The range starts at the first item of its list, and the sibling in
    front of the list is a list without children. *)
Definition emptyPreviousList (sch : Schema) (rfrom : ResolvedPos)
  (range : NodeRange) : Prop :=
  startIndex range = 0%nat /\
  let d1 := resolveDepth rfrom (Z.of_nat (rDepth range) - 1) in
  (1 <= index rfrom d1)%nat /\
  exists pl, nth_error (contentOf (node rfrom d1)) (index rfrom d1 - 1) = Some pl
             /\ isListNode sch pl = true /\ contentOf pl = [].

(** The items of a range. *)
Definition rangeItems (range : NodeRange) : Fragment :=
  firstn (endIndex range - startIndex range)
    (skipn (startIndex range) (contentOf (rParent range))).

(** An empty list in front of a list: [doc(ul(), ul(li(p('A'))))], cursor in
    "A" (position 5). *)
Definition emptyThenList : Node := docN [ul []; ul [li [p "A"]]].

(** A position map that keeps distinct positions apart. *)
Definition strictly (f : Z -> Z) : Prop := forall p1 p2, p1 < p2 -> f p1 < f p2.

(** The position map of the steps that a run added. *)
Definition runMap (tr tr' : Transaction) (p : Z) : Z :=
  mappingMap (map getMap (emitted tr tr')) p.

(** [node.textContent] (prosemirror-model): the text of the text nodes
    below a node, in document order. *)
Fixpoint textContent (n : Node) : string :=
  match n with
  | Text s => s
  | Elem _ _ c =>
      (fix go (l : Fragment) : string :=
         match l with
         | [] => EmptyString
         | x :: l' => String.append (textContent x) (go l')
         end) c
  end.

(** The text of a fragment. *)
Fixpoint fragText (l : Fragment) : string :=
  match l with
  | [] => EmptyString
  | x :: l' => String.append (textContent x) (fragText l')
  end.

End Branches.

(* ================================================================== *)
(** * Further concrete runs *)
(* ================================================================== *)

Module Examples.
Import Model Resolve Replace Transform Indent Setup Context Shapes Statements Runs.

(** What [indentList] has in hand for a selection of a document, given the
    selected list and the result of [findPreviousItem]. *)
Definition locatedAt (sch : Schema) (d : Node) (a b : Z) (list : Node)
  (found : PreviousItem) : Located :=
  mkLocated (resolvedAt d a) (resolvedAt d b) (itemRangeAt sch d a b) list found.

(** The test 'indents all selected list items': the selection runs from the
    start of "item 2" (13) to behind "item" in "item 3" (27). *)
Definition twoItemsRun (k : ListKind) : Transaction := startTr (threeItems k) 13 27.

Definition twoItemsNested (k : ListKind) : Node :=
  docN [listOf k [itemOf k [p "item 1";
                            listOf k [itemOf k [p "item 2"]; itemOf k [p "item 3"]]]]].

Definition twoItemsResult (k : ListKind) : Transaction :=
  mkTr (twoItemsNested k)
    [ReplaceAroundStep 10 30 11 31 (mkSlice [listOf k []] 0 0) 1] 13 27.

Definition twoItemsLocated (k : ListKind) : Located :=
  locatedAt listSchema (threeItems k) 13 27 (threeItemList k)
    (mkPrevious (itemOf k [p "item 1"]) (threeItemList k) 2 1 true).

(** The first run of the tests, located. *)
Definition secondItemLocated (k : ListKind) : Located :=
  locatedAt listSchema (threeItems k) 13 13 (threeItemList k)
    (mkPrevious (itemOf k [p "item 1"]) (threeItemList k) 2 1 true).

(** A bullet list in front of an ordered list whose first item holds a
    nested list behind its paragraph:
    [doc(ul(li(p('A'))), ol(li(p('B'), ul(li(p('C')))), li(p('D'))))], cursor
    in "B" (position 10). *)
Definition trailingBlocks : Node :=
  docN [ul [li [p "A"]]; ol [li [p "B"; ul [li [p "C"]]]; li [p "D"]]].

Definition trailingBlocksRun : Transaction := startTr trailingBlocks 10 10.

Definition trailingBlocksLocated : Located :=
  locatedAt listSchema trailingBlocks 10 10
    (ol [li [p "B"; ul [li [p "C"]]]; li [p "D"]])
    (mkPrevious (li [p "A"]) (ul [li [p "A"]]) 2 1 false).

Definition trailingBlocksIndented : Node :=
  docN [ul [li [p "A"; ol [li [p "B"]]; ul [li [p "C"]]]]; ol [li [p "D"]]].

Definition trailingBlocksResult : Transaction :=
  mkTr trailingBlocksIndented
    [ReplaceStep 8 20 emptySlice;
     ReplaceStep 1 6 (mkSlice [li [p "A"; ol [li [p "B"]]; ul [li [p "C"]]]] 0 0)]
    8 8.

(** The cross-type run of [adjacentCrossType], located, and its result. *)
Definition crossTypeRun : Transaction := startTr adjacentCrossType 10 10.

Definition crossTypeLocated : Located :=
  locatedAt listSchema adjacentCrossType 10 10 (ol [li [p "B"]])
    (mkPrevious (li [p "A"]) (ul [li [p "A"]]) 2 1 false).

Definition crossTypeResult : Transaction :=
  mkTr crossTypeIndented
    [ReplaceStep 7 14 emptySlice;
     ReplaceStep 1 6 (mkSlice [li [p "A"; ol [li [p "B"]]]] 0 0)]
    8 8.

(** The run on two adjacent lists of the same type, located. *)
Definition sameTypeRun : Transaction := startTr adjacentSameType 10 10.

Definition sameTypeLocated : Located :=
  locatedAt listSchema adjacentSameType 10 10 (ul [li [p "B"]])
    (mkPrevious (li [p "A"]) (ul [li [p "A"]]) 2 1 false).

(** The second item selected from the start of its text (13) to the
    boundary behind it (21), the end of the item range; and the second and
    third items selected backwards (anchor 27, head 13). *)
Definition itemEndRun : Transaction := startTr (threeItems UnorderedList) 13 21.

Definition itemEndLocated : Located :=
  locatedAt listSchema (threeItems UnorderedList) 13 21 (threeItemList UnorderedList)
    (mkPrevious (li [p "item 1"]) (threeItemList UnorderedList) 2 1 true).

Definition itemEndResult : Transaction :=
  mkTr (secondNested UnorderedList)
    [ReplaceAroundStep 10 20 11 21 (mkSlice [ul []] 0 0) 1] 13 21.

Definition backwardsRun : Transaction := startTr (threeItems UnorderedList) 27 13.

End Examples.

(* ================================================================== *)
(** * Facts about the document model *)
(* ================================================================== *)

Module ModelFacts.
Import Model Resolve Context Shapes.

(** Induction on nodes with the hypothesis for every child. *)
Lemma Node_rect' (P : Node -> Prop)
  (HText : forall s, P (Text s))
  (HElem : forall t a c, Forall P c -> P (Elem t a c)) :
  forall n, P n.
Proof.
  fix IH 1. intros [s | t a c].
  - apply HText.
  - apply HElem. induction c as [| x c IHc]; constructor.
    + apply IH.
    + exact IHc.
Qed.

Lemma nodeSize_Elem t a c : nodeSize (Elem t a c) = 2 + fragSize c.
Proof. reflexivity. Qed.

Lemma nodeSize_nonneg : forall n, 0 <= nodeSize n.
Proof.
  induction n as [s | t a c IH] using Node_rect'.
  - cbn [nodeSize]. lia.
  - rewrite nodeSize_Elem. induction IH as [| x c Hx _ IHc]; cbn [fragSize] in *; lia.
Qed.

Lemma fragSize_nonneg : forall l, 0 <= fragSize l.
Proof.
  induction l as [| x l IH]; cbn [fragSize]; [lia | pose proof (nodeSize_nonneg x); lia].
Qed.

Lemma fragSize_app l1 l2 : fragSize (l1 ++ l2) = fragSize l1 + fragSize l2.
Proof. induction l1 as [| x l1 IH]; cbn [fragSize app]; lia. Qed.

Lemma nodeSize_Elem_ge t a c : 2 <= nodeSize (Elem t a c).
Proof. rewrite nodeSize_Elem. pose proof (fragSize_nonneg c). lia. Qed.

Lemma contentSize_Elem t a c : contentSize (Elem t a c) = fragSize c.
Proof. reflexivity. Qed.

Lemma nodeSize_contentSize n :
  isText n = false -> nodeSize n = 2 + contentSize n.
Proof. destruct n; [discriminate | intros _; apply nodeSize_Elem]. Qed.

Lemma fragSize_firstn_le l k : fragSize (firstn k l) <= fragSize l.
Proof.
  rewrite <- (firstn_skipn k l) at 2. rewrite fragSize_app.
  pose proof (fragSize_nonneg (skipn k l)). lia.
Qed.

Lemma fragSize_firstn_skipn l k :
  fragSize l = fragSize (firstn k l) + fragSize (skipn k l).
Proof. rewrite <- (firstn_skipn k l) at 1. apply fragSize_app. Qed.

(** ** Nodes of positive size *)

Lemma normal_positive n : normal n = true -> 0 < nodeSize n.
Proof.
  destruct n as [s | t a c]; intros H.
  - cbn in H. destruct s; [discriminate | cbn [nodeSize String.length]; lia].
  - pose proof (nodeSize_Elem_ge t a c). lia.
Qed.

Lemma normal_Elem t a c :
  normal (Elem t a c) = noAdjacentText c && normals c.
Proof. reflexivity. Qed.

Lemma itemsOnly_Elem sch t a c :
  itemsOnly sch (Elem t a c)
  = (negb (isList sch t) || forallb (isItem sch) c)
    && forallb (itemsOnly sch) c.
Proof. reflexivity. Qed.

Lemma normals_positive l : normals l = true -> positive l.
Proof.
  unfold normals, positive. rewrite forallb_forall, Forall_forall.
  intros H x Hx. apply normal_positive, H, Hx.
Qed.

Lemma normals_app l1 l2 : normals (l1 ++ l2) = normals l1 && normals l2.
Proof. apply forallb_app. Qed.

Lemma positive_app l1 l2 : positive (l1 ++ l2) <-> positive l1 /\ positive l2.
Proof. apply Forall_app. Qed.

Lemma positive_firstn l k : positive l -> positive (firstn k l).
Proof.
  intros H. rewrite <- (firstn_skipn k l) in H. now apply positive_app in H.
Qed.

Lemma positive_skipn l k : positive l -> positive (skipn k l).
Proof.
  intros H. rewrite <- (firstn_skipn k l) in H. now apply positive_app in H.
Qed.

Lemma positive_fragSize l : positive l -> l <> [] -> 0 < fragSize l.
Proof.
  intros H Hne. destruct l as [| x l]; [congruence |].
  inversion H; subst. cbn [fragSize]. pose proof (fragSize_nonneg l). lia.
Qed.

(** ** [findIndex] *)

Lemma findIndexFrom_boundary l : forall i cur k,
  (k <= List.length l)%nat -> positive (firstn k l) ->
  findIndexFrom l i cur (cur + fragSize (firstn k l))
  = Some ((i + k)%nat, cur + fragSize (firstn k l)).
Proof.
  induction l as [| x l IH]; intros i cur k Hk Hpos.
  - destruct k; simpl in *; [| lia].
    rewrite Z.add_0_r, Z.eqb_refl. do 2 f_equal. lia.
  - destruct k as [| k]; simpl in *.
    + rewrite Z.add_0_r, Z.eqb_refl. do 2 f_equal. lia.
    + inversion Hpos; subst.
      pose proof (fragSize_nonneg (firstn k l)).
      destruct (Z.eqb_spec (cur + (nodeSize x + fragSize (firstn k l))) cur); [lia |].
      destruct (Z.ltb_spec (cur + (nodeSize x + fragSize (firstn k l))) (cur + nodeSize
          x)); [lia |].
      replace (cur + (nodeSize x + fragSize (firstn k l)))
        with (cur + nodeSize x + fragSize (firstn k l)) by lia.
      rewrite IH by (auto; lia). do 2 f_equal. lia.
Qed.

Lemma findIndexFrom_inside l1 c l2 : forall i cur p,
  positive l1 ->
  cur + fragSize l1 < p -> p < cur + fragSize l1 + nodeSize c ->
  findIndexFrom (l1 ++ c :: l2) i cur p
  = Some ((i + List.length l1)%nat, cur + fragSize l1).
Proof.
  induction l1 as [| x l1 IH]; intros i cur p Hpos Hlo Hhi; simpl in *.
  - destruct (Z.eqb_spec p cur); [lia |].
    destruct (Z.ltb_spec p (cur + nodeSize c)); [| lia].
    do 2 f_equal; lia.
  - inversion Hpos; subst. pose proof (fragSize_nonneg l1).
    destruct (Z.eqb_spec p cur); [lia |].
    destruct (Z.ltb_spec p (cur + nodeSize x)); [lia |].
    rewrite IH by (auto; lia). do 2 f_equal; lia.
Qed.

(** What [findIndex] returns: a child boundary at [p], or the child that
    strictly contains [p]. *)
Lemma findIndexFrom_spec l : forall i cur p j off,
  cur <= p ->
  findIndexFrom l i cur p = Some (j, off) ->
  exists k, j = (i + k)%nat /\ (k <= List.length l)%nat /\
    off = cur + fragSize (firstn k l) /\
    (off = p \/
     (off < p /\ exists c, nth_error l k = Some c /\ p < off + nodeSize c)).
Proof.
  induction l as [| x l IH]; intros i cur p j off Hle H; cbn [findIndexFrom] in H.
  - destruct (Z.eqb_spec p cur); [| discriminate].
    inversion H; subst. exists 0%nat. cbn [firstn fragSize List.length].
    split; [lia |]. split; [lia |]. split; [lia |]. left; lia.
  - destruct (Z.eqb_spec p cur).
    + inversion H; subst. exists 0%nat. cbn [firstn fragSize List.length].
      split; [lia |]. split; [lia |]. split; [lia |]. left; lia.
    + destruct (Z.ltb_spec p (cur + nodeSize x)).
      * inversion H; subst. exists 0%nat. cbn [firstn fragSize List.length].
        split; [lia |]. split; [lia |]. split; [lia |].
        right. split; [lia |]. exists x. split; [reflexivity | lia].
      * apply IH in H; [| lia].
        destruct H as (k & -> & Hk & -> & Hcase).
        exists (S k). cbn [firstn fragSize List.length nth_error].
        split; [lia |]. split; [lia |]. split; [lia |].
        destruct Hcase as [Heq | (Hlt & c & Hc & Hp)]; [left; lia |].
        right. split; [lia |]. exists c. split; [exact Hc | lia].
Qed.

Lemma findIndexFrom_total l : forall i cur p,
  cur <= p -> p <= cur + fragSize l ->
  exists j off, findIndexFrom l i cur p = Some (j, off).
Proof.
  induction l as [| x l IH]; intros i cur p Hlo Hhi; simpl in *.
  - destruct (Z.eqb_spec p cur); [eauto | lia].
  - destruct (Z.eqb_spec p cur); [eauto |].
    destruct (Z.ltb_spec p (cur + nodeSize x)); [eauto |].
    apply IH; lia.
Qed.

Lemma nth_error_split_firstn (A : Type) (l : list A) k c :
  nth_error l k = Some c -> l = firstn k l ++ c :: skipn (S k) l.
Proof.
  revert k. induction l as [| x l IH]; intros [| k] H; simpl in *; try discriminate.
  - now inversion H.
  - f_equal. now apply IH.
Qed.

Lemma firstn_plus (A : Type) (l : list A) : forall i k,
  firstn (i + k) l = firstn i l ++ firstn k (skipn i l).
Proof.
  induction l as [| x l IH]; intros [| i] k; cbn [firstn skipn Nat.add app]; auto.
  - now rewrite firstn_nil.
  - f_equal. apply IH.
Qed.

Lemma withChild_nth (A : Type) (d : A) f l i :
  withChild d f l i = match nth_error l i with Some x => f x | None => d end.
Proof.
  revert i. induction l as [| x l IH]; intros [| i]; simpl; auto.
Qed.

End ModelFacts.

(* ================================================================== *)
(** * Facts about resolved positions *)
(* ================================================================== *)

Module ResolveFacts.
Import Model Resolve Context Shapes ModelFacts.

(** The loop of [resolve], one iteration at a time. *)
Lemma resolveLoop_Elem t a c st po :
  resolveLoop (Elem t a c) st po =
  match findIndex c po with
  | None => []
  | Some (idx, off) =>
      mkEntry (Elem t a c) idx (st + off) ::
      (if po - off =? 0 then []
       else match nth_error c idx with
            | Some ch =>
                if isText ch then []
                else resolveLoop ch (st + off + 1) (po - off - 1)
            | None => []
            end)
  end.
Proof.
  cbn [resolveLoop contentOf]. destruct (findIndex c po) as [[idx off] |]; [| reflexivity].
  f_equal. destruct (po - off =? 0); [reflexivity |]. apply withChild_nth.
Qed.

Lemma findIndex_boundary c k :
  (k <= List.length c)%nat -> positive (firstn k c) ->
  findIndex c (fragSize (firstn k c)) = Some (k, fragSize (firstn k c)).
Proof.
  intros Hk Hpos. unfold findIndex.
  pose proof (fragSize_nonneg (firstn k c)).
  destruct (Z.ltb_spec (fragSize (firstn k c)) 0); [lia |].
  pose proof (findIndexFrom_boundary c 0%nat 0 Hk Hpos) as E.
  rewrite !Z.add_0_l in E. exact E.
Qed.

Lemma findIndex_inside l1 ch l2 p :
  positive l1 -> fragSize l1 < p -> p < fragSize l1 + nodeSize ch ->
  findIndex (l1 ++ ch :: l2) p = Some (List.length l1, fragSize l1).
Proof.
  intros Hpos Hlo Hhi. unfold findIndex.
  pose proof (fragSize_nonneg l1).
  destruct (Z.ltb_spec p 0); [lia |].
  pose proof (@findIndexFrom_inside l1 ch l2 0%nat 0 p Hpos) as E.
  rewrite !Z.add_0_l in E. apply E; lia.
Qed.

Lemma findIndex_spec c p j off :
  findIndex c p = Some (j, off) ->
  (j <= List.length c)%nat /\ off = fragSize (firstn j c) /\
  (off = p \/
   (off < p /\ exists ch, nth_error c j = Some ch /\ p < off + nodeSize ch)).
Proof.
  unfold findIndex. destruct (Z.ltb_spec p 0); [discriminate |].
  intros E. apply findIndexFrom_spec in E; [| lia].
  destruct E as (k & -> & Hk & -> & Hcase). rewrite Z.add_0_l in *.
  cbn [Nat.add]. auto.
Qed.

Lemma findIndex_total c p :
  0 <= p -> p <= fragSize c -> exists j off, findIndex c p = Some (j, off).
Proof.
  intros Hlo Hhi. unfold findIndex. destruct (Z.ltb_spec p 0); [lia |].
  apply findIndexFrom_total; lia.
Qed.

(** A position on a child boundary. *)
Lemma resolveLoop_boundary t a c st k :
  (k <= List.length c)%nat -> positive (firstn k c) ->
  resolveLoop (Elem t a c) st (fragSize (firstn k c))
  = [mkEntry (Elem t a c) k (st + fragSize (firstn k c))].
Proof.
  intros Hk Hpos. rewrite resolveLoop_Elem, findIndex_boundary by assumption.
  now rewrite Z.sub_diag.
Qed.

(** A position inside an element child. *)
Lemma resolveLoop_inside t a l1 ch l2 st q :
  positive l1 -> isText ch = false -> 0 <= q -> q <= contentSize ch ->
  resolveLoop (Elem t a (l1 ++ ch :: l2)) st (fragSize l1 + 1 + q)
  = mkEntry (Elem t a (l1 ++ ch :: l2)) (List.length l1) (st + fragSize l1)
    :: resolveLoop ch (st + fragSize l1 + 1) q.
Proof.
  intros Hpos Hch Hlo Hhi.
  pose proof (nodeSize_contentSize ch Hch) as Hsz.
  rewrite resolveLoop_Elem, (@findIndex_inside l1 ch l2) by (auto; lia).
  f_equal.
  destruct (Z.eqb_spec (fragSize l1 + 1 + q - fragSize l1) 0); [lia |].
  rewrite nth_error_app2, Nat.sub_diag by lia. cbn [nth_error].
  rewrite Hch. f_equal. lia.
Qed.

(** ** Positions in a node under a context *)

Lemma plug_isText ctx n : isText n = false -> isText (plug ctx n) = false.
Proof. destruct ctx; [auto | reflexivity]. Qed.

Lemma plug_app c1 c2 n : plug (c1 ++ c2) n = plug c1 (plug c2 n).
Proof. induction c1 as [| f c1 IH]; cbn [plug app]; [reflexivity | now rewrite IH]. Qed.

Lemma ctxStart_app st c1 c2 :
  ctxStart st (c1 ++ c2) = ctxStart (ctxStart st c1) c2.
Proof. revert st. induction c1 as [| f c1 IH]; intros st; cbn [ctxStart app]; auto. Qed.

Lemma ctxPath_length st ctx n : List.length (ctxPath st ctx n) = List.length ctx.
Proof. revert st. induction ctx as [| f ctx IH]; intros st; cbn [ctxPath List.length]; auto. Qed.

Lemma ctxStart_ge st ctx : st <= ctxStart st ctx.
Proof.
  revert st. induction ctx as [| f ctx IH]; intros st; cbn [ctxStart]; [lia |].
  pose proof (IH (st + fragSize (fLeft f) + 1)).
  pose proof (fragSize_nonneg (fLeft f)). lia.
Qed.

(** The content of the node in the hole lies inside the content of the
    whole. *)
Lemma ctxStart_contentSize ctx n st :
  isText n = false ->
  ctxStart st ctx - st + contentSize n <= contentSize (plug ctx n).
Proof.
  intros Hn. revert st. induction ctx as [| f ctx IH]; intros st; cbn [ctxStart plug].
  - lia.
  - unfold fill. rewrite contentSize_Elem, fragSize_app. cbn [fragSize].
    rewrite (nodeSize_contentSize _ (plug_isText ctx _ Hn)).
    pose proof (IH (st + fragSize (fLeft f) + 1)).
    pose proof (fragSize_nonneg (fRight f)). lia.
Qed.

(** Resolving a position that lies in the content of the node in the hole:
    the path runs through the context and continues in the node. *)
Lemma resolveLoop_plug ctx n : forall st q,
  ctxPositive ctx -> isText n = false ->
  0 <= q -> q <= contentSize n ->
  resolveLoop (plug ctx n) st (ctxStart st ctx - st + q)
  = ctxPath st ctx n ++ resolveLoop n (ctxStart st ctx) q.
Proof.
  induction ctx as [| f ctx IH]; intros st q Hpos Hn Hlo Hhi; cbn [plug ctxStart ctxPath app].
  - f_equal. lia.
  - inversion Hpos as [| ? ? Hf Hctx]; subst.
    pose proof (ctxStart_ge (st + fragSize (fLeft f) + 1) ctx).
    pose proof (@ctxStart_contentSize ctx n (st + fragSize (fLeft f) + 1) Hn).
    unfold fill at 1.
    replace (ctxStart (st + fragSize (fLeft f) + 1) ctx - st + q)
      with (fragSize (fLeft f) + 1
            + (ctxStart (st + fragSize (fLeft f) + 1) ctx
               - (st + fragSize (fLeft f) + 1) + q)) by lia.
    rewrite resolveLoop_inside; auto using plug_isText; try lia.
    rewrite IH by auto. reflexivity.
Qed.

(** ** From a path back to the tree *)

(** The first [d] levels of a path give a context around the node at depth
    [d], and the rest of the path is the path inside that node. *)
Lemma resolveLoop_split : forall d n st po,
  isText n = false -> 0 <= po -> po <= contentSize n ->
  (d < List.length (resolveLoop n st po))%nat ->
  exists ctx m,
    List.length ctx = d /\ n = plug ctx m /\ isText m = false /\
    resolveLoop n st po = ctxPath st ctx m ++ resolveLoop m (ctxStart st ctx) (po -
        (ctxStart st ctx - st)) /\
    0 <= po - (ctxStart st ctx - st) /\
    po - (ctxStart st ctx - st) <= contentSize m.
Proof.
  induction d as [| d IH]; intros n st po Hn Hlo Hhi Hlen.
  - exists [], n. cbn [plug ctxStart ctxPath app List.length].
    repeat split; auto; try lia. f_equal; lia.
  - destruct n as [s | t a c]; [discriminate |].
    rewrite resolveLoop_Elem in Hlen |- *.
    destruct (findIndex c po) as [[idx off] |] eqn:Efi; [| cbn in Hlen; lia].
    apply findIndex_spec in Efi. destruct Efi as (Hidx & Hoff & Hcase).
    destruct (Z.eqb_spec (po - off) 0) as [Hz | Hnz]; [cbn in Hlen; lia |].
    destruct Hcase as [Heq | (Hlt & ch & Hch & Hp)]; [lia |].
    rewrite Hch in Hlen |- *.
    destruct (isText ch) eqn:Etext; [cbn in Hlen; lia |].
    cbn [List.length] in Hlen.
    pose proof (nodeSize_contentSize ch Etext) as Hsz.
    destruct (IH ch (st + off + 1) (po - off - 1) Etext) as (ctx & m & Hl & Hplug & Hm &
        Hpath & Hq1 & Hq2);
      try lia.
    pose proof (nth_error_split_firstn _ _ Hch) as Hsplit.
    exists (mkFrame t a (firstn idx c) (skipn (S idx) c) :: ctx), m.
    cbn [List.length plug ctxStart ctxPath fLeft fRight fType fAttrs app].
    unfold fill. cbn [fLeft fRight fType fAttrs].
    rewrite <- Hplug, <- Hsplit, <- Hoff.
    rewrite length_firstn, Nat.min_l by exact Hidx.
    split; [lia |]. split; [reflexivity |]. split; [exact Hm |].
    split; [| split].
    + f_equal. rewrite Hpath. f_equal. f_equal. lia.
    + lia.
    + lia.
Qed.

End ResolveFacts.

(* ================================================================== *)
(** * Well-formed documents and the shape of a path *)
(* ================================================================== *)

Module PathFacts.
Import Model Resolve Context Shapes ModelFacts ResolveFacts.

(** ** Well-formedness under a context *)

Lemma normal_children t a c : normal (Elem t a c) = true -> normals c = true.
Proof. rewrite normal_Elem. intros H. now apply andb_true_iff in H. Qed.

Lemma normal_noAdjacent t a c :
  normal (Elem t a c) = true -> noAdjacentText c = true.
Proof. rewrite normal_Elem. intros H. now apply andb_true_iff in H. Qed.

Lemma normal_plug ctx m :
  normal (plug ctx m) = true -> normal m = true /\ ctxPositive ctx.
Proof.
  induction ctx as [| f ctx IH]; cbn [plug]; intros H.
  - split; [exact H | constructor].
  - unfold fill in H. apply normal_children in H.
    rewrite normals_app in H. apply andb_true_iff in H. destruct H as [Hl Hr].
    cbn [normals forallb] in Hr. apply andb_true_iff in Hr. destruct Hr as [Hm _].
    destruct (IH Hm) as [Hn Hc]. split; [exact Hn |].
    constructor; [now apply normals_positive | exact Hc].
Qed.

Lemma itemsOnly_plug sch ctx m :
  itemsOnly sch (plug ctx m) = true -> itemsOnly sch m = true.
Proof.
  induction ctx as [| f ctx IH]; cbn [plug]; intros H; [exact H |].
  unfold fill in H. rewrite itemsOnly_Elem in H.
  apply andb_true_iff in H. destruct H as [_ H].
  rewrite forallb_app in H. apply andb_true_iff in H. destruct H as [_ H].
  cbn [forallb] in H. apply andb_true_iff in H. destruct H as [H _]. auto.
Qed.

Lemma itemsOnly_items sch t a c :
  itemsOnly sch (Elem t a c) = true -> isList sch t = true ->
  Forall (fun x => isItem sch x = true) c.
Proof.
  rewrite itemsOnly_Elem. intros H Hl. rewrite Hl in H. cbn [negb orb] in H.
  apply andb_true_iff in H. destruct H as [H _].
  rewrite forallb_forall in H. now apply Forall_forall.
Qed.

Lemma itemsOnly_list sch t a c :
  itemsOnly sch (Elem t a c) = true -> isList sch t = true ->
  Forall (fun x => isText x = false) c.
Proof.
  intros H Hl. pose proof (itemsOnly_items _ _ _ _ H Hl) as Hi.
  eapply Forall_impl; [| exact Hi]. intros x Hx. unfold isItem in Hx.
  now destruct (isText x).
Qed.

Lemma wellFormed_plug sch ctx m :
  wellFormed sch (plug ctx m) = true ->
  normal m = true /\ itemsOnly sch m = true /\ ctxPositive ctx.
Proof.
  unfold wellFormed. intros H.
  apply andb_true_iff in H. destruct H as [H Hi].
  apply andb_true_iff in H. destruct H as [_ Hn].
  destruct (normal_plug _ _ Hn). eauto using itemsOnly_plug.
Qed.

(** ** Reading a path that runs through a context *)

Lemma nth_ctxPath_app st ctx m rest j :
  nth (List.length ctx + j) (ctxPath st ctx m ++ rest) noEntry = nth j rest noEntry.
Proof.
  rewrite app_nth2; rewrite ctxPath_length; [f_equal; lia | lia].
Qed.

Lemma nth_ctxPath ctx m : forall st rest k,
  (k < List.length ctx)%nat ->
  exists f, nth_error ctx k = Some f /\
    nth k (ctxPath st ctx m ++ rest) noEntry
    = mkEntry (plug (skipn k ctx) m) (List.length (fLeft f))
        (ctxStart st (firstn k ctx) + fragSize (fLeft f)).
Proof.
  induction ctx as [| f ctx IH]; intros st rest k Hk; cbn [List.length] in Hk; [lia |].
  destruct k as [| k].
  - exists f. cbn. auto.
  - destruct (IH (st + fragSize (fLeft f) + 1) rest k) as (g & Hg & E); [lia |].
    exists g. cbn [nth_error ctxPath app nth skipn firstn ctxStart]. auto.
Qed.

Lemma ctxStart_snoc st ctx f :
  ctxStart st (ctx ++ [f]) = ctxStart st ctx + fragSize (fLeft f) + 1.
Proof. rewrite ctxStart_app. reflexivity. Qed.

Lemma firstn_S_nth (A : Type) (l : list A) k x :
  nth_error l k = Some x -> firstn (S k) l = firstn k l ++ [x].
Proof.
  revert k. induction l as [| y l IH]; intros [| k] H; cbn in *; try discriminate.
  - now inversion H.
  - f_equal. now apply IH.
Qed.

Section Shape.
Variables (p : Z) (ctx : list Frame) (m : Node) (rest : list PathEntry).
Local Abbreviation rp := (mkResolved p (ctxPath 0 ctx m ++ rest)).

Lemma shape_depth :
  rest <> [] -> depth rp = (List.length ctx + (List.length rest - 1))%nat.
Proof.
  intros H. unfold depth. cbn [path]. rewrite length_app, ctxPath_length.
  destruct rest; [congruence | cbn [List.length]; lia].
Qed.

Lemma shape_entry_hole j :
  entry rp (List.length ctx + j) = nth j rest noEntry.
Proof. unfold entry. cbn [path]. apply nth_ctxPath_app. Qed.

Lemma shape_entry_ctx k :
  (k < List.length ctx)%nat ->
  exists f, nth_error ctx k = Some f /\
    entry rp k = mkEntry (plug (skipn k ctx) m) (List.length (fLeft f))
                   (ctxStart 0 (firstn k ctx) + fragSize (fLeft f)).
Proof. intros H. unfold entry. cbn [path]. now apply nth_ctxPath. Qed.

Lemma shape_start : start rp (List.length ctx) = ctxStart 0 ctx.
Proof.
  unfold start. destruct (List.length ctx) as [| d] eqn:E.
  - destruct ctx; [reflexivity | discriminate].
  - destruct (shape_entry_ctx (k := d)) as (f & Hf & ->); [lia |].
    cbn [peOffset]. rewrite <- ctxStart_snoc, <- (firstn_S_nth _ _ Hf), <- E.
    now rewrite firstn_all.
Qed.

Lemma shape_start_below k :
  (k <= List.length ctx)%nat -> start rp k = ctxStart 0 (firstn k ctx).
Proof.
  intros Hk. unfold start. destruct k as [| d]; [reflexivity |].
  destruct (shape_entry_ctx (k := d)) as (f & Hf & ->); [lia |].
  cbn [peOffset]. now rewrite <- ctxStart_snoc, <- (firstn_S_nth _ _ Hf).
Qed.

Lemma shape_node_ctx k :
  (k < List.length ctx)%nat -> node rp k = plug (skipn k ctx) m.
Proof.
  intros H. unfold node. destruct (shape_entry_ctx H) as (f & _ & ->). reflexivity.
Qed.

Lemma shape_index_ctx k f :
  nth_error ctx k = Some f -> index rp k = List.length (fLeft f).
Proof.
  intros H. unfold index.
  destruct (shape_entry_ctx (k := k)) as (g & Hg & ->).
  - apply nth_error_Some. congruence.
  - rewrite H in Hg. now inversion Hg.
Qed.
End Shape.

(** The accessors at the level of the hole and one below. *)
Lemma hole_depth p ctx m e rest :
  depth (mkResolved p (ctxPath 0 ctx m ++ e :: rest))
  = (List.length ctx + List.length rest)%nat.
Proof. rewrite shape_depth by discriminate. cbn [List.length]. lia. Qed.

Lemma hole_entry p ctx m e rest :
  entry (mkResolved p (ctxPath 0 ctx m ++ e :: rest)) (List.length ctx) = e.
Proof.
  pose proof (shape_entry_hole p ctx m (e :: rest) 0) as H.
  rewrite Nat.add_0_r in H. exact H.
Qed.

Lemma hole_entry_S p ctx m e rest j :
  entry (mkResolved p (ctxPath 0 ctx m ++ e :: rest)) (List.length ctx + S j)
  = nth j rest noEntry.
Proof. now rewrite shape_entry_hole. Qed.

Lemma hole_index p ctx m e rest :
  index (mkResolved p (ctxPath 0 ctx m ++ e :: rest)) (List.length ctx) = peIndex e.
Proof. unfold index. now rewrite hole_entry. Qed.

Lemma hole_node p ctx m e rest :
  node (mkResolved p (ctxPath 0 ctx m ++ e :: rest)) (List.length ctx) = peNode e.
Proof. unfold node. now rewrite hole_entry. Qed.

Lemma hole_start p ctx m rest :
  start (mkResolved p (ctxPath 0 ctx m ++ rest)) (List.length ctx) = ctxStart 0 ctx.
Proof. apply shape_start. Qed.

Lemma hole_before p ctx m e rest :
  before (mkResolved p (ctxPath 0 ctx m ++ e :: rest)) (List.length ctx + 1)
  = match rest with [] => p | _ => peOffset e end.
Proof.
  unfold before. rewrite hole_depth.
  replace (List.length ctx + 1 - 1)%nat with (List.length ctx) by lia.
  rewrite hole_entry. destruct rest as [| e1 r1]; cbn [List.length].
  - rewrite Nat.add_0_r, Nat.eqb_refl. reflexivity.
  - destruct (Nat.eqb_spec (List.length ctx + 1)
                (List.length ctx + S (List.length r1) + 1)); [lia | reflexivity].
Qed.

Lemma hole_after p ctx m e rest :
  after (mkResolved p (ctxPath 0 ctx m ++ e :: rest)) (List.length ctx + 1)
  = match rest with [] => p | e1 :: _ => peOffset e + nodeSize (peNode e1) end.
Proof.
  unfold after, node. rewrite hole_depth.
  replace (List.length ctx + 1 - 1)%nat with (List.length ctx) by lia.
  rewrite hole_entry, hole_entry_S. destruct rest as [| e1 r1]; cbn [List.length nth].
  - rewrite Nat.add_0_r, Nat.eqb_refl. reflexivity.
  - destruct (Nat.eqb_spec (List.length ctx + 1)
                (List.length ctx + S (List.length r1) + 1)); [lia | reflexivity].
Qed.

Lemma hole_indexAfter p ctx m e rest :
  indexAfter (mkResolved p (ctxPath 0 ctx m ++ e :: rest)) (List.length ctx)
  = (peIndex e + match rest with
                 | [] => if (p - peOffset e =? 0)%Z then 0 else 1
                 | _ => 1
                 end)%nat.
Proof.
  unfold indexAfter, textOffset. rewrite hole_index, hole_depth.
  destruct rest as [| e1 r1]; cbn [List.length].
  - rewrite Nat.add_0_r, Nat.eqb_refl, hole_entry. reflexivity.
  - destruct (Nat.eqb_spec (List.length ctx)
                (List.length ctx + S (List.length r1))); [lia | reflexivity].
Qed.

Lemma one_textOffset p ctx m e :
  textOffset (mkResolved p (ctxPath 0 ctx m ++ [e])) = p - peOffset e.
Proof.
  unfold textOffset. rewrite hole_depth. cbn [List.length pos].
  now rewrite Nat.add_0_r, hole_entry.
Qed.

Lemma two_depth p ctx m e1 e2 :
  depth (mkResolved p (ctxPath 0 ctx m ++ [e1; e2])) = (List.length ctx + 1)%nat.
Proof. now rewrite hole_depth. Qed.

Lemma two_entry p ctx m e1 e2 :
  entry (mkResolved p (ctxPath 0 ctx m ++ [e1; e2])) (List.length ctx + 1) = e2.
Proof. now rewrite hole_entry_S. Qed.

Lemma two_index p ctx m e1 e2 :
  index (mkResolved p (ctxPath 0 ctx m ++ [e1; e2])) (List.length ctx + 1) = peIndex e2.
Proof. unfold index. now rewrite two_entry. Qed.

Lemma two_node p ctx m e1 e2 :
  node (mkResolved p (ctxPath 0 ctx m ++ [e1; e2])) (List.length ctx + 1) = peNode e2.
Proof. unfold node. now rewrite two_entry. Qed.

Lemma two_textOffset p ctx m e1 e2 :
  textOffset (mkResolved p (ctxPath 0 ctx m ++ [e1; e2])) = p - peOffset e2.
Proof. unfold textOffset. now rewrite two_depth, two_entry. Qed.

End PathFacts.

(* ================================================================== *)
(** * The item range of a selection *)
(* ================================================================== *)

Module RangeFacts.
Import Model Resolve Context Indent Shapes ModelFacts ResolveFacts PathFacts.

Lemma fragSize_firstn_mono l i j :
  (i <= j)%nat -> fragSize (firstn i l) <= fragSize (firstn j l).
Proof.
  intros Hij. replace j with (i + (j - i))%nat by lia.
  rewrite firstn_plus, fragSize_app.
  pose proof (fragSize_nonneg (firstn (j - i) (skipn i l))). lia.
Qed.

Lemma fragSize_firstn_lt l i j :
  fragSize (firstn i l) < fragSize (firstn j l) -> (i < j)%nat.
Proof.
  intros H. destruct (Nat.lt_ge_cases i j) as [Hlt | Hge]; [exact Hlt |].
  pose proof (fragSize_firstn_mono l Hge). lia.
Qed.

Lemma fragSize_firstn_S l k ch :
  nth_error l k = Some ch ->
  fragSize (firstn (S k) l) = fragSize (firstn k l) + nodeSize ch.
Proof.
  intros H. rewrite (firstn_S_nth _ _ H), fragSize_app. cbn [fragSize]. lia.
Qed.

(** The three ways in which the loop of [resolve] handles a level. *)
Lemma resolveLoop_cases t a c st q :
  0 <= q -> q <= fragSize c ->
  exists idx, (idx <= List.length c)%nat /\
    ((q = fragSize (firstn idx c) /\
      resolveLoop (Elem t a c) st q
      = [mkEntry (Elem t a c) idx (st + fragSize (firstn idx c))])
    \/ (fragSize (firstn idx c) < q /\ exists ch, nth_error c idx = Some ch /\
        q < fragSize (firstn idx c) + nodeSize ch /\
        isText ch = true /\
        resolveLoop (Elem t a c) st q
        = [mkEntry (Elem t a c) idx (st + fragSize (firstn idx c))])
    \/ (fragSize (firstn idx c) < q /\ exists ch, nth_error c idx = Some ch /\
        q < fragSize (firstn idx c) + nodeSize ch /\
        isText ch = false /\
        resolveLoop (Elem t a c) st q
        = mkEntry (Elem t a c) idx (st + fragSize (firstn idx c))
          :: resolveLoop ch (st + fragSize (firstn idx c) + 1)
               (q - fragSize (firstn idx c) - 1))).
Proof.
  intros Hlo Hhi. rewrite resolveLoop_Elem.
  destruct (findIndex_total c Hlo Hhi) as (idx & off & E). rewrite E.
  apply findIndex_spec in E. destruct E as (Hidx & -> & Hcase).
  exists idx. split; [exact Hidx |].
  destruct Hcase as [Heq | (Hlt & ch & Hch & Hp)].
  - left. split; [lia |]. replace (q - fragSize (firstn idx c)) with 0 by lia. reflexivity.
  - right. destruct (Z.eqb_spec (q - fragSize (firstn idx c)) 0); [lia |].
    rewrite Hch. destruct (isText ch) eqn:Et.
    + left. split; [lia |]. exists ch. auto.
    + right. split; [lia |]. exists ch. auto.
Qed.

Lemma resolveLoop_nonempty n st q :
  isText n = false -> 0 <= q -> q <= contentSize n -> resolveLoop n st q <> [].
Proof.
  destruct n as [s | t a c]; [discriminate |]. intros _ Hlo Hhi.
  destruct (resolveLoop_cases t a c st Hlo Hhi) as (idx & _ & H).
  destruct H as [[_ ->] | [(_ & ch & _ & _ & _ & ->) | (_ & ch & _ & _ & _ & ->)]];
    discriminate.
Qed.

Lemma resolve_inv doc p rp :
  resolve doc p = Some rp ->
  rp = mkResolved p (resolveLoop doc 0 p) /\ 0 <= p /\ p <= contentSize doc.
Proof.
  unfold resolve. destruct (Z.leb_spec 0 p); cbn [andb]; [| discriminate].
  destruct (Z.leb_spec p (contentSize doc)); [| discriminate].
  intros E. inversion E. auto.
Qed.

Lemma resolve_ok doc p :
  0 <= p -> p <= contentSize doc ->
  resolve doc p = Some (mkResolved p (resolveLoop doc 0 p)).
Proof.
  intros Hlo Hhi. unfold resolve.
  destruct (Z.leb_spec 0 p); [| lia].
  destruct (Z.leb_spec p (contentSize doc)); [| lia]. reflexivity.
Qed.

Lemma blockRangeFrom_spec this other pred k r :
  blockRangeFrom this other pred k = Some r ->
  r = mkRange this other (rDepth r) /\ (rDepth r < k)%nat /\
  pos other <= end_ this (rDepth r) /\ pred (node this (rDepth r)) = true.
Proof.
  induction k as [| d IH]; cbn [blockRangeFrom]; [discriminate |].
  destruct (Z.leb_spec (pos other) (end_ this d)) as [Hle | Hgt]; cbn [andb].
  - destruct (pred (node this d)) eqn:Ep.
    + intros E. inversion E. cbn [rDepth]. auto.
    + intros E. destruct (IH E) as (? & ? & ? & ?). auto.
  - intros E. destruct (IH E) as (? & ? & ? & ?). auto.
Qed.

Lemma resolveLoop_head n st q e rest :
  resolveLoop n st q = e :: rest -> peNode e = n.
Proof.
  destruct n as [s | t a c].
  - cbn [resolveLoop contentOf]. destruct (findIndex [] q) as [[? ?] |]; [| discriminate].
    intros E. now inversion E.
  - rewrite resolveLoop_Elem. destruct (findIndex c q) as [[? ?] |]; [| discriminate].
    intros E. now inversion E.
Qed.

Lemma range_shape sch doc from to rfrom rto range :
  wellFormed sch doc = true ->
  resolve doc from = Some rfrom -> resolve doc to = Some rto -> from <= to ->
  calculateItemRange sch rfrom rto = Some range ->
  exists ctx lt la cs, RangeShape sch doc from to rfrom rto range ctx lt la cs.
Proof.
  intros Hwf Hrf Hrt Hle Hcalc.
  assert (Hdoc : isText doc = false).
  { unfold wellFormed in Hwf. destruct (isText doc); [discriminate | reflexivity]. }
  apply resolve_inv in Hrf. destruct Hrf as (-> & Hf0 & Hf1).
  apply resolve_inv in Hrt. destruct Hrt as (-> & Ht0 & Ht1).
  unfold calculateItemRange, blockRange in Hcalc. cbn [pos] in Hcalc.
  destruct (Z.ltb_spec to from) as [Hx | _]; [lia |].
  apply blockRangeFrom_spec in Hcalc.
  destruct Hcalc as (Hr & Hd & Hend & Hpred).
  pose proof (@resolveLoop_nonempty doc 0 from Hdoc Hf0 Hf1) as Hne.
  assert (Hdlen : (rDepth range < List.length (resolveLoop doc 0 from))%nat).
  { unfold depth in Hd. cbn [path] in Hd.
    destruct (resolveLoop doc 0 from); [congruence | cbn [List.length] in *; lia]. }
  destruct (@resolveLoop_split (rDepth range) doc 0 from Hdoc Hf0 Hf1 Hdlen)
    as (ctx & m & Hlen & Hplug & Hm & Hpath & Hq0 & Hq1).
  rewrite Z.sub_0_r in *.
  destruct (wellFormed_plug sch ctx m) as (Hnorm & Hitems & Hctx); [now rewrite <- Hplug |].
  destruct m as [s | lt la cs]; [discriminate |].
  set (L := Elem lt la cs) in *. set (LS := ctxStart 0 ctx) in *.
  change (contentSize L) with (fragSize cs) in *.
  destruct (resolveLoop_cases lt la cs LS Hq0 Hq1) as (fi & Hfi & Hfc). fold L in Hfc.
  (* the path of [from] below the context *)
  assert (Hfe : exists restf, resolveLoop L LS (from - LS)
                  = mkEntry L fi (LS + fragSize (firstn fi cs)) :: restf).
  { destruct Hfc as [[_ E] | [(_ & ch & _ & _ & _ & E) | (_ & ch & _ & _ & _ & E)]];
      rewrite E; eauto. }
  destruct Hfe as (restf & Hfe). rewrite Hfe in Hpath.
  rewrite Hpath in Hd, Hend, Hpred. rewrite <- Hlen in Hd, Hend, Hpred.
  unfold end_ in Hend. rewrite hole_node, hole_start in Hend.
  rewrite hole_node in Hpred.
  cbn [peNode pos] in Hend, Hpred. fold LS in Hend.
  change (contentSize L) with (fragSize cs) in Hend.
  assert (HisL : isList sch lt = true) by exact Hpred.
  pose proof (itemsOnly_list sch lt la cs Hitems HisL) as Hch.
  assert (Hft : forall ch i, nth_error cs i = Some ch -> isText ch = true -> False).
  { intros ch i Hn Ht. apply nth_error_In in Hn.
    rewrite Forall_forall in Hch. rewrite (Hch _ Hn) in Ht. discriminate. }
  (* [to] lies in the content of [L] *)
  assert (Hpto : resolveLoop doc 0 to
                 = ctxPath 0 ctx L ++ resolveLoop L LS (to - LS)).
  { rewrite Hplug at 1.
    replace to with (ctxStart 0 ctx - 0 + (to - LS)) at 1 by (unfold LS; lia).
    apply resolveLoop_plug; auto; [lia | cbn; lia]. }
  assert (Ht0' : 0 <= to - LS) by lia.
  assert (Ht1' : to - LS <= fragSize cs) by lia.
  destruct (resolveLoop_cases lt la cs LS Ht0' Ht1') as (ti & Hti & Htc). fold L in Htc.
  assert (Hte : exists restt, resolveLoop L LS (to - LS)
                  = mkEntry L ti (LS + fragSize (firstn ti cs)) :: restt).
  { destruct Htc as [[_ E] | [(_ & ch & _ & _ & _ & E) | (_ & ch & _ & _ & _ & E)]];
      rewrite E; eauto. }
  destruct Hte as (restt & Hte). rewrite Hte in Hpto.
  (* the start of the range *)
  assert (HSI : startIndex range = fi
                /\ rStart range = LS + fragSize (firstn fi cs)
                /\ LS + fragSize (firstn fi cs) <= from
                /\ (restf = [] -> from = LS + fragSize (firstn fi cs))).
  { rewrite Hr. unfold startIndex, rStart. cbn [rFrom rDepth].
    rewrite Hpath, <- Hlen, hole_index, hole_before. cbn [peIndex peOffset].
    destruct Hfc as [[Hq E] | [(_ & ch & Hn & _ & Ht & _) | (Hlt & ch & Hn & Hp & Ht & E)]].
    - rewrite Hfe in E. inversion E. repeat split; lia.
    - exfalso. eauto.
    - rewrite Hfe in E. inversion E as [Er].
      pose proof (@resolveLoop_nonempty ch (LS + fragSize (firstn fi cs) + 1)
                    (from - LS - fragSize (firstn fi cs) - 1) Ht) as Hne'.
      pose proof (nodeSize_contentSize ch Ht).
      destruct (resolveLoop ch _ _) as [| e1 r1]; [exfalso; apply Hne'; [lia | lia |
          reflexivity] |].
      repeat split; try lia. discriminate. }
  destruct HSI as (Hsi & Hrs & Hrs_le & Hfd).
  assert (HEI : exists ei, endIndex range = ei /\ (ei <= List.length cs)%nat
                /\ rEnd range = LS + fragSize (firstn ei cs)
                /\ to <= LS + fragSize (firstn ei cs)
                /\ (restt = [] -> ei = ti /\ to = LS + fragSize (firstn ti cs))
                /\ (restt <> [] -> ei = S ti)).
  { rewrite Hr. unfold endIndex, rEnd. cbn [rTo rDepth].
    rewrite Hpto, <- Hlen, hole_indexAfter, hole_after. cbn [peIndex peOffset].
    destruct Htc as [[Hq E] | [(_ & ch & Hn & _ & Ht & _) | (Hlt & ch & Hn & Hp & Ht & E)]].
    - rewrite Hte in E. inversion E.
      destruct (Z.eqb_spec (to - (LS + fragSize (firstn ti cs))) 0); [| lia].
      exists ti. rewrite Nat.add_0_r. repeat split; try lia. congruence.
    - exfalso. eauto.
    - rewrite Hte in E. inversion E as [Er].
      pose proof (@resolveLoop_nonempty ch (LS + fragSize (firstn ti cs) + 1)
                    (to - LS - fragSize (firstn ti cs) - 1) Ht) as Hne'.
      pose proof (nodeSize_contentSize ch Ht).
      pose proof (fragSize_firstn_S _ _ Hn) as HS.
      assert (Hti' : (S ti <= List.length cs)%nat).
      { apply Nat.le_succ_l, nth_error_Some. congruence. }
      destruct (resolveLoop ch _ _) as [| e1 r1] eqn:Ech; [exfalso; apply Hne'; [lia | lia
          | reflexivity] |].
      rewrite (resolveLoop_head _ _ _ Ech).
      exists (S ti). split; [lia |]. split; [exact Hti' |].
      split; [lia |]. split; [lia |]. split; [discriminate | auto]. }
  destruct HEI as (ei & Hei & Hei_le & Hre & Hre_ge & Heq_d & Hne_d).
  (* the range is not empty *)
  assert (Hlt : (fi < ei)%nat).
  { destruct restt as [| et rt].
    - destruct (Heq_d eq_refl) as [-> Hto].
      destruct (Z.eq_dec from to) as [Heq | Hneq].
      + exfalso. rewrite <- Heq in Hpto. rewrite Hpto in Hpath.
        apply app_inv_head in Hpath. inversion Hpath; subst restf.
        cbn [pos] in Hd. rewrite <- Heq, Z.eqb_refl, orb_true_r in Hd.
        rewrite hole_depth in Hd. cbn [List.length] in Hd. lia.
      + apply (@fragSize_firstn_lt cs). lia.
    - rewrite (Hne_d ltac:(discriminate)).
      assert (fragSize (firstn fi cs) < fragSize (firstn (S ti) cs)); [| now apply
          (@fragSize_firstn_lt cs)].
      destruct Htc as [[Hq E] | [(_ & ch & Hn & _ & Ht & _) | (Hlt & ch & Hn & Hp & Ht & E)]].
      + rewrite Hte in E. inversion E.
      + exfalso. eauto.
      + rewrite (fragSize_firstn_S _ _ Hn). lia. }
  exists ctx, lt, la, cs. constructor.
  - exact Hplug.
  - exact Hlen.
  - exact HisL.
  - rewrite Hr. reflexivity.
  - rewrite Hr. reflexivity.
  - rewrite Hpath. fold L LS. rewrite Hfe. reflexivity.
  - rewrite Hpto. fold L LS. rewrite Hte. reflexivity.
  - fold LS. lia.
  - fold LS. lia.
  - rewrite Hsi, Hei. lia.
  - rewrite Hsi. exact Hrs.
  - rewrite Hei. exact Hre.
  - rewrite Hrs. lia.
  - rewrite Hre. lia.
  - exact Hctx.
  - exact Hnorm.
  - exact Hch.
Qed.

End RangeFacts.

(* ================================================================== *)
(** * Facts about fragments: append, cut, replaceChild *)
(* ================================================================== *)

Module FragmentFacts.
Import Model Resolve Replace Context Shapes ModelFacts ResolveFacts PathFacts.

Lemma append_nil_r a : append a [] = a.
Proof.
  induction a as [| x a IH]; [reflexivity |].
  cbn [append]. destruct x as [s | t at' c]; destruct a; try (now rewrite IH); reflexivity.
Qed.

Lemma append_cons_nonText x a b :
  isText x = false -> append (x :: a) b = x :: append a b.
Proof. destruct x; [discriminate | reflexivity]. Qed.

Lemma append_cons_more x y a b : append (x :: y :: a) b = x :: append (y :: a) b.
Proof. destruct x; reflexivity. Qed.

Lemma append_single_elem a x : isText x = false -> append a [x] = a ++ [x].
Proof.
  intros Hx. induction a as [| y a IH]; [reflexivity |].
  destruct a as [| z a].
  - destruct y; [destruct x; [discriminate | reflexivity] | reflexivity].
  - rewrite append_cons_more, IH. reflexivity.
Qed.

Lemma append_nonText_l a b : nonText a -> append a b = a ++ b.
Proof.
  induction 1 as [| x a Hx _ IH]; [reflexivity |].
  rewrite append_cons_nonText by exact Hx. cbn [app]. now rewrite IH.
Qed.

Lemma append_nonText_r a b : nonText b -> append a b = a ++ b.
Proof.
  intros Hb. induction a as [| y a IH]; [reflexivity |].
  destruct a as [| z a].
  - destruct y as [s | t at' c]; [| reflexivity].
    destruct Hb as [| x b Hx _]; [reflexivity |].
    destruct x; [discriminate | reflexivity].
  - rewrite append_cons_more, IH. reflexivity.
Qed.

Lemma noAdjacentText_nonText l : nonText l -> noAdjacentText l = true.
Proof.
  induction 1 as [| x l Hx _ IH]; [reflexivity |].
  cbn [noAdjacentText]. rewrite Hx, IH. reflexivity.
Qed.

Lemma noAdjacentText_snoc l x :
  noAdjacentText l = true -> isText x = false -> noAdjacentText (l ++ [x]) = true.
Proof.
  intros Hl Hx. induction l as [| y l IH]; cbn [app noAdjacentText].
  - now rewrite Hx.
  - cbn [noAdjacentText] in Hl. apply andb_true_iff in Hl. destruct Hl as [Hy Hl].
    rewrite (IH Hl), andb_true_r.
    destruct l as [| z l]; cbn [app].
    + rewrite Hx, andb_false_r. reflexivity.
    + exact Hy.
Qed.

Lemma noAdjacentText_app_inv a b :
  noAdjacentText (a ++ b) = true -> noAdjacentText a = true.
Proof.
  induction a as [| x a IH]; [reflexivity |]. cbn [app noAdjacentText].
  intros H. apply andb_true_iff in H. destruct H as [Hx H].
  rewrite (IH H), andb_true_r. destruct a as [| y a]; [| exact Hx].
  now rewrite andb_false_r.
Qed.

(** Adding to a target one node at a time is concatenation when no two
    text nodes meet. *)
Lemma append_single a x :
  noAdjacentText (a ++ [x]) = true -> append a [x] = a ++ [x].
Proof.
  induction a as [| y a IH]; [reflexivity |]. cbn [app noAdjacentText].
  intros H. apply andb_true_iff in H. destruct H as [Hy H].
  destruct a as [| z a].
  - cbn [app] in Hy. destruct y as [s | t at' c]; [| reflexivity].
    destruct x; [discriminate | reflexivity].
  - rewrite append_cons_more, (IH H). reflexivity.
Qed.

Lemma addNodes_app l : forall t,
  noAdjacentText (t ++ l) = true -> addNodes t l = t ++ l.
Proof.
  unfold addNodes. induction l as [| x l IH]; intros t H; cbn [fold_left].
  - now rewrite app_nil_r.
  - unfold addNode at 2. rewrite append_single.
    + rewrite IH; rewrite <- app_assoc; [reflexivity | exact H].
    + apply noAdjacentText_app_inv with (b := l). now rewrite <- app_assoc.
Qed.

Lemma addNodes_nil l : noAdjacentText l = true -> addNodes [] l = l.
Proof. intros H. now rewrite addNodes_app. Qed.

Lemma replaceChild_middle l1 x l2 y :
  replaceChild (l1 ++ x :: l2) (List.length l1) y = l1 ++ y :: l2.
Proof. induction l1 as [| z l1 IH]; cbn [replaceChild app List.length]; [reflexivity | now
    rewrite IH]. Qed.

(** ** [cut] on a run of whole children *)

Lemma cutLoop_skip l1 : forall from to l posn,
  positive l1 -> posn + fragSize l1 <= from -> from < to ->
  cutLoop cutNode from to (l1 ++ l) posn = cutLoop cutNode from to l (posn + fragSize l1).
Proof.
  induction l1 as [| x l1 IH]; intros from to l posn Hpos Hle Hlt; cbn [app fragSize] in *.
  - f_equal. lia.
  - inversion Hpos; subst. pose proof (fragSize_nonneg l1).
    cbn [cutLoop].
    destruct (Z.ltb_spec posn to); [| lia].
    destruct (Z.ltb_spec from (posn + nodeSize x)); [lia |].
    rewrite IH by (auto; lia). f_equal. lia.
Qed.

Lemma cutLoop_whole l2 : forall from to l3 posn,
  positive l2 -> from <= posn -> posn + fragSize l2 = to ->
  cutLoop cutNode from to (l2 ++ l3) posn = l2.
Proof.
  induction l2 as [| x l2 IH]; intros from to l3 posn Hpos Hle Hto; cbn [app fragSize] in *.
  - destruct l3 as [| y l3]; [reflexivity |]. cbn [cutLoop].
    destruct (Z.ltb_spec posn to); [lia | reflexivity].
  - inversion Hpos; subst. pose proof (fragSize_nonneg l2).
    cbn [cutLoop].
    destruct (Z.ltb_spec posn (posn + (nodeSize x + fragSize l2))); [| lia].
    destruct (Z.ltb_spec from (posn + nodeSize x)); [| lia].
    destruct (Z.ltb_spec posn from); [lia |].
    destruct (Z.ltb_spec (posn + (nodeSize x + fragSize l2)) (posn + nodeSize x)); [lia |].
    cbn [orb]. f_equal. apply IH; auto; lia.
Qed.

Lemma cut_middle l1 l2 l3 :
  positive (l1 ++ l2 ++ l3) -> l2 <> [] ->
  cut (l1 ++ l2 ++ l3) (fragSize l1) (fragSize l1 + fragSize l2) = l2.
Proof.
  intros Hpos Hne.
  apply positive_app in Hpos. destruct Hpos as [H1 H23].
  apply positive_app in H23. destruct H23 as [H2 H3].
  pose proof (positive_fragSize H2 Hne) as Hsz.
  pose proof (fragSize_nonneg l1). pose proof (fragSize_nonneg l3).
  unfold cut.
  destruct ((fragSize l1 =? 0) && (fragSize l1 + fragSize l2 =? fragSize (l1 ++ l2 ++ l3))) eqn:E.
  - apply andb_true_iff in E. destruct E as [E1 E2].
    apply Z.eqb_eq in E1, E2. rewrite !fragSize_app in E2.
    assert (l1 = []) as ->.
    { destruct l1 as [| y l1]; [reflexivity |].
      assert (0 < fragSize (y :: l1)) by (apply positive_fragSize; [exact H1 | discriminate]).
      lia. }
    assert (l3 = []) as ->.
    { destruct l3 as [| y l3]; [reflexivity |].
      assert (0 < fragSize (y :: l3)) by (apply positive_fragSize; [exact H3 | discriminate]).
      lia. }
    cbn [app]. now rewrite app_nil_r.
  - destruct (Z.ltb_spec (fragSize l1) (fragSize l1 + fragSize l2)); [| lia].
    rewrite cutLoop_skip by (auto; lia).
    apply cutLoop_whole; auto; lia.
Qed.

Lemma cut_empty_range l p : cut l p p = match l with [] => l | _ => if (p =? 0) && (p =?
    fragSize l) then l else [] end.
Proof.
  unfold cut. destruct ((p =? 0) && (p =? fragSize l)) eqn:E.
  - destruct l; reflexivity.
  - rewrite Z.ltb_irrefl. destruct l; [| reflexivity].
    cbn in E. destruct (Z.eqb_spec p 0); [discriminate | reflexivity].
Qed.

End FragmentFacts.

(* ================================================================== *)
(** * Facts about the structural replace *)
(* ================================================================== *)

Module ReplaceFacts.
Import Model Resolve Replace Transform Context Shapes.
Import ModelFacts ResolveFacts PathFacts RangeFacts FragmentFacts.

(** ** Resolving the boundaries of a node under a context *)

Lemma ctxPath_app c1 c2 m : forall st,
  ctxPath st (c1 ++ c2) m
  = ctxPath st c1 (plug c2 m) ++ ctxPath (ctxStart st c1) c2 m.
Proof.
  induction c1 as [| f c1 IH]; intros st; cbn [app ctxPath ctxStart plug]; [reflexivity |].
  rewrite IH, plug_app. reflexivity.
Qed.

Lemma ctxPositive_snoc ctx f :
  ctxPositive ctx -> positive (fLeft f) -> ctxPositive (ctx ++ [f]).
Proof.
  intros H1 H2. unfold ctxPositive. apply Forall_app. split; [exact H1 |].
  constructor; [exact H2 | constructor].
Qed.

Lemma resolve_list_boundary ctx t a c k :
  ctxPositive ctx -> positive (firstn k c) -> (k <= List.length c)%nat ->
  resolve (plug ctx (Elem t a c)) (ctxStart 0 ctx + fragSize (firstn k c))
  = Some (mkResolved (ctxStart 0 ctx + fragSize (firstn k c))
            (ctxPath 0 ctx (Elem t a c)
             ++ [mkEntry (Elem t a c) k (ctxStart 0 ctx + fragSize (firstn k c))])).
Proof.
  intros Hctx Hpos Hk.
  pose proof (ctxStart_ge 0 ctx).
  pose proof (@ctxStart_contentSize ctx (Elem t a c) 0 eq_refl) as Hsz.
  rewrite contentSize_Elem in Hsz.
  pose proof (fragSize_firstn_le c k). pose proof (fragSize_nonneg (firstn k c)).
  rewrite resolve_ok by lia. do 2 f_equal.
  replace (ctxStart 0 ctx + fragSize (firstn k c))
    with (ctxStart 0 ctx - 0 + fragSize (firstn k c)) at 1 by lia.
  rewrite resolveLoop_plug by (auto; cbn; lia).
  now rewrite resolveLoop_boundary.
Qed.

Lemma resolve_child_boundary ctx t a l1 t' a' c' l2 k :
  ctxPositive ctx -> positive l1 -> positive (firstn k c') ->
  (k <= List.length c')%nat ->
  resolve (plug ctx (Elem t a (l1 ++ Elem t' a' c' :: l2)))
    (ctxStart 0 ctx + fragSize l1 + 1 + fragSize (firstn k c'))
  = Some (mkResolved (ctxStart 0 ctx + fragSize l1 + 1 + fragSize (firstn k c'))
            (ctxPath 0 ctx (Elem t a (l1 ++ Elem t' a' c' :: l2))
             ++ [mkEntry (Elem t a (l1 ++ Elem t' a' c' :: l2)) (List.length l1)
                   (ctxStart 0 ctx + fragSize l1);
                 mkEntry (Elem t' a' c') k
                   (ctxStart 0 ctx + fragSize l1 + 1 + fragSize (firstn k c'))])).
Proof.
  intros Hctx Hl1 Hpos Hk.
  pose proof (@resolve_list_boundary (ctx ++ [mkFrame t a l1 l2]) t' a' c' k
                (@ctxPositive_snoc ctx (mkFrame t a l1 l2) Hctx Hl1) Hpos Hk) as E.
  rewrite plug_app, ctxStart_snoc, ctxPath_app in E.
  cbn [plug fill fType fAttrs fLeft fRight ctxPath] in E.
  rewrite <- app_assoc in E. cbn [app] in E. exact E.
Qed.

(** ** Evaluating [addRange] *)

Lemma addRange_before r d t :
  addRange None (Some r) d t
  = let t2 := addNodes t (firstn (index r d) (contentOf (node r d))) in
    if (depth r =? d)%nat && negb (textOffset r =? 0)
    then addOpt t2 (nodeBefore r) else t2.
Proof. unfold addRange. now rewrite Nat.sub_0_r. Qed.

Lemma addRange_after_deep r d t :
  (d < depth r)%nat ->
  addRange (Some r) None d t
  = addNodes t (skipn (S (index r d)) (contentOf (node r d))).
Proof.
  intros H. unfold addRange. apply Nat.ltb_lt in H. rewrite H.
  f_equal. apply firstn_all2. rewrite length_skipn. unfold childCount. lia.
Qed.

Lemma addRange_after_flat r d t :
  (d <? depth r)%nat = false -> textOffset r = 0 ->
  addRange (Some r) None d t
  = addNodes t (skipn (index r d) (contentOf (node r d))).
Proof.
  intros H Ht. unfold addRange. rewrite H, Ht. cbn [Z.eqb negb].
  f_equal. apply firstn_all2. rewrite length_skipn. unfold childCount. lia.
Qed.

Lemma addRange_between_flat a b d t :
  (d <? depth a)%nat = false -> textOffset a = 0 -> textOffset b = 0 ->
  addRange (Some a) (Some b) d t
  = addNodes t (firstn (index b d - index a d)
                  (skipn (index a d) (contentOf (node b d)))).
Proof.
  intros H Ha Hb. unfold addRange. rewrite H, Ha, Hb. cbn [Z.eqb negb].
  now rewrite andb_false_r.
Qed.

(** ** Descending along a shared context *)

Lemma option_map_id (A : Type) (x : option A) : option_map (fun a => a) x = x.
Proof. destruct x; reflexivity. Qed.

Lemma replaceOuter_descend sch ctx m p1 p2 r1 r2 s : forall n k fuel,
  r1 <> [] ->
  (List.length ctx + openStart s
   <= depth (mkResolved p1 (ctxPath 0 ctx m ++ r1)))%nat ->
  (k + n = List.length ctx)%nat -> (n <= fuel)%nat ->
  replaceOuter sch fuel (mkResolved p1 (ctxPath 0 ctx m ++ r1))
    (mkResolved p2 (ctxPath 0 ctx m ++ r2)) s k
  = option_map (plug (skipn k ctx))
      (replaceOuter sch (fuel - n) (mkResolved p1 (ctxPath 0 ctx m ++ r1))
         (mkResolved p2 (ctxPath 0 ctx m ++ r2)) s (List.length ctx)).
Proof.
  induction n as [| n IH]; intros k fuel Hr1 Hdepth Hk Hfuel.
  - replace k with (List.length ctx) by lia.
    rewrite skipn_all, Nat.sub_0_r. cbn [plug]. now rewrite option_map_id.
  - destruct fuel as [| fuel]; [lia |].
    assert (Hklt : (k < List.length ctx)%nat) by lia.
    destruct (nth_error ctx k) as [f |] eqn:Ef;
      [| apply nth_error_None in Ef; lia].
    cbn [replaceOuter].
    rewrite (shape_index_ctx p1 ctx m r1 k Ef), (shape_index_ctx p2 ctx m r2 k Ef).
    rewrite Nat.eqb_refl. cbn [andb].
    destruct (Nat.ltb_spec k (depth (mkResolved p1 (ctxPath 0 ctx m ++ r1)) - openStart s));
      [| lia].
    rewrite (IH (k + 1)%nat fuel) by (auto; lia).
    replace (S fuel - S n)%nat with (fuel - n)%nat by lia.
    rewrite (shape_node_ctx p1 ctx m r1 Hklt).
    destruct (replaceOuter sch (fuel - n) _ _ s (List.length ctx)) as [inner |];
      [| reflexivity].
    cbn [option_map bind]. f_equal.
    assert (Hsk : skipn k ctx = f :: skipn (k + 1) ctx).
    { rewrite Nat.add_1_r. clear - Ef. revert k Ef.
      induction ctx as [| g ctx IH]; intros [| k] Ef; cbn in *; try discriminate.
      - now inversion Ef.
      - now apply IH. }
    rewrite Hsk. cbn [plug]. unfold fill. cbn [copy contentOf].
    now rewrite replaceChild_middle.
Qed.

(** ** One iteration of the recursive functions *)

Lemma replaceThreeWay_unfold sch fuel rfrom rstart rend rto d :
  replaceThreeWay sch fuel rfrom rstart rend rto d =
    do openS <- (if (d <? depth rfrom)%nat
                 then option_map Some (joinable sch rfrom rstart (d + 1))
                 else Some None);
    do openE <- (if (d <? depth rto)%nat
                 then option_map Some (joinable sch rend rto (d + 1))
                 else Some None);
    let content := addRange None (Some rfrom) d [] in
    let separate :=
      do c1 <- match openS with
               | Some os =>
                   do inner <- replaceTwoWay sch (depth rfrom - (d + 1)) rfrom rstart (d + 1);
                   do closed <- close sch os inner;
                   Some (addNode content closed)
               | None => Some content
               end;
      let c2 := addRange (Some rstart) (Some rend) d c1 in
      match openE with
      | Some oe =>
          do inner <- replaceTwoWay sch (depth rend - (d + 1)) rend rto (d + 1);
          do closed <- close sch oe inner;
          Some (addNode c2 closed)
      | None => Some c2
      end in
    do content1 <-
      match openS, openE with
      | Some os, Some oe =>
          if (index rstart d =? index rend d)%nat then
            if checkJoin sch os oe then
              match fuel with
              | O => None
              | S fuel' =>
                  do inner <- replaceThreeWay sch fuel' rfrom rstart rend rto (d + 1);
                  do closed <- close sch os inner;
                  Some (addNode content closed)
              end
            else None
          else separate
      | _, _ => separate
      end;
    Some (addRange (Some rto) None d content1).
Proof. destruct fuel; reflexivity. Qed.

Lemma replaceTwoWay_unfold sch fuel rfrom rto d :
  replaceTwoWay sch fuel rfrom rto d =
    let content := addRange None (Some rfrom) d [] in
    do content1 <-
      (if (d <? depth rfrom)%nat then
         match fuel with
         | O => None
         | S fuel' =>
             do type <- joinable sch rfrom rto (d + 1);
             do inner <- replaceTwoWay sch fuel' rfrom rto (d + 1);
             do closed <- close sch type inner;
             Some (addNode content closed)
         end
       else Some content);
    Some (addRange (Some rto) None d content1).
Proof. destruct fuel; reflexivity. Qed.

Lemma replaceOuter_unfold sch fuel rfrom rto s d :
  replaceOuter sch fuel rfrom rto s d =
    let idx := index rfrom d in
    let n := node rfrom d in
    if (idx =? index rto d)%nat && (d <? depth rfrom - openStart s)%nat then
      match fuel with
      | O => None
      | S fuel' =>
          do inner <- replaceOuter sch fuel' rfrom rto s (d + 1);
          Some (copy n (replaceChild (contentOf n) idx inner))
      end
    else if fragSize (sContent s) =? 0 then
      do c <- replaceTwoWay sch (depth rfrom - d) rfrom rto d;
      close sch n c
    else if (openStart s =? 0)%nat && (openEnd s =? 0)%nat
            && (depth rfrom =? d)%nat && (depth rto =? d)%nat then
      let par := parent rfrom in
      let content := contentOf par in
      close sch par
        (append (append (cut content 0 (parentOffset rfrom)) (sContent s))
           (cut content (parentOffset rto) (fragSize content)))
    else
      do se <- prepareSliceForReplace s rfrom;
      do c <- replaceThreeWay sch (depth rfrom - d) rfrom (fst se) (snd se) rto d;
      close sch n c.
Proof. destruct fuel; reflexivity. Qed.

(** ** Wrapping a slice in copies of the ancestors *)

Lemma wrapAlong_plug rp : forall i n,
  (forall k, (k < i)%nat -> isText (node rp k) = false) ->
  exists B, List.length B = i /\ Forall bare B /\ wrapAlong rp n i = plug B n.
Proof.
  induction i as [| i IH]; intros n Hk; cbn [wrapAlong].
  - exists []. repeat split. constructor.
  - destruct (IH (copy (node rp i) [n])) as (B & Hlen & Hbare & E); [intros; apply Hk; lia |].
    specialize (Hk i ltac:(lia)).
    destruct (node rp i) as [s | t a c]; [discriminate |].
    exists (B ++ [mkFrame t a [] []]). rewrite length_app. cbn [List.length].
    split; [lia |]. split.
    + apply Forall_app. split; [exact Hbare |]. constructor; [now split | constructor].
    + rewrite E, plug_app. reflexivity.
Qed.

Lemma bare_ctxStart B : forall st,
  Forall bare B -> ctxStart st B = st + Z.of_nat (List.length B).
Proof.
  induction B as [| f B IH]; intros st H; cbn [ctxStart List.length]; [lia |].
  inversion H as [| ? ? [Hl _] HB]; subst. rewrite IH, Hl by exact HB.
  cbn [fragSize]. lia.
Qed.

Lemma bare_positive B : Forall bare B -> ctxPositive B.
Proof.
  induction 1 as [| f B [Hl _] _ IH]; constructor; [| exact IH].
  rewrite Hl. constructor.
Qed.

Lemma bare_contentSize B n :
  B <> [] -> isText n = false -> Forall bare B ->
  contentSize (plug B n) = nodeSize n + 2 * (Z.of_nat (List.length B) - 1).
Proof.
  intros Hne Hn HB. induction HB as [| f B [Hl Hr] HB IH]; [congruence |].
  cbn [plug List.length]. unfold fill. rewrite contentSize_Elem, Hl, Hr.
  cbn [app fragSize]. destruct B as [| g B].
  - cbn [plug List.length]. lia.
  - rewrite (nodeSize_contentSize _ (plug_isText (g :: B) _ Hn)).
    rewrite IH by discriminate. cbn [List.length]. lia.
Qed.

Lemma bare_index p B m rest k :
  Forall bare B -> (k < List.length B)%nat ->
  index (mkResolved p (ctxPath 0 B m ++ rest)) k = 0%nat.
Proof.
  intros HB Hk. destruct (nth_error B k) as [f |] eqn:Ef;
    [| apply nth_error_None in Ef; lia].
  rewrite (shape_index_ctx p B m rest k Ef).
  rewrite Forall_forall in HB. destruct (HB f (nth_error_In _ _ Ef)) as [-> _].
  reflexivity.
Qed.

End ReplaceFacts.

(* ================================================================== *)
(** * The step of the first branch, on the tree *)
(* ================================================================== *)

Module SameListFacts.
Import Model Resolve Replace Transform Context Indent Shapes.
Import ModelFacts ResolveFacts PathFacts RangeFacts FragmentFacts ReplaceFacts.

Lemma normals_In l x : normals l = true -> In x l -> normal x = true.
Proof. unfold normals. rewrite forallb_forall. auto. Qed.

Section SameList.
Variable sch : Schema.
Variables (ctx : list Frame) (lt : NodeType) (la : Attrs).
Variables (pre : Fragment) (pt : NodeType) (pa : Attrs) (pc : Fragment).
Variables (sel0 : Fragment) (st : NodeType) (sa : Attrs) (sc : Fragment).
Variable post : Fragment.

Local Abbreviation prev := (Elem pt pa pc).
Local Abbreviation lastSel := (Elem st sa sc).
Local Abbreviation sel := (sel0 ++ [lastSel]).
Local Abbreviation cs := (pre ++ prev :: sel ++ post).
Local Abbreviation L := (Elem lt la cs).
Local Abbreviation doc := (plug ctx L).
Local Abbreviation LS := (ctxStart 0 ctx).
Local Abbreviation s := (LS + fragSize pre + nodeSize prev).
Local Abbreviation e := (s + fragSize sel).
Local Abbreviation NL := (Elem lt la sel).
Local Abbreviation prev' := (Elem pt pa (pc ++ [NL])).
Local Abbreviation L' := (Elem lt la (pre ++ prev' :: post)).

Hypothesis Hctx : ctxPositive ctx.
Hypothesis Hnorm : normal L = true.
Hypothesis Hitems : nonText cs.

Lemma cs_last : cs = (pre ++ prev :: sel0) ++ lastSel :: post.
Proof. rewrite <- !app_assoc. reflexivity. Qed.

Lemma cs_mid : cs = (pre ++ [prev]) ++ sel ++ post.
Proof. rewrite <- !app_assoc. reflexivity. Qed.

Lemma cs_positive : positive cs.
Proof. apply normals_positive. now apply normal_children in Hnorm. Qed.

Lemma pre_positive : positive pre.
Proof. pose proof cs_positive as H. now apply positive_app in H. Qed.

Lemma prev_normal : normal prev = true.
Proof.
  apply normal_children in Hnorm. apply (normals_In _ _ Hnorm).
  apply in_or_app. right. now left.
Qed.

Lemma lastSel_normal : normal lastSel = true.
Proof.
  apply normal_children in Hnorm. apply (normals_In _ _ Hnorm).
  rewrite cs_last. apply in_or_app. right. now left.
Qed.

Lemma sel_size : 2 <= fragSize sel.
Proof.
  rewrite fragSize_app. cbn [fragSize].
  pose proof (fragSize_nonneg sel0). pose proof (nodeSize_Elem_ge st sa sc). lia.
Qed.

Lemma path_from :
  resolve doc (s - 1)
  = Some (mkResolved (s - 1)
            (ctxPath 0 ctx L
             ++ [mkEntry L (List.length pre) (LS + fragSize pre);
                 mkEntry prev (List.length pc) (s - 1)])).
Proof.
  pose proof (@resolve_child_boundary ctx lt la pre pt pa pc (sel ++ post)
                (List.length pc) Hctx pre_positive) as E.
  rewrite firstn_all in E.
  replace (LS + fragSize pre + 1 + fragSize pc) with (s - 1) in E
    by (rewrite nodeSize_Elem; lia).
  apply E; [| lia].
  apply normals_positive. exact (normal_children _ _ _ prev_normal).
Qed.

Lemma path_to :
  resolve doc (e - 1)
  = Some (mkResolved (e - 1)
            (ctxPath 0 ctx L
             ++ [mkEntry L (List.length pre + 1 + List.length sel0)
                   (e - nodeSize lastSel);
                 mkEntry lastSel (List.length sc) (e - 1)])).
Proof.
  assert (Hpos : positive (pre ++ prev :: sel0)).
  { pose proof cs_positive as H. rewrite cs_last in H.
    now apply positive_app in H. }
  pose proof (@resolve_child_boundary ctx lt la (pre ++ prev :: sel0) st sa sc post
                (List.length sc) Hctx Hpos) as E.
  rewrite firstn_all, <- cs_last in E.
  assert (Hsz : fragSize (pre ++ prev :: sel0)
                = fragSize pre + nodeSize prev + fragSize sel0).
  { rewrite fragSize_app. cbn [fragSize]. lia. }
  assert (Hsel : fragSize sel = fragSize sel0 + nodeSize lastSel).
  { rewrite fragSize_app. cbn [fragSize]. lia. }
  replace (LS + fragSize (pre ++ prev :: sel0) + 1 + fragSize sc)
    with (e - 1) in E by (rewrite Hsz, Hsel, (nodeSize_Elem st sa sc); lia).
  replace (LS + fragSize (pre ++ prev :: sel0)) with (e - nodeSize lastSel) in E
    by (rewrite Hsz, Hsel; lia).
  replace (List.length (pre ++ prev :: sel0))
    with (List.length pre + 1 + List.length sel0)%nat in E
    by (rewrite length_app; cbn [List.length]; lia).
  apply E; [| lia].
  apply normals_positive. exact (normal_children _ _ _ lastSel_normal).
Qed.

Lemma firstn_pre_prev : firstn (List.length pre + 1) cs = pre ++ [prev].
Proof.
  rewrite cs_mid.
  replace (List.length pre + 1)%nat with (List.length (pre ++ [prev]) + 0)%nat
    by (rewrite length_app; cbn [List.length]; lia).
  rewrite firstn_app_2. cbn [firstn]. now rewrite app_nil_r.
Qed.

Lemma firstn_pre_prev_sel :
  firstn (List.length pre + 1 + List.length sel) cs = (pre ++ [prev]) ++ sel.
Proof.
  rewrite cs_mid, app_assoc.
  replace (List.length pre + 1 + List.length sel)%nat
    with (List.length ((pre ++ [prev]) ++ sel) + 0)%nat
    by (rewrite !length_app; cbn [List.length]; lia).
  rewrite firstn_app_2. cbn [firstn]. now rewrite app_nil_r.
Qed.

Lemma path_start :
  resolve doc s
  = Some (mkResolved s
            (ctxPath 0 ctx L ++ [mkEntry L (List.length pre + 1) s])).
Proof.
  pose proof (@resolve_list_boundary ctx lt la cs (List.length pre + 1) Hctx) as E.
  rewrite firstn_pre_prev, fragSize_app in E. cbn [fragSize] in E.
  replace (LS + (fragSize pre + (nodeSize prev + 0))) with s in E by lia.
  apply E.
  - pose proof cs_positive as H. rewrite cs_mid in H. now apply positive_app in H.
  - rewrite !length_app. cbn [List.length]. lia.
Qed.

Lemma path_end :
  resolve doc e
  = Some (mkResolved e
            (ctxPath 0 ctx L
             ++ [mkEntry L (List.length pre + 1 + List.length sel) e])).
Proof.
  pose proof (@resolve_list_boundary ctx lt la cs
                (List.length pre + 1 + List.length sel) Hctx) as E.
  rewrite firstn_pre_prev_sel, !fragSize_app in E. cbn [fragSize] in E.
  replace (LS + (fragSize pre + (nodeSize prev + 0)
                 + (fragSize sel0 + (nodeSize lastSel + 0)))) with e in E
    by (rewrite fragSize_app; cbn [fragSize]; lia).
  apply E.
  - pose proof cs_positive as H. rewrite cs_mid, app_assoc in H.
    now apply positive_app in H.
  - rewrite !length_app. cbn [List.length]. rewrite !length_app. cbn [List.length]. lia.
Qed.

(** The gap of the step is the run of selected items. *)
Lemma gap_slice : slice doc s e = Some (mkSlice sel 0 0).
Proof.
  unfold slice. pose proof sel_size as Hsz.
  destruct (Z.eqb_spec s e) as [Heq | _]; [lia |].
  rewrite path_start, path_end.
  assert (Hshared : sharedDepth
            (mkResolved s (ctxPath 0 ctx L ++ [mkEntry L (List.length pre + 1) s])) e
            = List.length ctx).
  { unfold sharedDepth. rewrite hole_depth. cbn [List.length]. rewrite Nat.add_0_r.
    destruct (List.length ctx) as [| d] eqn:Ed; [reflexivity |].
    cbn [sharedDepthFrom]. rewrite <- Ed. unfold end_.
    rewrite hole_start, hole_node. cbn [peNode].
    rewrite contentSize_Elem.
    assert (Hcs : fragSize cs = fragSize pre + nodeSize prev + fragSize sel + fragSize post).
    { rewrite cs_mid, !fragSize_app. cbn [fragSize]. lia. }
    pose proof (fragSize_nonneg pre). pose proof (fragSize_nonneg post).
    pose proof (nodeSize_nonneg prev).
    destruct (Z.leb_spec LS e); [| lia].
    destruct (Z.leb_spec e (LS + fragSize cs)); [| lia]. reflexivity. }
  rewrite Hshared, hole_start, hole_node, !hole_depth. cbn [peNode pos List.length contentOf].
  rewrite Nat.add_0_r, Nat.sub_diag. f_equal. f_equal.
  replace (s - LS) with (fragSize (pre ++ [prev]))
    by (rewrite fragSize_app; cbn [fragSize]; lia).
  replace (e - LS) with (fragSize (pre ++ [prev]) + fragSize sel)
    by (rewrite fragSize_app; cbn [fragSize]; lia).
  rewrite cs_mid. apply cut_middle.
  - rewrite <- cs_mid. exact cs_positive.
  - destruct sel0; discriminate.
Qed.

(** The slice of the step with the gap inserted: the new nested list. *)
Lemma inserted_slice :
  insertAt sch (mkSlice [Elem lt la []] 0 0) 1 sel = Some (mkSlice [NL] 0 0).
Proof.
  unfold insertAt, insertInto. cbn [sContent openStart openEnd Z.of_nat Z.add].
  unfold insertIntoNode at 1. cbn -[insertIntoNode append cut].
  cbn [insertIntoNode contentOf findIndex findIndexFrom Z.ltb Z.eqb Z.compare
       withChild isText].
  unfold insertHere. rewrite !cut_empty_range. cbn [append bind].
  rewrite append_nil_r. reflexivity.
Qed.

Local Abbreviation eL1 := (mkEntry L (List.length pre) (LS + fragSize pre)).
Local Abbreviation eP := (mkEntry prev (List.length pc) (s - 1)).
Local Abbreviation eL2 :=
  (mkEntry L (List.length pre + 1 + List.length sel0) (e - nodeSize lastSel)).
Local Abbreviation eS := (mkEntry lastSel (List.length sc) (e - 1)).
Local Abbreviation rfrom := (mkResolved (s - 1) (ctxPath 0 ctx L ++ [eL1; eP])).
Local Abbreviation rto := (mkResolved (e - 1) (ctxPath 0 ctx L ++ [eL2; eS])).
Local Abbreviation X := (Elem pt pa [NL]).

(** The slice wrapped in copies of the ancestors of the previous item,
    and the two positions that delimit it. *)
Lemma prepared :
  exists B,
    List.length B = (List.length ctx + 1)%nat /\ Forall bare B /\
    prepareSliceForReplace (mkSlice [NL] 0 0) rfrom
    = Some (mkResolved (Z.of_nat (List.length B))
              (ctxPath 0 B X ++ [mkEntry X 0 (Z.of_nat (List.length B))]),
            mkResolved (Z.of_nat (List.length B) + nodeSize NL)
              (ctxPath 0 B X
               ++ [mkEntry X 1 (Z.of_nat (List.length B) + nodeSize NL)])).
Proof.
  unfold prepareSliceForReplace. cbn [openStart openEnd sContent].
  rewrite two_depth, Nat.sub_0_r, two_node. cbn [peNode copy].
  destruct (@wrapAlong_plug rfrom (List.length ctx + 1) X) as (B & HB & Hbare & E).
  { intros k Hk. destruct (Nat.eq_dec k (List.length ctx)) as [-> | Hne].
    - now rewrite hole_node.
    - rewrite shape_node_ctx by lia. now apply plug_isText. }
  exists B. split; [exact HB |]. split; [exact Hbare |]. rewrite E.
  assert (HBne : B <> []) by (destruct B; [cbn in HB; lia | discriminate]).
  rewrite (@bare_contentSize B X HBne eq_refl Hbare).
  pose proof (@resolve_list_boundary B pt pa [NL] 0 (bare_positive Hbare)) as E0.
  pose proof (@resolve_list_boundary B pt pa [NL] 1 (bare_positive Hbare)) as E1.
  rewrite (bare_ctxStart 0 Hbare) in E0, E1.
  cbn [firstn fragSize] in E0, E1. rewrite Z.add_0_l, ?Z.add_0_r in E0, E1.
  rewrite <- HB.
  replace (Z.of_nat 0 + Z.of_nat (List.length B)) with (Z.of_nat (List.length B)) by lia.
  rewrite E0; [| constructor | cbn; lia].
  replace (nodeSize X + 2 * (Z.of_nat (List.length B) - 1) - Z.of_nat 0
           - Z.of_nat (List.length B))
    with (Z.of_nat (List.length B) + nodeSize NL)
    by (rewrite (nodeSize_Elem pt pa [NL]); cbn [fragSize]; lia).
  rewrite E1; [reflexivity | | cbn; lia].
  constructor; [| constructor]. pose proof (nodeSize_Elem_ge lt la sel). lia.
Qed.

Section Prepared.
Variable B : list Frame.
Hypothesis HB : List.length B = (List.length ctx + 1)%nat.
Hypothesis Hbare : Forall bare B.

Local Abbreviation rstart :=
  (mkResolved (Z.of_nat (List.length B))
     (ctxPath 0 B X ++ [mkEntry X 0 (Z.of_nat (List.length B))])).
Local Abbreviation rend :=
  (mkResolved (Z.of_nat (List.length B) + nodeSize NL)
     (ctxPath 0 B X ++ [mkEntry X 1 (Z.of_nat (List.length B) + nodeSize NL)])).

Lemma pc_noAdjacent : noAdjacentText pc = true.
Proof. exact (normal_noAdjacent _ _ _ prev_normal). Qed.

Lemma threeWay_inner :
  replaceThreeWay sch 0 rfrom rstart rend rto (List.length ctx + 1)
  = Some (pc ++ [NL]).
Proof.
  rewrite replaceThreeWay_unfold.
  rewrite !two_depth, Nat.ltb_irrefl. cbn [bind].
  rewrite addRange_before, two_index, two_node, two_depth, two_textOffset.
  cbn [peIndex peNode peOffset contentOf].
  rewrite Z.sub_diag, firstn_all, addNodes_nil by exact pc_noAdjacent.
  cbn [Z.eqb negb]. rewrite andb_false_r. cbv zeta.
  rewrite addRange_between_flat.
  - rewrite <- HB, !hole_index, !hole_node. cbn [peIndex peNode contentOf].
    cbn [Nat.sub skipn firstn].
    rewrite addNodes_app by (apply noAdjacentText_snoc; [exact pc_noAdjacent | reflexivity]).
    rewrite addRange_after_flat.
    + rewrite HB, two_index, two_node. cbn [peIndex peNode contentOf].
      rewrite skipn_all. reflexivity.
    + rewrite HB, two_depth. apply Nat.ltb_irrefl.
    + rewrite two_textOffset. cbn [peOffset]. lia.
  - rewrite hole_depth, HB. cbn [List.length]. rewrite Nat.add_0_r. apply Nat.ltb_irrefl.
  - rewrite one_textOffset. cbn [peOffset]. lia.
  - rewrite one_textOffset. cbn [peOffset]. lia.
Qed.

Lemma post_skip :
  skipn (S (List.length pre + 1 + List.length sel0)) cs = post.
Proof.
  rewrite cs_last.
  replace (S (List.length pre + 1 + List.length sel0))
    with (List.length ((pre ++ prev :: sel0) ++ [lastSel]))
    by (rewrite !length_app; cbn [List.length]; lia).
  replace ((pre ++ prev :: sel0) ++ lastSel :: post)
    with (((pre ++ prev :: sel0) ++ [lastSel]) ++ post)
    by (now rewrite <- app_assoc).
  now rewrite skipn_app, skipn_all, Nat.sub_diag.
Qed.

Lemma pre_firstn : firstn (List.length pre) cs = pre.
Proof.
  replace (List.length pre) with (List.length pre + 0)%nat by lia.
  rewrite firstn_app_2. cbn [firstn]. now rewrite app_nil_r.
Qed.

Lemma result_noAdjacent : noAdjacentText ((pre ++ [prev']) ++ post) = true.
Proof.
  apply noAdjacentText_nonText. unfold nonText in *.
  rewrite Forall_app in Hitems. destruct Hitems as [Hpre Hrest].
  inversion Hrest as [| ? ? _ Hrest']; subst.
  rewrite Forall_app in Hrest'. destruct Hrest' as [_ Hpost].
  apply Forall_app. split; [| exact Hpost].
  apply Forall_app. split; [exact Hpre |]. constructor; [reflexivity | constructor].
Qed.

Lemma threeWay_outer :
  replaceThreeWay sch 1 rfrom rstart rend rto (List.length ctx)
  = if joinChecks sch pt st
    then do closed <- close sch prev (pc ++ [NL]);
         Some (pre ++ closed :: post)
    else None.
Proof.
  rewrite replaceThreeWay_unfold.
  rewrite !two_depth.
  destruct (Nat.ltb_spec (List.length ctx) (List.length ctx + 1)) as [_ | Hx]; [| lia].
  unfold joinable. rewrite !two_node. rewrite <- HB, !hole_node. cbn [peNode].
  unfold checkJoin, joinChecks. cbn [typeOf].
  destruct (compatibleContent sch pt pt) eqn:E1; cbn [option_map bind andb]; [| reflexivity].
  destruct (compatibleContent sch st pt) eqn:E2; cbn [option_map bind]; [| reflexivity].
  rewrite !(bare_index _ _ _ Hbare) by lia. cbn [Nat.eqb].
  cbn [typeOf]. rewrite E1.
  replace (replaceThreeWay sch 0 rfrom rstart rend rto (List.length B))
    with (replaceThreeWay sch 0 rfrom rstart rend rto (List.length ctx + 1))
    by (now rewrite <- HB).
  rewrite threeWay_inner. cbn [bind].
  destruct (close sch prev (pc ++ [NL])) as [closed |] eqn:Ec; cbn [bind]; [| reflexivity].
  f_equal.
  rewrite addRange_before, hole_index, hole_node, two_depth. cbn [peIndex peNode contentOf].
  destruct (Nat.eqb_spec (List.length ctx + 1) (List.length ctx)) as [Hx | _]; [lia |].
  cbn [andb]. cbv zeta. rewrite pre_firstn.
  assert (Hcl : closed = prev').
  { unfold close in Ec. destruct (validContent sch _ _); inversion Ec. reflexivity. }
  subst closed.
  rewrite addNodes_nil
    by (apply (noAdjacentText_app_inv pre ([prev'] ++ post));
        rewrite app_assoc; exact result_noAdjacent).
  unfold addNode. rewrite append_single_elem by reflexivity.
  rewrite addRange_after_deep by (rewrite two_depth; lia).
  rewrite hole_index, hole_node. cbn [peIndex peNode contentOf].
  rewrite post_skip, addNodes_app by exact result_noAdjacent.
  now rewrite <- app_assoc.
Qed.

End Prepared.

(** What [doc.replace] computes for the step of the first branch. *)
Lemma replace_same_list :
  replace sch rfrom rto (mkSlice [NL] 0 0)
  = if joinChecks sch pt st
       && validContent sch pt (childTypes (pc ++ [NL]))
       && validContent sch lt (childTypes (pre ++ prev' :: post))
    then Some (plug ctx L') else None.
Proof.
  unfold replace. cbn [openStart openEnd]. rewrite !two_depth.
  destruct (Nat.ltb_spec (List.length ctx + 1) 0) as [Hx | _]; [lia |].
  rewrite Z.eqb_refl. cbn [negb].
  rewrite (@replaceOuter_descend sch ctx L (s - 1) (e - 1) [eL1; eP] [eL2; eS]
             (mkSlice [NL] 0 0) (List.length ctx) 0 (List.length ctx + 1));
    [| discriminate | rewrite two_depth; cbn [openStart]; lia | lia | lia].
  replace (List.length ctx + 1 - List.length ctx)%nat with 1%nat by lia.
  cbn [skipn]. rewrite replaceOuter_unfold. cbv zeta.
  rewrite !hole_index, hole_node, !two_depth. cbn [peIndex peNode openStart openEnd sContent].
  destruct (Nat.eqb_spec (List.length pre) (List.length pre + 1 + List.length sel0))
    as [Hx | _]; [lia |].
  cbn [andb fragSize].
  pose proof (nodeSize_Elem_ge lt la sel) as Hge.
  destruct (Z.eqb_spec (nodeSize NL + 0) 0) as [Hx | _]; [lia |].
  destruct (Nat.eqb_spec (List.length ctx + 1) (List.length ctx)) as [Hx | _]; [lia |].
  cbn [Nat.eqb andb].
  destruct prepared as (B & HB & Hbare & ->). cbn [bind fst snd].
  replace (List.length ctx + 1 - List.length ctx)%nat with 1%nat by lia.
  rewrite (threeWay_outer HB Hbare).
  destruct (joinChecks sch pt st); cbn [andb]; [| reflexivity].
  unfold close at 1. cbn [typeOf copy].
  destruct (validContent sch pt (childTypes (pc ++ [NL]))); cbn [bind andb]; [| reflexivity].
  unfold close. cbn [typeOf copy].
  destruct (validContent sch lt (childTypes (pre ++ prev' :: post))); reflexivity.
Qed.

(** Applying the step of the first branch to the document. *)
Theorem apply_indentStep :
  apply sch doc (ReplaceAroundStep (s - 1) (e - 1) s e (mkSlice [Elem lt la []] 0 0) 1)
  = if joinChecks sch pt st
       && validContent sch pt (childTypes (pc ++ [NL]))
       && validContent sch lt (childTypes (pre ++ prev' :: post))
    then StepOk (plug ctx L') else StepFail.
Proof.
  unfold apply. rewrite gap_slice. cbn [openStart openEnd Nat.eqb negb orb sContent].
  rewrite inserted_slice. unfold fromReplace.
  rewrite path_from, path_to, replace_same_list.
  destruct (joinChecks sch pt st && _ && _); reflexivity.
Qed.

End SameList.
End SameListFacts.

(* ================================================================== *)
(** * The command on the tree: the first branch *)
(* ================================================================== *)

Module IndentFacts.
Import Model Resolve Replace Transform Context Indent Shapes.
Import ModelFacts ResolveFacts PathFacts RangeFacts FragmentFacts ReplaceFacts.
Import SameListFacts.

Lemma node_root p ctx m e rest :
  peNode e = m ->
  node (mkResolved p (ctxPath 0 ctx m ++ e :: rest)) 0 = plug ctx m.
Proof.
  intros He. destruct ctx as [| f ctx].
  - pose proof (hole_node p [] m e rest) as H. cbn [List.length] in H.
    rewrite H, He. reflexivity.
  - rewrite shape_node_ctx by (cbn [List.length]; lia). reflexivity.
Qed.

Lemma addSizes_ok t a c : forall k acc,
  (k <= List.length c)%nat ->
  addSizes (Elem t a c) k acc = Ok (acc + fragSize (firstn k c)).
Proof.
  induction k as [| k IH]; intros acc Hk; cbn [addSizes].
  - cbn [firstn fragSize]. f_equal. lia.
  - rewrite IH by lia. unfold child. cbn [contentOf].
    destruct (nth_error c k) as [x |] eqn:E; [| apply nth_error_None in E; lia].
    rewrite (fragSize_firstn_S _ _ E). f_equal. lia.
Qed.

(** A run of children by its indices. *)
Lemma split_run (c : Fragment) si ei :
  (1 <= si)%nat -> (si < ei)%nat -> (ei <= List.length c)%nat ->
  exists pre prev sel0 lastSel post,
    c = pre ++ prev :: (sel0 ++ [lastSel]) ++ post /\
    List.length pre = (si - 1)%nat /\
    List.length (sel0 ++ [lastSel]) = (ei - si)%nat.
Proof.
  intros H1 H2 H3.
  destruct (nth_error c (si - 1)) as [prev |] eqn:Ep;
    [| apply nth_error_None in Ep; lia].
  pose proof (nth_error_split_firstn _ _ Ep) as Hc.
  replace (S (si - 1)) with si in Hc by lia.
  set (rest := skipn si c) in *.
  assert (Hrest : List.length rest = (List.length c - si)%nat) by apply length_skipn.
  set (run := firstn (ei - si) rest).
  assert (Hrun : List.length run = (ei - si)%nat).
  { unfold run. rewrite length_firstn. lia. }
  destruct (exists_last (l := run)) as (sel0 & lastSel & Hlast).
  { intros E. rewrite E in Hrun. cbn in Hrun. lia. }
  exists (firstn (si - 1) c), prev, sel0, lastSel, (skipn (ei - si) rest).
  split; [| split].
  - rewrite <- Hlast. unfold run. now rewrite firstn_skipn.
  - rewrite length_firstn. lia.
  - now rewrite <- Hlast.
Qed.

Lemma nodeSize_plug ctx n n' :
  isText n = false -> isText n' = false ->
  nodeSize (plug ctx n') - nodeSize n' = nodeSize (plug ctx n) - nodeSize n.
Proof.
  intros Hn Hn'. induction ctx as [| f ctx IH]; cbn [plug]; [lia |].
  unfold fill. rewrite !nodeSize_Elem, !fragSize_app. cbn [fragSize]. lia.
Qed.

Lemma contentSize_plug ctx n n' :
  isText n = false -> isText n' = false ->
  contentSize (plug ctx n') - nodeSize n' = contentSize (plug ctx n) - nodeSize n.
Proof.
  intros Hn Hn'.
  pose proof (@nodeSize_plug ctx n n' Hn Hn').
  rewrite (nodeSize_contentSize _ (plug_isText ctx _ Hn)) in H.
  rewrite (nodeSize_contentSize _ (plug_isText ctx _ Hn')) in H. lia.
Qed.

Lemma sel_min_max tr : selFrom tr <= selTo tr.
Proof. unfold selFrom, selTo. lia. Qed.

Lemma same_list_shape sch tr rfrom rto range :
  wellFormed sch (doc tr) = true ->
  resolve (doc tr) (selFrom tr) = Some rfrom ->
  resolve (doc tr) (selTo tr) = Some rto ->
  calculateItemRange sch rfrom rto = Some range ->
  (1 <= startIndex range)%nat ->
  exists ctx lt la pre pt pa pc sel0 st sa sc post,
    SameListShape sch tr rfrom rto range ctx lt la pre pt pa pc sel0 st sa sc post.
Proof.
  intros Hwf Hrf Hrt Hcalc Hsi.
  destruct (@range_shape sch (doc tr) (selFrom tr) (selTo tr) rfrom rto range
              Hwf Hrf Hrt (sel_min_max tr) Hcalc)
    as (ctx & lt & la & cs & S).
  pose proof S as S'. destruct S.
  destruct (@split_run cs (startIndex range) (endIndex range))
    as (pre & prev & sel0 & lastSel & post & Hcs & Hpre & Hsel); try lia.
  assert (Hprev : isText prev = false).
  { unfold nonText in rs_items0. rewrite Forall_forall in rs_items0.
    apply rs_items0. rewrite Hcs. apply in_or_app. right. now left. }
  assert (Hlast : isText lastSel = false).
  { unfold nonText in rs_items0. rewrite Forall_forall in rs_items0.
    apply rs_items0. rewrite Hcs. apply in_or_app. right. right.
    apply in_or_app. left. apply in_or_app. right. now left. }
  destruct prev as [? | pt pa pc]; [discriminate |].
  destruct lastSel as [? | st sa sc]; [discriminate |].
  exists ctx, lt, la, pre, pt, pa, pc, sel0, st, sa, sc, post.
  assert (Hf1 : firstn (startIndex range) cs = pre ++ [Elem pt pa pc]).
  { replace (startIndex range) with (List.length pre + 1)%nat by lia.
    rewrite Hcs. apply firstn_pre_prev. }
  assert (Hf2 : firstn (endIndex range) cs
                = (pre ++ [Elem pt pa pc]) ++ (sel0 ++ [Elem st sa sc])).
  { replace (endIndex range)
      with (List.length pre + 1 + List.length (sel0 ++ [Elem st sa sc]))%nat by lia.
    rewrite Hcs. apply firstn_pre_prev_sel. }
  constructor; try assumption.
  - now rewrite <- Hcs.
  - now rewrite <- Hcs.
  - now rewrite <- Hcs.
  - rewrite rs_start0, Hf1, fragSize_app. cbn [fragSize]. lia.
  - rewrite rs_end0, Hf2, !fragSize_app. cbn [fragSize]. lia.
  - rewrite rs_pfrom0, rs_doc0.
    destruct (resolveLoop (Elem lt la cs) (ctxStart 0 ctx) (selFrom tr - ctxStart 0 ctx))
      as [| e rest] eqn:E.
    + exfalso. revert E. apply resolveLoop_nonempty; [reflexivity | lia |].
      rewrite contentSize_Elem. pose proof (sel_min_max tr). lia.
    + apply node_root. exact (resolveLoop_head _ _ _ E).
  - now rewrite <- Hcs.
Qed.

Lemma indentList_same_list sch tr rfrom rto range
  ctx lt la pre pt pa pc sel0 st sa sc post :
  resolve (doc tr) (selFrom tr) = Some rfrom ->
  resolve (doc tr) (selTo tr) = Some rto ->
  calculateItemRange sch rfrom rto = Some range ->
  (1 <= startIndex range)%nat ->
  SameListShape sch tr rfrom rto range ctx lt la pre pt pa pc sel0 st sa sc post ->
  indentList sch tr
  = if joinChecks sch pt st
       && validContent sch pt
            (childTypes (pc ++ [Elem lt la (sel0 ++ [Elem st sa sc])]))
       && validContent sch lt
            (childTypes (pre ++ Elem pt pa (pc ++ [Elem lt la (sel0 ++ [Elem st sa sc])])
                         :: post))
    then Returned true
           (mkTr (plug ctx (Elem lt la
                    (pre ++ Elem pt pa (pc ++ [Elem lt la (sel0 ++ [Elem st sa sc])])
                     :: post)))
              (steps tr ++ [indentStep (Elem lt la
                    (pre ++ Elem pt pa pc :: (sel0 ++ [Elem st sa sc]) ++ post)) range])
              (selFrom tr) (selTo tr))
    else Threw TransformError tr.
Proof.
  intros Hrf Hrt Hcalc Hsi S. destruct S.
  unfold indentList. rewrite Hrf, Hrt, Hcalc.
  pose proof (@path_start ctx lt la pre pt pa pc sel0 st sa sc post sl_ctx0 sl_normal0) as Hps.
  rewrite <- sl_start0, <- sl_doc0 in Hps. rewrite Hps.
  unfold parent. rewrite hole_depth. cbn [List.length]. rewrite Nat.add_0_r, hole_node.
  cbn [peNode].
  unfold isListNode at 1. cbn [typeOf]. rewrite sl_list0. cbn [negb].
  (* findPreviousItem *)
  unfold findPreviousItem.
  destruct (Nat.leb_spec 1 (startIndex range)) as [_ | Hx]; [| lia].
  unfold child at 1. cbn [contentOf].
  assert (Hnth : nth_error (pre ++ Elem pt pa pc :: (sel0 ++ [Elem st sa sc]) ++ post)
      (startIndex range - 1) = Some (Elem pt pa pc)).
  { rewrite <- sl_pre0, nth_error_app2, Nat.sub_diag by lia. reflexivity. }
  rewrite Hnth, sl_root0, Hps, <- sl_depth0, hole_start.
  rewrite addSizes_ok by (apply Nat.lt_le_incl, nth_error_Some; congruence).
  cbn [previousList previousItem previousIsSelected typeOf]. rewrite String.eqb_refl.
  (* the step *)
  unfold step, indentStep. cbn [copy].
  rewrite sl_doc0, sl_start0, sl_end0.
  rewrite (@apply_indentStep sch ctx lt la pre pt pa pc sel0 st sa sc post
             sl_ctx0 sl_normal0 sl_items0).
  destruct (joinChecks sch pt st && _ && _); cbn [andThen]; [| reflexivity].
  (* the selection *)
  unfold setSelection. cbn [Transform.doc steps].
  apply resolve_inv in Hrf. destruct Hrf as (-> & Hf0 & Hf1).
  apply resolve_inv in Hrt. destruct Hrt as (-> & Ht0 & Ht1).
  cbn [pos].
  pose proof (@contentSize_plug ctx (Elem lt la (pre ++ Elem pt pa pc :: (sel0 ++ [Elem st
      sa sc]) ++ post)) (Elem lt la (pre ++ Elem pt pa (pc ++ [Elem lt la (sel0 ++ [Elem st
          sa sc])]) :: post)) eq_refl eq_refl) as Hsz.
  rewrite <- sl_doc0 in Hsz.
  assert (Hgrow : nodeSize (Elem lt la (pre ++ Elem pt pa (pc ++ [Elem lt la (sel0 ++ [Elem
      st sa sc])]) :: post)) = nodeSize (Elem lt la (pre ++ Elem pt pa pc :: (sel0 ++ [Elem
          st sa sc]) ++ post)) + 2).
  { repeat (rewrite ?nodeSize_Elem, ?fragSize_app; cbn [fragSize]).
    pose proof (nodeSize_Elem st sa sc). lia. }
  pose proof (sel_min_max tr).
  rewrite !resolve_ok by lia. cbn [andThen]. reflexivity.
Qed.

End IndentFacts.

(* ================================================================== *)
(** * Replacing a run of children of one node *)
(* ================================================================== *)

Module FlatFacts.
Import Model Resolve Replace Transform Context Shapes.
Import ModelFacts ResolveFacts PathFacts RangeFacts FragmentFacts ReplaceFacts.

Lemma positive_nil_size l : positive l -> fragSize l = 0 -> l = [].
Proof.
  intros Hp Hz. destruct l as [| x l]; [reflexivity |].
  assert (0 < fragSize (x :: l)) by (apply positive_fragSize; [exact Hp | discriminate]).
  lia.
Qed.

Lemma cut_prefix c i : positive c -> cut c 0 (fragSize (firstn i c)) = firstn i c.
Proof.
  intros Hp. destruct (firstn i c) as [| x l] eqn:E.
  - cbn [fragSize]. rewrite cut_empty_range. destruct c as [| y c]; [reflexivity |].
    change (0 =? 0) with true. cbn [andb].
    destruct (Z.eqb_spec 0 (fragSize (y :: c))) as [Hz | _]; [| reflexivity].
    symmetry in Hz. apply (positive_nil_size Hp) in Hz. discriminate.
  - rewrite <- E.
    pose proof (@cut_middle [] (firstn i c) (skipn i c)) as H.
    cbn [app fragSize] in H. rewrite firstn_skipn in H. rewrite Z.add_0_l in H.
    apply H; [exact Hp | rewrite E; discriminate].
Qed.

Lemma cut_suffix c j :
  positive c -> cut c (fragSize (firstn j c)) (fragSize c) = skipn j c.
Proof.
  intros Hp. destruct (skipn j c) as [| x l] eqn:E.
  - assert (Hsz : fragSize (firstn j c) = fragSize c).
    { rewrite (fragSize_firstn_skipn c j), E. cbn [fragSize]. lia. }
    rewrite Hsz, cut_empty_range. destruct c as [| y c]; [reflexivity |].
    destruct (Z.eqb_spec (fragSize (y :: c)) 0) as [Hz | _]; [| reflexivity].
    apply (positive_nil_size Hp) in Hz. discriminate.
  - rewrite <- E.
    pose proof (@cut_middle (firstn j c) (skipn j c) []) as H.
    rewrite app_nil_r, firstn_skipn in H.
    rewrite (fragSize_firstn_skipn c j).
    apply H; [exact Hp | rewrite E; discriminate].
Qed.

Section Flat.
Variable sch : Schema.
Variables (ctx : list Frame) (t : NodeType) (a : Attrs) (c : Fragment).
Variables i j : nat.

Local Abbreviation N := (Elem t a c).
Local Abbreviation NS := (ctxStart 0 ctx).
Local Abbreviation from := (NS + fragSize (firstn i c)).
Local Abbreviation to := (NS + fragSize (firstn j c)).
Local Abbreviation rfrom := (mkResolved from (ctxPath 0 ctx N ++ [mkEntry N i from])).
Local Abbreviation rto := (mkResolved to (ctxPath 0 ctx N ++ [mkEntry N j to])).

Hypothesis Hctx : ctxPositive ctx.
Hypothesis Hpos : positive c.
Hypothesis Hi : (i <= List.length c)%nat.
Hypothesis Hj : (j <= List.length c)%nat.

Lemma flat_from : resolve (plug ctx N) from = Some rfrom.
Proof. apply resolve_list_boundary; auto using positive_firstn. Qed.

Lemma flat_to : resolve (plug ctx N) to = Some rto.
Proof. apply resolve_list_boundary; auto using positive_firstn. Qed.

Lemma flat_depth_from : depth rfrom = List.length ctx.
Proof. rewrite hole_depth. cbn [List.length]. lia. Qed.

Lemma flat_depth_to : depth rto = List.length ctx.
Proof. rewrite hole_depth. cbn [List.length]. lia. Qed.

(** Deleting the children from [i] up to [j]. *)
Lemma replace_flat_delete :
  replace sch rfrom rto emptySlice
  = option_map (plug ctx)
      (close sch N (addNodes (addNodes [] (firstn i c)) (skipn j c))).
Proof.
  unfold replace. cbn [openStart openEnd emptySlice].
  rewrite flat_depth_from, flat_depth_to.
  destruct (Nat.ltb_spec (List.length ctx) 0) as [Hx | _]; [lia |].
  rewrite Z.eqb_refl. cbn [negb].
  rewrite (@replaceOuter_descend sch ctx N from to [mkEntry N i from] [mkEntry N j to]
             emptySlice (List.length ctx) 0 (List.length ctx));
    [| discriminate | rewrite flat_depth_from; cbn [openStart emptySlice]; lia | lia | lia].
  rewrite Nat.sub_diag. cbn [skipn]. f_equal.
  rewrite replaceOuter_unfold. cbv zeta.
  rewrite flat_depth_from. cbn [openStart emptySlice sContent fragSize].
  rewrite Nat.sub_0_r, Nat.ltb_irrefl, andb_false_r. cbn [Z.eqb].
  rewrite Nat.sub_diag, replaceTwoWay_unfold. cbv zeta.
  rewrite flat_depth_from, Nat.ltb_irrefl. cbn [bind].
  rewrite addRange_before, hole_index, hole_node, flat_depth_from.
  rewrite one_textOffset. cbn [peIndex peNode peOffset contentOf].
  rewrite Z.sub_diag. cbn [Z.eqb negb]. rewrite andb_false_r. cbv zeta.
  rewrite addRange_after_flat.
  - rewrite hole_index, hole_node. reflexivity.
  - rewrite flat_depth_to. apply Nat.ltb_irrefl.
  - rewrite one_textOffset. cbn [peOffset]. lia.
Qed.

(** Replacing the children from [i] up to [j] by a non-empty fragment. *)
Lemma replace_flat_insert content :
  fragSize content <> 0 ->
  replace sch rfrom rto (mkSlice content 0 0)
  = option_map (plug ctx)
      (close sch N (append (append (firstn i c) content) (skipn j c))).
Proof.
  intros Hne. unfold replace. cbn [openStart openEnd].
  rewrite flat_depth_from, flat_depth_to.
  destruct (Nat.ltb_spec (List.length ctx) 0) as [Hx | _]; [lia |].
  rewrite Z.eqb_refl. cbn [negb].
  rewrite (@replaceOuter_descend sch ctx N from to [mkEntry N i from] [mkEntry N j to]
             (mkSlice content 0 0) (List.length ctx) 0 (List.length ctx));
    [| discriminate | rewrite flat_depth_from; cbn [openStart]; lia | lia | lia].
  rewrite Nat.sub_diag. cbn [skipn]. f_equal.
  rewrite replaceOuter_unfold. cbv zeta.
  rewrite flat_depth_from, flat_depth_to. cbn [openStart openEnd sContent].
  rewrite Nat.sub_0_r, Nat.ltb_irrefl, andb_false_r.
  destruct (Z.eqb_spec (fragSize content) 0) as [Hx | _]; [contradiction |].
  rewrite !Nat.eqb_refl. cbn [andb].
  unfold parent, parentOffset. rewrite flat_depth_from, flat_depth_to.
  rewrite hole_node, !hole_start. cbn [peNode pos contentOf].
  replace (from - NS) with (fragSize (firstn i c)) by lia.
  replace (to - NS) with (fragSize (firstn j c)) by lia.
  now rewrite cut_prefix, cut_suffix.
Qed.

End Flat.
End FlatFacts.

(* ================================================================== *)
(** * How a call of the command proceeds *)
(* ================================================================== *)

Module RunFacts.
Import Model Resolve Replace Transform Context Indent Dedent Setup Shapes Statements.
Import ModelFacts ResolveFacts PathFacts RangeFacts FragmentFacts ReplaceFacts.
Import SameListFacts IndentFacts FlatFacts.

(** [findPreviousItem] marks the result as the selected list exactly in its
    first branch. *)
Lemma findPreviousItem_branch sch sl rfrom range found :
  findPreviousItem sch sl rfrom range = Ok (Some found) ->
  (previousIsSelected found = true /\ (1 <= startIndex range)%nat
   /\ previousList found = sl)
  \/ (previousIsSelected found = false /\ startIndex range = 0%nat).
Proof.
  unfold findPreviousItem.
  destruct (Nat.leb_spec 1 (startIndex range)) as [Hge | Hlt].
  - destruct (child sl (startIndex range - 1)); [| discriminate].
    destruct (resolve (node rfrom 0) (rStart range)); [| discriminate].
    destruct (addSizes sl (startIndex range - 1) _); [| discriminate].
    intros E. inversion E. left. auto.
  - destruct (1 <=? index rfrom _)%nat; [| discriminate].
    destruct (child _ _) as [pl |]; [| discriminate].
    destruct (negb (isListNode sch pl)); [discriminate |].
    destruct (addSizes _ _ _); [| discriminate].
    destruct (nth_error _ _) as [it |]; [| discriminate].
    destruct (negb (isListItemNode sch it)); [discriminate |].
    intros E. inversion E. right. split; [reflexivity | lia].
Qed.

Lemma andThen_returned r k b tr' :
  andThen r k = Returned b tr' -> exists tr1, r = TrOk tr1 /\ k tr1 = Returned b tr'.
Proof. destruct r; cbn [andThen]; try discriminate. eauto. Qed.

Lemma setSelection_ok tr a h tr' :
  setSelection tr a h = TrOk tr' ->
  doc tr' = doc tr /\ steps tr' = steps tr /\ anchor tr' = a /\ head tr' = h.
Proof.
  unfold setSelection.
  destruct (resolve (doc tr) a); [| discriminate].
  destruct (resolve (doc tr) h); [| discriminate].
  intros E. inversion E. cbn. auto.
Qed.

(** A call that returns [true]: what it went through. *)
Lemma indentList_true sch tr tr' :
  indentList sch tr = Returned true tr' ->
  exists l tr1,
    located sch tr = Some l /\
    (if sameType l
     then step sch tr (indentStep (lList l) (lRange l)) = TrOk tr1
     else exists sel unsel tr0,
         sliceSelectedItems (doc tr) (lTo l) (lRange l) = Ok (sel, unsel) /\
         deleteRange sch tr (rStart (lRange l)) (rEnd (lRange l)) = TrOk tr0 /\
         check sch (copy (previousItem (lFound l))
                      (newPreviousItemContent (previousItem (lFound l)) (lList l) sel unsel))
         = true /\
         replaceRangeWith sch tr0 (previousItemStart (lFound l) - 1)
           (previousItemStart (lFound l) + nodeSize (previousItem (lFound l)) - 2 + 1)
           (copy (previousItem (lFound l))
              (newPreviousItemContent (previousItem (lFound l)) (lList l) sel unsel))
         = TrOk tr1) /\
    pos (lFrom l) = selFrom tr /\ pos (lTo l) = selTo tr /\
    doc tr' = doc tr1 /\ steps tr' = steps tr1 /\
    anchor tr' = (if previousIsSelected (lFound l) then selFrom tr else selFrom tr - 2) /\
    head tr' = (if previousIsSelected (lFound l) then selTo tr else selTo tr - 2).
Proof.
  unfold indentList, located, sameType.
  destruct (resolve (doc tr) (selFrom tr)) as [rfrom |] eqn:Erf; [| discriminate].
  destruct (resolve (doc tr) (selTo tr)) as [rto |] eqn:Ert; [| discriminate].
  destruct (calculateItemRange sch rfrom rto) as [range |]; [| discriminate].
  destruct (resolve (doc tr) (rStart range)) as [rs |]; [| discriminate].
  destruct (isListNode sch (parent rs)); cbn [negb]; [| discriminate].
  destruct (findPreviousItem sch (parent rs) rfrom range) as [[found |] | e];
    try discriminate.
  apply resolve_inv in Erf. destruct Erf as (Erf & _).
  apply resolve_inv in Ert. destruct Ert as (Ert & _).
  assert (Hpf : pos rfrom = selFrom tr) by (rewrite Erf; reflexivity).
  assert (Hpt : pos rto = selTo tr) by (rewrite Ert; reflexivity).
  assert (Hfin : forall tr1,
    andThen (if previousIsSelected found
             then setSelection tr1 (pos rfrom) (pos rto)
             else setSelection tr1 (pos rfrom - 2) (pos rto - 2))
      (fun tr2 => Returned true tr2) = Returned true tr' ->
    doc tr' = doc tr1 /\ steps tr' = steps tr1 /\
    anchor tr' = (if previousIsSelected found then selFrom tr else selFrom tr - 2) /\
    head tr' = (if previousIsSelected found then selTo tr else selTo tr - 2)).
  { intros tr1 E. apply andThen_returned in E. destruct E as (tr2 & E & Er).
    inversion Er; subst tr2. rewrite <- Hpf, <- Hpt.
    destruct (previousIsSelected found); apply setSelection_ok in E;
      destruct E as (? & ? & ? & ?); auto. }
  cbn [lFound lList lRange lTo lFrom].
  destruct (String.eqb (typeOf (previousList found)) (typeOf (parent rs))) eqn:Ety.
  - intros E. apply andThen_returned in E. destruct E as (tr1 & Es & E).
    exists (mkLocated rfrom rto range (parent rs) found), tr1.
    cbn [lFound lList lRange lTo lFrom]. rewrite Ety.
    destruct (Hfin tr1 E) as (? & ? & ? & ?).
    repeat split; auto.
  - destruct (sliceSelectedItems (doc tr) rto range) as [[sel unsel] | e] eqn:Esl;
      [| discriminate].
    intros E. apply andThen_returned in E. destruct E as (tr0 & Ed & E).
    destruct (check sch _) eqn:Ec; cbn [negb] in E; [| discriminate].
    apply andThen_returned in E. destruct E as (tr1 & Er & E).
    exists (mkLocated rfrom rto range (parent rs) found), tr1.
    cbn [lFound lList lRange lTo lFrom]. rewrite Ety.
    destruct (Hfin tr1 E) as (? & ? & ? & ?).
    split; [reflexivity |]. split; [| repeat split; auto].
    exists sel, unsel, tr0. repeat split; auto.
Qed.

Lemma located_inv sch tr l :
  located sch tr = Some l ->
  exists rs,
    resolve (doc tr) (selFrom tr) = Some (lFrom l) /\
    resolve (doc tr) (selTo tr) = Some (lTo l) /\
    calculateItemRange sch (lFrom l) (lTo l) = Some (lRange l) /\
    resolve (doc tr) (rStart (lRange l)) = Some rs /\
    lList l = parent rs /\
    isListNode sch (lList l) = true /\
    findPreviousItem sch (lList l) (lFrom l) (lRange l) = Ok (Some (lFound l)).
Proof.
  unfold located.
  destruct (resolve (doc tr) (selFrom tr)) as [rfrom |] eqn:E1; [| discriminate].
  destruct (resolve (doc tr) (selTo tr)) as [rto |] eqn:E2; [| discriminate].
  destruct (calculateItemRange sch rfrom rto) as [range |] eqn:E3; [| discriminate].
  destruct (resolve (doc tr) (rStart range)) as [rs |] eqn:E4; [| discriminate].
  destruct (isListNode sch (parent rs)) eqn:El; [| discriminate].
  destruct (findPreviousItem sch (parent rs) rfrom range) as [[found |] | e] eqn:Ef;
    try discriminate.
  intros E. inversion E. cbn. exists rs. repeat split; auto.
Qed.

End RunFacts.

(* ================================================================== *)
(** * Position maps of the steps of a run *)
(* ================================================================== *)

Module MapFacts.
Import Model Resolve Replace Transform Context Indent Dedent Setup Shapes Statements.
Import RunShapes.
Import ModelFacts RunFacts.

Lemma monotone_weakly f : monotone f -> weakly f.
Proof.
  intros H p1 p2 Hle. destruct (Z.eq_dec p1 p2) as [-> | Hne]; [lia |].
  apply H. lia.
Qed.

Lemma weakly_monotone f : weakly f -> monotone f.
Proof. intros H p1 p2 Hlt. apply H. lia. Qed.

(** The map of a single replaced range keeps the order, whatever the range,
    as long as the inserted size is not negative. *)
Lemma mapPos_single_monotone s o n :
  0 <= n -> monotone (mapPos [(s, o, n)]).
Proof.
  intros Hn p1 p2 Hlt. unfold mapPos. cbn [mapRanges].
  destruct (Z.ltb_spec p1 s), (Z.ltb_spec p2 s); try lia;
  destruct (Z.leb_spec p1 (s + o)), (Z.leb_spec p2 (s + o)); try lia;
  destruct (Z.eqb_spec o 0); 
  destruct (Z.eqb_spec p1 s), (Z.eqb_spec p2 s);
  destruct (Z.eqb_spec p1 (s + o)), (Z.eqb_spec p2 (s + o));
  cbn; try lia.
Qed.

(** The map of the step of the first branch: positions before the end of
    the range stay, the others move by the size of the new list (its two
    tokens). *)
Lemma mapPos_indentStep l range p :
  mapPos (getMap (indentStep l range)) p
  = if (p <=? rStart range) || (p <? rEnd range) then p
    else p + nodeSize (copy l []).
Proof.
  unfold indentStep, mapPos, getMap, sliceSize. cbn [sContent openStart openEnd fragSize].
  generalize (nodeSize (copy l [])). intros N. cbn [mapRanges].
  replace (rStart range - (rStart range - 1)) with 1 by lia.
  replace (rEnd range - 1 - rEnd range) with (-1) by lia.
  change (1 =? 0) with false. change (-1 =? 0) with false. cbv iota.
  destruct (Z.ltb_spec p (rStart range - 1)), (Z.ltb_spec p (rEnd range));
    destruct (Z.leb_spec p (rStart range));
    destruct (Z.leb_spec p (rStart range - 1 + 1));
    destruct (Z.eqb_spec p (rStart range - 1));
    destruct (Z.eqb_spec p (rStart range - 1 + 1));
    destruct (Z.leb_spec p (rEnd range + -1));
    cbn; try lia.
Qed.

Lemma mapPos_indentStep_monotone l range :
  monotone (mapPos (getMap (indentStep l range))).
Proof.
  intros p1 p2 Hlt. rewrite !mapPos_indentStep.
  pose proof (nodeSize_nonneg (copy l [])).
  destruct (Z.ltb_spec p1 (rEnd range)), (Z.ltb_spec p2 (rEnd range));
    destruct (Z.leb_spec p1 (rStart range)), (Z.leb_spec p2 (rStart range));
    cbn [orb]; lia.
Qed.

Lemma plainStep_monotone s : plainStep s -> monotone (mapPos (getMap s)).
Proof.
  destruct s as [f t sl |]; cbn [plainStep getMap]; [| tauto].
  apply mapPos_single_monotone.
Qed.

Lemma mappingMap_weakly (maps : list StepMap) :
  Forall (fun m => monotone (mapPos m)) maps -> weakly (mappingMap maps).
Proof.
  unfold mappingMap. induction maps as [| m maps IH]; intros HF p1 p2 Hle.
  - exact Hle.
  - inversion HF as [| ? ? Hm HF']; subst. cbn [fold_left].
    apply IH; [exact HF' |]. apply (monotone_weakly Hm). exact Hle.
Qed.

(** ** The steps that the host operations add *)

Lemma adds_refl P tr : adds P tr tr.
Proof. exists []. split; [now rewrite app_nil_r | constructor]. Qed.

Lemma adds_trans P tr1 tr2 tr3 : adds P tr1 tr2 -> adds P tr2 tr3 -> adds P tr1 tr3.
Proof.
  intros (l1 & E1 & F1) (l2 & E2 & F2). exists (l1 ++ l2). split.
  - rewrite E2, E1, app_assoc. reflexivity.
  - apply Forall_app. auto.
Qed.

Lemma adds_emitted P tr tr' : adds P tr tr' -> Forall P (emitted tr tr').
Proof.
  intros (l & E & F). unfold emitted. rewrite E.
  rewrite skipn_app, skipn_all, Nat.sub_diag. exact F.
Qed.

Lemma step_steps sch tr s tr' :
  step sch tr s = TrOk tr' -> steps tr' = steps tr ++ [s].
Proof.
  unfold step. destruct (apply sch (doc tr) s); try discriminate.
  intros E. inversion E. reflexivity.
Qed.

Lemma step_adds (P : Step -> Prop) sch tr s tr' :
  P s -> step sch tr s = TrOk tr' -> adds P tr tr'.
Proof.
  intros HP E. exists [s]. split; [exact (step_steps _ _ _ E) | repeat constructor; exact HP].
Qed.

Lemma trReplace_adds sch tr from to s tr' :
  0 <= sliceSize s -> trReplace sch tr from to s = TrOk tr' -> adds plainStep tr tr'.
Proof.
  intros Hs. unfold trReplace.
  destruct ((from =? to) && (sliceSize s =? 0)).
  - intros E. inversion E. apply adds_refl.
  - destruct (resolve (doc tr) from) as [rf |]; [| discriminate].
    destruct (resolve (doc tr) to) as [rt |]; [| discriminate].
    destruct (fitsTrivially sch rf rt s); [| discriminate].
    apply step_adds. exact Hs.
Qed.

Lemma trDelete_adds sch tr from to tr' :
  trDelete sch tr from to = TrOk tr' -> adds plainStep tr tr'.
Proof. apply trReplace_adds. vm_compute. discriminate. Qed.

Lemma deleteRange_adds sch tr from to tr' :
  deleteRange sch tr from to = TrOk tr' -> adds plainStep tr tr'.
Proof.
  unfold deleteRange.
  destruct (resolve (doc tr) from) as [rf |]; [| discriminate].
  destruct (resolve (doc tr) to) as [rt |]; [| discriminate].
  destruct (deleteCovered sch rf rt _) as [[a b] |]; [apply trDelete_adds |].
  destruct (deleteOpenStart rf rt from to 1 _) as [[a b] |]; apply trDelete_adds.
Qed.

Lemma replaceRange_adds sch tr from to s tr' :
  0 <= sliceSize s -> replaceRange sch tr from to s = TrOk tr' -> adds plainStep tr tr'.
Proof.
  intros Hs. unfold replaceRange. destruct (sliceSize s =? 0).
  - apply deleteRange_adds.
  - destruct (resolve (doc tr) from) as [rf |]; [| discriminate].
    destruct (resolve (doc tr) to) as [rt |]; [| discriminate].
    destruct (fitsTrivially sch rf rt s); [| discriminate].
    apply step_adds. exact Hs.
Qed.

Lemma replaceRangeWith_adds sch tr from to n tr' :
  replaceRangeWith sch tr from to n = TrOk tr' -> adds plainStep tr tr'.
Proof.
  assert (Hs : 0 <= sliceSize (mkSlice [n] 0 0)).
  { unfold sliceSize. cbn [sContent openStart openEnd fragSize].
    pose proof (nodeSize_nonneg n). lia. }
  unfold replaceRangeWith. destruct (negb (isText n) && (from =? to)).
  - destruct (resolve (doc tr) from) as [r |]; [| discriminate].
    destruct (contentSize (parent r) =? 0); [| discriminate].
    apply replaceRange_adds. exact Hs.
  - apply replaceRange_adds. exact Hs.
Qed.

(** Every step that a successful run adds has a map that keeps the order. *)
Lemma indentList_adds sch tr tr' :
  indentList sch tr = Returned true tr' ->
  adds (fun s => monotone (mapPos (getMap s))) tr tr'.
Proof.
  intros E. apply indentList_true in E.
  destruct E as (l & tr1 & _ & Hb & _ & _ & _ & Hs & _).
  assert (H1 : adds (fun s => monotone (mapPos (getMap s))) tr tr1).
  { destruct (sameType l).
    - eapply step_adds; [| exact Hb]. apply mapPos_indentStep_monotone.
    - destruct Hb as (sel & unsel & tr0 & _ & Hd & _ & Hr).
      apply deleteRange_adds in Hd. apply replaceRangeWith_adds in Hr.
      destruct (adds_trans Hd Hr) as (k & Ek & Fk). exists k. split; [exact Ek |].
      eapply Forall_impl; [| exact Fk]. intros s. apply plainStep_monotone. }
  destruct H1 as (k & Ek & Fk). exists k. split; [congruence | exact Fk].
Qed.

End MapFacts.

(* ================================================================== *)
(** * The step of the first branch across two lists *)
(* ================================================================== *)

Module AcrossFacts.
Import Model Resolve Replace Transform Context Indent Dedent Setup Shapes Statements.
Import ModelFacts ResolveFacts PathFacts RangeFacts FragmentFacts ReplaceFacts.
Import SameListFacts IndentFacts FlatFacts RunFacts.

Lemma snoc_cases (A : Type) (l : list A) : l = [] \/ exists l' x, l = l' ++ [x].
Proof.
  destruct l as [| y l]; [left; reflexivity | right].
  destruct (exists_last (l := y :: l)) as (l' & x & E); [discriminate |]. eauto.
Qed.

Lemma insertAt_opens sch s p frag s' :
  insertAt sch s p frag = Some s' ->
  openStart s' = openStart s /\ openEnd s' = openEnd s.
Proof.
  unfold insertAt, bind.
  destruct (insertInto sch _ _ _ _); [| discriminate].
  intros E. inversion E. cbn. auto.
Qed.

(** A replace whose ends lie at different depths, with a closed slice, is
    refused. *)
Lemma fromReplace_depths sch d from to s rfrom rto :
  resolve d from = Some rfrom -> resolve d to = Some rto ->
  openStart s = 0%nat -> openEnd s = 0%nat ->
  depth rfrom <> depth rto ->
  fromReplace sch d from to s = StepFail.
Proof.
  intros Hf Ht Hs He Hd. unfold fromReplace, replace. rewrite Hf, Ht, Hs, He.
  destruct (Nat.ltb_spec (depth rfrom) 0); [lia |].
  destruct (Z.eqb_spec (Z.of_nat (depth rfrom) - Z.of_nat 0)
              (Z.of_nat (depth rto) - Z.of_nat 0)); [lia | reflexivity].
Qed.

(** The step of the first branch on a range that starts at the first item
    of its list: it starts in the parent of the list and ends inside the
    last selected item, and is never applied. *)
Lemma indentStep_from_first_item sch tr rfrom rto range ctx lt la cs :
  wellFormed sch (doc tr) = true ->
  RangeShape sch (doc tr) (selFrom tr) (selTo tr) rfrom rto range ctx lt la cs ->
  startIndex range = 0%nat ->
  forall l tr1, step sch tr (indentStep l range) <> TrOk tr1.
Proof.
  intros Hwf Sh H0 l tr1.
  pose proof (rs_idx Sh) as Hidx. pose proof (rs_start Sh) as Hs.
  pose proof (rs_end Sh) as He. pose proof (rs_doc Sh) as Hdoc.
  pose proof (rs_ctx Sh) as Hctx. pose proof (rs_items Sh) as Hitems.
  pose proof (@normal_children _ _ _ (rs_normal Sh)) as Hnorm.
  rewrite H0 in Hs. cbn [firstn fragSize] in Hs.
  (* the list is not the top node *)
  destruct (snoc_cases ctx) as [-> | (ctx' & f & ->)].
  { exfalso. cbn [plug] in Hdoc. unfold wellFormed in Hwf. rewrite Hdoc in Hwf.
    cbn [isText typeOf negb andb] in Hwf. rewrite (rs_list Sh) in Hwf. discriminate. }
  (* the last selected item *)
  destruct (nth_error cs (endIndex range - 1)) as [x |] eqn:Ex;
    [| apply nth_error_None in Ex; lia].
  pose proof (nth_error_split_firstn _ _ Ex) as Hsplit.
  assert (Hx : isText x = false).
  { unfold nonText in Hitems. rewrite Forall_forall in Hitems.
    apply Hitems. eapply nth_error_In. exact Ex. }
  destruct x as [s | xt xa xc]; [discriminate |].
  assert (HeS : fragSize (firstn (endIndex range) cs)
                = fragSize (firstn (endIndex range - 1) cs) + nodeSize (Elem xt xa xc)).
  { replace (endIndex range) with (Datatypes.S (endIndex range - 1)) at 1 by lia.
    apply fragSize_firstn_S. exact Ex. }
  rewrite nodeSize_Elem in HeS.
  assert (Hpos : positive cs) by (now apply normals_positive).
  assert (Hxn : normal (Elem xt xa xc) = true).
  { apply (normals_In _ _ Hnorm). eapply nth_error_In. exact Ex. }
  (* the two ends of the step *)
  assert (Hfrom : exists r, resolve (doc tr) (rStart range - 1) = Some r
                            /\ depth r = List.length ctx').
  { unfold ctxPositive in Hctx. apply Forall_app in Hctx. destruct Hctx as [Hc' Hf].
    inversion Hf as [| ? ? Hfl _]; subst.
    pose proof (@resolve_list_boundary ctx' (fType f) (fAttrs f)
                  (fLeft f ++ Elem lt la cs :: fRight f) (List.length (fLeft f)) Hc') as E.
    rewrite firstn_app, firstn_all, Nat.sub_diag in E. cbn [firstn] in E.
    rewrite app_nil_r in E. specialize (E Hfl).
    rewrite length_app in E. cbn [List.length] in E. specialize (E ltac:(lia)).
    rewrite Hdoc, plug_app. cbn [plug]. unfold fill.
    rewrite ctxStart_snoc in Hs.
    replace (rStart range - 1)
      with (ctxStart 0 ctx' + fragSize (fLeft f)) by lia.
    rewrite E. eexists. split; [reflexivity |].
    rewrite hole_depth. cbn [List.length]. lia. }
  assert (Hto : exists r, resolve (doc tr) (rEnd range - 1) = Some r
                          /\ depth r = (List.length (ctx' ++ [f]) + 1)%nat).
  { pose proof (@resolve_child_boundary (ctx' ++ [f]) lt la
                  (firstn (endIndex range - 1) cs) xt xa xc
                  (skipn (Datatypes.S (endIndex range - 1)) cs) (List.length xc) Hctx) as E.
    rewrite firstn_all in E.
    specialize (E (positive_firstn _ Hpos)).
    specialize (E (normals_positive _ (@normal_children _ _ _ Hxn)) (Nat.le_refl _)).
    rewrite <- Hsplit in E. rewrite Hdoc.
    replace (rEnd range - 1)
      with (ctxStart 0 (ctx' ++ [f]) + fragSize (firstn (endIndex range - 1) cs)
            + 1 + fragSize xc) by lia.
    rewrite E. eexists. split; [reflexivity |]. apply two_depth. }
  destruct Hfrom as (r1 & Hr1 & Hd1). destruct Hto as (r2 & Hr2 & Hd2).
  unfold step, indentStep, apply.
  destruct (slice (doc tr) (rStart range) (rEnd range)) as [gap |]; [| discriminate].
  destruct (negb (openStart gap =? 0)%nat || negb (openEnd gap =? 0)%nat);
    [discriminate |].
  destruct (insertAt sch _ 1 (sContent gap)) as [ins |] eqn:Ei; [| discriminate].
  apply insertAt_opens in Ei. cbn [openStart openEnd] in Ei. destruct Ei as [Eo Ec].
  rewrite (@fromReplace_depths sch (doc tr) _ _ ins r1 r2 Hr1 Hr2 Eo Ec).
  - discriminate.
  - rewrite Hd1, Hd2, length_app. cbn [List.length]. lia.
Qed.

End AcrossFacts.

(* ================================================================== *)
(** * Validity of the content, in a context *)
(* ================================================================== *)

Module CheckFacts.
Import Model Resolve Replace Transform Context Indent Dedent Setup Shapes Statements.
Import ModelFacts ResolveFacts PathFacts.

Lemma check_Elem sch t a c :
  check sch (Elem t a c) = validContent sch t (childTypes c) && forallb (check sch) c.
Proof.
  reflexivity.
Qed.

Lemma noEmptyList_Elem sch t a c :
  noEmptyList sch (Elem t a c)
  = (negb (isList sch t) || existsb (isListItem sch) (childTypes c))
    && forallb (noEmptyList sch) c.
Proof.
  reflexivity.
Qed.

Lemma childTypes_app l1 l2 : childTypes (l1 ++ l2) = childTypes l1 ++ childTypes l2.
Proof. apply map_app. Qed.

(** A property of nodes that is checked node by node, each node with the
    types of its children, carries over when the node in the hole of a
    context is replaced by one of the same type. *)
Section InContext.
Variable P : Node -> bool.
Variable here : NodeType -> Fragment -> bool.
Hypothesis P_Elem : forall t a c, P (Elem t a c) = here t c && forallb P c.
Hypothesis here_types : forall t c c',
  childTypes c = childTypes c' -> List.length c = List.length c' -> here t c = here t c'.

Lemma holds_in_hole ctx m : P (plug ctx m) = true -> P m = true.
Proof.
  induction ctx as [| f ctx IH]; cbn [plug]; intros H; [exact H |].
  unfold fill in H. rewrite P_Elem in H. apply andb_true_iff in H.
  destruct H as [_ H]. rewrite forallb_app in H. apply andb_true_iff in H.
  destruct H as [_ H]. cbn [forallb] in H. apply andb_true_iff in H.
  destruct H as [H _]. auto.
Qed.

Lemma typeOf_plug ctx m m' :
  typeOf m' = typeOf m -> typeOf (plug ctx m') = typeOf (plug ctx m).
Proof. intros H. destruct ctx; [exact H | reflexivity]. Qed.

Lemma holds_replaced ctx m m' :
  P (plug ctx m) = true -> P m' = true ->
  typeOf m' = typeOf m ->
  P (plug ctx m') = true.
Proof.
  intros H Hm' Hty. induction ctx as [| f ctx IH]; cbn [plug] in *; [exact Hm' |].
  unfold fill in *. rewrite P_Elem in H |- *. apply andb_true_iff in H.
  destruct H as [Hh H]. rewrite forallb_app in H. apply andb_true_iff in H.
  destruct H as [Hl H]. cbn [forallb] in H. apply andb_true_iff in H.
  destruct H as [Hp Hr].
  apply andb_true_iff. split.
  - rewrite <- Hh. apply here_types.
    + rewrite !childTypes_app. cbn [childTypes map].
      rewrite (@typeOf_plug ctx m m' Hty). reflexivity.
    + rewrite !length_app. reflexivity.
  - rewrite forallb_app. cbn [forallb]. rewrite Hl, Hr, (IH Hp). reflexivity.
Qed.

End InContext.

Lemma check_in_hole sch ctx m : check sch (plug ctx m) = true -> check sch m = true.
Proof.
  apply (@holds_in_hole (check sch) (fun t c => validContent sch t (childTypes c))).
  intros. apply check_Elem.
Qed.

Lemma check_replaced sch ctx m m' :
  check sch (plug ctx m) = true -> check sch m' = true -> typeOf m' = typeOf m ->
  check sch (plug ctx m') = true.
Proof.
  intros H Hm' Hty.
  apply (@holds_replaced (check sch) (fun t c => validContent sch t (childTypes c)))
    with (m := m); auto.
  intros t c c' E _. now rewrite E.
Qed.

Lemma noEmptyList_in_hole sch ctx m :
  noEmptyList sch (plug ctx m) = true -> noEmptyList sch m = true.
Proof.
  apply (@holds_in_hole (noEmptyList sch)
           (fun t c => negb (isList sch t) || existsb (isListItem sch) (childTypes c))).
  intros. apply noEmptyList_Elem.
Qed.

Lemma noEmptyList_replaced sch ctx m m' :
  noEmptyList sch (plug ctx m) = true -> noEmptyList sch m' = true ->
  typeOf m' = typeOf m ->
  noEmptyList sch (plug ctx m') = true.
Proof.
  intros H Hm' Hty.
  apply (@holds_replaced (noEmptyList sch)
           (fun t c => negb (isList sch t) || existsb (isListItem sch) (childTypes c)))
    with (m := m); auto.
  intros t c c' E _. now rewrite E.
Qed.

(** In a valid tree every list has an item, when the content expressions of
    the list types ask for one. *)
Lemma check_noEmptyList sch :
  listsNeedItems sch -> forall n, check sch n = true -> noEmptyList sch n = true.
Proof.
  intros Hneed. induction n as [s | t a c IH] using Node_rect'; [reflexivity |].
  rewrite check_Elem, noEmptyList_Elem. intros H.
  apply andb_true_iff in H. destruct H as [Hv Hc].
  apply andb_true_iff. split.
  - destruct (isList sch t) eqn:Ht; [| reflexivity].
    rewrite (Hneed t _ Ht Hv). reflexivity.
  - rewrite forallb_forall in Hc |- *. rewrite Forall_forall in IH.
    intros x Hx. apply IH; auto.
Qed.

Lemma forallb_skipn (A : Type) (q : A -> bool) l k :
  forallb q l = true -> forallb q (skipn k l) = true.
Proof.
  intros H. rewrite <- (firstn_skipn k l), forallb_app in H.
  apply andb_true_iff in H. tauto.
Qed.

End CheckFacts.

(* ================================================================== *)
(** * The located parts of a run of the first branch *)
(* ================================================================== *)

Module LocatedFacts.
Import Model Resolve Replace Transform Context Indent Dedent Setup Shapes Statements.
Import ModelFacts ResolveFacts PathFacts RangeFacts FragmentFacts ReplaceFacts.
Import SameListFacts IndentFacts FlatFacts RunFacts AcrossFacts CheckFacts.

Lemma located_same_list sch tr rfrom rto range
  ctx lt la pre pt pa pc sel0 st sa sc post :
  resolve (doc tr) (selFrom tr) = Some rfrom ->
  resolve (doc tr) (selTo tr) = Some rto ->
  calculateItemRange sch rfrom rto = Some range ->
  (1 <= startIndex range)%nat ->
  SameListShape sch tr rfrom rto range ctx lt la pre pt pa pc sel0 st sa sc post ->
  located sch tr
  = Some (mkLocated rfrom rto range
            (Elem lt la (pre ++ Elem pt pa pc :: (sel0 ++ [Elem st sa sc]) ++ post))
            (mkPrevious (Elem pt pa pc)
               (Elem lt la (pre ++ Elem pt pa pc :: (sel0 ++ [Elem st sa sc]) ++ post))
               (ctxStart 0 ctx + 1 + fragSize pre) (ctxStart 0 ctx) true)).
Proof.
  intros Hrf Hrt Hcalc Hsi Sh.
  unfold located. rewrite Hrf, Hrt, Hcalc.
  pose proof (@path_start ctx lt la pre pt pa pc sel0 st sa sc post
                (sl_ctx Sh) (sl_normal Sh)) as Hps.
  rewrite <- (sl_start Sh), <- (sl_doc Sh) in Hps. rewrite Hps.
  unfold parent. rewrite hole_depth. cbn [List.length]. rewrite Nat.add_0_r, hole_node.
  cbn [peNode].
  unfold isListNode at 1. cbn [typeOf]. rewrite (sl_list Sh).
  unfold findPreviousItem.
  destruct (Nat.leb_spec 1 (startIndex range)) as [_ | Hx]; [| lia].
  unfold child at 1. cbn [contentOf].
  assert (Hnth : nth_error (pre ++ Elem pt pa pc :: (sel0 ++ [Elem st sa sc]) ++ post)
                   (startIndex range - 1) = Some (Elem pt pa pc)).
  { rewrite <- (sl_pre Sh), nth_error_app2, Nat.sub_diag by lia. reflexivity. }
  rewrite Hnth, (sl_root Sh), Hps, <- (sl_depth Sh), hole_start.
  rewrite addSizes_ok by (apply Nat.lt_le_incl, nth_error_Some; congruence).
  rewrite <- (sl_pre Sh), firstn_app, firstn_all, Nat.sub_diag.
  cbn [firstn]. rewrite app_nil_r. reflexivity.
Qed.

Lemma selectedItems_run (pre sel post : Fragment) (prev : Node) si ei :
  List.length pre = (si - 1)%nat -> (1 <= si)%nat ->
  List.length sel = (ei - si)%nat ->
  firstn (ei - si) (skipn si (pre ++ prev :: sel ++ post)) = sel.
Proof.
  intros Hpre Hsi Hsel.
  replace (pre ++ prev :: sel ++ post) with ((pre ++ [prev]) ++ sel ++ post)
    by (now rewrite <- app_assoc).
  rewrite skipn_app, skipn_all2 by (rewrite length_app; cbn [List.length]; lia).
  rewrite length_app. cbn [List.length app].
  replace (si - (List.length pre + 1))%nat with 0%nat by lia. cbn [skipn].
  rewrite <- Hsel, firstn_app, firstn_all, Nat.sub_diag. cbn [firstn].
  apply app_nil_r.
Qed.

(** A run of the first branch that returns [true]: the previous item is the
    sibling before the selected items, and the selected items end up in a
    new list at the end of the previous item. *)
Lemma indentList_wrap sch tr tr' l :
  wellFormed sch (doc tr) = true ->
  located sch tr = Some l ->
  sameType l = true ->
  indentList sch tr = Returned true tr' ->
  exists ctx lt la pre pt pa pc post,
    doc tr = plug ctx (Elem lt la (pre ++ Elem pt pa pc :: selectedItems l ++ post))
    /\ lList l = Elem lt la (pre ++ Elem pt pa pc :: selectedItems l ++ post)
    /\ previousItem (lFound l) = Elem pt pa pc
    /\ selectedItems l <> []
    /\ doc tr'
       = plug ctx (Elem lt la
           (pre ++ Elem pt pa (pc ++ [Elem lt la (selectedItems l)]) :: post))
    /\ validContent sch pt (childTypes (pc ++ [Elem lt la (selectedItems l)])) = true
    /\ validContent sch lt
         (childTypes (pre ++ Elem pt pa (pc ++ [Elem lt la (selectedItems l)]) :: post))
       = true
    /\ isList sch lt = true
    /\ previousItemStart (lFound l) - 1 = ctxStart 0 ctx + fragSize pre
    /\ rEnd (lRange l)
       = ctxStart 0 ctx + fragSize pre + nodeSize (Elem pt pa pc)
         + fragSize (selectedItems l).
Proof.
  intros Hwf Hl Hty E.
  destruct (located_inv _ _ Hl) as (rs & Hrf & Hrt & Hcalc & Hrs & HL & Hisl & Hf).
  destruct (Nat.eq_dec (startIndex (lRange l)) 0) as [H0 | Hne].
  - exfalso.
    destruct (@range_shape sch (doc tr) _ _ _ _ _ Hwf Hrf Hrt (sel_min_max tr) Hcalc)
      as (ctx & lt & la & cs & Sh).
    apply indentList_true in E. destruct E as (l' & tr1 & Hl' & Hb & _).
    assert (l' = l) by congruence. subst l'. rewrite Hty in Hb.
    exact (@indentStep_from_first_item sch tr _ _ _ ctx lt la cs Hwf Sh H0 _ _ Hb).
  - assert (Hsi : (1 <= startIndex (lRange l))%nat) by lia.
    destruct (@same_list_shape sch tr _ _ _ Hwf Hrf Hrt Hcalc Hsi)
      as (ctx & lt & la & pre & pt & pa & pc & sel0 & st & sa & sc & post & Sh).
    pose proof (@located_same_list sch tr _ _ _ ctx lt la pre pt pa pc sel0 st sa sc post
                  Hrf Hrt Hcalc Hsi Sh) as Hloc.
    rewrite (@indentList_same_list sch tr _ _ _ ctx lt la pre pt pa pc sel0 st sa sc post
               Hrf Hrt Hcalc Hsi Sh) in E.
    pose proof (sl_pre Sh) as Hpre0. pose proof (sl_sel Sh) as Hsel0.
    pose proof (sl_end Sh) as Hend.
    destruct l as [rfrom rto range L found]. cbn [lFrom lTo lRange lList lFound] in *.
    rewrite Hl in Hloc. inversion Hloc as [[EL Efound]]. clear Hloc.
    unfold selectedItems. cbn [lRange lList lFound contentOf previousItem previousItemStart].
    rewrite (@selectedItems_run pre (sel0 ++ [Elem st sa sc]) post (Elem pt pa pc)
               _ _ Hpre0 Hsi Hsel0).
    destruct (joinChecks sch pt st) eqn:Ej; [| discriminate].
    destruct (validContent sch pt _) eqn:Ep; [| discriminate].
    destruct (validContent sch lt _) eqn:Ev; [| discriminate].
    cbn [andb] in E. inversion E as [Etr]. clear E.
    exists ctx, lt, la, pre, pt, pa, pc, post.
    split; [exact (sl_doc Sh) |]. split; [reflexivity |].
    split; [reflexivity |].
    split; [intros Hnil; apply app_eq_nil in Hnil; destruct Hnil; discriminate |].
    split; [reflexivity |]. split; [exact Ep |]. split; [exact Ev |].
    split; [exact (sl_list Sh) |]. split; [lia | exact Hend].
Qed.

End LocatedFacts.

(* ================================================================== *)
(** * The schema of the list editor *)
(* ================================================================== *)

Module SchemaFacts.
Import Model Resolve Replace Transform Context Indent Dedent Setup Shapes Statements.

Lemma nonEmpty_true (A : Type) (l : list A) : l <> [] -> nonEmpty l = true.
Proof. destruct l; [congruence | reflexivity]. Qed.

Lemma allOf_middle q (l1 l2 l3 : list NodeType) :
  allOf q (l1 ++ l2 ++ l3) = true -> allOf q l2 = true.
Proof.
  unfold allOf. rewrite !forallb_app. intros H.
  apply andb_true_iff in H. destruct H as [_ H].
  apply andb_true_iff in H. tauto.
Qed.

Lemma isList_listSchema t :
  isList listSchema t = true ->
  t = "bulletList" \/ t = "orderedList" \/ t = "taskList".
Proof.
  cbn [isList listSchema]. intros H.
  apply orb_true_iff in H. destruct H as [H | H].
  - apply orb_true_iff in H. destruct H as [H | H]; apply String.eqb_eq in H; auto.
  - apply String.eqb_eq in H. auto.
Qed.

Lemma listSchema_runs : runsStayValid listSchema.
Proof.
  intros t l1 l2 l3 Ht Hv Hne.
  apply isList_listSchema in Ht. cbn [validContent listSchema] in *.
  destruct Ht as [-> | [-> | ->]]; unfold listValid in *;
    cbn [String.eqb Ascii.eqb Bool.eqb orb] in *;
    apply andb_true_iff in Hv; destruct Hv as [_ Hv];
    apply allOf_middle in Hv; rewrite Hv, (nonEmpty_true Hne); reflexivity.
Qed.

Lemma listSchema_needs_items : listsNeedItems listSchema.
Proof.
  intros t l Ht Hv. apply isList_listSchema in Ht. cbn [validContent listSchema] in Hv.
  destruct l as [| x l];
    [destruct Ht as [-> | [-> | ->]]; discriminate |].
  cbn [existsb isListItem listSchema].
  destruct Ht as [-> | [-> | ->]].
  - change (String.eqb "listItem" x && allOf (String.eqb "listItem") l = true) in Hv.
    apply andb_true_iff in Hv. destruct Hv as [Hx _].
    apply String.eqb_eq in Hx. subst x. reflexivity.
  - change (String.eqb "listItem" x && allOf (String.eqb "listItem") l = true) in Hv.
    apply andb_true_iff in Hv. destruct Hv as [Hx _].
    apply String.eqb_eq in Hx. subst x. reflexivity.
  - change (String.eqb "taskListItem" x && allOf (String.eqb "taskListItem") l = true)
      in Hv.
    apply andb_true_iff in Hv. destruct Hv as [Hx _].
    apply String.eqb_eq in Hx. subst x. reflexivity.
Qed.

End SchemaFacts.

(* ================================================================== *)
(** * Steps that replace a run of children *)
(* ================================================================== *)

Module FlatSteps.
Import Model Resolve Replace Transform Context Indent Dedent Setup Shapes Statements.
Import ModelFacts ResolveFacts PathFacts RangeFacts FragmentFacts ReplaceFacts.
Import SameListFacts IndentFacts FlatFacts RunFacts.

Lemma append_snoc_nonText a x b :
  isText x = false -> append (a ++ [x]) b = a ++ x :: b.
Proof.
  intros Hx. induction a as [| y a IH]; cbn [app].
  - rewrite append_cons_nonText by exact Hx. reflexivity.
  - destruct (a ++ [x]) as [| z l] eqn:E.
    + destruct a; discriminate.
    + rewrite append_cons_more, IH. reflexivity.
Qed.

Lemma fragSize_firstn_strict l i j :
  positive l -> (i < j)%nat -> (j <= List.length l)%nat ->
  fragSize (firstn i l) < fragSize (firstn j l).
Proof.
  intros Hpos Hij Hj. replace j with (i + (j - i))%nat by lia.
  rewrite firstn_plus, fragSize_app.
  assert (0 < fragSize (firstn (j - i) (skipn i l))); [| lia].
  apply positive_fragSize.
  - apply positive_firstn, positive_skipn, Hpos.
  - intros E. apply (f_equal (@List.length Node)) in E.
    rewrite length_firstn, length_skipn in E. cbn [List.length] in E. lia.
Qed.

Section FlatStep.
Variable sch : Schema.
Variables (tr : Transaction) (ctx : list Frame) (t : NodeType) (a : Attrs) (c : Fragment).
Variables i j : nat.
Hypothesis Hdoc : doc tr = plug ctx (Elem t a c).
Hypothesis Hctx : ctxPositive ctx.
Hypothesis Hpos : positive c.
Hypothesis Hj : (j <= List.length c)%nat.

Local Abbreviation from := (ctxStart 0 ctx + fragSize (firstn i c)).
Local Abbreviation to := (ctxStart 0 ctx + fragSize (firstn j c)).

(** [tr.delete] of the children from [i] up to [j]. *)
Lemma trDelete_flat tr0 :
  (i < j)%nat ->
  noAdjacentText (firstn i c ++ skipn j c) = true ->
  trDelete sch tr from to = TrOk tr0 ->
  tr0 = mkTr (plug ctx (Elem t a (firstn i c ++ skipn j c)))
          (steps tr ++ [ReplaceStep from to emptySlice]) (anchor tr) (head tr)
  /\ validContent sch t (childTypes (firstn i c ++ skipn j c)) = true.
Proof.
  intros Hlt Hadj. unfold trDelete, trReplace.
  pose proof (@fragSize_firstn_strict c i j Hpos Hlt Hj) as Hsz.
  destruct (Z.eqb_spec from to) as [Hx | _]; [lia |]. cbn [andb].
  assert (Hi : (i <= List.length c)%nat) by lia.
  rewrite Hdoc, (@flat_from ctx t a c i Hctx Hpos Hi), (@flat_from ctx t a c j Hctx Hpos Hj).
  destruct (fitsTrivially sch _ _ emptySlice); [| discriminate].
  unfold step, apply, fromReplace.
  rewrite Hdoc, (@flat_from ctx t a c i Hctx Hpos Hi), (@flat_from ctx t a c j Hctx Hpos Hj).
  rewrite (@replace_flat_delete sch ctx t a c i j Hi Hj).
  rewrite addNodes_nil by (exact (noAdjacentText_app_inv _ _ Hadj)).
  rewrite addNodes_app by exact Hadj.
  unfold close. cbn [typeOf copy].
  destruct (validContent sch t _); cbn [option_map]; [| discriminate].
  intros E. inversion E. split; reflexivity.
Qed.

(** [tr.replaceRange] of the children from [i] up to [j] by one element. *)
Lemma replaceRange_flat n tr1 :
  isText n = false ->
  (i < j)%nat ->
  replaceRange sch tr from to (mkSlice [n] 0 0) = TrOk tr1 ->
  tr1 = mkTr (plug ctx (Elem t a (firstn i c ++ n :: skipn j c)))
          (steps tr ++ [ReplaceStep from to (mkSlice [n] 0 0)]) (anchor tr) (head tr)
  /\ validContent sch t (childTypes (firstn i c ++ n :: skipn j c)) = true.
Proof.
  intros Hn Hlt. unfold replaceRange.
  assert (Hns : sliceSize (mkSlice [n] 0 0) = nodeSize n).
  { unfold sliceSize. cbn [sContent openStart openEnd fragSize]. lia. }
  assert (Hn2 : 2 <= nodeSize n).
  { destruct n; [discriminate | apply nodeSize_Elem_ge]. }
  rewrite Hns. destruct (Z.eqb_spec (nodeSize n) 0) as [Hx | _]; [lia |].
  assert (Hi : (i <= List.length c)%nat) by lia.
  rewrite Hdoc, (@flat_from ctx t a c i Hctx Hpos Hi), (@flat_from ctx t a c j Hctx Hpos Hj).
  destruct (fitsTrivially sch _ _ _); [| discriminate].
  unfold step, apply, fromReplace.
  rewrite Hdoc, (@flat_from ctx t a c i Hctx Hpos Hi), (@flat_from ctx t a c j Hctx Hpos Hj).
  rewrite (@replace_flat_insert sch ctx t a c i j Hpos Hi Hj [n])
    by (cbn [fragSize]; lia).
  rewrite append_single_elem by exact Hn.
  rewrite append_snoc_nonText by exact Hn.
  unfold close. cbn [typeOf copy].
  destruct (validContent sch t _); cbn [option_map]; [| discriminate].
  intros E. inversion E. split; reflexivity.
Qed.

(** [tr.step] of a [ReplaceStep] that puts a run of elements in the place of
    the children from [i] up to [j]. *)
Lemma step_flat content :
  nonText content -> content <> [] -> nonText (firstn i c) ->
  (i <= j)%nat ->
  step sch tr (ReplaceStep from to (mkSlice content 0 0))
  = if validContent sch t (childTypes (firstn i c ++ content ++ skipn j c))
    then TrOk (mkTr (plug ctx (Elem t a (firstn i c ++ content ++ skipn j c)))
                 (steps tr ++ [ReplaceStep from to (mkSlice content 0 0)])
                 (anchor tr) (head tr))
    else TrThrow TransformError tr.
Proof.
  intros Hc Hne Hfirst Hij.
  assert (Hi : (i <= List.length c)%nat) by lia.
  assert (Hsz : fragSize content <> 0).
  { destruct content as [| x content']; [congruence |].
    inversion Hc as [| ? ? Hx _]; subst. cbn [fragSize].
    destruct x; [discriminate |]. pose proof (nodeSize_Elem_ge type attrs content).
    pose proof (fragSize_nonneg content'). lia. }
  unfold step, apply, fromReplace.
  rewrite Hdoc, (@flat_from ctx t a c i Hctx Hpos Hi), (@flat_from ctx t a c j Hctx Hpos Hj).
  rewrite (@replace_flat_insert sch ctx t a c i j Hpos Hi Hj content Hsz).
  rewrite (append_nonText_r _ Hc).
  rewrite append_nonText_l by (apply Forall_app; split; assumption).
  rewrite <- app_assoc. unfold close. cbn [typeOf copy].
  destruct (validContent sch t _); reflexivity.
Qed.

End FlatStep.
End FlatSteps.

(* ================================================================== *)
(** * The second branch: the previous item is rebuilt *)
(* ================================================================== *)

Module RebuildFacts.
Import Model Resolve Replace Transform Context Indent Dedent Setup Shapes Statements.
Import ModelFacts ResolveFacts PathFacts RangeFacts FragmentFacts ReplaceFacts.
Import SameListFacts IndentFacts FlatFacts RunFacts AcrossFacts CheckFacts FlatSteps.

Lemma last_child (c : Fragment) x :
  nth_error c (List.length c - 1) = Some x -> exists c0, c = c0 ++ [x].
Proof.
  intros H. destruct (snoc_cases c) as [-> | (c0 & y & ->)]; [discriminate |].
  exists c0. rewrite length_app in H. cbn [List.length] in H.
  replace (List.length c0 + 1 - 1)%nat with (List.length c0) in H by lia.
  rewrite nth_error_app2, Nat.sub_diag in H by lia. cbn in H. congruence.
Qed.

Lemma itemsOnly_child sch t a c x :
  itemsOnly sch (Elem t a c) = true -> In x c -> itemsOnly sch x = true.
Proof.
  rewrite itemsOnly_Elem. intros H Hx. apply andb_true_iff in H.
  destruct H as [_ H]. rewrite forallb_forall in H. auto.
Qed.

(** The levels of the context, seen from a position inside the hole. *)
Lemma snoc_entry p ctx' f m rest :
  index (mkResolved p (ctxPath 0 (ctx' ++ [f]) m ++ rest)) (List.length ctx')
  = List.length (fLeft f)
  /\ node (mkResolved p (ctxPath 0 (ctx' ++ [f]) m ++ rest)) (List.length ctx')
     = fill f m
  /\ start (mkResolved p (ctxPath 0 (ctx' ++ [f]) m ++ rest)) (List.length ctx')
     = ctxStart 0 ctx'
  /\ peOffset (entry (mkResolved p (ctxPath 0 (ctx' ++ [f]) m ++ rest)) (List.length ctx'))
     = ctxStart 0 ctx' + fragSize (fLeft f).
Proof.
  assert (Hn : nth_error (ctx' ++ [f]) (List.length ctx') = Some f).
  { rewrite nth_error_app2, Nat.sub_diag by lia. reflexivity. }
  assert (Hlt : (List.length ctx' < List.length (ctx' ++ [f]))%nat).
  { rewrite length_app. cbn [List.length]. lia. }
  split; [apply (shape_index_ctx _ _ _ _ _ Hn) |]. split; [| split].
  - rewrite shape_node_ctx by exact Hlt.
    rewrite skipn_app, skipn_all, Nat.sub_diag. reflexivity.
  - rewrite shape_start_below by lia.
    rewrite firstn_app, firstn_all, Nat.sub_diag. cbn [firstn]. now rewrite app_nil_r.
  - destruct (shape_entry_ctx p (ctx' ++ [f]) m rest Hlt) as (g & Hg & ->).
    rewrite Hn in Hg. inversion Hg; subst g. cbn [peOffset].
    rewrite firstn_app, firstn_all, Nat.sub_diag. cbn [firstn]. now rewrite app_nil_r.
Qed.

(** What [findPreviousItem] finds in its second branch. *)
Lemma found_in_previous_list sch d from to rfrom rto range ctx' f lt la cs found :
  wellFormed sch d = true ->
  RangeShape sch d from to rfrom rto range (ctx' ++ [f]) lt la cs ->
  startIndex range = 0%nat ->
  findPreviousItem sch (Elem lt la cs) rfrom range = Ok (Some found) ->
  exists fl0 plt pla pis pit pia pic,
    fLeft f = fl0 ++ [Elem plt pla (pis ++ [Elem pit pia pic])]
    /\ isList sch plt = true
    /\ found = mkPrevious (Elem pit pia pic) (Elem plt pla (pis ++ [Elem pit pia pic]))
                 (ctxStart 0 ctx' + 1 + fragSize fl0 + fragSize pis + 1)
                 (ctxStart 0 ctx' + 1 + fragSize fl0) false.
Proof.
  intros Hwf Sh H0 Hf.
  pose proof (rs_depth Sh) as Hd. rewrite length_app in Hd. cbn [List.length] in Hd.
  pose proof (rs_doc Sh) as Hdoc. rewrite plug_app in Hdoc. cbn [plug] in Hdoc.
  rewrite (rs_pfrom Sh) in Hf. unfold findPreviousItem in Hf.
  rewrite H0 in Hf. change (1 <=? 0)%nat with false in Hf. cbv iota zeta in Hf.
  assert (Hrd : forall r, resolveDepth r (Z.of_nat (rDepth range) - 1) = List.length ctx').
  { intros r. unfold resolveDepth.
    destruct (Z.ltb_spec (Z.of_nat (rDepth range) - 1) 0); lia. }
  rewrite !Hrd in Hf.
  destruct (snoc_entry from ctx' f (Elem lt la cs)
              (resolveLoop (Elem lt la cs) (ctxStart 0 (ctx' ++ [f]))
                 (from - ctxStart 0 (ctx' ++ [f])))) as (Hidx & Hnode & Hst & _).
  rewrite Hidx, Hnode, Hst in Hf.
  destruct (Nat.leb_spec 1 (List.length (fLeft f))) as [Hge | Hlt]; [| discriminate].
  destruct (snoc_cases (fLeft f)) as [E | (fl0 & PL & E)];
    [rewrite E in Hge; cbn in Hge; lia |].
  unfold child, fill in Hf. cbn [contentOf] in Hf. rewrite E in Hf.
  rewrite length_app in Hf. cbn [List.length] in Hf.
  replace (List.length fl0 + 1 - 1)%nat with (List.length fl0) in Hf by lia.
  assert (Hnth : nth_error ((fl0 ++ [PL]) ++ Elem lt la cs :: fRight f) (List.length fl0)
                 = Some PL).
  { rewrite <- app_assoc, nth_error_app2, Nat.sub_diag by lia. reflexivity. }
  rewrite Hnth in Hf.
  destruct (isListNode sch PL) eqn:Hpl; cbn [negb] in Hf; [| discriminate].
  rewrite addSizes_ok in Hf
    by (rewrite !length_app; cbn [List.length]; lia).
  rewrite <- app_assoc, firstn_app, firstn_all, Nat.sub_diag in Hf.
  cbn [firstn] in Hf. rewrite app_nil_r in Hf.
  destruct (nth_error (contentOf PL) (childCount PL - 1)) as [PI |] eqn:Hpi;
    [| discriminate].
  destruct (isListItemNode sch PI) eqn:Hli; cbn [negb] in Hf; [| discriminate].
  destruct PL as [s | plt pla pc]; [destruct (childCount (Text s) - 1)%nat; discriminate |].
  unfold childCount in Hpi. cbn [contentOf] in Hpi.
  apply last_child in Hpi. destruct Hpi as (pis & ->).
  (* the previous item is an element *)
  assert (Hio : itemsOnly sch (Elem plt pla (pis ++ [PI])) = true).
  { unfold wellFormed in Hwf. apply andb_true_iff in Hwf. destruct Hwf as [_ Hio].
    rewrite Hdoc in Hio. apply itemsOnly_plug in Hio. unfold fill in Hio.
    apply (@itemsOnly_child sch _ _ _ _ Hio). rewrite E, <- app_assoc.
    apply in_or_app. right. left. reflexivity. }
  pose proof (@itemsOnly_list sch _ _ _ Hio Hpl) as Hnt.
  rewrite Forall_forall in Hnt.
  assert (HPI : isText PI = false) by (apply Hnt, in_or_app; right; left; reflexivity).
  destruct PI as [s | pit pia pic]; [discriminate |].
  exists fl0, plt, pla, pis, pit, pia, pic. split; [exact E |]. split; [exact Hpl |].
  assert (Hsz : nodeSize (Elem plt pla (pis ++ [Elem pit pia pic]))
                = 2 + fragSize pis + nodeSize (Elem pit pia pic)).
  { rewrite (nodeSize_Elem plt), fragSize_app. cbn [fragSize]. lia. }
  replace (ctxStart 0 ctx' + 1 + fragSize fl0
           + nodeSize (Elem plt pla (pis ++ [Elem pit pia pic]))
           - nodeSize (Elem pit pia pic) - 1)
    with (ctxStart 0 ctx' + 1 + fragSize fl0 + fragSize pis + 1) in Hf by lia.
  congruence.
Qed.

(** ** [tr.deleteRange] on an item range *)

Lemma deleteOpenStart_none rfrom rto from to : forall k d0,
  (forall x, (d0 <= x < d0 + k)%nat -> to <= end_ rfrom x) ->
  deleteOpenStart rfrom rto from to d0 k = None.
Proof.
  induction k as [| k IH]; intros d0 H; cbn [deleteOpenStart]; [reflexivity |].
  destruct (Z.ltb_spec (end_ rfrom d0) to) as [Hx | _].
  - specialize (H d0 ltac:(lia)). lia.
  - rewrite andb_false_r. cbn [andb]. apply IH. intros x Hx. apply H. lia.
Qed.

(** The content of every level above a position ends after the content of
    the node the position is in. *)
Lemma end_above p ctx t a c i x :
  (x <= List.length ctx)%nat ->
  ctxStart 0 ctx + fragSize c
  <= end_ (mkResolved p (ctxPath 0 ctx (Elem t a c) ++ [mkEntry (Elem t a c) i p])) x.
Proof.
  intros Hx. unfold end_. rewrite shape_start_below by exact Hx.
  destruct (Nat.eq_dec x (List.length ctx)) as [-> | Hne].
  - rewrite firstn_all, hole_node. cbn [peNode]. rewrite contentSize_Elem. lia.
  - rewrite shape_node_ctx by lia.
    pose proof (@ctxStart_contentSize (skipn x ctx) (Elem t a c)
                  (ctxStart 0 (firstn x ctx)) eq_refl) as H.
    rewrite <- ctxStart_app, firstn_skipn, contentSize_Elem in H. lia.
Qed.

Section DeleteRange.
Variable sch : Schema.
Variables (tr : Transaction) (ctx' : list Frame) (f : Frame).
Variables (lt : NodeType) (la : Attrs) (cs : Fragment) (ei : nat).
Hypothesis Hdoc : doc tr = plug (ctx' ++ [f]) (Elem lt la cs).
Hypothesis Hctx : ctxPositive (ctx' ++ [f]).
Hypothesis Hpos : positive cs.
Hypothesis Hleft : 0 < fragSize (fLeft f).
Hypothesis Hei : (0 < ei <= List.length cs)%nat.

Local Abbreviation L := (Elem lt la cs).
Local Abbreviation LS := (ctxStart 0 (ctx' ++ [f])).
Local Abbreviation E := (LS + fragSize (firstn ei cs)).
Local Abbreviation rf := (mkResolved LS (ctxPath 0 (ctx' ++ [f]) L ++ [mkEntry L 0 LS])).
Local Abbreviation rt := (mkResolved E (ctxPath 0 (ctx' ++ [f]) L ++ [mkEntry L ei E])).

Lemma range_start_path : resolve (doc tr) LS = Some rf.
Proof.
  pose proof (@flat_from (ctx' ++ [f]) lt la cs 0 Hctx Hpos ltac:(lia)) as H.
  cbn [firstn fragSize] in H. rewrite Z.add_0_r in H. rewrite Hdoc. exact H.
Qed.

Lemma range_end_path : resolve (doc tr) E = Some rt.
Proof.
  rewrite Hdoc. apply (@flat_from (ctx' ++ [f]) lt la cs ei Hctx Hpos). lia.
Qed.

Lemma depth_rf : depth rf = S (List.length ctx').
Proof. rewrite hole_depth, length_app. cbn [List.length]. lia. Qed.

Lemma depth_rt : depth rt = S (List.length ctx').
Proof. rewrite hole_depth, length_app. cbn [List.length]. lia. Qed.

Lemma length_snoc : List.length (ctx' ++ [f]) = S (List.length ctx').
Proof. rewrite length_app. cbn [List.length]. lia. Qed.

Lemma covered_cases :
  coveredDepths sch rf rt = []
  \/ (coveredDepths sch rf rt = [S (List.length ctx')] /\ ei = List.length cs).
Proof.
  assert (H1 : start rf (S (List.length ctx')) = LS)
    by (rewrite <- length_snoc; apply hole_start).
  assert (H2 : start rt (S (List.length ctx')) = LS)
    by (rewrite <- length_snoc; apply hole_start).
  assert (H3 : end_ rt (S (List.length ctx')) = LS + fragSize cs).
  { unfold end_. rewrite H2, <- length_snoc, hole_node. cbn [peNode].
    now rewrite contentSize_Elem. }
  destruct (snoc_entry LS ctx' f L [mkEntry L 0 LS]) as (_ & _ & H4 & _).
  pose proof (ctxStart_snoc 0 ctx' f) as Hs.
  unfold coveredDepths. rewrite depth_rf, depth_rt, Nat.min_id, Nat.add_1_r.
  cbn [coveredDepthsFrom]. rewrite depth_rf, depth_rt, H1, H2, H3, H4. cbn [pos].
  rewrite !Z.sub_diag, Z.sub_0_r, Z.add_0_r, Z.ltb_irrefl, Z.eqb_refl. cbn [orb].
  destruct (Z.ltb_spec E (LS + fragSize cs)) as [Hlt | Hge]; cbn [orb];
    [left; reflexivity |].
  destruct (isolating sch _ || isolating sch _); [left; reflexivity |].
  right.
  destruct (Z.ltb_spec (ctxStart 0 ctx')
              (LS - (Z.of_nat (S (List.length ctx')) - Z.of_nat (List.length ctx'))))
    as [_ | Hx]; [| lia].
  cbn [orb]. split; [reflexivity |].
  destruct (Nat.eq_dec ei (List.length cs)) as [He | Hne]; [exact He |].
  pose proof (@fragSize_firstn_strict cs ei (List.length cs) Hpos
                ltac:(lia) (Nat.le_refl _)) as Hs'.
  rewrite firstn_all in Hs'. lia.
Qed.

(** [tr.deleteRange(range.start, range.end)] deletes the selected items, or,
    when they are all the items of the list, the list itself. *)
Lemma deleteRange_cases :
  deleteRange sch tr LS E = trDelete sch tr LS E
  \/ (ei = List.length cs
      /\ deleteRange sch tr LS E = trDelete sch tr (LS - 1) (E + 1)).
Proof.
  unfold deleteRange. rewrite range_start_path, range_end_path.
  destruct covered_cases as [-> | [-> He]].
  - cbn [deleteCovered]. rewrite depth_rf, depth_rt, Nat.min_id.
    rewrite deleteOpenStart_none; [left; reflexivity |].
    intros x Hx. pose proof (@end_above LS (ctx' ++ [f]) lt la cs 0 x) as H.
    rewrite length_snoc in H. specialize (H ltac:(lia)).
    pose proof (fragSize_firstn_le cs ei). lia.
  - assert (H1 : start rf (S (List.length ctx')) = LS)
      by (rewrite <- length_snoc; apply hole_start).
    assert (H3 : end_ rt (S (List.length ctx')) = LS + fragSize cs).
    { unfold end_. rewrite <- length_snoc, hole_start, hole_node. cbn [peNode].
      now rewrite contentSize_Elem. }
    assert (H5 : before rf (S (List.length ctx')) = LS - 1).
    { unfold before. rewrite depth_rf.
      replace (S (List.length ctx') =? S (List.length ctx') + 1)%nat with false
        by (symmetry; apply Nat.eqb_neq; lia).
      replace (S (List.length ctx') - 1)%nat with (List.length ctx') by lia.
      destruct (snoc_entry LS ctx' f L [mkEntry L 0 LS]) as (_ & _ & _ & ->).
      rewrite ctxStart_snoc. lia. }
    assert (H6 : after rt (S (List.length ctx')) = LS + fragSize cs + 1).
    { unfold after. rewrite depth_rt.
      replace (S (List.length ctx') =? S (List.length ctx') + 1)%nat with false
        by (symmetry; apply Nat.eqb_neq; lia).
      replace (S (List.length ctx') - 1)%nat with (List.length ctx') by lia.
      destruct (snoc_entry E ctx' f L [mkEntry L ei E]) as (_ & _ & _ & ->).
      rewrite <- length_snoc, hole_node. cbn [peNode].
      rewrite nodeSize_Elem, ctxStart_snoc. lia. }
    unfold deleteCovered. rewrite H1, H3, H5, H6.
    change (S (List.length ctx') =? 0)%nat with false. cbn [andb orb negb].
    destruct (validContent sch _ []).
    + left. rewrite He, firstn_all. reflexivity.
    + right. split; [exact He |]. rewrite He, firstn_all. reflexivity.
Qed.

End DeleteRange.

(** ** [tr.replaceRangeWith] on the last item of a list *)

Lemma replaceRangeWith_last sch tr0 ctx plt pla pis pit pia pic n tr1 :
  doc tr0 = plug ctx (Elem plt pla (pis ++ [Elem pit pia pic])) ->
  ctxPositive ctx -> positive (pis ++ [Elem pit pia pic]) ->
  isText n = false ->
  replaceRangeWith sch tr0 (ctxStart 0 ctx + fragSize pis)
    (ctxStart 0 ctx + fragSize pis + nodeSize (Elem pit pia pic)) n = TrOk tr1 ->
  doc tr1 = plug ctx (Elem plt pla (pis ++ [n]))
  /\ validContent sch plt (childTypes (pis ++ [n])) = true.
Proof.
  intros Hdoc Hctx Hpos Hn. unfold replaceRangeWith.
  pose proof (nodeSize_Elem_ge pit pia pic).
  destruct (Z.eqb_spec (ctxStart 0 ctx + fragSize pis)
              (ctxStart 0 ctx + fragSize pis + nodeSize (Elem pit pia pic)))
    as [Hx | _]; [lia |].
  rewrite andb_false_r. intros E.
  pose proof (@replaceRange_flat sch tr0 ctx plt pla (pis ++ [Elem pit pia pic])
                (List.length pis) (List.length pis + 1) Hdoc Hctx Hpos) as R.
  rewrite length_app in R. cbn [List.length] in R. specialize (R (Nat.le_refl _)).
  rewrite firstn_app, firstn_all, Nat.sub_diag in R. cbn [firstn] in R.
  rewrite app_nil_r in R.
  rewrite firstn_all2 in R by (rewrite length_app; cbn [List.length]; lia).
  rewrite skipn_all2 in R by (rewrite length_app; cbn [List.length]; lia).
  rewrite fragSize_app in R. cbn [fragSize] in R.
  replace (ctxStart 0 ctx + (fragSize pis + (nodeSize (Elem pit pia pic) + 0)))
    with (ctxStart 0 ctx + fragSize pis + nodeSize (Elem pit pia pic)) in R by lia.
  destruct (R n tr1 Hn ltac:(lia) E) as [-> Hv]. split; [reflexivity | exact Hv].
Qed.

End RebuildFacts.

(* ================================================================== *)
(** * A run of the second branch *)
(* ================================================================== *)

Module RebuildRun.
Import Model Resolve Replace Transform Context Indent Dedent Setup Shapes Statements.
Import RunShapes.
Import ModelFacts ResolveFacts PathFacts RangeFacts FragmentFacts ReplaceFacts.
Import SameListFacts IndentFacts FlatFacts RunFacts AcrossFacts CheckFacts FlatSteps.
Import RebuildFacts.

Lemma noAdjacentText_remove a x y b :
  isText x = false ->
  noAdjacentText ((a ++ [x]) ++ y :: b) = true ->
  noAdjacentText ((a ++ [x]) ++ b) = true.
Proof.
  intros Hx. induction a as [| z a IH]; cbn [app noAdjacentText].
  - rewrite Hx. cbn [andb negb]. intros H. apply andb_true_iff in H.
    destruct H as [_ H]. exact H.
  - intros H. apply andb_true_iff in H. destruct H as [Hz H].
    rewrite (IH H), andb_true_r.
    destruct a; cbn [app] in *; exact Hz.
Qed.

Lemma sameType_false_first sch tr l :
  located sch tr = Some l -> sameType l = false -> startIndex (lRange l) = 0%nat.
Proof.
  intros Hl Hty. destruct (located_inv _ _ Hl) as (rs & _ & _ & _ & _ & _ & _ & Hf).
  apply findPreviousItem_branch in Hf.
  destruct Hf as [(_ & _ & Hsame) | (_ & H0)]; [| exact H0].
  unfold sameType in Hty. rewrite Hsame, String.eqb_refl in Hty. discriminate.
Qed.

Lemma indentList_rebuild sch tr tr' l :
  wellFormed sch (doc tr) = true ->
  located sch tr = Some l -> sameType l = false ->
  indentList sch tr = Returned true tr' ->
  exists ctx ft fa fl plt pla pis prev lt la cs fr n rest,
    Rebuilt sch tr tr' l ctx ft fa fl plt pla pis prev lt la cs fr n rest.
Proof.
  intros Hwf Hl Hty E.
  pose proof (sameType_false_first _ _ Hl Hty) as H0.
  destruct (located_inv _ _ Hl) as (rs & Hrf & Hrt & Hcalc & Hrs & HL & Hisl & Hf).
  destruct (@range_shape sch (doc tr) _ _ _ _ _ Hwf Hrf Hrt (sel_min_max tr) Hcalc)
    as (ctx & lt & la & cs & Sh).
  pose proof (rs_doc Sh) as Hdoc. pose proof (rs_idx Sh) as Hidx.
  pose proof (rs_start Sh) as Hs. pose proof (rs_end Sh) as He.
  pose proof (rs_ctx Sh) as Hctx. pose proof (rs_list Sh) as Hlist.
  assert (Hpos : positive cs).
  { apply normals_positive. exact (@normal_children _ _ _ (rs_normal Sh)). }
  rewrite H0 in Hs, Hidx. cbn [firstn fragSize] in Hs. rewrite Z.add_0_r in Hs.
  destruct (snoc_cases ctx) as [-> | (ctx' & f & ->)].
  { exfalso. cbn [plug] in Hdoc. unfold wellFormed in Hwf. rewrite Hdoc in Hwf.
    cbn [isText typeOf negb andb] in Hwf. rewrite Hlist in Hwf. discriminate. }
  (* the selected list *)
  assert (Hei : (0 < endIndex (lRange l) <= List.length cs)%nat) by lia.
  assert (HLeq : lList l = Elem lt la cs).
  { rewrite HL. rewrite Hs in Hrs.
    pose proof (@flat_from (ctx' ++ [f]) lt la cs 0 Hctx Hpos ltac:(lia)) as Hp.
    cbn [firstn fragSize] in Hp. rewrite Z.add_0_r, <- Hdoc, Hrs in Hp.
    inversion Hp. unfold parent. rewrite hole_depth. cbn [List.length].
    rewrite Nat.add_0_r, hole_node. reflexivity. }
  rewrite HLeq in Hf.
  destruct (@found_in_previous_list sch (doc tr) _ _ _ _ _ ctx' f lt la cs _ Hwf Sh H0 Hf)
    as (fl0 & plt & pla & pis & pit & pia & pic & EfL & Hplist & Hfound).
  destruct f as [ft fa fL fR]. cbn [fLeft] in EfL. subst fL.
  (* normal forms *)
  assert (Hparent : normal (Elem ft fa ((fl0 ++ [Elem plt pla (pis ++ [Elem pit pia pic])])
                                        ++ Elem lt la cs :: fR)) = true
                    /\ ctxPositive ctx').
  { unfold wellFormed in Hwf. apply andb_true_iff in Hwf. destruct Hwf as [Hn _].
    apply andb_true_iff in Hn. destruct Hn as [_ Hn].
    rewrite Hdoc, plug_app in Hn. cbn [plug] in Hn. unfold fill in Hn.
    cbn [fType fAttrs fLeft fRight] in Hn. exact (normal_plug _ _ Hn). }
  destruct Hparent as [Hpn Hctx'].
  pose proof (@normal_children _ _ _ Hpn) as Hpcs.
  pose proof (@normal_noAdjacent _ _ _ Hpn) as Hpadj.
  assert (HPLn : normal (Elem plt pla (pis ++ [Elem pit pia pic])) = true).
  { apply (normals_In _ _ Hpcs). rewrite <- app_assoc.
    apply in_or_app. right. apply in_or_app. left. left. reflexivity. }
  assert (Hppos : positive (pis ++ [Elem pit pia pic])).
  { apply normals_positive. exact (@normal_children _ _ _ HPLn). }
  assert (Hfl0 : positive fl0).
  { apply normals_positive in Hpcs. apply positive_app in Hpcs.
    destruct Hpcs as [Hp _]. apply positive_app in Hp. tauto. }
  (* the run *)
  apply indentList_true in E. destruct E as (l' & tr1 & Hl' & Hb & _ & _ & Hd' & _).
  assert (l' = l) by congruence. subst l'. rewrite Hty in Hb.
  destruct Hb as (sel & unsel & tr0 & Hsl & Hdel & Hchk & Hrep).
  rewrite Hfound in Hchk, Hrep. cbn [previousItem previousItemStart] in Hchk, Hrep.
  rewrite HLeq in Hchk, Hrep.
  assert (Hitem : rebuiltPreviousItem sch tr
                  = Some (copy (Elem pit pia pic)
                            (newPreviousItemContent (Elem pit pia pic) (Elem lt la cs)
                               sel unsel))).
  { unfold rebuiltPreviousItem. rewrite Hl, Hty, Hsl, Hfound, HLeq. reflexivity. }
  pose proof (ctxStart_snoc 0 ctx' (mkFrame ft fa fl0 [])) as Hsn.
  cbn [fLeft] in Hsn.
  assert (HLS : ctxStart 0 (ctx' ++ [mkFrame ft fa
                   (fl0 ++ [Elem plt pla (pis ++ [Elem pit pia pic])]) fR])
                = ctxStart 0 ctx' + fragSize fl0
                  + nodeSize (Elem plt pla (pis ++ [Elem pit pia pic])) + 1).
  { rewrite ctxStart_snoc. cbn [fLeft]. rewrite fragSize_app. cbn [fragSize]. lia. }
  pose proof (nodeSize_Elem_ge plt pla (pis ++ [Elem pit pia pic])) as HPL2.
  pose proof (fragSize_nonneg fl0) as Hfl0n.
  (* the position of the previous item *)
  assert (Hfrom : forall R,
    doc tr0 = plug (ctx' ++ [mkFrame ft fa fl0 R]) (Elem plt pla (pis ++ [Elem pit pia pic])) ->
    doc tr1 = plug (ctx' ++ [mkFrame ft fa fl0 R])
                (Elem plt pla (pis ++ [copy (Elem pit pia pic)
                   (newPreviousItemContent (Elem pit pia pic) (Elem lt la cs) sel unsel)]))
    /\ validContent sch plt (childTypes (pis ++ [copy (Elem pit pia pic)
         (newPreviousItemContent (Elem pit pia pic) (Elem lt la cs) sel unsel)])) = true).
  { intros R Hd0.
    apply (@replaceRangeWith_last sch tr0 (ctx' ++ [mkFrame ft fa fl0 R])
             plt pla pis pit pia pic _ tr1 Hd0).
    - apply ctxPositive_snoc; assumption.
    - exact Hppos.
    - reflexivity.
    - rewrite ctxStart_snoc. cbn [fLeft].
      replace (ctxStart 0 ctx' + fragSize fl0 + 1 + fragSize pis)
        with (ctxStart 0 ctx' + 1 + fragSize fl0 + fragSize pis + 1 - 1) by lia.
      replace (ctxStart 0 ctx' + 1 + fragSize fl0 + fragSize pis + 1 - 1
               + nodeSize (Elem pit pia pic))
        with (ctxStart 0 ctx' + 1 + fragSize fl0 + fragSize pis + 1
              + nodeSize (Elem pit pia pic) - 2 + 1) by lia.
      exact Hrep. }
  (* the delete *)
  rewrite Hs, He in Hdel.
  assert (Hleft : 0 < fragSize (fLeft (mkFrame ft fa
                    (fl0 ++ [Elem plt pla (pis ++ [Elem pit pia pic])]) fR))).
  { cbn [fLeft]. rewrite fragSize_app. cbn [fragSize]. lia. }
  exists ctx', ft, fa, fl0, plt, pla, pis, (Elem pit pia pic), lt, la, cs, fR,
    (copy (Elem pit pia pic)
       (newPreviousItemContent (Elem pit pia pic) (Elem lt la cs) sel unsel)).
  destruct (@deleteRange_cases sch tr ctx' _ lt la cs (endIndex (lRange l))
              Hdoc Hctx Hpos Hleft Hei) as [Ed | [Hall Ed]]; rewrite Ed in Hdel.
  - (* the items after the range stay *)
    pose proof (@trDelete_flat sch tr _ lt la cs 0 (endIndex (lRange l))
                  Hdoc Hctx Hpos ltac:(lia) tr0 ltac:(lia)) as D.
    cbn [firstn fragSize app] in D. rewrite Z.add_0_r in D.
    assert (Hadj : noAdjacentText (skipn (endIndex (lRange l)) cs) = true).
    { apply noAdjacentText_nonText. unfold nonText.
      pose proof (rs_items Sh) as Hi. unfold nonText in Hi.
      rewrite <- (firstn_skipn (endIndex (lRange l)) cs) in Hi.
      apply Forall_app in Hi. tauto. }
    destruct (D Hadj Hdel) as [Etr0 Hv].
    assert (Hd0 : doc tr0 = plug (ctx' ++ [mkFrame ft fa fl0
                     (Elem lt la (skipn (endIndex (lRange l)) cs) :: fR)])
                    (Elem plt pla (pis ++ [Elem pit pia pic]))).
    { rewrite Etr0. cbn [doc]. rewrite !plug_app. cbn [plug]. unfold fill.
      cbn [fType fAttrs fLeft fRight]. rewrite <- app_assoc. reflexivity. }
    destruct (Hfrom _ Hd0) as [Hd1 Hv1].
    exists [Elem lt la (skipn (endIndex (lRange l)) cs)].
    split; try assumption; try reflexivity.
    + rewrite Hdoc, plug_app. cbn [plug]. unfold fill.
      cbn [fType fAttrs fLeft fRight]. rewrite <- app_assoc. reflexivity.
    + rewrite Hd', Hd1, plug_app. cbn [plug]. unfold fill.
      cbn [fType fAttrs fLeft fRight]. reflexivity.
    + right. split; [reflexivity | exact Hv].
    + rewrite Hfound. cbn [previousItemStart]. lia.
    + rewrite He, HLS. lia.
    + split; assumption.
  - (* the list goes *)
    pose proof (@trDelete_flat sch tr ctx' ft fa
                  ((fl0 ++ [Elem plt pla (pis ++ [Elem pit pia pic])])
                   ++ Elem lt la cs :: fR)
                  (List.length (fl0 ++ [Elem plt pla (pis ++ [Elem pit pia pic])]))
                  (List.length (fl0 ++ [Elem plt pla (pis ++ [Elem pit pia pic])]) + 1))
      as D.
    rewrite Hdoc, plug_app in D. cbn [plug] in D. unfold fill in D.
    cbn [fType fAttrs fLeft fRight] in D.
    specialize (D eq_refl Hctx' (normals_positive _ Hpcs)).
    rewrite (length_app _ (_ :: fR)) in D. cbn [List.length] in D.
    specialize (D ltac:(lia) tr0 ltac:(lia)).
    rewrite firstn_app, firstn_all, Nat.sub_diag in D. cbn [firstn] in D.
    rewrite app_nil_r in D.
    replace (firstn (List.length (fl0 ++ [Elem plt pla (pis ++ [Elem pit pia pic])]) + 1)
               ((fl0 ++ [Elem plt pla (pis ++ [Elem pit pia pic])])
                ++ Elem lt la cs :: fR))
      with ((fl0 ++ [Elem plt pla (pis ++ [Elem pit pia pic])]) ++ [Elem lt la cs]) in D.
    2:{ rewrite firstn_app, firstn_all2 by lia.
        replace (List.length (fl0 ++ [Elem plt pla (pis ++ [Elem pit pia pic])]) + 1
                 - List.length (fl0 ++ [Elem plt pla (pis ++ [Elem pit pia pic])]))%nat
          with 1%nat by lia. reflexivity. }
    replace (skipn (List.length (fl0 ++ [Elem plt pla (pis ++ [Elem pit pia pic])]) + 1)
               ((fl0 ++ [Elem plt pla (pis ++ [Elem pit pia pic])])
                ++ Elem lt la cs :: fR)) with fR in D.
    2:{ rewrite skipn_app, skipn_all2 by lia.
        replace (List.length (fl0 ++ [Elem plt pla (pis ++ [Elem pit pia pic])]) + 1
                 - List.length (fl0 ++ [Elem plt pla (pis ++ [Elem pit pia pic])]))%nat
          with 1%nat by lia. reflexivity. }
    rewrite !fragSize_app in D. cbn [fragSize] in D.
    rewrite (nodeSize_Elem lt) in D.
    rewrite Hall, firstn_all in Hdel.
    replace (ctxStart 0 ctx' + (fragSize fl0
               + (nodeSize (Elem plt pla (pis ++ [Elem pit pia pic])) + 0)))
      with (ctxStart 0 (ctx' ++ [mkFrame ft fa
              (fl0 ++ [Elem plt pla (pis ++ [Elem pit pia pic])]) fR]) - 1) in D by lia.
    replace (ctxStart 0 ctx' + (fragSize fl0
               + (nodeSize (Elem plt pla (pis ++ [Elem pit pia pic])) + 0)
               + (2 + fragSize cs + 0)))
      with (ctxStart 0 (ctx' ++ [mkFrame ft fa
              (fl0 ++ [Elem plt pla (pis ++ [Elem pit pia pic])]) fR])
            + fragSize cs + 1) in D by lia.
    assert (Hadj : noAdjacentText
                     ((fl0 ++ [Elem plt pla (pis ++ [Elem pit pia pic])]) ++ fR) = true).
    { apply (@noAdjacentText_remove fl0 (Elem plt pla (pis ++ [Elem pit pia pic]))
               (Elem lt la cs) fR eq_refl Hpadj). }
    destruct (D Hadj Hdel) as [Etr0 Hv].
    assert (Hd0 : doc tr0 = plug (ctx' ++ [mkFrame ft fa fl0 fR])
                    (Elem plt pla (pis ++ [Elem pit pia pic]))).
    { rewrite Etr0. cbn [doc]. rewrite !plug_app. cbn [plug]. unfold fill.
      cbn [fType fAttrs fLeft fRight]. rewrite <- app_assoc. reflexivity. }
    destruct (Hfrom _ Hd0) as [Hd1 Hv1].
    exists [].
    split; try assumption; try reflexivity.
    + rewrite Hdoc, plug_app. cbn [plug]. unfold fill.
      cbn [fType fAttrs fLeft fRight]. rewrite <- app_assoc. reflexivity.
    + rewrite Hd', Hd1, plug_app. cbn [plug]. unfold fill.
      cbn [fType fAttrs fLeft fRight]. reflexivity.
    + left. split; [reflexivity |]. split; [exact Hall |].
      rewrite <- app_assoc in Hv. exact Hv.
    + rewrite Hfound. cbn [previousItemStart]. lia.
    + rewrite He, HLS. lia.
    + split; assumption.
Qed.

End RebuildRun.

(* ================================================================== *)
(** * The token stream *)
(* ================================================================== *)

Module TokenFacts.
Import Model Resolve Replace Transform Context Indent Dedent Setup Shapes Statements.
Import ModelFacts ResolveFacts PathFacts.

Lemma tokens_Elem t a c : tokens (Elem t a c) = TOpen t a :: fragTokens c ++ [TClose].
Proof. reflexivity. Qed.

Lemma fragTokens_app l1 l2 : fragTokens (l1 ++ l2) = fragTokens l1 ++ fragTokens l2.
Proof.
  induction l1 as [| x l1 IH]; cbn [app fragTokens]; [reflexivity |].
  now rewrite IH, app_assoc.
Qed.

Lemma length_ascii s : List.length (list_ascii_of_string s) = String.length s.
Proof. induction s as [| ch s IH]; cbn; [reflexivity | now rewrite IH]. Qed.

(** A node has as many tokens as its size. *)
Lemma length_tokens : forall n, Z.of_nat (List.length (tokens n)) = nodeSize n.
Proof.
  induction n as [s | t a c IH] using Node_rect'.
  - cbn [tokens nodeSize]. now rewrite length_map, length_ascii.
  - rewrite tokens_Elem, nodeSize_Elem. cbn [List.length]. rewrite length_app.
    cbn [List.length].
    assert (H : Z.of_nat (List.length (fragTokens c)) = fragSize c).
    { induction IH as [| x c Hx _ IHc]; [reflexivity |].
      cbn [fragTokens fragSize]. rewrite length_app. lia. }
    lia.
Qed.

Lemma length_fragTokens l : Z.of_nat (List.length (fragTokens l)) = fragSize l.
Proof.
  induction l as [| x l IH]; [reflexivity |].
  cbn [fragTokens fragSize]. rewrite length_app. pose proof (length_tokens x). lia.
Qed.

(** The tokens of a node in a context: those of the context before it, its
    own, and those of the context after it. *)
Lemma tokens_plug t a ctx :
  exists A B,
    (forall c, tokens (plug ctx (Elem t a c)) = A ++ fragTokens c ++ B)
    /\ forall st, Z.of_nat (List.length A) = ctxStart st ctx - st + 1.
Proof.
  induction ctx as [| f ctx IH].
  - exists [TOpen t a], [TClose]. split; [intros c; reflexivity |].
    intros st. cbn [ctxStart List.length]. lia.
  - destruct IH as (A & B & Hc & Hlen).
    exists (TOpen (fType f) (fAttrs f) :: fragTokens (fLeft f) ++ A),
      (B ++ fragTokens (fRight f) ++ [TClose]).
    split.
    + intros c. cbn [plug]. unfold fill. rewrite tokens_Elem, fragTokens_app.
      cbn [fragTokens]. rewrite Hc. cbn [app]. f_equal.
      rewrite <- !app_assoc. reflexivity.
    + intros st. cbn [ctxStart List.length]. rewrite length_app.
      pose proof (length_fragTokens (fLeft f)).
      specialize (Hlen (st + fragSize (fLeft f) + 1)). lia.
Qed.

Lemma docTokens_plug t a ctx :
  exists A B,
    (forall c, docTokens (plug ctx (Elem t a c)) = A ++ fragTokens c ++ B)
    /\ Z.of_nat (List.length A) = ctxStart 0 ctx.
Proof.
  destruct ctx as [| f ctx].
  - exists [], []. split; [| reflexivity].
    intros c. unfold docTokens. cbn [plug contentOf app]. now rewrite app_nil_r.
  - destruct (tokens_plug t a ctx) as (A & B & Hc & Hlen).
    exists (fragTokens (fLeft f) ++ A), (B ++ fragTokens (fRight f)). split.
    + intros c. unfold docTokens. cbn [plug]. unfold fill. cbn [contentOf].
      rewrite fragTokens_app. cbn [fragTokens]. rewrite Hc, <- !app_assoc. reflexivity.
    + cbn [ctxStart]. rewrite length_app.
      pose proof (length_fragTokens (fLeft f)).
      specialize (Hlen (0 + fragSize (fLeft f) + 1)). lia.
Qed.

(** Cutting a stream at the end of a prefix of known length. *)
Lemma firstn_prefix (A : Type) (X Y : list A) p :
  Z.of_nat (List.length X) = p -> firstn (Z.to_nat p) (X ++ Y) = X.
Proof.
  intros H. replace (Z.to_nat p) with (List.length X) by lia.
  rewrite firstn_app, firstn_all, Nat.sub_diag. cbn [firstn]. apply app_nil_r.
Qed.

Lemma skipn_prefix (A : Type) (X Y : list A) p :
  Z.of_nat (List.length X) = p -> skipn (Z.to_nat p) (X ++ Y) = Y.
Proof.
  intros H. replace (Z.to_nat p) with (List.length X) by lia.
  rewrite skipn_app, skipn_all, Nat.sub_diag. reflexivity.
Qed.

(** Two streams that differ in a window only. *)
Lemma frame_from_split (A : Type) (Pfx Mid W Sfx X X' : list A) p e :
  X = Pfx ++ Mid ++ Sfx -> X' = Pfx ++ W ++ Sfx ->
  Z.of_nat (List.length Pfx) = p ->
  Z.of_nat (List.length (Pfx ++ Mid)) = e ->
  e <= Z.of_nat (List.length X)
  /\ X' = firstn (Z.to_nat p) X ++ W ++ skipn (Z.to_nat e) X.
Proof.
  intros -> -> Hp He. split.
  - rewrite app_assoc, length_app. lia.
  - assert (H1 : firstn (Z.to_nat p) (Pfx ++ Mid ++ Sfx) = Pfx)
      by (now apply firstn_prefix).
    assert (H2 : skipn (Z.to_nat e) (Pfx ++ Mid ++ Sfx) = Sfx)
      by (rewrite app_assoc; now apply skipn_prefix).
    rewrite H1, H2. reflexivity.
Qed.

End TokenFacts.

(* ================================================================== *)
(** * Positions inside the selected items, before and after the indent *)
(* ================================================================== *)

Module WindowFacts.
Import Model Resolve Replace Transform Context Indent Dedent Setup Shapes Statements.
Import ModelFacts ResolveFacts PathFacts RangeFacts FragmentFacts ReplaceFacts.

(** The child of a run of children that holds an offset, seen from the run
    and from a fragment around it. *)
Lemma findIndex_window l1 l2 l3 q idx off :
  positive l1 -> positive l2 ->
  findIndex l2 q = Some (idx, off) ->
  findIndex (l1 ++ l2 ++ l3) (fragSize l1 + q)
  = Some ((List.length l1 + idx)%nat, fragSize l1 + off)
  /\ (q - off <> 0 ->
      nth_error (l1 ++ l2 ++ l3) (List.length l1 + idx) = nth_error l2 idx).
Proof.
  intros H1 H2 E. apply findIndex_spec in E.
  destruct E as (Hidx & Hoff & Hcase).
  assert (Hfirst : firstn (List.length l1 + idx) (l1 ++ l2 ++ l3) = l1 ++ firstn idx l2).
  { rewrite firstn_app, firstn_all2 by lia.
    replace (List.length l1 + idx - List.length l1)%nat with idx by lia.
    rewrite firstn_app. replace (idx - List.length l2)%nat with 0%nat by lia.
    cbn [firstn]. now rewrite app_nil_r. }
  destruct Hcase as [Hb | (Hlt & ch & Hch & Hin)].
  - split; [| lia]. subst off. rewrite <- Hb.
    pose proof (@findIndex_boundary (l1 ++ l2 ++ l3) (List.length l1 + idx)) as F.
    rewrite Hfirst, fragSize_app in F. apply F.
    + rewrite !length_app. lia.
    + apply positive_app. split; [exact H1 | now apply positive_firstn].
  - pose proof (nth_error_split_firstn _ _ Hch) as Hsplit.
    split.
    + rewrite Hsplit at 1.
      replace (l1 ++ (firstn idx l2 ++ ch :: skipn (S idx) l2) ++ l3)
        with ((l1 ++ firstn idx l2) ++ ch :: (skipn (S idx) l2 ++ l3))
        by (now rewrite <- !app_assoc).
      pose proof (@findIndex_inside (l1 ++ firstn idx l2) ch (skipn (S idx) l2 ++ l3)
                    (fragSize l1 + q)) as F.
      rewrite fragSize_app, length_app, length_firstn in F.
      replace (Nat.min idx (List.length l2)) with idx in F by lia.
      rewrite <- Hoff in F. apply F; [| lia | lia].
      apply positive_app. split; [exact H1 | now apply positive_firstn].
    + intros _. rewrite nth_error_app2 by lia.
      replace (List.length l1 + idx - List.length l1)%nat with idx by lia.
      rewrite nth_error_app1; [reflexivity |].
      apply nth_error_Some. congruence.
Qed.

(** The path below a node to a position inside a run of its children is the
    path below a node that holds just the run, but for the node and the
    index of the first entry. *)
Lemma resolveLoop_window t a t' a' l1 l2 l3 st q :
  positive l1 -> positive l2 -> 0 <= q -> q <= fragSize l2 ->
  exists idx off tail,
    (idx <= List.length l2)%nat
    /\ off = fragSize (firstn idx l2)
    /\ (tail = [] -> off = q \/ exists ch, nth_error l2 idx = Some ch)
    /\ resolveLoop (Elem t a (l1 ++ l2 ++ l3)) st (fragSize l1 + q)
       = mkEntry (Elem t a (l1 ++ l2 ++ l3)) (List.length l1 + idx)
           (st + fragSize l1 + off) :: tail
    /\ resolveLoop (Elem t' a' l2) (st + fragSize l1) q
       = mkEntry (Elem t' a' l2) idx (st + fragSize l1 + off) :: tail.
Proof.
  intros H1 H2 Hq0 Hq1.
  destruct (@findIndex_total l2 q Hq0 Hq1) as (idx & off & E).
  destruct (@findIndex_window l1 l2 l3 q idx off H1 H2 E) as (Ebig & Hnth).
  pose proof (@findIndex_spec l2 q idx off E) as (Hidx & Hoff & Hcase).
  rewrite !resolveLoop_Elem, E, Ebig.
  replace (fragSize l1 + q - (fragSize l1 + off)) with (q - off) by lia.
  replace (st + (fragSize l1 + off)) with (st + fragSize l1 + off) by lia.
  destruct (Z.eqb_spec (q - off) 0) as [Hz | Hnz].
  - exists idx, off, []. repeat split; auto. intros _. left. lia.
  - rewrite (Hnth Hnz). eexists idx, off, _. split; [exact Hidx |].
    split; [exact Hoff |]. split; [| split; reflexivity].
    intros _. destruct Hcase as [Hb | (_ & ch & Hch & _)]; [lia |]. eauto.
Qed.

(** ** The loop of [blockRange] *)

Lemma blockRangeFrom_first this other pred k r :
  blockRangeFrom this other pred k = Some r ->
  forall x, (rDepth r < x < k)%nat ->
  (pos other <=? end_ this x) && pred (node this x) = false.
Proof.
  induction k as [| d IH]; cbn [blockRangeFrom]; [discriminate |].
  destruct ((pos other <=? end_ this d) && pred (node this d)) eqn:Ec.
  - intros E x Hx. inversion E; subst r. cbn [rDepth] in Hx. lia.
  - intros E x Hx. destruct (Nat.eq_dec x d) as [-> | Hne]; [exact Ec |].
    apply (IH E). lia.
Qed.

Lemma blockRangeFrom_found this other pred k dd :
  (dd < k)%nat ->
  (pos other <=? end_ this dd) && pred (node this dd) = true ->
  (forall x, (dd < x < k)%nat ->
     (pos other <=? end_ this x) && pred (node this x) = false) ->
  blockRangeFrom this other pred k = Some (mkRange this other dd).
Proof.
  induction k as [| d IH]; intros Hlt Hc Hnone; [lia |]. cbn [blockRangeFrom].
  destruct (Nat.eq_dec dd d) as [-> | Hne].
  - rewrite Hc. reflexivity.
  - rewrite (Hnone d) by lia. apply IH; [lia | exact Hc |].
    intros x Hx. apply Hnone. lia.
Qed.

(** ** Two paths that agree below a level

    The first path reaches a child of [m] directly; the second reaches
    the same child through two more levels. *)
Section Levels.
Variables (p : Z) (ctx : list Frame) (m m' : Node).
Variables (e0 e0' e1' e2' : PathEntry) (tail : list PathEntry).
Hypothesis Hoff : peOffset e2' = peOffset e0.

Local Abbreviation d := (List.length ctx).
Local Abbreviation r := (mkResolved p (ctxPath 0 ctx m ++ e0 :: tail)).
Local Abbreviation r' := (mkResolved p (ctxPath 0 ctx m' ++ e0' :: e1' :: e2' :: tail)).

Lemma levels_depth : depth r' = (depth r + 2)%nat.
Proof. rewrite !hole_depth. cbn [List.length]. lia. Qed.

Lemma levels_depth_r : depth r = (d + List.length tail)%nat.
Proof. apply hole_depth. Qed.

Lemma levels_entry x : (1 <= x)%nat -> entry r' (d + 2 + x) = entry r (d + x).
Proof.
  intros Hx.
  pose proof (shape_entry_hole p ctx m' (e0' :: e1' :: e2' :: tail) (2 + x)) as E1.
  pose proof (shape_entry_hole p ctx m (e0 :: tail) x) as E2.
  replace (d + (2 + x))%nat with (d + 2 + x)%nat in E1 by lia.
  rewrite E1, E2. destruct x as [| x]; [lia |]. reflexivity.
Qed.

Lemma levels_top :
  entry r' d = e0' /\ entry r' (d + 1) = e1' /\ entry r' (d + 2) = e2'
  /\ entry r d = e0.
Proof.
  pose proof (shape_entry_hole p ctx m' (e0' :: e1' :: e2' :: tail)) as E1.
  pose proof (shape_entry_hole p ctx m (e0 :: tail) 0) as E2.
  rewrite Nat.add_0_r in E2.
  pose proof (E1 0%nat) as A0. rewrite Nat.add_0_r in A0.
  pose proof (E1 1%nat) as A1. pose proof (E1 2%nat) as A2.
  repeat split; assumption.
Qed.

Lemma levels_node x : (1 <= x)%nat -> node r' (d + 2 + x) = node r (d + x).
Proof. intros Hx. unfold node. now rewrite levels_entry. Qed.

Lemma levels_index x : (1 <= x)%nat -> index r' (d + 2 + x) = index r (d + x).
Proof. intros Hx. unfold index. now rewrite levels_entry. Qed.

Lemma levels_start x : (1 <= x)%nat -> start r' (d + 2 + x) = start r (d + x).
Proof.
  intros Hx. destruct levels_top as (_ & _ & E2 & E0).
  replace (d + 2 + x)%nat with (S (d + 2 + (x - 1))) by lia.
  replace (d + x)%nat with (S (d + (x - 1))) by lia. cbn [start].
  destruct (Nat.eq_dec x 1) as [-> | Hne].
  - cbn [Nat.sub]. rewrite !Nat.add_0_r, E2, E0, Hoff. reflexivity.
  - rewrite levels_entry by lia. reflexivity.
Qed.

Lemma levels_end x : (1 <= x)%nat -> end_ r' (d + 2 + x) = end_ r (d + x).
Proof. intros Hx. unfold end_. now rewrite levels_start, levels_node. Qed.

Lemma levels_parent : tail <> [] -> parent r' = parent r.
Proof.
  intros Hne. unfold parent. rewrite levels_depth, levels_depth_r.
  replace (d + List.length tail + 2)%nat with (d + 2 + List.length tail)%nat by lia.
  apply levels_node. destruct tail; [congruence | cbn; lia].
Qed.

Lemma levels_textOffset : textOffset r' = textOffset r.
Proof.
  unfold textOffset. rewrite levels_depth, levels_depth_r. cbn [pos].
  destruct levels_top as (_ & _ & E2 & E0).
  destruct tail as [| t0 tl] eqn:Et.
  - cbn [List.length]. rewrite !Nat.add_0_r, E2, E0, Hoff. reflexivity.
  - replace (d + List.length (t0 :: tl) + 2)%nat
      with (d + 2 + List.length (t0 :: tl))%nat by lia.
    rewrite <- Et, levels_entry; [reflexivity |]. rewrite Et. cbn. lia.
Qed.

End Levels.

End WindowFacts.

(* ================================================================== *)
(** * Dedent after an indent of the first branch *)
(* ================================================================== *)

Module RoundTripFacts.
Import Model Resolve Replace Transform Context Indent Dedent Setup Shapes Statements.
Import ModelFacts ResolveFacts PathFacts RangeFacts FragmentFacts ReplaceFacts.
Import SameListFacts IndentFacts FlatFacts RunFacts CheckFacts FlatSteps WindowFacts.

Section Nested.
Variable sch : Schema.
Variables (ctx : list Frame) (lt : NodeType) (la : Attrs).
Variables (pre : Fragment) (pt : NodeType) (pa : Attrs) (pc : Fragment).
Variables (sel post : Fragment).

Local Abbreviation prev := (Elem pt pa pc).
Local Abbreviation cs := (pre ++ prev :: sel ++ post).
Local Abbreviation L := (Elem lt la cs).
Local Abbreviation NL := (Elem lt la sel).
Local Abbreviation prev' := (Elem pt pa (pc ++ [NL])).
Local Abbreviation L' := (Elem lt la (pre ++ prev' :: post)).
Local Abbreviation LS := (ctxStart 0 ctx).
Local Abbreviation s := (LS + fragSize pre + nodeSize prev).
Local Abbreviation e := (s + fragSize sel).

Hypothesis Hctx : ctxPositive ctx.
Hypothesis Hpos : positive cs.
Hypothesis Hpc : positive pc.

Lemma parts_positive : positive pre /\ positive sel /\ positive post.
Proof.
  pose proof Hpos as H. apply positive_app in H. destruct H as [H1 H].
  inversion H as [| ? ? _ H2]; subst. apply positive_app in H2. tauto.
Qed.

(** A position among the selected items: its path before the indent and
    its path after it. *)
Lemma window_paths p :
  s <= p -> p <= e ->
  exists idx off tail,
    (idx <= List.length sel)%nat
    /\ off = fragSize (firstn idx sel)
    /\ resolve (plug ctx L) p
       = Some (mkResolved p
                 (ctxPath 0 ctx L
                  ++ mkEntry L (List.length pre + 1 + idx) (s + off) :: tail))
    /\ resolve (plug ctx L') p
       = Some (mkResolved p
                 (ctxPath 0 ctx L'
                  ++ mkEntry L' (List.length pre) (LS + fragSize pre)
                     :: mkEntry prev' (List.length pc) (LS + fragSize pre + 1 + fragSize pc)
                     :: mkEntry NL idx (s + off) :: tail)).
Proof.
  intros Hlo Hhi. destruct parts_positive as (Hpre & Hsel & Hpost).
  pose proof (ctxStart_ge 0 ctx) as HS.
  pose proof (fragSize_nonneg pre). pose proof (fragSize_nonneg pc).
  pose proof (fragSize_nonneg sel). pose proof (fragSize_nonneg post).
  pose proof (nodeSize_Elem pt pa pc) as Hprev.
  assert (Hl1 : positive (pre ++ [prev])).
  { apply positive_app. split; [exact Hpre |]. constructor; [lia | constructor]. }
  destruct (@resolveLoop_window lt la lt la (pre ++ [prev]) sel post LS (p - s)
              Hl1 Hsel ltac:(lia) ltac:(lia))
    as (idx & off & tail & Hidx & Hoff & _ & Ebig & Esmall).
  rewrite fragSize_app in Ebig, Esmall. rewrite length_app in Ebig.
  cbn [fragSize List.length] in Ebig, Esmall.
  exists idx, off, tail. split; [exact Hidx |]. split; [exact Hoff |].
  pose proof (@ctxStart_contentSize ctx L 0 eq_refl) as HcL.
  pose proof (@ctxStart_contentSize ctx L' 0 eq_refl) as HcL'.
  rewrite contentSize_Elem in HcL, HcL'.
  rewrite !fragSize_app in HcL, HcL'. cbn [fragSize] in HcL, HcL'.
  rewrite fragSize_app in HcL. rewrite (nodeSize_Elem pt pa (pc ++ [NL])) in HcL'.
  rewrite fragSize_app in HcL'. cbn [fragSize] in HcL'.
  rewrite (nodeSize_Elem lt la sel) in HcL'.
  split.
  - rewrite resolve_ok by lia. do 2 f_equal.
    pose proof (@resolveLoop_plug ctx L 0 (p - LS) Hctx eq_refl) as R.
    rewrite contentSize_Elem, !fragSize_app in R. cbn [fragSize] in R.
    rewrite fragSize_app in R.
    replace (LS - 0 + (p - LS)) with p in R by lia.
    rewrite R by lia. f_equal.
    replace (p - LS) with (fragSize pre + (nodeSize prev + 0) + (p - s)) by lia.
    replace (pre ++ prev :: sel ++ post) with ((pre ++ [prev]) ++ sel ++ post)
      by (now rewrite <- app_assoc).
    rewrite Ebig. f_equal. f_equal; lia.
  - rewrite resolve_ok by lia. do 2 f_equal.
    pose proof (@resolveLoop_plug ctx L' 0 (p - LS) Hctx eq_refl) as R.
    rewrite contentSize_Elem, !fragSize_app in R. cbn [fragSize] in R.
    rewrite (nodeSize_Elem pt pa (pc ++ [NL])), fragSize_app in R. cbn [fragSize] in R.
    rewrite (nodeSize_Elem lt la sel) in R.
    replace (LS - 0 + (p - LS)) with p in R by lia.
    rewrite R by lia. f_equal.
    replace (p - LS) with (fragSize pre + 1 + (fragSize pc + 1 + (p - s))) by lia.
    rewrite (@resolveLoop_inside lt la pre prev' post LS
               (fragSize pc + 1 + (p - s)) Hpre eq_refl);
      [| lia | rewrite contentSize_Elem, fragSize_app; cbn [fragSize];
               rewrite (nodeSize_Elem lt la sel); lia].
    f_equal.
    rewrite (@resolveLoop_inside pt pa pc NL [] (LS + fragSize pre + 1) (p - s) Hpc eq_refl);
      [| lia | rewrite contentSize_Elem; lia].
    f_equal.
    replace (LS + fragSize pre + 1 + fragSize pc + 1)
      with (LS + (fragSize pre + (nodeSize prev + 0))) by lia.
    rewrite Esmall. f_equal. f_equal. lia.
Qed.

Local Abbreviation eL' := (mkEntry L' (List.length pre) (LS + fragSize pre)).
Local Abbreviation ePrev' :=
  (mkEntry prev' (List.length pc) (LS + fragSize pre + 1 + fragSize pc)).
Local Abbreviation pathOld a i o t :=
  (mkResolved a (ctxPath 0 ctx L ++ mkEntry L (List.length pre + 1 + i) (s + o) :: t)).
Local Abbreviation pathNew a i o t :=
  (mkResolved a (ctxPath 0 ctx L' ++ eL' :: ePrev' :: mkEntry NL i (s + o) :: t)).

Lemma new_levels a i o t :
  node (pathNew a i o t) (List.length ctx) = L'
  /\ node (pathNew a i o t) (List.length ctx + 1) = prev'
  /\ node (pathNew a i o t) (List.length ctx + 2) = NL
  /\ index (pathNew a i o t) (List.length ctx) = List.length pre
  /\ index (pathNew a i o t) (List.length ctx + 1) = List.length pc
  /\ index (pathNew a i o t) (List.length ctx + 2) = i
  /\ start (pathNew a i o t) (List.length ctx + 2) = s
  /\ index (pathOld a i o t) (List.length ctx) = (List.length pre + 1 + i)%nat.
Proof.
  destruct (@levels_top a ctx L L' (mkEntry L (List.length pre + 1 + i) (s + o))
              eL' ePrev' (mkEntry NL i (s + o)) t) as (E0 & E1 & E2 & E).
  unfold node, index. rewrite E0, E1, E2, E. cbn [peNode peIndex].
  repeat split.
  replace (List.length ctx + 2)%nat with (S (List.length ctx + 1)) by lia.
  cbn [start]. rewrite E1. cbn [peOffset]. rewrite nodeSize_Elem. lia.
Qed.

(** The item range of the selection after the indent: the selected items in
    the new nested list. *)
Lemma nested_range a b i1 o1 t1 i2 o2 t2 range :
  a <= b -> b <= e -> isList sch lt = true ->
  calculateItemRange sch (pathOld a i1 o1 t1) (pathOld b i2 o2 t2) = Some range ->
  rDepth range = List.length ctx ->
  calculateItemRange sch (pathNew a i1 o1 t1) (pathNew b i2 o2 t2)
  = Some (mkRange (pathNew a i1 o1 t1) (pathNew b i2 o2 t2) (List.length ctx + 2)).
Proof.
  intros Hab Hbe Hlist Hcalc Hd.
  unfold calculateItemRange, blockRange in Hcalc |- *. cbn [pos] in Hcalc |- *.
  destruct (Z.ltb_spec b a) as [Hx | _]; [lia |].
  assert (Hpar : typeOf (parent (pathNew a i1 o1 t1))
                 = typeOf (parent (pathOld a i1 o1 t1))).
  { destruct t1 as [| t0 tl].
    - unfold parent. rewrite !hole_depth. cbn [List.length].
      rewrite Nat.add_0_r.
      destruct (new_levels a i1 o1 []) as (_ & _ & -> & _).
      rewrite hole_node. reflexivity.
    - f_equal. apply (@levels_parent a ctx L L' (mkEntry L (List.length pre + 1 + i1) (s + o1))
                        eL' ePrev' (mkEntry NL i1 (s + o1)) (t0 :: tl)). discriminate. }
  rewrite Hpar, (@levels_depth a ctx L L' (mkEntry L (List.length pre + 1 + i1) (s + o1))
                   eL' ePrev' (mkEntry NL i1 (s + o1)) t1).
  destruct (@blockRangeFrom_spec _ _ _ _ _ Hcalc) as (_ & Hlt & _ & _).
  pose proof (@blockRangeFrom_first _ _ _ _ _ Hcalc) as Hnone.
  rewrite Hd in Hlt, Hnone.
  replace (depth (pathOld a i1 o1 t1) + 2 + 1
           - (if inlineContent sch (typeOf (parent (pathOld a i1 o1 t1))) || (a =? b)%Z
              then 1 else 0))%nat
    with (depth (pathOld a i1 o1 t1) + 1
          - (if inlineContent sch (typeOf (parent (pathOld a i1 o1 t1))) || (a =? b)%Z
             then 1 else 0) + 2)%nat
    by (destruct (inlineContent sch (typeOf (parent (pathOld a i1 o1 t1))) || (a =? b)%Z);
        lia).
  apply blockRangeFrom_found.
  - lia.
  - unfold end_. destruct (new_levels a i1 o1 t1) as (_ & _ & -> & _ & _ & _ & -> & _).
    rewrite contentSize_Elem. cbn [pos].
    destruct (Z.leb_spec b e) as [_ | Hx]; [| lia].
    unfold isListNode. cbn [typeOf andb]. exact Hlist.
  - intros x Hx.
    replace x with (List.length ctx + 2 + (x - List.length ctx - 2))%nat by lia.
    rewrite (@levels_end a ctx L L' (mkEntry L (List.length pre + 1 + i1) (s + o1))
               eL' ePrev' (mkEntry NL i1 (s + o1)) t1 eq_refl) by lia.
    rewrite (@levels_node a ctx L L' (mkEntry L (List.length pre + 1 + i1) (s + o1))
               eL' ePrev' (mkEntry NL i1 (s + o1)) t1) by lia.
    cbn [pos] in Hnone |- *. apply Hnone. lia.
Qed.

Lemma copy_same first : isText first = false ->
  copy first (contentOf first ++ []) = first.
Proof. destruct first; [discriminate |]. intros _. cbn. now rewrite app_nil_r. Qed.

(** Dedenting the selection that the indent left gives the document back. *)
Lemma dedent_nested tr1 rfrom rto range :
  doc tr1 = plug ctx L' ->
  s <= selFrom tr1 -> selTo tr1 <= e ->
  nonText cs -> sel <> [] ->
  isList sch lt = true -> isListItem sch pt = true ->
  check sch L = true ->
  resolve (plug ctx L) (selFrom tr1) = Some rfrom ->
  resolve (plug ctx L) (selTo tr1) = Some rto ->
  calculateItemRange sch rfrom rto = Some range ->
  rDepth range = List.length ctx ->
  startIndex range = (List.length pre + 1)%nat ->
  endIndex range = (List.length pre + 1 + List.length sel)%nat ->
  rStart range = s ->
  exists tr2, dedentList sch tr1 = Returned true tr2 /\ doc tr2 = plug ctx L.
Proof.
  intros Hd1 Hlo Hhi Hitems Hsel Hlist Hitem Hchk Hrf Hrt Hcalc Hd Hsi Hei Hrs.
  pose proof (sel_min_max tr1) as Hmm.
  destruct parts_positive as (Hpre & Hselp & Hpost).
  destruct (window_paths Hlo ltac:(lia)) as (i1 & o1 & t1 & Hi1 & Ho1 & P1 & P1').
  destruct (window_paths (p := selTo tr1) ltac:(lia) Hhi)
    as (i2 & o2 & t2 & Hi2 & Ho2 & P2 & P2').
  assert (Erf : rfrom = pathOld (selFrom tr1) i1 o1 t1) by congruence.
  assert (Ert : rto = pathOld (selTo tr1) i2 o2 t2) by congruence.
  subst rfrom rto.
  pose proof (@nested_range _ _ i1 o1 t1 i2 o2 t2 range Hmm Hhi Hlist Hcalc Hd) as Hrange'.
  (* the indices of the range *)
  unfold calculateItemRange, blockRange in Hcalc. cbn [pos] in Hcalc.
  destruct (Z.ltb_spec (selTo tr1) (selFrom tr1)) as [Hx | _]; [lia |].
  destruct (@blockRangeFrom_spec _ _ _ _ _ Hcalc) as (Hr & _).
  rewrite Hd in Hr. clear Hcalc.
  rewrite Hr in Hsi, Hei, Hrs. unfold startIndex, endIndex, rStart in Hsi, Hei, Hrs.
  cbn [rFrom rTo rDepth] in Hsi, Hei, Hrs.
  destruct (new_levels (selFrom tr1) i1 o1 t1)
    as (Hn0 & Hn1 & Hn2 & Hx0 & Hx1 & Hx2 & Hst2 & HxOld).
  destruct (new_levels (selTo tr1) i2 o2 t2)
    as (_ & _ & _ & _ & _ & Hy2 & _ & HyOld).
  rewrite HxOld in Hsi. assert (i1 = 0%nat) by lia. subst i1.
  cbn [firstn fragSize] in Ho1. subst o1.
  assert (HeiN : indexAfter (pathNew (selTo tr1) i2 o2 t2) (List.length ctx + 2)
                 = List.length sel).
  { unfold indexAfter in Hei |- *. rewrite HyOld in Hei. rewrite Hy2.
    rewrite (@levels_depth (selTo tr1) ctx L L'
               (mkEntry L (List.length pre + 1 + i2) (s + o2)) eL' ePrev'
               (mkEntry NL i2 (s + o2)) t2).
    rewrite (@levels_textOffset (selTo tr1) ctx L L'
               (mkEntry L (List.length pre + 1 + i2) (s + o2)) eL' ePrev'
               (mkEntry NL i2 (s + o2)) t2 eq_refl).
    replace (List.length ctx + 2 =? depth (pathOld (selTo tr1) i2 o2 t2) + 2)%nat
      with (List.length ctx =? depth (pathOld (selTo tr1) i2 o2 t2))%nat.
    - lia.
    - destruct (Nat.eqb_spec (List.length ctx) (depth (pathOld (selTo tr1) i2 o2 t2)));
        symmetry; [apply Nat.eqb_eq | apply Nat.eqb_neq]; lia. }
  assert (HrsN : before (pathNew (selFrom tr1) 0 0 t1) (List.length ctx + 2 + 1) = s).
  { etransitivity; [| exact Hrs]. unfold before.
    rewrite (@levels_depth (selFrom tr1) ctx L L'
               (mkEntry L (List.length pre + 1 + 0) (s + 0)) eL' ePrev'
               (mkEntry NL 0 (s + 0)) t1).
    replace (List.length ctx + 2 + 1
             =? depth (pathOld (selFrom tr1) 0 0 t1) + 2 + 1)%nat
      with (List.length ctx + 1 =? depth (pathOld (selFrom tr1) 0 0 t1) + 1)%nat.
    2:{ destruct (Nat.eqb_spec (List.length ctx + 1)
                    (depth (pathOld (selFrom tr1) 0 0 t1) + 1));
          symmetry; [apply Nat.eqb_eq | apply Nat.eqb_neq]; lia. }
    destruct (List.length ctx + 1 =? depth (pathOld (selFrom tr1) 0 0 t1) + 1)%nat;
      [reflexivity |].
    destruct (@levels_top (selFrom tr1) ctx L L'
                (mkEntry L (List.length pre + 1 + 0) (s + 0)) eL' ePrev'
                (mkEntry NL 0 (s + 0)) t1) as (_ & _ & E2 & E0).
    replace (List.length ctx + 2 + 1 - 1)%nat with (List.length ctx + 2)%nat by lia.
    replace (List.length ctx + 1 - 1)%nat with (List.length ctx) by lia.
    rewrite E2, E0. reflexivity. }
  assert (Hbefore : before (pathNew (selFrom tr1) 0 0 t1) (List.length ctx + 1)
                    = LS + fragSize pre).
  { unfold before. rewrite hole_depth. cbn [List.length].
    replace (List.length ctx + 1 =? List.length ctx + S (S (List.length t1)) + 1)%nat
      with false by (symmetry; apply Nat.eqb_neq; lia).
    replace (List.length ctx + 1 - 1)%nat with (List.length ctx) by lia.
    destruct (@levels_top (selFrom tr1) ctx L L'
                (mkEntry L (List.length pre + 1 + 0) (s + 0)) eL' ePrev'
                (mkEntry NL 0 (s + 0)) t1) as (E0 & _).
    rewrite E0. reflexivity. }
  assert (Hafter : after (pathNew (selFrom tr1) 0 0 t1) (List.length ctx + 1)
                   = LS + fragSize pre + nodeSize prev').
  { unfold after. rewrite hole_depth. cbn [List.length].
    replace (List.length ctx + 1 =? List.length ctx + S (S (List.length t1)) + 1)%nat
      with false by (symmetry; apply Nat.eqb_neq; lia).
    replace (List.length ctx + 1 - 1)%nat with (List.length ctx) by lia.
    destruct (@levels_top (selFrom tr1) ctx L L'
                (mkEntry L (List.length pre + 1 + 0) (s + 0)) eL' ePrev'
                (mkEntry NL 0 (s + 0)) t1) as (E0 & _).
    rewrite E0, Hn1. reflexivity. }
  (* validity of the pieces *)
  rewrite check_Elem in Hchk. apply andb_true_iff in Hchk. destruct Hchk as [HvL Hall].
  rewrite forallb_app in Hall. apply andb_true_iff in Hall. destruct Hall as [_ Hall].
  assert (Hrepl : forallb (check sch) (prev :: sel) = true).
  { cbn [forallb] in Hall |- *. apply andb_true_iff in Hall. destruct Hall as [Hp Hall].
    rewrite forallb_app in Hall. apply andb_true_iff in Hall. destruct Hall as [Hs _].
    now rewrite Hp, Hs. }
  assert (Hsel' : match sel return list Node with
                  | [] => sel
                  | first :: rest => copy first (contentOf first ++ []) :: rest
                  end = sel).
  { destruct sel as [| first rest]; [reflexivity |]. f_equal. apply copy_same.
    unfold nonText in Hitems. apply Forall_app in Hitems. destruct Hitems as [_ Hi].
    inversion Hi as [| ? ? _ Hi']; subst. inversion Hi'; assumption. }
  (* the run *)
  unfold dedentList. rewrite Hd1, P1', P2', Hrange'. cbv zeta. cbn [rDepth].
  replace (List.length ctx + 2 <? 2)%nat with false
    by (symmetry; apply Nat.ltb_ge; lia).
  replace (List.length ctx + 2 - 1)%nat with (List.length ctx + 1)%nat by lia.
  replace (List.length ctx + 2 - 2)%nat with (List.length ctx) by lia.
  unfold startIndex, endIndex, rStart. cbn [rFrom rTo rDepth].
  rewrite Hn0, Hn1, Hn2, Hx0, Hx1, Hx2, HeiN, HrsN, Hbefore, Hafter.
  unfold isListItemNode, isListNode. cbn [typeOf contentOf]. rewrite Hitem, Hlist.
  cbn [negb orb].
  assert (Htrail : skipn (S (List.length pc)) (pc ++ [NL]) = []).
  { apply skipn_all2. rewrite length_app. cbn [List.length]. lia. }
  assert (Hbef : firstn (List.length pc) (pc ++ [NL]) = pc).
  { rewrite firstn_app, firstn_all, Nat.sub_diag. cbn [firstn]. apply app_nil_r. }
  rewrite Htrail, Hbef, skipn_all, Nat.sub_0_r.
  change (skipn 0 sel) with sel. change (firstn 0 sel) with (@nil Node).
  rewrite firstn_all. cbn [app copy]. rewrite Hsel', Hrepl. cbn [negb orb].
  assert (Hcan : canReplace sch L' (List.length pre) (S (List.length pre)) (prev :: sel)
                 = true).
  { unfold canReplace. cbn [typeOf contentOf].
    rewrite firstn_app, firstn_all, Nat.sub_diag. cbn [firstn]. rewrite app_nil_r.
    rewrite skipn_app, skipn_all2 by lia.
    replace (S (List.length pre) - List.length pre)%nat with 1%nat by lia. cbn [skipn app].
    rewrite <- !childTypes_app. exact HvL. }
  rewrite Hcan. cbn [negb].
  (* the step *)
  pose proof (@step_flat sch tr1 ctx lt la (pre ++ prev' :: post)
                (List.length pre) (List.length pre + 1) Hd1 Hctx) as St.
  assert (Hpos' : positive (pre ++ prev' :: post)).
  { apply positive_app. split; [exact Hpre |]. constructor; [| exact Hpost].
    pose proof (nodeSize_Elem_ge pt pa (pc ++ [NL])). lia. }
  specialize (St Hpos').
  rewrite length_app in St. cbn [List.length] in St. specialize (St ltac:(lia)).
  rewrite firstn_app, firstn_all, Nat.sub_diag in St. cbn [firstn] in St.
  rewrite app_nil_r in St.
  replace (firstn (List.length pre + 1) (pre ++ prev' :: post)) with (pre ++ [prev']) in St.
  2:{ rewrite firstn_app, firstn_all2 by lia.
      replace (List.length pre + 1 - List.length pre)%nat with 1%nat by lia. reflexivity. }
  replace (skipn (List.length pre + 1) (pre ++ prev' :: post)) with post in St.
  2:{ rewrite skipn_app, skipn_all2 by lia.
      replace (List.length pre + 1 - List.length pre)%nat with 1%nat by lia. reflexivity. }
  rewrite fragSize_app in St. cbn [fragSize] in St.
  replace (LS + (fragSize pre + (nodeSize prev' + 0)))
    with (LS + fragSize pre + nodeSize prev') in St by lia.
  assert (Hnt : nonText (prev :: sel)).
  { unfold nonText in Hitems |- *. apply Forall_app in Hitems. destruct Hitems as [_ Hi].
    inversion Hi as [| ? ? Hp Hi']; subst. apply Forall_app in Hi'.
    constructor; tauto. }
  assert (Hntpre : nonText pre).
  { unfold nonText in Hitems |- *. apply Forall_app in Hitems. tauto. }
  rewrite (St (prev :: sel) Hnt ltac:(discriminate) Hntpre ltac:(lia)).
  cbn [app]. rewrite HvL. cbn [andThen].
  (* the selection *)
  unfold setSelection. cbn [doc steps anchor head].
  replace (LS + fragSize pre + nodeSize prev - s) with 0 by lia.
  rewrite !Z.add_0_r.
  pose proof (@ctxStart_contentSize ctx L 0 eq_refl) as HcL.
  rewrite contentSize_Elem, !fragSize_app in HcL. cbn [fragSize] in HcL.
  rewrite fragSize_app in HcL.
  pose proof (ctxStart_ge 0 ctx). pose proof (fragSize_nonneg pre).
  pose proof (fragSize_nonneg post). pose proof (nodeSize_Elem_ge pt pa pc).
  assert (Ha : s <= anchor tr1 <= e) by (unfold selFrom, selTo in *; lia).
  assert (Hh : s <= head tr1 <= e) by (unfold selFrom, selTo in *; lia).
  rewrite !resolve_ok by lia. cbn [andThen].
  eexists. split; reflexivity.
Qed.

End Nested.
End RoundTripFacts.
(* ================================================================== *)
(** * The first branch: the transaction that results *)
(* ================================================================== *)

Module BranchFacts.
Import Model Resolve Replace Transform Context Indent Dedent Setup Shapes Statements.
Import RunShapes Branches.
Import ModelFacts ResolveFacts PathFacts RangeFacts FragmentFacts ReplaceFacts.
Import SameListFacts IndentFacts FlatFacts RunFacts AcrossFacts CheckFacts.
Import LocatedFacts MapFacts TokenFacts.

(** A run of the first branch that returns [true], with the transaction
    that results. *)
Lemma indentList_wrapped sch tr tr' l :
  wellFormed sch (doc tr) = true ->
  located sch tr = Some l ->
  sameType l = true ->
  indentList sch tr = Returned true tr' ->
  exists ctx lt la pre pt pa pc post,
    Wrapped sch tr tr' l ctx lt la pre pt pa pc post.
Proof.
  intros Hwf Hl Hty E.
  destruct (located_inv _ _ Hl) as (rs & Hrf & Hrt & Hcalc & Hrs & HL & Hisl & Hf).
  destruct (Nat.eq_dec (startIndex (lRange l)) 0) as [H0 | Hne].
  - exfalso.
    destruct (@range_shape sch (doc tr) _ _ _ _ _ Hwf Hrf Hrt (sel_min_max tr) Hcalc)
      as (ctx & lt & la & cs & Sh).
    apply indentList_true in E. destruct E as (l' & tr1 & Hl' & Hb & _).
    assert (l' = l) by congruence. subst l'. rewrite Hty in Hb.
    exact (@indentStep_from_first_item sch tr _ _ _ ctx lt la cs Hwf Sh H0 _ _ Hb).
  - assert (Hsi : (1 <= startIndex (lRange l))%nat) by lia.
    destruct (@same_list_shape sch tr _ _ _ Hwf Hrf Hrt Hcalc Hsi)
      as (ctx & lt & la & pre & pt & pa & pc & sel0 & st & sa & sc & post & Sh).
    pose proof (@located_same_list sch tr _ _ _ ctx lt la pre pt pa pc sel0 st sa sc post
                  Hrf Hrt Hcalc Hsi Sh) as Hloc.
    rewrite (@indentList_same_list sch tr _ _ _ ctx lt la pre pt pa pc sel0 st sa sc post
               Hrf Hrt Hcalc Hsi Sh) in E.
    pose proof (sl_pre Sh) as Hpre0. pose proof (sl_sel Sh) as Hsel0.
    pose proof (sl_end Sh) as Hend. pose proof (sl_start Sh) as Hstart.
    pose proof (sl_doc Sh) as Hdoc. pose proof (sl_depth Sh) as Hdep.
    pose proof (sl_from Sh) as Hfrom. pose proof (sl_to Sh) as Hto.
    pose proof (sl_ctx Sh) as Hctx. pose proof (sl_normal Sh) as Hnorm.
    pose proof (sl_items Sh) as Hitems.
    destruct l as [rfrom rto range L found]. cbn [lFrom lTo lRange lList lFound] in *.
    rewrite Hl in Hloc. inversion Hloc as [[EL Efound]]. clear Hloc.
    assert (Hsel : selectedItems
                     (mkLocated rfrom rto range
                        (Elem lt la (pre ++ Elem pt pa pc :: (sel0 ++ [Elem st sa sc]) ++ post))
                        (mkPrevious (Elem pt pa pc)
                           (Elem lt la
                              (pre ++ Elem pt pa pc :: (sel0 ++ [Elem st sa sc]) ++ post))
                           (ctxStart 0 ctx + 1 + fragSize pre) (ctxStart 0 ctx) true))
                   = sel0 ++ [Elem st sa sc]).
    { unfold selectedItems. cbn [lRange lList contentOf].
      exact (@selectedItems_run pre (sel0 ++ [Elem st sa sc]) post (Elem pt pa pc)
               _ _ Hpre0 Hsi Hsel0). }
    destruct (joinChecks sch pt st) eqn:Ej; [| discriminate].
    destruct (validContent sch pt _) eqn:Ep; [| discriminate].
    destruct (validContent sch lt _) eqn:Ev; [| discriminate].
    cbn [andb] in E. inversion E as [Etr]. clear E.
    exists ctx, lt, la, pre, pt, pa, pc, post.
    split; cbn [lRange lList lFound]; rewrite ?Hsel; try assumption; try reflexivity.
    + intros Hnil. apply app_eq_nil in Hnil. destruct Hnil; discriminate.
    + lia.
Qed.

End BranchFacts.
(* ================================================================== *)
(** * The second branch: where the previous item is, and the steps *)
(* ================================================================== *)

Module AcrossRun.
Import Model Resolve Replace Transform Context Indent Dedent Setup Shapes Statements.
Import RunShapes Branches.
Import ModelFacts ResolveFacts PathFacts RangeFacts FragmentFacts ReplaceFacts.
Import SameListFacts IndentFacts FlatFacts RunFacts AcrossFacts CheckFacts FlatSteps.
Import RebuildFacts MapFacts.

(** A located run whose range starts at the first item of its list. *)
Lemma located_across sch tr l :
  wellFormed sch (doc tr) = true ->
  located sch tr = Some l ->
  startIndex (lRange l) = 0%nat ->
  exists ctx ft fa fl plt pla pis pit pia pic lt la cs fr,
    AcrossShape sch tr l ctx ft fa fl plt pla pis pit pia pic lt la cs fr.
Proof.
  intros Hwf Hl H0.
  destruct (located_inv _ _ Hl) as (rs & Hrf & Hrt & Hcalc & Hrs & HL & Hisl & Hf).
  destruct (@range_shape sch (doc tr) _ _ _ _ _ Hwf Hrf Hrt (sel_min_max tr) Hcalc)
    as (ctx & lt & la & cs & Sh).
  pose proof (rs_doc Sh) as Hdoc. pose proof (rs_idx Sh) as Hidx.
  pose proof (rs_start Sh) as Hs.
  pose proof (rs_ctx Sh) as Hctx. pose proof (rs_list Sh) as Hlist.
  assert (Hpos : positive cs).
  { apply normals_positive. exact (@normal_children _ _ _ (rs_normal Sh)). }
  rewrite H0 in Hs. cbn [firstn fragSize] in Hs. rewrite Z.add_0_r in Hs.
  destruct (snoc_cases ctx) as [-> | (ctx' & f & ->)].
  { exfalso. cbn [plug] in Hdoc. unfold wellFormed in Hwf. rewrite Hdoc in Hwf.
    cbn [isText typeOf negb andb] in Hwf. rewrite Hlist in Hwf. discriminate. }
  assert (HLeq : lList l = Elem lt la cs).
  { rewrite HL. rewrite Hs in Hrs.
    pose proof (@flat_from (ctx' ++ [f]) lt la cs 0 Hctx Hpos ltac:(lia)) as Hp.
    cbn [firstn fragSize] in Hp. rewrite Z.add_0_r, <- Hdoc, Hrs in Hp.
    inversion Hp. unfold parent. rewrite hole_depth. cbn [List.length].
    rewrite Nat.add_0_r, hole_node. reflexivity. }
  rewrite HLeq in Hf.
  destruct (@found_in_previous_list sch (doc tr) _ _ _ _ _ ctx' f lt la cs _ Hwf Sh H0 Hf)
    as (fl0 & plt & pla & pis & pit & pia & pic & EfL & Hplist & Hfound).
  destruct f as [ft fa fL fR]. cbn [fLeft] in EfL. subst fL.
  assert (Hparent : normal (Elem ft fa ((fl0 ++ [Elem plt pla (pis ++ [Elem pit pia pic])])
                                        ++ Elem lt la cs :: fR)) = true
                    /\ ctxPositive ctx').
  { unfold wellFormed in Hwf. apply andb_true_iff in Hwf. destruct Hwf as [Hn _].
    apply andb_true_iff in Hn. destruct Hn as [_ Hn].
    rewrite Hdoc, plug_app in Hn. cbn [plug] in Hn. unfold fill in Hn.
    cbn [fType fAttrs fLeft fRight] in Hn. exact (normal_plug _ _ Hn). }
  destruct Hparent as [Hpn Hctx']. rewrite <- app_assoc in Hpn. cbn [app] in Hpn.
  exists ctx', ft, fa, fl0, plt, pla, pis, pit, pia, pic, lt, la, cs, fR.
  split; try assumption.
  - rewrite Hdoc, plug_app. cbn [plug]. unfold fill.
    cbn [fType fAttrs fLeft fRight]. rewrite <- app_assoc. reflexivity.
  - rewrite Hs, ctxStart_snoc. cbn [fLeft]. rewrite fragSize_app. cbn [fragSize]. lia.
Qed.

(** ** The steps of the second branch *)

Lemma trDelete_steps sch tr a b tr0 :
  a < b -> trDelete sch tr a b = TrOk tr0 ->
  steps tr0 = steps tr ++ [ReplaceStep a b emptySlice].
Proof.
  intros Hab. unfold trDelete, trReplace.
  destruct (Z.eqb_spec a b) as [Heq | _]; [lia |]. cbn [andb].
  destruct (resolve (doc tr) a) as [ra |]; [| discriminate].
  destruct (resolve (doc tr) b) as [rb |]; [| discriminate].
  destruct (fitsTrivially sch ra rb emptySlice); [| discriminate].
  intros E. exact (@step_steps _ _ _ _ E).
Qed.

Lemma replaceRangeWith_steps sch tr0 a b n tr1 :
  a < b -> isText n = false ->
  replaceRangeWith sch tr0 a b n = TrOk tr1 ->
  steps tr1 = steps tr0 ++ [ReplaceStep a b (mkSlice [n] 0 0)].
Proof.
  intros Hab Hn. unfold replaceRangeWith.
  destruct (Z.eqb_spec a b) as [Heq | _]; [lia |]. rewrite andb_false_r.
  unfold replaceRange, sliceSize. cbn [sContent openStart openEnd fragSize Z.of_nat].
  destruct n as [s | t at' c]; [discriminate |].
  pose proof (nodeSize_Elem_ge t at' c) as Hge.
  destruct (Z.eqb_spec (nodeSize (Elem t at' c) + 0 - 0 - 0) 0) as [Hz | _]; [lia |].
  destruct (resolve (doc tr0) a) as [ra |]; [| discriminate].
  destruct (resolve (doc tr0) b) as [rb |]; [| discriminate].
  destruct (fitsTrivially sch ra rb _); [| discriminate].
  intros E. exact (@step_steps _ _ _ _ E).
Qed.

(** ** The node that starts at a child boundary *)

Lemma nodeAt_child ctx t a l1 x l2 :
  ctxPositive ctx -> positive l1 ->
  nodeAt (plug ctx (Elem t a (l1 ++ x :: l2))) (ctxStart 0 ctx + fragSize l1) = Some x.
Proof.
  intros Hctx Hl1. unfold nodeAt.
  pose proof (@resolve_list_boundary ctx t a (l1 ++ x :: l2) (List.length l1) Hctx) as E.
  rewrite firstn_app, firstn_all, Nat.sub_diag in E. cbn [firstn] in E.
  rewrite app_nil_r in E. specialize (E Hl1).
  rewrite length_app in E. cbn [List.length] in E. specialize (E ltac:(lia)).
  rewrite E. unfold nodeAfter, parent.
  rewrite hole_depth. cbn [List.length]. rewrite Nat.add_0_r, hole_node, hole_index.
  cbn [peNode peIndex contentOf].
  rewrite nth_error_app2, Nat.sub_diag by lia. cbn [nth_error].
  rewrite one_textOffset. cbn [peOffset]. rewrite Z.sub_diag. reflexivity.
Qed.

End AcrossRun.
(* ================================================================== *)
(** * Slices of an item range *)
(* ================================================================== *)

Module SliceFacts.
Import Model Resolve Replace Transform Context Indent Dedent Setup Shapes Statements.
Import RunShapes Branches.
Import ModelFacts ResolveFacts PathFacts RangeFacts FragmentFacts ReplaceFacts.
Import SameListFacts IndentFacts FlatFacts RunFacts AcrossFacts CheckFacts FlatSteps.

Lemma run_split (A : Type) (c : list A) i j :
  (i <= j)%nat ->
  c = firstn i c ++ firstn (j - i) (skipn i c) ++ skipn j c
  /\ firstn j c = firstn i c ++ firstn (j - i) (skipn i c).
Proof.
  intros Hij.
  assert (H : firstn j c = firstn i c ++ firstn (j - i) (skipn i c)).
  { replace j with (i + (j - i))%nat at 1 by lia. apply firstn_plus. }
  split; [| exact H].
  rewrite app_assoc, <- H. symmetry. apply firstn_skipn.
Qed.

(** The shared depth of a child boundary of a node and a position inside
    the content of that node. *)
Lemma sharedDepth_hole p q ctx t a c i :
  ctxStart 0 ctx <= q -> q <= ctxStart 0 ctx + fragSize c ->
  sharedDepth (mkResolved p (ctxPath 0 ctx (Elem t a c) ++ [mkEntry (Elem t a c) i p])) q
  = List.length ctx.
Proof.
  intros Hlo Hhi. unfold sharedDepth. rewrite hole_depth. cbn [List.length].
  rewrite Nat.add_0_r.
  destruct (List.length ctx) as [| d] eqn:Ed; [reflexivity |].
  cbn [sharedDepthFrom]. rewrite <- Ed. unfold end_.
  rewrite hole_start, hole_node. cbn [peNode]. rewrite contentSize_Elem.
  destruct (Z.leb_spec (ctxStart 0 ctx) q); [| lia].
  destruct (Z.leb_spec q (ctxStart 0 ctx + fragSize c)); [| lia]. reflexivity.
Qed.

(** [doc.slice] between two child boundaries of a node: the children in
    between, closed on both sides. *)
Lemma slice_flat ctx t a c i j :
  ctxPositive ctx -> positive c -> (i < j)%nat -> (j <= List.length c)%nat ->
  slice (plug ctx (Elem t a c)) (ctxStart 0 ctx + fragSize (firstn i c))
    (ctxStart 0 ctx + fragSize (firstn j c))
  = Some (mkSlice (firstn (j - i) (skipn i c)) 0 0).
Proof.
  intros Hctx Hpos Hij Hj.
  pose proof (@fragSize_firstn_strict c i j Hpos Hij Hj) as Hlt.
  pose proof (fragSize_firstn_le c j) as Hle.
  pose proof (fragSize_nonneg (firstn i c)) as Hi0.
  destruct (run_split c (Nat.lt_le_incl _ _ Hij)) as [Hc Hfj].
  unfold slice.
  destruct (Z.eqb_spec (ctxStart 0 ctx + fragSize (firstn i c))
              (ctxStart 0 ctx + fragSize (firstn j c))) as [Heq | _]; [lia |].
  rewrite (@flat_from ctx t a c i Hctx Hpos ltac:(lia)).
  rewrite (@flat_from ctx t a c j Hctx Hpos Hj).
  rewrite sharedDepth_hole by lia.
  rewrite hole_start, hole_node, !hole_depth. cbn [peNode pos List.length contentOf].
  rewrite Nat.add_0_r, Nat.sub_diag. f_equal. f_equal.
  replace (ctxStart 0 ctx + fragSize (firstn i c) - ctxStart 0 ctx)
    with (fragSize (firstn i c)) by lia.
  replace (ctxStart 0 ctx + fragSize (firstn j c) - ctxStart 0 ctx)
    with (fragSize (firstn i c) + fragSize (firstn (j - i) (skipn i c)))
    by (rewrite Hfj, fragSize_app; lia).
  rewrite Hc at 1. apply cut_middle.
  - rewrite <- Hc. exact Hpos.
  - intros Hnil. rewrite Hfj, Hnil, app_nil_r in Hlt. lia.
Qed.

(** ** Cutting a fragment inside one of its children *)

Lemma cutNode_whole x : isText x = false -> cutNode x 0 (contentSize x) = x.
Proof.
  destruct x as [s | t a c]; [discriminate |]. intros _.
  cbn [cutNode]. rewrite contentSize_Elem, !Z.eqb_refl. reflexivity.
Qed.

Lemma cutLoop_upto l2 : forall from to x l3 posn,
  positive l2 -> from <= posn -> isText x = false ->
  posn + fragSize l2 < to -> to < posn + fragSize l2 + nodeSize x ->
  cutLoop cutNode from to (l2 ++ x :: l3) posn
  = l2 ++ [cutNode x 0 (to - (posn + fragSize l2) - 1)].
Proof.
  induction l2 as [| y l2 IH]; intros from to x l3 posn Hpos Hle Hx Hlo Hhi;
    cbn [app fragSize] in *.
  - cbn [cutLoop]. rewrite Hx.
    pose proof (nodeSize_contentSize _ Hx) as Hsz.
    destruct (Z.ltb_spec posn to); [| lia].
    destruct (Z.ltb_spec from (posn + nodeSize x)); [| lia].
    destruct (Z.ltb_spec posn from); [lia |].
    destruct (Z.ltb_spec to (posn + nodeSize x)); [| lia].
    cbn [orb].
    replace (Z.max 0 (from - posn - 1)) with 0 by lia.
    replace (Z.min (contentSize x) (to - posn - 1)) with (to - (posn + 0) - 1) by lia.
    f_equal. destruct l3 as [| z l3]; [reflexivity |]. cbn [cutLoop].
    destruct (Z.ltb_spec (posn + nodeSize x) to); [lia | reflexivity].
  - inversion Hpos as [| ? ? Hy Hl2]; subst. pose proof (fragSize_nonneg l2).
    cbn [cutLoop].
    destruct (Z.ltb_spec posn to); [| lia].
    destruct (Z.ltb_spec from (posn + nodeSize y)); [| lia].
    destruct (Z.ltb_spec posn from); [lia |].
    destruct (Z.ltb_spec to (posn + nodeSize y)); [lia |].
    cbn [orb]. f_equal.
    rewrite (IH from to x l3 (posn + nodeSize y)) by (auto; lia).
    do 3 f_equal. lia.
Qed.

(** ** The two slices of [sliceSelectedItems]

    The list [L] in its context; the items [pre] in front of the range; the
    selected items [items0] and the last selected item, whose children are
    [b0], the block [blk] and [b1]; the items [post] behind the range. *)
Section Sliced.
Variables (ctx : list Frame) (lt : NodeType) (la : Attrs).
Variables (pre items0 : Fragment) (it : NodeType) (ia : Attrs) (b0 : Fragment).
Variables (bt : NodeType) (ba : Attrs) (bc : Fragment) (b1 post : Fragment).

Local Abbreviation blk := (Elem bt ba bc).
Local Abbreviation item := (Elem it ia (b0 ++ blk :: b1)).
Local Abbreviation cs := (pre ++ items0 ++ item :: post).
Local Abbreviation L := (Elem lt la cs).
Local Abbreviation LS := (ctxStart 0 ctx).
Local Abbreviation s := (LS + fragSize pre).
Local Abbreviation e := (s + fragSize items0 + nodeSize item).
Local Abbreviation mid := (s + fragSize items0 + 1 + fragSize b0 + 1 + fragSize bc).

Hypothesis Hctx : ctxPositive ctx.
Hypothesis Hnorm : normal L = true.

Lemma sliced_positive :
  positive cs /\ positive pre /\ positive items0 /\ positive (b0 ++ blk :: b1)
  /\ positive b0 /\ positive b1 /\ positive bc.
Proof.
  pose proof (@normal_children _ _ _ Hnorm) as Hcs.
  pose proof (normals_positive _ Hcs) as Hp.
  assert (Hi : normal item = true).
  { apply (normals_In _ _ Hcs). apply in_or_app. right. apply in_or_app. right.
    left. reflexivity. }
  pose proof (@normal_children _ _ _ Hi) as Hic.
  pose proof (normals_positive _ Hic) as Hpi.
  assert (Hb : normal blk = true).
  { apply (normals_In _ _ Hic). apply in_or_app. right. left. reflexivity. }
  pose proof (normals_positive _ (@normal_children _ _ _ Hb)) as Hpb.
  split; [exact Hp |].
  apply positive_app in Hp. destruct Hp as [Hpre Hp].
  apply positive_app in Hp. destruct Hp as [Hit _].
  split; [exact Hpre |]. split; [exact Hit |]. split; [exact Hpi |].
  apply positive_app in Hpi. destruct Hpi as [Hb0 Hpi]. inversion Hpi; subst.
  split; [exact Hb0 |]. split; assumption.
Qed.

Lemma sliced_sizes :
  fragSize cs = fragSize pre + fragSize items0 + nodeSize item + fragSize post
  /\ nodeSize item = 2 + fragSize b0 + (2 + fragSize bc) + fragSize b1
  /\ 0 <= fragSize pre /\ 0 <= fragSize items0 /\ 0 <= fragSize post
  /\ 0 <= fragSize b0 /\ 0 <= fragSize b1 /\ 0 <= fragSize bc /\ 0 <= LS.
Proof.
  rewrite !fragSize_app. cbn [fragSize]. rewrite (nodeSize_Elem it), fragSize_app.
  cbn [fragSize]. rewrite (nodeSize_Elem bt).
  pose proof (fragSize_nonneg pre). pose proof (fragSize_nonneg items0).
  pose proof (fragSize_nonneg post). pose proof (fragSize_nonneg b0).
  pose proof (fragSize_nonneg b1). pose proof (fragSize_nonneg bc).
  pose proof (ctxStart_ge 0 ctx). repeat split; lia.
Qed.

(** The position at the end of the content of the block. *)
Lemma mid_path :
  resolve (plug ctx L) mid
  = Some (mkResolved mid
            (ctxPath 0 ctx L
             ++ [mkEntry L (List.length (pre ++ items0)) (s + fragSize items0);
                 mkEntry item (List.length b0) (s + fragSize items0 + 1 + fragSize b0);
                 mkEntry blk (List.length bc) mid])).
Proof.
  destruct sliced_positive as (Hcs & Hpre & Hit & Hic & Hb0 & Hb1 & Hbc).
  destruct sliced_sizes as (Hsz & Hisz & ? & ? & ? & ? & ? & ? & ?).
  pose proof (@ctxStart_contentSize ctx L 0 eq_refl) as Hdoc.
  rewrite contentSize_Elem in Hdoc.
  rewrite resolve_ok by lia. f_equal. f_equal.
  replace mid with (LS - 0 + (fragSize (pre ++ items0) + 1
                              + (fragSize b0 + 1 + fragSize bc)))
    at 1 by (rewrite fragSize_app; lia).
  rewrite resolveLoop_plug; [| exact Hctx | reflexivity | rewrite fragSize_app; lia
                             | rewrite contentSize_Elem, fragSize_app; lia].
  f_equal.
  replace cs with ((pre ++ items0) ++ item :: post) by (now rewrite <- app_assoc).
  rewrite resolveLoop_inside;
    [| apply positive_app; split; assumption | reflexivity | lia
     | rewrite contentSize_Elem, fragSize_app; cbn [fragSize];
       rewrite (nodeSize_Elem bt); lia].
  rewrite fragSize_app.
  replace (LS + (fragSize pre + fragSize items0)) with (s + fragSize items0) by lia.
  f_equal.
  rewrite resolveLoop_inside; [| exact Hb0 | reflexivity | lia
                               | rewrite contentSize_Elem; lia].
  f_equal.
  pose proof (@resolveLoop_boundary bt ba bc
                (s + fragSize items0 + 1 + fragSize b0 + 1) (List.length bc)
                (Nat.le_refl _)) as Hb.
  rewrite firstn_all in Hb. rewrite (Hb Hbc). reflexivity.
Qed.

Lemma start_path :
  resolve (plug ctx L) s
  = Some (mkResolved s (ctxPath 0 ctx L ++ [mkEntry L (List.length pre) s])).
Proof.
  destruct sliced_positive as (Hcs & _).
  pose proof (@flat_from ctx lt la cs (List.length pre) Hctx Hcs) as H.
  rewrite firstn_app, firstn_all, Nat.sub_diag in H. cbn [firstn] in H.
  rewrite app_nil_r in H. apply H. rewrite length_app. lia.
Qed.

(** The selected slice: the selected items, the last one cut behind the
    block and left open there. *)
Lemma slice_selected :
  slice (plug ctx L) s mid
  = Some (mkSlice (items0 ++ [Elem it ia (b0 ++ [blk])]) 0 2).
Proof.
  destruct sliced_positive as (Hcs & Hpre & Hit & Hic & Hb0 & Hb1 & Hbc).
  destruct sliced_sizes as (Hsz & Hisz & ? & ? & ? & ? & ? & ? & ?).
  unfold slice.
  destruct (Z.eqb_spec s mid) as [Heq | _]; [lia |].
  rewrite start_path, mid_path.
  rewrite sharedDepth_hole by lia.
  rewrite hole_start, hole_node, !hole_depth.
  cbn [peNode pos List.length contentOf].
  replace (List.length ctx + 0 - List.length ctx)%nat with 0%nat by lia.
  replace (List.length ctx + 2 - List.length ctx)%nat with 2%nat by lia.
  f_equal. f_equal.
  unfold cut.
  destruct (Z.eqb_spec (mid - LS) (fragSize cs)) as [Heq | _]; [lia |].
  rewrite andb_false_r.
  destruct (Z.ltb_spec (s - LS) (mid - LS)) as [_ | Hge]; [| lia].
  rewrite cutLoop_skip by (auto; lia).
  rewrite cutLoop_upto by (auto; lia).
  f_equal. f_equal.
  replace (mid - LS - (0 + fragSize pre + fragSize items0) - 1)
    with (fragSize b0 + 1 + fragSize bc) by lia.
  cbn [cutNode].
  destruct (Z.eqb_spec (fragSize b0 + 1 + fragSize bc) (fragSize (b0 ++ blk :: b1)))
    as [Heq | _].
  { rewrite fragSize_app in Heq. cbn [fragSize] in Heq.
    rewrite (nodeSize_Elem bt) in Heq. lia. }
  rewrite andb_false_r.
  destruct (Z.ltb_spec 0 (fragSize b0 + 1 + fragSize bc)) as [_ | Hge]; [| lia].
  f_equal.
  rewrite cutLoop_upto; [| exact Hb0 | lia | reflexivity | lia
                         | rewrite (nodeSize_Elem bt); lia].
  f_equal. f_equal.
  replace (fragSize b0 + 1 + fragSize bc - (0 + fragSize b0) - 1)
    with (contentSize blk) by (rewrite contentSize_Elem; lia).
  apply cutNode_whole. reflexivity.
Qed.

(** The unselected slice: the children of the last selected item behind the
    block. *)
Lemma slice_unselected :
  slice (plug ctx L) (mid + 1) (e - 1) = Some (mkSlice b1 0 0).
Proof.
  destruct sliced_positive as (Hcs & Hpre & Hit & Hic & Hb0 & Hb1 & Hbc).
  destruct sliced_sizes as (Hsz & Hisz & ? & ? & ? & ? & ? & ? & ?).
  assert (Hcase : b1 = [] \/ (0 < List.length b1)%nat)
    by (destruct b1; [left; reflexivity | right; cbn [List.length]; lia]).
  destruct Hcase as [Hnil | Hlen].
  - unfold slice.
    destruct (Z.eqb_spec (mid + 1) (e - 1)) as [_ | Hne];
      [rewrite Hnil; reflexivity |].
    exfalso. assert (Hz : fragSize b1 = 0) by (rewrite Hnil; reflexivity). lia.
  - pose proof (@slice_flat (ctx ++ [mkFrame lt la (pre ++ items0) post])
                  it ia (b0 ++ blk :: b1) (List.length b0 + 1)
                  (List.length (b0 ++ blk :: b1))) as HS.
    rewrite plug_app, ctxStart_snoc in HS. cbn [plug fLeft] in HS. unfold fill in HS.
    cbn [fType fAttrs fLeft fRight] in HS. rewrite <- app_assoc in HS.
    rewrite firstn_all in HS.
    replace (firstn (List.length b0 + 1) (b0 ++ blk :: b1)) with (b0 ++ [blk]) in HS.
    2:{ change (b0 ++ blk :: b1) with (b0 ++ [blk] ++ b1). rewrite app_assoc.
        rewrite firstn_app, firstn_all2 by (rewrite length_app; cbn [List.length]; lia).
        rewrite length_app. cbn [List.length].
        replace (List.length b0 + 1 - (List.length b0 + 1))%nat with 0%nat by lia.
        cbn [firstn]. now rewrite app_nil_r. }
    replace (firstn (List.length (b0 ++ blk :: b1) - (List.length b0 + 1))
               (skipn (List.length b0 + 1) (b0 ++ blk :: b1))) with b1 in HS.
    2:{ change (b0 ++ blk :: b1) with (b0 ++ [blk] ++ b1). rewrite app_assoc.
        rewrite skipn_app, skipn_all2 by (rewrite length_app; cbn [List.length]; lia).
        rewrite !length_app. cbn [List.length app].
        replace (List.length b0 + 1 - (List.length b0 + 1))%nat with 0%nat by lia.
        cbn [skipn].
        replace (List.length b0 + 1 + List.length b1 - (List.length b0 + 1))%nat
          with (List.length b1) by lia.
        symmetry. apply firstn_all. }
    rewrite !fragSize_app in HS. cbn [fragSize] in HS. rewrite (nodeSize_Elem bt) in HS.
    replace (mid + 1)
      with (LS + (fragSize pre + fragSize items0) + 1
            + (fragSize b0 + (2 + fragSize bc + 0))) by lia.
    replace (e - 1)
      with (LS + (fragSize pre + fragSize items0) + 1
            + (fragSize b0 + (2 + fragSize bc + fragSize b1))) by lia.
    apply HS.
    + apply ctxPositive_snoc; [exact Hctx |]. cbn [fLeft].
      apply positive_app. split; assumption.
    + exact Hic.
    + rewrite length_app. cbn [List.length]. lia.
    + lia.
Qed.

(** [sliceSelectedItems] when [$to] lies in the block. *)
Lemma sliceSelectedItems_at (rto : ResolvedPos) (range : NodeRange) :
  rStart range = s -> rEnd range = e ->
  (rDepth range + 2 <= depth rto)%nat ->
  end_ rto (rDepth range + 2) = mid ->
  sliceSelectedItems (plug ctx L) rto range
  = Ok (mkSlice (items0 ++ [Elem it ia (b0 ++ [blk])]) 0 2, Some (mkSlice b1 0 0)).
Proof.
  intros Hs He Hd Hm.
  destruct sliced_sizes as (Hsz & Hisz & ? & ? & ? & ? & ? & ? & ?).
  unfold sliceSelectedItems. rewrite Hs, He, Hm.
  destruct (Nat.leb_spec (rDepth range + 2) (depth rto)) as [_ | Hlt]; [| lia].
  destruct (Z.leb_spec e (mid + 1)) as [Hle | _]; [lia |].
  rewrite slice_selected, slice_unselected. reflexivity.
Qed.

End Sliced.

(** [sliceSelectedItems] on the range of a selection that ends inside a
    block of an item. *)
Lemma sliceSelectedItems_deep sch d from to rfrom rto range ctx lt la cs :
  RangeShape sch d from to rfrom rto range ctx lt la cs ->
  (rDepth range + 2 <= depth rto)%nat ->
  exists items0 it ia b0 blk b1,
    firstn (endIndex range - startIndex range) (skipn (startIndex range) cs)
    = items0 ++ [Elem it ia (b0 ++ blk :: b1)]
    /\ isText blk = false
    /\ node rto (rDepth range + 2) = blk
    /\ index rto (rDepth range + 1) = List.length b0
    /\ sliceSelectedItems d rto range
       = Ok (mkSlice (items0 ++ [Elem it ia (b0 ++ [blk])]) 0 2, Some (mkSlice b1 0 0)).
Proof.
  intros Sh Hdeep.
  pose proof (rs_pto Sh) as Hrto. pose proof (rs_depth Sh) as Hdep.
  pose proof (rs_idx Sh) as Hix. pose proof (rs_hi Sh) as Hhi0.
  pose proof (rs_start Sh) as Hs. pose proof (rs_end Sh) as He.
  pose proof (rs_normal Sh) as Hnorm. pose proof (rs_ctx Sh) as Hctx.
  assert (Hpos : positive cs).
  { apply normals_positive. exact (@normal_children _ _ _ Hnorm). }
  (* the path of [$to] has three levels below the context *)
  assert (Hlen : (3 <= List.length (resolveLoop (Elem lt la cs) (ctxStart 0 ctx)
                                      (to - ctxStart 0 ctx)))%nat).
  { rewrite Hrto in Hdeep. unfold depth in Hdeep. cbn [path] in Hdeep.
    rewrite length_app, ctxPath_length in Hdeep. lia. }
  assert (Hq0 : 0 <= to - ctxStart 0 ctx).
  { destruct (Z.ltb_spec (to - ctxStart 0 ctx) 0) as [Hneg | Hok]; [| exact Hok].
    exfalso. rewrite resolveLoop_Elem in Hlen. unfold findIndex in Hlen.
    destruct (Z.ltb_spec (to - ctxStart 0 ctx) 0); [| lia].
    cbn [List.length] in Hlen. lia. }
  destruct (@resolveLoop_cases lt la cs (ctxStart 0 ctx) _ Hq0 ltac:(lia))
    as (idx & Hidx & [(_ & Hr) | [(_ & ch & _ & _ & _ & Hr)
                                 | (Hlo & ch & Hch & Hhi & Hnt & Hr)]]);
    [rewrite Hr in Hlen; cbn [List.length] in Hlen; lia
    | rewrite Hr in Hlen; cbn [List.length] in Hlen; lia |].
  destruct ch as [tx | it ia ic]; [discriminate |].
  rewrite (nodeSize_Elem it) in Hhi.
  rewrite Hr in Hlen. cbn [List.length] in Hlen.
  destruct (@resolveLoop_cases it ia ic (ctxStart 0 ctx + fragSize (firstn idx cs) + 1)
              (to - ctxStart 0 ctx - fragSize (firstn idx cs) - 1) ltac:(lia) ltac:(lia))
    as (bi & Hbi & [(_ & Hr2) | [(_ & bk & _ & _ & _ & Hr2)
                                | (Hlo2 & bk & Hbk & Hhi2 & Hnt2 & Hr2)]]);
    [rewrite Hr2 in Hlen; cbn [List.length] in Hlen; lia
    | rewrite Hr2 in Hlen; cbn [List.length] in Hlen; lia |].
  destruct bk as [tx | bt ba bc]; [discriminate |].
  rewrite (nodeSize_Elem bt) in Hhi2.
  destruct (resolveLoop (Elem bt ba bc)
              (ctxStart 0 ctx + fragSize (firstn idx cs) + 1 + fragSize (firstn bi ic) + 1)
              (to - ctxStart 0 ctx - fragSize (firstn idx cs) - 1
               - fragSize (firstn bi ic) - 1)) as [| e3 tail] eqn:E3.
  { exfalso. revert E3. apply resolveLoop_nonempty; [reflexivity | lia |].
    rewrite contentSize_Elem. lia. }
  pose proof (resolveLoop_head _ _ _ E3) as He3.
  rewrite Hr2 in Hr. clear Hr2.
  rewrite Hr in Hrto. clear Hr.
  (* the indices of the range *)
  assert (Hei : endIndex range = (idx + 1)%nat).
  { unfold endIndex. rewrite (rs_to Sh), Hrto, <- Hdep, hole_indexAfter.
    reflexivity. }
  assert (Hsi : (startIndex range <= idx)%nat) by lia.
  destruct (run_split cs Hsi) as [_ Hfi].
  pose proof (firstn_S_nth _ _ Hch) as HfS.
  pose proof (nth_error_split_firstn _ _ Hch) as Hcs.
  pose proof (nth_error_split_firstn _ _ Hbk) as Hic.
  assert (Hitems : firstn (endIndex range - startIndex range) (skipn (startIndex range) cs)
                   = firstn (idx - startIndex range) (skipn (startIndex range) cs)
                     ++ [Elem it ia ic]).
  { destruct (@run_split _ cs (startIndex range) (endIndex range) ltac:(lia)) as [_ Hfe].
    rewrite Hei in Hfe at 1. rewrite Nat.add_1_r, HfS, Hfi, <- app_assoc in Hfe.
    apply app_inv_head in Hfe. symmetry. exact Hfe. }
  assert (HeS : fragSize (firstn (endIndex range) cs)
                = fragSize (firstn idx cs) + nodeSize (Elem it ia ic)).
  { rewrite Hei, Nat.add_1_r. apply fragSize_firstn_S. exact Hch. }
  assert (Hfi' : fragSize (firstn idx cs)
                 = fragSize (firstn (startIndex range) cs)
                   + fragSize (firstn (idx - startIndex range)
                                 (skipn (startIndex range) cs)))
    by (rewrite Hfi, fragSize_app; reflexivity).
  (* the accessors of [$to] *)
  assert (Hnode : node rto (rDepth range + 2) = Elem bt ba bc).
  { rewrite Hrto, <- Hdep. unfold node.
    replace (List.length ctx + 2)%nat with (List.length ctx + S 1)%nat by lia.
    rewrite hole_entry_S. cbn [nth]. exact He3. }
  assert (Hentry : entry rto (rDepth range + 1)
                   = mkEntry (Elem it ia ic) bi
                       (ctxStart 0 ctx + fragSize (firstn idx cs) + 1
                        + fragSize (firstn bi ic))).
  { rewrite Hrto, <- Hdep.
    replace (List.length ctx + 1)%nat with (List.length ctx + S 0)%nat by lia.
    rewrite hole_entry_S. reflexivity. }
  assert (Hend : end_ rto (rDepth range + 2)
                 = ctxStart 0 ctx + fragSize (firstn idx cs) + 1
                   + fragSize (firstn bi ic) + 1 + fragSize bc).
  { unfold end_. rewrite Hnode, contentSize_Elem.
    replace (rDepth range + 2)%nat with (S (rDepth range + 1)) by lia.
    cbn [start]. rewrite Hentry. cbn [peOffset]. reflexivity. }
  exists (firstn (idx - startIndex range) (skipn (startIndex range) cs)),
    it, ia, (firstn bi ic), (Elem bt ba bc), (skipn (S bi) ic).
  rewrite <- Hic.
  split; [exact Hitems |]. split; [reflexivity |]. split; [exact Hnode |].
  split.
  { unfold index. rewrite Hentry. cbn [peIndex].
    rewrite length_firstn.
    assert (bi < List.length ic)%nat by (apply nth_error_Some; congruence). lia. }
  rewrite (rs_doc Sh).
  rewrite Hcs at 1. rewrite Hfi, <- app_assoc. rewrite Hic at 1.
  apply sliceSelectedItems_at.
  - exact Hctx.
  - rewrite <- Hic, app_assoc, <- Hfi, <- Hcs. exact Hnorm.
  - exact Hs.
  - rewrite <- Hic, He, HeS, Hfi'. lia.
  - exact Hdeep.
  - rewrite Hend, Hfi'. lia.
Qed.

(** [sliceSelectedItems] on the range of a selection that ends at an item
    boundary or directly in an item. *)
Lemma sliceSelectedItems_shallow sch d from to rfrom rto range ctx lt la cs :
  RangeShape sch d from to rfrom rto range ctx lt la cs ->
  (depth rto < rDepth range + 2)%nat ->
  sliceSelectedItems d rto range
  = Ok (mkSlice (firstn (endIndex range - startIndex range)
                   (skipn (startIndex range) cs)) 0 0, None).
Proof.
  intros Sh Hd.
  pose proof (rs_idx Sh) as Hix.
  assert (Hpos : positive cs).
  { apply normals_positive. exact (@normal_children _ _ _ (rs_normal Sh)). }
  unfold sliceSelectedItems.
  destruct (Nat.leb_spec (rDepth range + 2) (depth rto)) as [Hle | _]; [lia |].
  destruct (Z.leb_spec (rEnd range) (rEnd range - 1 + 1)) as [_ | Hlt]; [| lia].
  rewrite (rs_doc Sh), (rs_start Sh), (rs_end Sh).
  rewrite slice_flat; [reflexivity | exact (rs_ctx Sh) | exact Hpos | lia | lia].
Qed.

(** The items of the range, read off the list. *)
Lemma rangeItems_shape sch d from to rfrom rto range ctx lt la cs :
  RangeShape sch d from to rfrom rto range ctx lt la cs ->
  from <= to ->
  rParent range = Elem lt la cs
  /\ rangeItems range
     = firstn (endIndex range - startIndex range) (skipn (startIndex range) cs).
Proof.
  intros Sh Hft.
  assert (HP : rParent range = Elem lt la cs).
  { unfold rParent. rewrite (rs_from Sh), (rs_pfrom Sh), <- (rs_depth Sh).
    pose proof (rs_lo Sh). pose proof (rs_hi Sh).
    destruct (resolveLoop (Elem lt la cs) (ctxStart 0 ctx) (from - ctxStart 0 ctx))
      as [| e rest] eqn:E.
    { exfalso. revert E. apply resolveLoop_nonempty; [reflexivity | lia |].
      rewrite contentSize_Elem. lia. }
    rewrite hole_node. exact (resolveLoop_head _ _ _ E). }
  split; [exact HP |]. unfold rangeItems. rewrite HP. reflexivity.
Qed.

End SliceFacts.
(* ================================================================== *)
(** * The second branch: the document that results *)
(* ================================================================== *)

Module AcrossResult.
Import Model Resolve Replace Transform Context Indent Dedent Setup Shapes Statements.
Import RunShapes Branches.
Import ModelFacts ResolveFacts PathFacts RangeFacts FragmentFacts ReplaceFacts.
Import SameListFacts IndentFacts FlatFacts RunFacts AcrossFacts CheckFacts FlatSteps.
Import RebuildFacts RebuildRun AcrossRun SliceFacts.

(** A run of the second branch that returns [true]: the previous item is
    replaced by its copy with the new content, and of the selected list the
    items behind the range stay. *)
Lemma across_result sch tr tr' l ctx ft fa fl plt pla pis pit pia pic lt la cs fr :
  AcrossShape sch tr l ctx ft fa fl plt pla pis pit pia pic lt la cs fr ->
  located sch tr = Some l ->
  sameType l = false ->
  indentList sch tr = Returned true tr' ->
  exists sel unsel rest,
    sliceSelectedItems (doc tr) (lTo l) (lRange l) = Ok (sel, unsel)
    /\ doc tr'
       = plug ctx (Elem ft fa
           (fl ++ Elem plt pla
                    (pis ++ [copy (Elem pit pia pic)
                               (newPreviousItemContent (Elem pit pia pic)
                                  (Elem lt la cs) sel unsel)])
               :: rest ++ fr))
    /\ ((rest = [] /\ endIndex (lRange l) = List.length cs)
        \/ rest = [Elem lt la (skipn (endIndex (lRange l)) cs)]).
Proof.
  intros Sh Hl Hty E.
  pose proof (ac_range Sh) as Rs. pose proof (ac_first Sh) as H0.
  pose proof (rs_doc Rs) as Hdoc. pose proof (rs_idx Rs) as Hidx.
  pose proof (rs_start Rs) as Hs. pose proof (rs_end Rs) as He.
  pose proof (rs_ctx Rs) as Hctx. pose proof (ac_ctx Sh) as Hctx'.
  assert (Hpos : positive cs).
  { apply normals_positive. exact (@normal_children _ _ _ (rs_normal Rs)). }
  rewrite H0 in Hs, Hidx. cbn [firstn fragSize] in Hs. rewrite Z.add_0_r in Hs.
  assert (Hei : (0 < endIndex (lRange l) <= List.length cs)%nat) by lia.
  assert (Hpn : normal (Elem ft fa ((fl ++ [Elem plt pla (pis ++ [Elem pit pia pic])])
                                     ++ Elem lt la cs :: fr)) = true).
  { rewrite <- app_assoc. exact (ac_parent Sh). }
  pose proof (@normal_children _ _ _ Hpn) as Hpcs.
  pose proof (@normal_noAdjacent _ _ _ Hpn) as Hpadj.
  assert (HPLn : normal (Elem plt pla (pis ++ [Elem pit pia pic])) = true).
  { apply (normals_In _ _ Hpcs). rewrite <- app_assoc.
    apply in_or_app. right. apply in_or_app. left. left. reflexivity. }
  assert (Hppos : positive (pis ++ [Elem pit pia pic])).
  { apply normals_positive. exact (@normal_children _ _ _ HPLn). }
  assert (Hfl0 : positive fl).
  { apply normals_positive in Hpcs. apply positive_app in Hpcs.
    destruct Hpcs as [Hp _]. apply positive_app in Hp. tauto. }
  apply indentList_true in E. destruct E as (l' & tr1 & Hl' & Hb & _ & _ & Hd' & _).
  assert (l' = l) by congruence. subst l'. rewrite Hty in Hb.
  destruct Hb as (sel & unsel & tr0 & Hsl & Hdel & Hchk & Hrep).
  rewrite (ac_found Sh), (ac_list Sh) in Hrep.
  cbn [previousItem previousItemStart] in Hrep.
  pose proof (nodeSize_Elem_ge plt pla (pis ++ [Elem pit pia pic])) as HPL2.
  pose proof (fragSize_nonneg fl) as Hfl0n.
  assert (HLS : ctxStart 0 (ctx ++ [mkFrame ft fa
                   (fl ++ [Elem plt pla (pis ++ [Elem pit pia pic])]) fr])
                = ctxStart 0 ctx + fragSize fl
                  + nodeSize (Elem plt pla (pis ++ [Elem pit pia pic])) + 1).
  { rewrite ctxStart_snoc. cbn [fLeft]. rewrite fragSize_app. cbn [fragSize]. lia. }
  assert (Hfrom : forall R,
    doc tr0 = plug (ctx ++ [mkFrame ft fa fl R]) (Elem plt pla (pis ++ [Elem pit pia pic])) ->
    doc tr1 = plug (ctx ++ [mkFrame ft fa fl R])
                (Elem plt pla (pis ++ [copy (Elem pit pia pic)
                   (newPreviousItemContent (Elem pit pia pic) (Elem lt la cs) sel unsel)]))).
  { intros R Hd0.
    apply (@replaceRangeWith_last sch tr0 (ctx ++ [mkFrame ft fa fl R])
             plt pla pis pit pia pic _ tr1 Hd0).
    - apply ctxPositive_snoc; assumption.
    - exact Hppos.
    - reflexivity.
    - rewrite ctxStart_snoc. cbn [fLeft].
      replace (ctxStart 0 ctx + fragSize fl + 1 + fragSize pis)
        with (ctxStart 0 ctx + 1 + fragSize fl + fragSize pis + 1 - 1) by lia.
      replace (ctxStart 0 ctx + 1 + fragSize fl + fragSize pis + 1 - 1
               + nodeSize (Elem pit pia pic))
        with (ctxStart 0 ctx + 1 + fragSize fl + fragSize pis + 1
              + nodeSize (Elem pit pia pic) - 2 + 1) by lia.
      exact Hrep. }
  rewrite Hs, He in Hdel.
  assert (Hleft : 0 < fragSize (fLeft (mkFrame ft fa
                    (fl ++ [Elem plt pla (pis ++ [Elem pit pia pic])]) fr))).
  { cbn [fLeft]. rewrite fragSize_app. cbn [fragSize]. lia. }
  exists sel, unsel.
  destruct (@deleteRange_cases sch tr ctx _ lt la cs (endIndex (lRange l))
              Hdoc Hctx Hpos Hleft Hei) as [Ed | [Hall Ed]]; rewrite Ed in Hdel.
  - pose proof (@trDelete_flat sch tr _ lt la cs 0 (endIndex (lRange l))
                  Hdoc Hctx Hpos ltac:(lia) tr0 ltac:(lia)) as D.
    cbn [firstn fragSize app] in D. rewrite Z.add_0_r in D.
    assert (Hadj : noAdjacentText (skipn (endIndex (lRange l)) cs) = true).
    { apply noAdjacentText_nonText. unfold nonText.
      pose proof (rs_items Rs) as Hi. unfold nonText in Hi.
      rewrite <- (firstn_skipn (endIndex (lRange l)) cs) in Hi.
      apply Forall_app in Hi. tauto. }
    destruct (D Hadj Hdel) as [Etr0 Hv].
    assert (Hd0 : doc tr0 = plug (ctx ++ [mkFrame ft fa fl
                     (Elem lt la (skipn (endIndex (lRange l)) cs) :: fr)])
                    (Elem plt pla (pis ++ [Elem pit pia pic]))).
    { rewrite Etr0. cbn [doc]. rewrite !plug_app. cbn [plug]. unfold fill.
      cbn [fType fAttrs fLeft fRight]. rewrite <- app_assoc. reflexivity. }
    pose proof (Hfrom _ Hd0) as Hd1.
    exists [Elem lt la (skipn (endIndex (lRange l)) cs)].
    split; [exact Hsl |]. split; [| right; reflexivity].
    rewrite Hd', Hd1, plug_app. cbn [plug]. unfold fill.
    cbn [fType fAttrs fLeft fRight]. reflexivity.
  - pose proof (@trDelete_flat sch tr ctx ft fa
                  ((fl ++ [Elem plt pla (pis ++ [Elem pit pia pic])])
                   ++ Elem lt la cs :: fr)
                  (List.length (fl ++ [Elem plt pla (pis ++ [Elem pit pia pic])]))
                  (List.length (fl ++ [Elem plt pla (pis ++ [Elem pit pia pic])]) + 1))
      as D.
    rewrite Hdoc, plug_app in D. cbn [plug] in D. unfold fill in D.
    cbn [fType fAttrs fLeft fRight] in D.
    specialize (D eq_refl Hctx' (normals_positive _ Hpcs)).
    rewrite (length_app _ (_ :: fr)) in D. cbn [List.length] in D.
    specialize (D ltac:(lia) tr0 ltac:(lia)).
    rewrite firstn_app, firstn_all, Nat.sub_diag in D. cbn [firstn] in D.
    rewrite app_nil_r in D.
    replace (firstn (List.length (fl ++ [Elem plt pla (pis ++ [Elem pit pia pic])]) + 1)
               ((fl ++ [Elem plt pla (pis ++ [Elem pit pia pic])])
                ++ Elem lt la cs :: fr))
      with ((fl ++ [Elem plt pla (pis ++ [Elem pit pia pic])]) ++ [Elem lt la cs]) in D.
    2:{ rewrite firstn_app, firstn_all2 by lia.
        replace (List.length (fl ++ [Elem plt pla (pis ++ [Elem pit pia pic])]) + 1
                 - List.length (fl ++ [Elem plt pla (pis ++ [Elem pit pia pic])]))%nat
          with 1%nat by lia. reflexivity. }
    replace (skipn (List.length (fl ++ [Elem plt pla (pis ++ [Elem pit pia pic])]) + 1)
               ((fl ++ [Elem plt pla (pis ++ [Elem pit pia pic])])
                ++ Elem lt la cs :: fr)) with fr in D.
    2:{ rewrite skipn_app, skipn_all2 by lia.
        replace (List.length (fl ++ [Elem plt pla (pis ++ [Elem pit pia pic])]) + 1
                 - List.length (fl ++ [Elem plt pla (pis ++ [Elem pit pia pic])]))%nat
          with 1%nat by lia. reflexivity. }
    rewrite !fragSize_app in D. cbn [fragSize] in D.
    rewrite (nodeSize_Elem lt) in D.
    rewrite Hall, firstn_all in Hdel.
    replace (ctxStart 0 ctx + (fragSize fl
               + (nodeSize (Elem plt pla (pis ++ [Elem pit pia pic])) + 0)))
      with (ctxStart 0 (ctx ++ [mkFrame ft fa
              (fl ++ [Elem plt pla (pis ++ [Elem pit pia pic])]) fr]) - 1) in D by lia.
    replace (ctxStart 0 ctx + (fragSize fl
               + (nodeSize (Elem plt pla (pis ++ [Elem pit pia pic])) + 0)
               + (2 + fragSize cs + 0)))
      with (ctxStart 0 (ctx ++ [mkFrame ft fa
              (fl ++ [Elem plt pla (pis ++ [Elem pit pia pic])]) fr])
            + fragSize cs + 1) in D by lia.
    assert (Hadj : noAdjacentText
                     ((fl ++ [Elem plt pla (pis ++ [Elem pit pia pic])]) ++ fr) = true).
    { apply (@noAdjacentText_remove fl (Elem plt pla (pis ++ [Elem pit pia pic]))
               (Elem lt la cs) fr eq_refl Hpadj). }
    destruct (D Hadj Hdel) as [Etr0 Hv].
    assert (Hd0 : doc tr0 = plug (ctx ++ [mkFrame ft fa fl fr])
                    (Elem plt pla (pis ++ [Elem pit pia pic]))).
    { rewrite Etr0. cbn [doc]. rewrite !plug_app. cbn [plug]. unfold fill.
      cbn [fType fAttrs fLeft fRight]. rewrite <- app_assoc. reflexivity. }
    pose proof (Hfrom _ Hd0) as Hd1.
    exists [].
    split; [exact Hsl |]. split; [| left; split; [reflexivity | exact Hall]].
    rewrite Hd', Hd1, plug_app. cbn [plug]. unfold fill.
    cbn [fType fAttrs fLeft fRight]. reflexivity.
Qed.

End AcrossResult.
(* ================================================================== *)
(** * Runs that raise, and runs in the schema of the list editor *)
(* ================================================================== *)

Module EdgeFacts.
Import Model Resolve Replace Transform Context Indent Dedent Setup Shapes Statements.
Import RunShapes Branches.
Import ModelFacts ResolveFacts PathFacts RangeFacts FragmentFacts ReplaceFacts.
Import SameListFacts IndentFacts FlatFacts RunFacts AcrossFacts CheckFacts FlatSteps.
Import RebuildFacts SchemaFacts SliceFacts.

(** The command once the previous item is found, in its first branch. *)
Lemma indentList_first_branch sch tr l :
  located sch tr = Some l -> sameType l = true ->
  indentList sch tr
  = andThen (step sch tr (indentStep (lList l) (lRange l)))
      (fun tr1 =>
         andThen
           (if previousIsSelected (lFound l)
            then setSelection tr1 (pos (lFrom l)) (pos (lTo l))
            else setSelection tr1 (pos (lFrom l) - 2) (pos (lTo l) - 2))
           (fun tr2 => Returned true tr2)).
Proof.
  intros Hl Hty.
  destruct (located_inv _ _ Hl) as (rs & Hrf & Hrt & Hcalc & Hrs & HL & Hisl & Hf).
  unfold indentList. rewrite Hrf, Hrt, Hcalc, Hrs, <- HL, Hisl. cbn [negb].
  rewrite Hf. unfold sameType in Hty. rewrite Hty. reflexivity.
Qed.

(** The step of the first branch on a range that starts at the first item of
    its list fails: [tr.step] raises [TransformError]. *)
Lemma step_first_item_fails sch tr rfrom rto range ctx lt la cs l :
  wellFormed sch (doc tr) = true ->
  RangeShape sch (doc tr) (selFrom tr) (selTo tr) rfrom rto range ctx lt la cs ->
  startIndex range = 0%nat ->
  step sch tr (indentStep l range) = TrThrow TransformError tr.
Proof.
  intros Hwf Sh H0.
  pose proof (@indentStep_from_first_item sch tr _ _ _ ctx lt la cs Hwf Sh H0 l) as Hno.
  pose proof (rs_idx Sh) as Hidx. pose proof (rs_start Sh) as Hs.
  pose proof (rs_end Sh) as He. pose proof (rs_doc Sh) as Hdoc.
  assert (Hpos : positive cs).
  { apply normals_positive. exact (@normal_children _ _ _ (rs_normal Sh)). }
  destruct (snoc_cases ctx) as [Hnil | (ctx' & f & Hctx)].
  { exfalso. rewrite Hnil in Hdoc. cbn [plug] in Hdoc. unfold wellFormed in Hwf.
    rewrite Hdoc in Hwf. cbn [isText typeOf negb andb] in Hwf.
    rewrite (rs_list Sh) in Hwf. discriminate. }
  assert (H1 : 1 <= ctxStart 0 ctx).
  { rewrite Hctx, ctxStart_snoc. pose proof (ctxStart_ge 0 ctx').
    pose proof (fragSize_nonneg (fLeft f)). lia. }
  pose proof (@ctxStart_contentSize ctx (Elem lt la cs) 0 eq_refl) as Hsz.
  rewrite contentSize_Elem, <- Hdoc in Hsz.
  pose proof (fragSize_firstn_le cs (endIndex range)) as Hle.
  pose proof (fragSize_nonneg (firstn (startIndex range) cs)) as Hge.
  pose proof (@fragSize_firstn_strict cs (startIndex range) (endIndex range) Hpos
                ltac:(lia) ltac:(lia)) as Hlt.
  unfold step in *.
  destruct (apply sch (doc tr) (indentStep l range)) as [d' | | e] eqn:Ea.
  - exfalso. exact (Hno _ eq_refl).
  - reflexivity.
  - exfalso. unfold apply, indentStep in Ea.
    rewrite Hs, He, Hdoc in Ea at 1.
    rewrite slice_flat in Ea; [| exact (rs_ctx Sh) | exact Hpos | lia | lia].
    cbn [openStart openEnd Nat.eqb negb orb sContent] in Ea.
    destruct (insertAt sch _ 1 _) as [ins |]; [| discriminate].
    unfold fromReplace in Ea.
    rewrite (@resolve_ok (doc tr) (rStart range - 1)) in Ea by lia.
    rewrite (@resolve_ok (doc tr) (rEnd range - 1)) in Ea by lia.
    destruct (replace sch _ _ ins); discriminate.
Qed.

(** ** [findPreviousItem] when it raises *)

Lemma addSizes_raise n : forall k acc e, addSizes n k acc = Raise e -> e = RangeError.
Proof.
  induction k as [| k IH]; intros acc e; cbn [addSizes]; [discriminate |].
  destruct (addSizes n k acc) as [a | e0] eqn:Ek.
  - unfold child. destruct (nth_error (contentOf n) k); [discriminate |]. congruence.
  - intros H. injection H as <-. exact (IH _ _ Ek).
Qed.

Lemma emptyPreviousList_raises sch sl rfrom range :
  emptyPreviousList sch rfrom range ->
  findPreviousItem sch sl rfrom range = Raise RangeError.
Proof.
  intros (H0 & Hge & pl & Hpl & Hlist & Hnil).
  unfold findPreviousItem. rewrite H0. change (1 <=? 0)%nat with false. cbv iota zeta.
  destruct (Nat.leb_spec 1 (index rfrom (resolveDepth rfrom (Z.of_nat (rDepth range) - 1))))
    as [_ | Hlt]; [| lia].
  unfold child at 1. rewrite Hpl, Hlist. cbn [negb].
  destruct (addSizes _ _ _) as [a | e] eqn:Ea.
  - rewrite Hnil. destruct (childCount pl - 1)%nat; reflexivity.
  - f_equal. exact (addSizes_raise _ _ _ Ea).
Qed.

Lemma findPreviousItem_raise_first sch d from to rfrom rto range ctx' f lt la cs e :
  RangeShape sch d from to rfrom rto range (ctx' ++ [f]) lt la cs ->
  startIndex range = 0%nat ->
  findPreviousItem sch (Elem lt la cs) rfrom range = Raise e ->
  e = RangeError /\ emptyPreviousList sch rfrom range.
Proof.
  intros Sh H0 Hf.
  pose proof (rs_depth Sh) as Hd. rewrite length_app in Hd. cbn [List.length] in Hd.
  assert (Hrd : resolveDepth rfrom (Z.of_nat (rDepth range) - 1) = List.length ctx').
  { unfold resolveDepth.
    destruct (Z.ltb_spec (Z.of_nat (rDepth range) - 1) 0); lia. }
  unfold emptyPreviousList. cbv zeta. rewrite Hrd.
  rewrite (rs_pfrom Sh) in Hf |- *. unfold findPreviousItem in Hf.
  rewrite H0 in Hf. change (1 <=? 0)%nat with false in Hf. cbv iota zeta in Hf.
  assert (Hrd' : forall r, resolveDepth r (Z.of_nat (rDepth range) - 1) = List.length ctx').
  { intros r. unfold resolveDepth.
    destruct (Z.ltb_spec (Z.of_nat (rDepth range) - 1) 0); lia. }
  rewrite !Hrd' in Hf.
  destruct (snoc_entry from ctx' f (Elem lt la cs)
              (resolveLoop (Elem lt la cs) (ctxStart 0 (ctx' ++ [f]))
                 (from - ctxStart 0 (ctx' ++ [f])))) as (Hidx & Hnode & Hst & _).
  rewrite Hidx, Hnode, Hst in Hf. rewrite Hidx, Hnode.
  destruct (Nat.leb_spec 1 (List.length (fLeft f))) as [Hge | Hlt]; [| discriminate].
  destruct (snoc_cases (fLeft f)) as [E | (fl0 & PL & E)];
    [rewrite E in Hge; cbn in Hge; lia |].
  unfold child, fill in Hf. unfold fill. cbn [contentOf] in Hf |- *.
  rewrite E in Hf |- *.
  rewrite length_app in Hf |- *. cbn [List.length] in Hf |- *.
  replace (List.length fl0 + 1 - 1)%nat with (List.length fl0) in Hf |- * by lia.
  assert (Hnth : nth_error ((fl0 ++ [PL]) ++ Elem lt la cs :: fRight f) (List.length fl0)
                 = Some PL).
  { rewrite <- app_assoc, nth_error_app2, Nat.sub_diag by lia. reflexivity. }
  rewrite Hnth in Hf.
  destruct (isListNode sch PL) eqn:Hpl; cbn [negb] in Hf; [| discriminate].
  rewrite addSizes_ok in Hf
    by (rewrite !length_app; cbn [List.length]; lia).
  destruct (nth_error (contentOf PL) (childCount PL - 1)) as [PI |] eqn:Hpi.
  { destruct (isListItemNode sch PI); discriminate. }
  split; [congruence |]. split; [exact H0 |]. split; [lia |].
  exists PL. split; [exact Hnth |]. split; [exact Hpl |].
  apply nth_error_None in Hpi. unfold childCount in Hpi.
  destruct (contentOf PL) as [| x c]; [reflexivity |]. cbn [List.length] in Hpi. lia.
Qed.

(** ** The schema of the list editor *)

Lemma listValid_list t :
  isList listSchema t = true ->
  exists it, (it = "listItem" \/ it = "taskListItem")
    /\ forall l, validContent listSchema t l = nonEmpty l && allOf (String.eqb it) l.
Proof.
  intros Ht. apply isList_listSchema in Ht.
  destruct Ht as [-> | [-> | ->]];
    [exists "listItem" | exists "listItem" | exists "taskListItem"];
    (split; [auto | intros l; reflexivity]).
Qed.

Lemma listSchema_list_valid t l :
  isList listSchema t = true ->
  validContent listSchema t l = true ->
  exists it, (it = "listItem" \/ it = "taskListItem")
    /\ allOf (String.eqb it) l = true
    /\ forall l', l' <> [] -> allOf (String.eqb it) l' = true ->
                  validContent listSchema t l' = true.
Proof.
  intros Ht Hv. destruct (listValid_list _ Ht) as (it & Hit & Hval).
  exists it. split; [exact Hit |]. rewrite Hval in Hv.
  apply andb_true_iff in Hv. split; [tauto |].
  intros l' Hne Hl'. rewrite Hval, Hl', (nonEmpty_true Hne). reflexivity.
Qed.

Lemma allOf_eqb_In it l x : allOf (String.eqb it) l = true -> In x l -> x = it.
Proof.
  unfold allOf. rewrite forallb_forall. intros H Hx.
  symmetry. apply String.eqb_eq. exact (H _ Hx).
Qed.

Lemma listSchema_item_valid it c :
  it = "listItem" \/ it = "taskListItem" ->
  validContent listSchema it c = itemContent c.
Proof. intros [-> | ->]; reflexivity. Qed.

Lemma isBlock_list t : isList listSchema t = true -> isBlock t = true.
Proof.
  intros Ht. apply isList_listSchema in Ht. destruct Ht as [-> | [-> | ->]]; reflexivity.
Qed.

Lemma itemContent_snoc c t :
  itemContent c = true -> isBlock t = true -> itemContent (c ++ [t]) = true.
Proof.
  destruct c as [| x c]; [discriminate |]. cbn [itemContent app]. intros H Ht.
  apply andb_true_iff in H. destruct H as [Hx Hc]. rewrite Hx. cbn [andb].
  unfold allOf in *. rewrite forallb_app, Hc. cbn [forallb]. rewrite Ht. reflexivity.
Qed.

Lemma compatible_refl t : compatible t t = true.
Proof. unfold compatible. rewrite String.eqb_refl. reflexivity. Qed.

End EdgeFacts.
(* ================================================================== *)
(** * The command on the result of a run of its first branch *)
(* ================================================================== *)

Module AgainFacts.
Import Model Resolve Replace Transform Context Indent Dedent Setup Shapes Statements.
Import RunShapes Branches.
Import ModelFacts ResolveFacts PathFacts RangeFacts FragmentFacts ReplaceFacts.
Import SameListFacts IndentFacts FlatFacts RunFacts CheckFacts FlatSteps WindowFacts.
Import RoundTripFacts.

Section Again.
Variable sch : Schema.
Variables (ctx : list Frame) (lt : NodeType) (la : Attrs).
Variables (pre : Fragment) (pt : NodeType) (pa : Attrs) (pc : Fragment).
Variables (sel post : Fragment).

Local Abbreviation prev := (Elem pt pa pc).
Local Abbreviation cs := (pre ++ prev :: sel ++ post).
Local Abbreviation L := (Elem lt la cs).
Local Abbreviation NL := (Elem lt la sel).
Local Abbreviation prev' := (Elem pt pa (pc ++ [NL])).
Local Abbreviation L' := (Elem lt la (pre ++ prev' :: post)).
Local Abbreviation LS := (ctxStart 0 ctx).
Local Abbreviation s := (LS + fragSize pre + nodeSize prev).
Local Abbreviation e := (s + fragSize sel).

Hypothesis Hctx : ctxPositive ctx.
Hypothesis Hpos : positive cs.
Hypothesis Hpc : positive pc.

(** The new document is two positions longer, and the range fits in it. *)
Lemma nested_size : e + 2 <= contentSize (plug ctx L').
Proof.
  pose proof (@contentSize_plug ctx L L' eq_refl eq_refl) as H.
  pose proof (@ctxStart_contentSize ctx L 0 eq_refl) as H0.
  rewrite contentSize_Elem in H0.
  assert (HL : nodeSize L' = nodeSize L + 2).
  { repeat (rewrite ?nodeSize_Elem, ?fragSize_app; cbn [fragSize]). lia. }
  assert (Hcs : fragSize cs = fragSize pre + nodeSize prev + fragSize sel + fragSize post).
  { rewrite fragSize_app. cbn [fragSize]. rewrite fragSize_app. lia. }
  pose proof (fragSize_nonneg post). lia.
Qed.

(** A second call of the command on the selection that the first branch
    left: the selected items are the first items of the new list, and when
    no list node is in front of that list, the call returns [false]. *)
Lemma indent_again tr1 rfrom rto range :
  doc tr1 = plug ctx L' ->
  s <= selFrom tr1 -> selTo tr1 <= e ->
  isList sch lt = true ->
  resolve (plug ctx L) (selFrom tr1) = Some rfrom ->
  resolve (plug ctx L) (selTo tr1) = Some rto ->
  calculateItemRange sch rfrom rto = Some range ->
  rDepth range = List.length ctx ->
  startIndex range = (List.length pre + 1)%nat ->
  (forall x, nth_error pc (List.length pc - 1) = Some x -> isListNode sch x = false) ->
  indentList sch tr1 = Returned false tr1.
Proof.
  intros Hdoc Hlo Hhi Hlist Hrf Hrt Hcalc Hd Hsi Hlast.
  pose proof (sel_min_max tr1) as Hmm.
  destruct (@window_paths ctx lt la pre pt pa pc sel post Hctx Hpos Hpc (selFrom tr1)
              ltac:(lia) ltac:(lia))
    as (i1 & o1 & t1 & Hi1 & Ho1 & Hold1 & Hnew1).
  destruct (@window_paths ctx lt la pre pt pa pc sel post Hctx Hpos Hpc (selTo tr1)
              ltac:(lia) ltac:(lia))
    as (i2 & o2 & t2 & Hi2 & Ho2 & Hold2 & Hnew2).
  rewrite Hold1 in Hrf. injection Hrf as <-.
  rewrite Hold2 in Hrt. injection Hrt as <-.
  pose proof (@nested_range sch ctx lt la pre pt pa pc sel post _ _ i1 o1 t1 i2 o2 t2 range
                Hmm Hhi Hlist Hcalc Hd) as Hcalc'.
  destruct (@new_levels ctx lt la pre pt pa pc sel post (selFrom tr1) i1 o1 t1)
    as (_ & Hn1 & _ & _ & Hx1 & Hx2 & _ & Hx0).
  assert (Hzero : i1 = 0%nat).
  { assert (Hr : rFrom range
                 = mkResolved (selFrom tr1)
                     (ctxPath 0 ctx L
                      ++ mkEntry L (List.length pre + 1 + i1) (s + o1) :: t1)).
    { pose proof Hcalc as Hc. unfold calculateItemRange, blockRange in Hc.
      match type of Hc with
      | context [Z.ltb ?x ?y] => destruct (Z.ltb_spec x y) as [Hx | _]
      end; [cbn [pos] in Hx; lia |].
      apply blockRangeFrom_spec in Hc. destruct Hc as (Hr & _).
      rewrite Hr. reflexivity. }
    unfold startIndex in Hsi. rewrite Hr, Hd, Hx0 in Hsi. lia. }
  subst i1.
  pose proof nested_size as Hsz.
  pose proof (fragSize_nonneg pre) as Hpre0. pose proof (ctxStart_ge 0 ctx) as HLS.
  pose proof (nodeSize_Elem_ge pt pa pc) as Hp2.
  pose proof (fragSize_firstn_le sel 0) as Hf0. cbn [firstn fragSize] in Ho1.
  unfold indentList. rewrite Hdoc, Hnew1, Hnew2, Hcalc'.
  match goal with
  | |- context [resolve (plug ctx L') (rStart ?r)] =>
      assert (Hstart : 0 <= rStart r <= contentSize (plug ctx L'))
  end.
  { unfold rStart. cbn [rFrom rDepth]. unfold before.
    rewrite (@levels_depth (selFrom tr1) ctx L L'
               (mkEntry L (List.length pre + 1 + 0) (s + o1))
               (mkEntry L' (List.length pre) (LS + fragSize pre))
               (mkEntry prev' (List.length pc) (LS + fragSize pre + 1 + fragSize pc))
               (mkEntry NL 0 (s + o1)) t1).
    rewrite levels_depth_r.
    destruct (List.length ctx + 2 + 1 =? List.length ctx + List.length t1 + 2 + 1)%nat.
    - cbn [pos]. lia.
    - replace (List.length ctx + 2 + 1 - 1)%nat with (List.length ctx + S 1)%nat by lia.
      rewrite hole_entry_S. cbn [nth peOffset]. lia. }
  rewrite resolve_ok by lia.
  match goal with
  | |- context [negb (isListNode sch ?n)] => destruct (negb (isListNode sch n))
  end; [reflexivity |].
  replace (findPreviousItem sch _ _ _) with (@Ok (option PreviousItem) None);
    [reflexivity |].
  symmetry. unfold findPreviousItem.
  unfold startIndex at 1. cbn [rFrom rDepth]. rewrite Hx2.
  change (1 <=? 0)%nat with false. cbv iota zeta. cbn [rDepth].
  assert (Hrd : forall r, resolveDepth r (Z.of_nat (List.length ctx + 2) - 1)
                          = (List.length ctx + 1)%nat).
  { intros r. unfold resolveDepth.
    destruct (Z.ltb_spec (Z.of_nat (List.length ctx + 2) - 1) 0); lia. }
  rewrite !Hrd, Hx1, Hn1.
  destruct (Nat.leb_spec 1 (List.length pc)) as [Hge | Hlt]; [| reflexivity].
  unfold child. cbn [contentOf].
  rewrite nth_error_app1 by lia.
  destruct (nth_error pc (List.length pc - 1)) as [x |] eqn:Ex.
  - rewrite (Hlast x eq_refl). reflexivity.
  - apply nth_error_None in Ex. lia.
Qed.

End Again.
End AgainFacts.
(* ================================================================== *)
(** * The text of a document *)
(* ================================================================== *)

Module TextFacts.
Import Model Resolve Replace Transform Context Indent Dedent Setup Shapes Statements.
Import RunShapes Branches.
Import ModelFacts ResolveFacts PathFacts RangeFacts FragmentFacts ReplaceFacts.

Lemma sappend_assoc (a b c : string) :
  String.append (String.append a b) c = String.append a (String.append b c).
Proof. induction a as [| ch a IH]; cbn [String.append]; [reflexivity | now rewrite IH]. Qed.

Lemma sappend_nil_r (a : string) : String.append a EmptyString = a.
Proof. induction a as [| ch a IH]; cbn [String.append]; [reflexivity | now rewrite IH]. Qed.

Lemma sappend_nil_l (a : string) : String.append EmptyString a = a.
Proof. reflexivity. Qed.

Lemma textContent_Elem t a c : textContent (Elem t a c) = fragText c.
Proof. reflexivity. Qed.

Lemma fragText_app l1 l2 :
  fragText (l1 ++ l2) = String.append (fragText l1) (fragText l2).
Proof.
  induction l1 as [| x l1 IH]; cbn [app fragText String.append]; [reflexivity |].
  now rewrite IH, sappend_assoc.
Qed.

Lemma fragText_cons x l :
  fragText (x :: l) = String.append (textContent x) (fragText l).
Proof. reflexivity. Qed.

(** The text of a document depends on the node in the hole of a context
    through the text of that node only. *)
Lemma textContent_plug ctx n n' :
  textContent n = textContent n' ->
  textContent (plug ctx n) = textContent (plug ctx n').
Proof.
  intros H. induction ctx as [| f ctx IH]; [exact H |].
  cbn [plug]. unfold fill. rewrite !textContent_Elem, !fragText_app, !fragText_cons.
  now rewrite IH.
Qed.

End TextFacts.
(* ================================================================== *)
(** * Positions of the selection, before and after a run *)
(* ================================================================== *)

Module CursorFacts.
Import Model Resolve Replace Transform Context Indent Dedent Setup Shapes Statements.
Import RunShapes Branches.
Import ModelFacts ResolveFacts PathFacts RangeFacts FragmentFacts ReplaceFacts.
Import SameListFacts IndentFacts FlatFacts RunFacts AcrossFacts CheckFacts FlatSteps.
Import RebuildFacts RebuildRun AcrossRun SliceFacts AcrossResult.
Import WindowFacts RoundTripFacts BranchFacts.

(** The path below a node does not depend on where the node starts, but
    for the offsets. *)
Lemma resolveLoop_shift k : forall n st q,
  resolveLoop n (st + k) q = map (shiftEntry k) (resolveLoop n st q).
Proof.
  induction n as [s | t a c IH] using Node_rect'; intros st q.
  - cbn [resolveLoop contentOf].
    destruct (findIndex [] q) as [[idx off] |]; [| reflexivity].
    cbn [map]. unfold shiftEntry. cbn [peNode peIndex peOffset]. f_equal.
    + f_equal. lia.
    + destruct (q - off =? 0); reflexivity.
  - rewrite !resolveLoop_Elem.
    destruct (findIndex c q) as [[idx off] |]; [| reflexivity].
    cbn [map]. unfold shiftEntry at 1. cbn [peNode peIndex peOffset]. f_equal.
    + f_equal. lia.
    + destruct (q - off =? 0); [reflexivity |].
      destruct (nth_error c idx) as [ch |] eqn:Ech; [| reflexivity].
      destruct (isText ch); [reflexivity |].
      rewrite Forall_forall in IH.
      replace (st + k + off + 1) with (st + off + 1 + k) by lia.
      apply IH. exact (nth_error_In _ _ Ech).
Qed.

(** Two nodes whose children start with the same run: the paths to a
    position in that run agree but for the node of the first entry. *)
Lemma resolveLoop_prefix t a t' a' l2 l3 l3' st q :
  positive l2 -> 0 <= q -> q <= fragSize l2 ->
  exists idx off tail,
    resolveLoop (Elem t a (l2 ++ l3)) st q
    = mkEntry (Elem t a (l2 ++ l3)) idx off :: tail
    /\ resolveLoop (Elem t' a' (l2 ++ l3')) st q
       = mkEntry (Elem t' a' (l2 ++ l3')) idx off :: tail.
Proof.
  intros H2 Hq0 Hq1.
  assert (H1 : positive []) by constructor.
  destruct (@resolveLoop_window t a t a [] l2 l3 st q H1 H2 Hq0 Hq1)
    as (i1 & o1 & t1 & _ & _ & _ & B1 & S1).
  destruct (@resolveLoop_window t' a' t a [] l2 l3' st q H1 H2 Hq0 Hq1)
    as (i2 & o2 & t2 & _ & _ & _ & B2 & S2).
  cbn [app fragSize List.length Nat.add] in B1, S1, B2, S2.
  rewrite Z.add_0_l in B1, B2. rewrite Z.add_0_r in B1, S1, B2, S2.
  rewrite S1 in S2. injection S2 as Hi Ho Ht.
  exists i1, (st + o1), t1. split; [exact B1 |].
  rewrite B2, <- Hi, <- Ho, <- Ht. reflexivity.
Qed.

(** The selected list and its copy with the moved items: the paths to a
    position inside a block of a moved item agree below the item. *)
Lemma moved_paths lt la cs moved st q bound :
  positive cs ->
  ((exists tl, cs = moved ++ tl /\ bound = fragSize moved)
   \/ (exists items0 it ia b0 blk b1 tl,
         cs = items0 ++ Elem it ia (b0 ++ blk :: b1) :: tl
         /\ moved = items0 ++ [Elem it ia (b0 ++ [blk])]
         /\ positive (b0 ++ blk :: b1)
         /\ bound = fragSize items0 + fragSize b0 + nodeSize blk)) ->
  0 <= q -> q <= bound ->
  (3 <= List.length (resolveLoop (Elem lt la cs) st q))%nat ->
  exists iL oL nI nI' iI oI tail,
    tail <> []
    /\ resolveLoop (Elem lt la cs) st q
       = mkEntry (Elem lt la cs) iL oL :: mkEntry nI iI oI :: tail
    /\ resolveLoop (Elem lt la moved) st q
       = mkEntry (Elem lt la moved) iL oL :: mkEntry nI' iI oI :: tail.
Proof.
  intros Hpos Hrel Hq0 Hq1 Hlen.
  assert (Hsame : forall l2 l3 l3',
            cs = l2 ++ l3 -> moved = l2 ++ l3' -> q <= fragSize l2 ->
            exists iL oL nI nI' iI oI tail,
              tail <> []
              /\ resolveLoop (Elem lt la cs) st q
                 = mkEntry (Elem lt la cs) iL oL :: mkEntry nI iI oI :: tail
              /\ resolveLoop (Elem lt la moved) st q
                 = mkEntry (Elem lt la moved) iL oL :: mkEntry nI' iI oI :: tail).
  { intros l2 l3 l3' Ecs Emv Hq.
    assert (H2 : positive l2).
    { rewrite Ecs in Hpos. apply positive_app in Hpos. tauto. }
    destruct (@resolveLoop_prefix lt la lt la l2 l3 l3' st q H2 Hq0 Hq)
      as (idx & off & T & B1 & B2).
    rewrite <- Ecs in B1. rewrite <- Emv in B2.
    rewrite B1 in Hlen. cbn [List.length] in Hlen.
    destruct T as [| [nI iI oI] tail]; [cbn [List.length] in Hlen; lia |].
    exists idx, off, nI, nI, iI, oI, tail.
    split; [| split; assumption].
    intros ->. cbn [List.length] in Hlen. lia. }
  destruct Hrel as [(tl & Ecs & Eb) | (items0 & it & ia & b0 & blk & b1 & tl
                                       & Ecs & Emv & Hic & Eb)].
  - apply (Hsame moved tl []); [exact Ecs | now rewrite app_nil_r | lia].
  - destruct (Z.le_gt_cases q (fragSize items0)) as [Hle | Hgt].
    + exact (Hsame items0 _ _ Ecs Emv Hle).
    + assert (Hit : positive items0).
      { rewrite Ecs in Hpos. apply positive_app in Hpos. tauto. }
      assert (Hb : positive (b0 ++ [blk])).
      { apply positive_app in Hic. destruct Hic as [Hb0 Hr].
        inversion Hr; subst. apply positive_app. split; [exact Hb0 |].
        constructor; [assumption | constructor]. }
      pose proof (fragSize_nonneg b1) as Hb1.
      assert (Hsz : fragSize (b0 ++ blk :: b1) = fragSize b0 + nodeSize blk + fragSize b1).
      { rewrite fragSize_app. cbn [fragSize]. lia. }
      assert (Hsz' : fragSize (b0 ++ [blk]) = fragSize b0 + nodeSize blk).
      { rewrite fragSize_app. cbn [fragSize]. lia. }
      replace q with (fragSize items0 + 1 + (q - fragSize items0 - 1)) in Hlen |- * by lia.
      rewrite Ecs, Emv in *.
      rewrite resolveLoop_inside in Hlen |- *;
        [| exact Hit | reflexivity | lia | rewrite contentSize_Elem; lia
         | exact Hit | reflexivity | lia | rewrite contentSize_Elem; lia].
      rewrite (@resolveLoop_inside lt la items0 (Elem it ia (b0 ++ [blk])) []);
        [| exact Hit | reflexivity | lia | rewrite contentSize_Elem; lia].
      cbn [List.length] in Hlen.
      assert (Hfull : b0 ++ blk :: b1 = (b0 ++ [blk]) ++ b1)
        by (now rewrite <- app_assoc).
      destruct (@resolveLoop_prefix it ia it ia (b0 ++ [blk]) b1 []
                  (st + fragSize items0 + 1) (q - fragSize items0 - 1) Hb
                  ltac:(lia) ltac:(lia))
        as (idx & off & T & B1 & B2).
      rewrite <- Hfull in B1. rewrite app_nil_r in B2.
      rewrite B1 in Hlen |- *. rewrite B2. cbn [List.length] in Hlen.
      eexists _, _, _, _, idx, off, T.
      split; [| split; reflexivity].
      intros ->. cbn [List.length] in Hlen. lia.
Qed.

(** ** Two paths that agree below the second level of a node

    The second path runs through two more levels and is moved by [k]
    positions. *)
Section Deeper.
Variables (p k : Z) (ctx ctx' : list Frame) (m m' : Node).
Variables (e0 e1 e0' e1' : PathEntry) (tail : list PathEntry).
Hypothesis Hlen : List.length ctx' = (List.length ctx + 2)%nat.
Hypothesis Hne : tail <> [].
Hypothesis Hoff : peOffset e1' = peOffset e1.

Local Abbreviation d := (List.length ctx).
Local Abbreviation r := (mkResolved p (ctxPath 0 ctx m ++ e0 :: e1 :: tail)).
Local Abbreviation r' :=
(mkResolved (p + k) (ctxPath 0 ctx' m' ++ map (shiftEntry k) (e0' :: e1' :: tail))).

Lemma deeper_depth_r : depth r = (d + 1 + List.length tail)%nat.
Proof. rewrite hole_depth. cbn [List.length]. lia. Qed.

Lemma deeper_depth : depth r' = (depth r + 2)%nat.
Proof.
rewrite deeper_depth_r. cbn [map]. rewrite hole_depth, Hlen.
cbn [List.length]. rewrite length_map. lia.
Qed.

Lemma deeper_entry x :
(2 <= x < 2 + List.length tail)%nat ->
entry r' (d + 2 + x) = shiftEntry k (entry r (d + x)).
Proof.
intros Hx. rewrite <- Hlen, !shape_entry_hole.
destruct x as [| [| j]]; [lia | lia |]. cbn [map nth].
rewrite (nth_indep _ noEntry (shiftEntry k noEntry)) by (rewrite length_map; lia).
apply map_nth.
Qed.

Lemma deeper_offset x :
(1 <= x < 2 + List.length tail)%nat ->
peOffset (entry r' (d + 2 + x)) = peOffset (entry r (d + x)) + k.
Proof.
intros Hx. destruct (Nat.eq_dec x 1) as [-> | Hn].
- rewrite <- Hlen, !shape_entry_hole. cbn [map nth shiftEntry peOffset].
  rewrite Hoff. reflexivity.
- rewrite deeper_entry by lia. reflexivity.
Qed.

Lemma deeper_node x :
(2 <= x < 2 + List.length tail)%nat -> node r' (d + 2 + x) = node r (d + x).
Proof. intros Hx. unfold node. rewrite deeper_entry by exact Hx. reflexivity. Qed.

Lemma deeper_top : node r' (d + 2) = peNode e0'.
Proof.
unfold node. rewrite <- Hlen.
pose proof (shape_entry_hole (p + k) ctx' m' (map (shiftEntry k) (e0' :: e1' :: tail)) 0)
  as H.
rewrite Nat.add_0_r in H. rewrite H. reflexivity.
Qed.

Lemma deeper_parent : parent r' = parent r.
Proof.
assert (Ht : (1 <= List.length tail)%nat)
  by (destruct tail; [congruence | cbn [List.length]; lia]).
unfold parent. rewrite deeper_depth, deeper_depth_r.
replace (d + 1 + List.length tail + 2)%nat
  with (d + 2 + (1 + List.length tail))%nat by lia.
replace (d + 1 + List.length tail)%nat with (d + (1 + List.length tail))%nat by lia.
apply deeper_node. lia.
Qed.

Lemma deeper_textOffset : textOffset r' = textOffset r.
Proof.
assert (Ht : (1 <= List.length tail)%nat)
  by (destruct tail; [congruence | cbn [List.length]; lia]).
unfold textOffset. rewrite deeper_depth, deeper_depth_r. cbn [pos].
replace (d + 1 + List.length tail + 2)%nat
  with (d + 2 + (1 + List.length tail))%nat by lia.
replace (d + 1 + List.length tail)%nat with (d + (1 + List.length tail))%nat by lia.
rewrite deeper_offset by lia. lia.
Qed.

Lemma deeper_parentOffset : parentOffset r' = parentOffset r.
Proof.
assert (Ht : (1 <= List.length tail)%nat)
  by (destruct tail; [congruence | cbn [List.length]; lia]).
unfold parentOffset. rewrite deeper_depth, deeper_depth_r. cbn [pos].
replace (d + 1 + List.length tail + 2)%nat
  with (S (d + 2 + List.length tail)) by lia.
replace (d + 1 + List.length tail)%nat with (S (d + List.length tail)) by lia.
cbn [start]. rewrite deeper_offset by lia. lia.
Qed.

End Deeper.

(** ** The end of the selection and the selected slice *)

(** [sliceSelectedItems] on the range of a selection that ends inside a
    block of an item, and where the selection ends: not behind the end of
    that block. *)
Lemma sliceSelectedItems_deep_end sch d from to rfrom rto range ctx lt la cs :
  RangeShape sch d from to rfrom rto range ctx lt la cs ->
  (rDepth range + 2 <= depth rto)%nat ->
  exists items0 it ia b0 blk b1,
    firstn (endIndex range - startIndex range) (skipn (startIndex range) cs)
    = items0 ++ [Elem it ia (b0 ++ blk :: b1)]
    /\ sliceSelectedItems d rto range
       = Ok (mkSlice (items0 ++ [Elem it ia (b0 ++ [blk])]) 0 2, Some (mkSlice b1 0 0))
    /\ to <= rStart range + fragSize items0 + fragSize b0 + nodeSize blk.
Proof.
  intros Sh Hdeep.
  pose proof (rs_pto Sh) as Hrto. pose proof (rs_depth Sh) as Hdep.
  pose proof (rs_idx Sh) as Hix. pose proof (rs_hi Sh) as Hhi0.
  pose proof (rs_start Sh) as Hs. pose proof (rs_end Sh) as He.
  pose proof (rs_normal Sh) as Hnorm. pose proof (rs_ctx Sh) as Hctx.
  assert (Hpos : positive cs).
  { apply normals_positive. exact (@normal_children _ _ _ Hnorm). }
  (* the path of [$to] has three levels below the context *)
  assert (Hlen : (3 <= List.length (resolveLoop (Elem lt la cs) (ctxStart 0 ctx)
                                      (to - ctxStart 0 ctx)))%nat).
  { rewrite Hrto in Hdeep. unfold depth in Hdeep. cbn [path] in Hdeep.
    rewrite length_app, ctxPath_length in Hdeep. lia. }
  assert (Hq0 : 0 <= to - ctxStart 0 ctx).
  { destruct (Z.ltb_spec (to - ctxStart 0 ctx) 0) as [Hneg | Hok]; [| exact Hok].
    exfalso. rewrite resolveLoop_Elem in Hlen. unfold findIndex in Hlen.
    destruct (Z.ltb_spec (to - ctxStart 0 ctx) 0); [| lia].
    cbn [List.length] in Hlen. lia. }
  destruct (@resolveLoop_cases lt la cs (ctxStart 0 ctx) _ Hq0 ltac:(lia))
    as (idx & Hidx & [(_ & Hr) | [(_ & ch & _ & _ & _ & Hr)
                                 | (Hlo & ch & Hch & Hhi & Hnt & Hr)]]);
    [rewrite Hr in Hlen; cbn [List.length] in Hlen; lia
    | rewrite Hr in Hlen; cbn [List.length] in Hlen; lia |].
  destruct ch as [tx | it ia ic]; [discriminate |].
  rewrite (nodeSize_Elem it) in Hhi.
  rewrite Hr in Hlen. cbn [List.length] in Hlen.
  destruct (@resolveLoop_cases it ia ic (ctxStart 0 ctx + fragSize (firstn idx cs) + 1)
              (to - ctxStart 0 ctx - fragSize (firstn idx cs) - 1) ltac:(lia) ltac:(lia))
    as (bi & Hbi & [(_ & Hr2) | [(_ & bk & _ & _ & _ & Hr2)
                                | (Hlo2 & bk & Hbk & Hhi2 & Hnt2 & Hr2)]]);
    [rewrite Hr2 in Hlen; cbn [List.length] in Hlen; lia
    | rewrite Hr2 in Hlen; cbn [List.length] in Hlen; lia |].
  destruct bk as [tx | bt ba bc]; [discriminate |].
  rewrite (nodeSize_Elem bt) in Hhi2.
  destruct (resolveLoop (Elem bt ba bc)
              (ctxStart 0 ctx + fragSize (firstn idx cs) + 1 + fragSize (firstn bi ic) + 1)
              (to - ctxStart 0 ctx - fragSize (firstn idx cs) - 1
               - fragSize (firstn bi ic) - 1)) as [| e3 tail] eqn:E3.
  { exfalso. revert E3. apply resolveLoop_nonempty; [reflexivity | lia |].
    rewrite contentSize_Elem. lia. }
  pose proof (resolveLoop_head _ _ _ E3) as He3.
  rewrite Hr2 in Hr. clear Hr2.
  rewrite Hr in Hrto. clear Hr.
  (* the indices of the range *)
  assert (Hei : endIndex range = (idx + 1)%nat).
  { unfold endIndex. rewrite (rs_to Sh), Hrto, <- Hdep, hole_indexAfter.
    reflexivity. }
  assert (Hsi : (startIndex range <= idx)%nat) by lia.
  destruct (run_split cs Hsi) as [_ Hfi].
  pose proof (firstn_S_nth _ _ Hch) as HfS.
  pose proof (nth_error_split_firstn _ _ Hch) as Hcs.
  pose proof (nth_error_split_firstn _ _ Hbk) as Hic.
  assert (Hitems : firstn (endIndex range - startIndex range) (skipn (startIndex range) cs)
                   = firstn (idx - startIndex range) (skipn (startIndex range) cs)
                     ++ [Elem it ia ic]).
  { destruct (@run_split _ cs (startIndex range) (endIndex range) ltac:(lia)) as [_ Hfe].
    rewrite Hei in Hfe at 1. rewrite Nat.add_1_r, HfS, Hfi, <- app_assoc in Hfe.
    apply app_inv_head in Hfe. symmetry. exact Hfe. }
  assert (HeS : fragSize (firstn (endIndex range) cs)
                = fragSize (firstn idx cs) + nodeSize (Elem it ia ic)).
  { rewrite Hei, Nat.add_1_r. apply fragSize_firstn_S. exact Hch. }
  assert (Hfi' : fragSize (firstn idx cs)
                 = fragSize (firstn (startIndex range) cs)
                   + fragSize (firstn (idx - startIndex range)
                                 (skipn (startIndex range) cs)))
    by (rewrite Hfi, fragSize_app; reflexivity).
  (* the accessors of [$to] *)
  assert (Hnode : node rto (rDepth range + 2) = Elem bt ba bc).
  { rewrite Hrto, <- Hdep. unfold node.
    replace (List.length ctx + 2)%nat with (List.length ctx + S 1)%nat by lia.
    rewrite hole_entry_S. cbn [nth]. exact He3. }
  assert (Hentry : entry rto (rDepth range + 1)
                   = mkEntry (Elem it ia ic) bi
                       (ctxStart 0 ctx + fragSize (firstn idx cs) + 1
                        + fragSize (firstn bi ic))).
  { rewrite Hrto, <- Hdep.
    replace (List.length ctx + 1)%nat with (List.length ctx + S 0)%nat by lia.
    rewrite hole_entry_S. reflexivity. }
  assert (Hend : end_ rto (rDepth range + 2)
                 = ctxStart 0 ctx + fragSize (firstn idx cs) + 1
                   + fragSize (firstn bi ic) + 1 + fragSize bc).
  { unfold end_. rewrite Hnode, contentSize_Elem.
    replace (rDepth range + 2)%nat with (S (rDepth range + 1)) by lia.
    cbn [start]. rewrite Hentry. cbn [peOffset]. reflexivity. }
  exists (firstn (idx - startIndex range) (skipn (startIndex range) cs)),
    it, ia, (firstn bi ic), (Elem bt ba bc), (skipn (S bi) ic).
  rewrite <- Hic.
  split; [exact Hitems |].
  split; [| rewrite (nodeSize_Elem bt), Hs; lia].
  rewrite (rs_doc Sh).
  rewrite Hcs at 1. rewrite Hfi, <- app_assoc. rewrite Hic at 1.
  apply sliceSelectedItems_at.
  - exact Hctx.
  - rewrite <- Hic, app_assoc, <- Hfi, <- Hcs. exact Hnorm.
  - exact Hs.
  - rewrite <- Hic, He, HeS, Hfi'. lia.
  - exact Hdeep.
  - rewrite Hend, Hfi'. lia.
Qed.

(** The selected slice against the selected list: whole items, or whole
    items and the last item cut behind the block of [$to]; the selection
    ends inside the slice. *)
Lemma selected_slice sch d from to rfrom rto range ctx lt la cs sel unsel :
  RangeShape sch d from to rfrom rto range ctx lt la cs ->
  startIndex range = 0%nat ->
  sliceSelectedItems d rto range = Ok (sel, unsel) ->
  ((exists tl, cs = sContent sel ++ tl /\ sliceSize sel = fragSize (sContent sel))
   \/ (exists items0 it ia b0 blk b1 tl,
         cs = items0 ++ Elem it ia (b0 ++ blk :: b1) :: tl
         /\ sContent sel = items0 ++ [Elem it ia (b0 ++ [blk])]
         /\ positive (b0 ++ blk :: b1)
         /\ sliceSize sel = fragSize items0 + fragSize b0 + nodeSize blk))
  /\ to <= rStart range + sliceSize sel
  /\ 0 <= sliceSize sel <= fragSize (sContent sel)
  /\ sliceSize sel <= fragSize cs.
Proof.
  intros Sh H0 Hsl.
  pose proof (rs_idx Sh) as Hix. pose proof (rs_end Sh) as He.
  pose proof (rs_start Sh) as Hs. pose proof (rs_to_in Sh) as Hto.
  pose proof (@normal_children _ _ _ (rs_normal Sh)) as Hcs.
  rewrite H0 in Hs. cbn [firstn fragSize] in Hs. rewrite Z.add_0_r in Hs.
  pose proof (firstn_skipn (endIndex range) cs) as Hsplit.
  pose proof (fragSize_firstn_le cs (endIndex range)) as Hle.
  destruct (Nat.leb_spec (rDepth range + 2) (depth rto)) as [Hdeep | Hshallow].
  - destruct (sliceSelectedItems_deep_end Sh Hdeep)
      as (items0 & it & ia & b0 & blk & b1 & H1 & H5 & Hb).
    rewrite H0, Nat.sub_0_r in H1. cbn [skipn] in H1.
    rewrite Hsl in H5. injection H5 as Hsel _. subst sel.
    assert (Ecs : cs = items0 ++ Elem it ia (b0 ++ blk :: b1)
                         :: skipn (endIndex range) cs).
    { rewrite <- Hsplit at 1. rewrite H1, <- app_assoc. reflexivity. }
    assert (Hsz : sliceSize (mkSlice (items0 ++ [Elem it ia (b0 ++ [blk])]) 0 2)
                  = fragSize items0 + fragSize b0 + nodeSize blk).
    { unfold sliceSize. cbn [sContent openStart openEnd].
      rewrite fragSize_app. cbn [fragSize]. rewrite nodeSize_Elem, fragSize_app.
      cbn [fragSize]. lia. }
    assert (Hfi : fragSize (firstn (endIndex range) cs)
                  = fragSize items0 + (2 + (fragSize b0 + nodeSize blk + fragSize b1))).
    { rewrite H1, fragSize_app. cbn [fragSize]. rewrite nodeSize_Elem, fragSize_app.
      cbn [fragSize]. lia. }
    pose proof (fragSize_nonneg items0). pose proof (fragSize_nonneg b0).
    pose proof (fragSize_nonneg b1). pose proof (nodeSize_nonneg blk).
    split; [| split; [| split]].
    + right. exists items0, it, ia, b0, blk, b1, (skipn (endIndex range) cs).
      split; [exact Ecs |]. split; [reflexivity |]. split; [| exact Hsz].
      assert (Hn : normal (Elem it ia (b0 ++ blk :: b1)) = true).
      { apply (normals_In _ _ Hcs). rewrite Ecs. apply in_or_app. right. left.
        reflexivity. }
      exact (normals_positive _ (@normal_children _ _ _ Hn)).
    + rewrite Hsz. lia.
    + rewrite Hsz. cbn [sContent]. rewrite fragSize_app. cbn [fragSize].
      rewrite nodeSize_Elem, fragSize_app. cbn [fragSize]. lia.
    + rewrite Hsz. lia.
  - pose proof (sliceSelectedItems_shallow Sh Hshallow) as H5.
    rewrite H0, Nat.sub_0_r in H5. cbn [skipn] in H5.
    rewrite Hsl in H5. injection H5 as Hsel _. subst sel.
    assert (Hsz : sliceSize (mkSlice (firstn (endIndex range) cs) 0 0)
                  = fragSize (firstn (endIndex range) cs)).
    { unfold sliceSize. cbn [sContent openStart openEnd]. lia. }
    pose proof (fragSize_nonneg (firstn (endIndex range) cs)).
    split; [| split; [| split]].
    + left. exists (skipn (endIndex range) cs). cbn [sContent].
      split; [symmetry; exact Hsplit | exact Hsz].
    + rewrite Hsz. lia.
    + rewrite Hsz. cbn [sContent]. lia.
    + rewrite Hsz. lia.
Qed.

(** ** The second branch: a position of the selected slice, two positions
    earlier in the new document *)

Lemma across_cursor sch tr tr' l ctx ft fa fl plt pla pis pit pia pic lt la cs fr :
  AcrossShape sch tr l ctx ft fa fl plt pla pis pit pia pic lt la cs fr ->
  located sch tr = Some l ->
  sameType l = false ->
  indentList sch tr = Returned true tr' ->
  exists sel unsel,
    sliceSelectedItems (doc tr) (lTo l) (lRange l) = Ok (sel, unsel)
    /\ selTo tr <= rStart (lRange l) + sliceSize sel
    /\ forall p r,
         rStart (lRange l) <= p <= rStart (lRange l) + sliceSize sel ->
         resolve (doc tr) p = Some r ->
         (rDepth (lRange l) + 2 <= depth r)%nat ->
         exists r',
           resolve (doc tr') (p - 2) = Some r'
           /\ depth r' = (depth r + 2)%nat
           /\ parent r' = parent r
           /\ parentOffset r' = parentOffset r
           /\ textOffset r' = textOffset r
           /\ node r' (rDepth (lRange l) + 1)
              = copy (Elem pit pia pic)
                  (newPreviousItemContent (Elem pit pia pic) (Elem lt la cs) sel unsel)
           /\ node r' (rDepth (lRange l) + 2) = Elem lt la (sContent sel)
           /\ forall x, (rDepth (lRange l) + 2 <= x <= depth r)%nat ->
                        node r' (x + 2) = node r x.
Proof.
  intros Sh Hl Hty E.
  destruct (across_result Sh Hl Hty E) as (sel & unsel & rest & Hsl & Hd' & _).
  pose proof (ac_range Sh) as Rs. pose proof (ac_first Sh) as H0.
  pose proof (rs_doc Rs) as Hdoc. pose proof (rs_depth Rs) as Hdep.
  pose proof (rs_ctx Rs) as HC. pose proof (rs_start Rs) as Hs.
  rewrite H0 in Hs. cbn [firstn fragSize] in Hs. rewrite Z.add_0_r in Hs.
  pose proof (@normal_children _ _ _ (rs_normal Rs)) as Hcs.
  pose proof (normals_positive _ Hcs) as Hpos.
  destruct (selected_slice Rs H0 Hsl) as (Hrel & Hto & Hb0 & Hb1).
  exists sel, unsel. split; [exact Hsl |]. split; [exact Hto |].
  (* the positive runs in front of the new nested list *)
  pose proof (@normal_children _ _ _ (ac_parent Sh)) as Hpcs.
  assert (HPLn : normal (Elem plt pla (pis ++ [Elem pit pia pic])) = true).
  { apply (normals_In _ _ Hpcs). apply in_or_app. right. left. reflexivity. }
  pose proof (@normal_children _ _ _ HPLn) as Hplc.
  assert (HPIn : normal (Elem pit pia pic) = true).
  { apply (normals_In _ _ Hplc). apply in_or_app. right. left. reflexivity. }
  assert (Hfl : positive fl).
  { apply normals_positive in Hpcs. apply positive_app in Hpcs. tauto. }
  assert (Hpis : positive pis).
  { apply normals_positive in Hplc. apply positive_app in Hplc. tauto. }
  pose proof (normals_positive _ (@normal_children _ _ _ HPIn)) as Hpic.
  (* the new document, as the new nested list in its context *)
  set (trailing := match unsel with Some u => sContent u | None => [] end).
  assert (Hnew : newPreviousItemContent (Elem pit pia pic) (Elem lt la cs) sel unsel
                 = pic ++ Elem lt la (sContent sel) :: trailing).
  { unfold newPreviousItemContent. cbn [copy contentOf].
    rewrite append_single_elem by reflexivity.
    rewrite append_snoc_nonText by reflexivity. reflexivity. }
  set (C := ctx ++ [mkFrame ft fa (fl ++ [Elem plt pla (pis ++ [Elem pit pia pic])]) fr])
    in *.
  set (C' := ctx ++ [mkFrame ft fa fl (rest ++ fr); mkFrame plt pla pis [];
                     mkFrame pit pia pic trailing]).
  assert (Hdoc' : doc tr' = plug C' (Elem lt la (sContent sel))).
  { rewrite Hd', Hnew. unfold C'. rewrite plug_app. cbn [plug copy]. unfold fill.
    cbn [fType fAttrs fLeft fRight]. reflexivity. }
  assert (HC' : ctxPositive C').
  { unfold C', ctxPositive. apply Forall_app. split; [exact (ac_ctx Sh) |].
    repeat constructor; cbn [fLeft]; assumption. }
  assert (HlenC : List.length C' = (List.length C + 2)%nat).
  { unfold C, C'. rewrite !length_app. cbn [List.length]. lia. }
  assert (HS : ctxStart 0 C' = ctxStart 0 C + -2).
  { unfold C, C'. rewrite ctxStart_snoc, ctxStart_app. cbn [ctxStart fLeft].
    rewrite fragSize_app. cbn [fragSize]. rewrite nodeSize_Elem, fragSize_app.
    cbn [fragSize]. rewrite nodeSize_Elem. lia. }
  pose proof (ctxStart_ge 0 C') as HgeC'.
  pose proof (@ctxStart_contentSize C (Elem lt la cs) 0 eq_refl) as Hsz.
  pose proof (@ctxStart_contentSize C' (Elem lt la (sContent sel)) 0 eq_refl) as Hsz'.
  rewrite contentSize_Elem in Hsz, Hsz'. rewrite <- Hdoc in Hsz. rewrite <- Hdoc' in Hsz'.
  intros p r Hp Hr Hdeep.
  (* the path before the run *)
  rewrite resolve_ok in Hr by lia. injection Hr as Hr.
  pose proof (@resolveLoop_plug C (Elem lt la cs) 0 (p - ctxStart 0 C) HC eq_refl) as Rold.
  rewrite contentSize_Elem in Rold.
  replace (ctxStart 0 C - 0 + (p - ctxStart 0 C)) with p in Rold by lia.
  rewrite <- Hdoc in Rold. rewrite Rold in Hr by lia.
  assert (Hlen : (3 <= List.length (resolveLoop (Elem lt la cs) (ctxStart 0 C)
                                      (p - ctxStart 0 C)))%nat).
  { rewrite <- Hr in Hdeep. unfold depth in Hdeep. cbn [path] in Hdeep.
    rewrite length_app, ctxPath_length in Hdeep. lia. }
  destruct (@moved_paths lt la cs (sContent sel) (ctxStart 0 C) (p - ctxStart 0 C)
              (sliceSize sel) Hpos Hrel ltac:(lia) ltac:(lia) Hlen)
    as (iL & oL & nI & nI' & iI & oI & tail & Hne & Eold & Enew).
  rewrite Eold in Hr.
  (* the path after the run *)
  pose proof (@resolveLoop_plug C' (Elem lt la (sContent sel)) 0 (p - ctxStart 0 C)
                HC' eq_refl) as Rnew.
  rewrite contentSize_Elem in Rnew.
  replace (ctxStart 0 C' - 0 + (p - ctxStart 0 C)) with (p - 2) in Rnew by lia.
  rewrite <- Hdoc' in Rnew. rewrite HS, resolveLoop_shift, Enew in Rnew.
  exists (mkResolved (p + -2)
            (ctxPath 0 C' (Elem lt la (sContent sel))
             ++ map (shiftEntry (-2))
                  (mkEntry (Elem lt la (sContent sel)) iL oL :: mkEntry nI' iI oI :: tail))).
  split.
  { rewrite resolve_ok by lia. rewrite Rnew by lia.
    replace (p - 2) with (p + -2) by lia. reflexivity. }
  subst r.
  assert (Hd1 : depth (mkResolved p
                         (ctxPath 0 C (Elem lt la cs)
                          ++ mkEntry (Elem lt la cs) iL oL :: mkEntry nI iI oI :: tail))
                = (List.length C + 1 + List.length tail)%nat)
    by (rewrite hole_depth; cbn [List.length]; lia).
  split; [apply deeper_depth; exact HlenC |].
  split; [apply deeper_parent; [exact HlenC | exact Hne] |].
  split; [apply deeper_parentOffset; [exact HlenC | exact Hne | reflexivity] |].
  split; [apply deeper_textOffset; [exact HlenC | exact Hne | reflexivity] |].
  split.
  { rewrite shape_node_ctx by lia. rewrite <- Hdep, Hnew.
    unfold C' at 1. unfold C.
    rewrite length_app. cbn [List.length].
    rewrite skipn_app, skipn_all2 by lia.
    replace (List.length ctx + 1 + 1 - List.length ctx)%nat with 2%nat by lia.
    cbn [skipn app plug copy]. unfold fill. cbn [fType fAttrs fLeft fRight].
    reflexivity. }
  split.
  { rewrite <- Hdep.
    erewrite deeper_top; [reflexivity | exact HlenC]. }
  intros x Hx. rewrite Hd1 in Hx. rewrite <- Hdep in Hx.
  replace (x + 2)%nat with (List.length C + 2 + (x - List.length C))%nat by lia.
  replace x with (List.length C + (x - List.length C))%nat at 2 by lia.
  apply deeper_node; [exact HlenC | lia].
Qed.

(** ** The first branch: a position inside the selected items, in the new
    document *)

Lemma wrapped_cursor sch tr tr' l p r :
  wellFormed sch (doc tr) = true ->
  located sch tr = Some l ->
  sameType l = true ->
  indentList sch tr = Returned true tr' ->
  rStart (lRange l) <= p <= rEnd (lRange l) ->
  resolve (doc tr) p = Some r ->
  (rDepth (lRange l) < depth r)%nat ->
  exists r',
    resolve (doc tr') p = Some r'
    /\ depth r' = (depth r + 2)%nat
    /\ parent r' = parent r
    /\ parentOffset r' = parentOffset r
    /\ textOffset r' = textOffset r
    /\ forall x, (rDepth (lRange l) < x <= depth r)%nat -> node r' (x + 2) = node r x.
Proof.
  intros Hwf Hl Hty E Hp Hr Hd.
  destruct (@indentList_wrapped sch tr tr' l Hwf Hl Hty E)
    as (ctx & lt & la & pre & pt & pa & pc & post & W).
  pose proof (@normal_children _ _ _ (wr_normal W)) as Hcs.
  pose proof (normals_positive _ Hcs) as Hpos.
  assert (Hpc : positive pc).
  { assert (Hn : normal (Elem pt pa pc) = true).
    { apply (normals_In _ _ Hcs). apply in_or_app. right. left. reflexivity. }
    exact (normals_positive _ (@normal_children _ _ _ Hn)). }
  pose proof (wr_start W) as Hs. pose proof (wr_end W) as He.
  destruct (@window_paths ctx lt la pre pt pa pc (selectedItems l) post
              (wr_ctx W) Hpos Hpc p ltac:(lia) ltac:(lia))
    as (idx & off & tail & _ & _ & Hold & Hnew).
  rewrite (wr_doc W), Hold in Hr. injection Hr as <-.
  rewrite levels_depth_r, <- (wr_depth W) in Hd.
  assert (Htail : tail <> []).
  { intros Hnil. rewrite Hnil in Hd. cbn [List.length] in Hd. lia. }
  eexists. rewrite (wr_tr W). cbn [doc]. split; [exact Hnew |].
  match goal with
  | |- depth ?a = (depth ?b + 2)%nat /\ _ =>
      assert (Hdep : depth a = (depth b + 2)%nat) by apply levels_depth
  end.
  split; [exact Hdep |]. split; [apply levels_parent; exact Htail |].
  split.
  { unfold parentOffset. rewrite Hdep, levels_depth_r. cbn [pos]. f_equal.
    replace (List.length ctx + List.length tail + 2)%nat
      with (List.length ctx + 2 + List.length tail)%nat by lia.
    apply levels_start; [reflexivity |].
    destruct tail; [contradiction | cbn [List.length]; lia]. }
  split; [apply levels_textOffset; reflexivity |].
  intros x Hx. rewrite levels_depth_r, <- (wr_depth W) in Hx.
  replace (x + 2)%nat with (List.length ctx + 2 + (x - List.length ctx))%nat by lia.
  replace x with (List.length ctx + (x - List.length ctx))%nat at 2 by lia.
  apply levels_node. lia.
Qed.

End CursorFacts.

(* ================================================================== *)
(** * The claims about the outcome of a run *)
(* ================================================================== *)

Module Claims.
Import Model Resolve Replace Transform Context Indent Dedent Setup Shapes Statements Runs.
Import RunShapes.
Import ModelFacts ResolveFacts PathFacts RangeFacts FragmentFacts ReplaceFacts.
Import SameListFacts IndentFacts FlatFacts RunFacts MapFacts.
Import AcrossFacts CheckFacts LocatedFacts SchemaFacts RebuildRun TokenFacts.
Import WindowFacts RoundTripFacts.
Import Branches Examples BranchFacts AcrossRun SliceFacts AcrossResult EdgeFacts CursorFacts.

(** C1: for the three-item list with the cursor at the start of "item 2"
    (position 13), for each of the four list kinds of the tests (ordered,
    unordered, task list with checked items, task list with unchecked
    items), [indentList] returns [true]; the document becomes
    List[Item("item 1", List[Item("item 2")]), Item("item 3")] with a nested
    list of the same kind, by one step; and the cursor is still at offset 0
    of the paragraph of item 2. *)
Theorem indent_second_item (k : ListKind) :
  indentList listSchema (secondItemRun k) = Returned true (secondItemResult k)
  /\ cursorAt (doc (secondItemRun k)) (anchor (secondItemRun k))
     = Some (itemOf k [p "item 2"], p "item 2", 0)
  /\ cursorAt (doc (secondItemResult k)) (anchor (secondItemResult k))
     = Some (itemOf k [p "item 2"], p "item 2", 0).
Proof. destruct k; vm_compute; repeat split; reflexivity. Qed.

(** The start of an item range of a well-formed document resolves. *)
Lemma range_start_resolves sch d from to rfrom rto range :
  wellFormed sch d = true ->
  resolve d from = Some rfrom -> resolve d to = Some rto -> from <= to ->
  calculateItemRange sch rfrom rto = Some range ->
  exists rs, resolve d (rStart range) = Some rs.
Proof.
  intros Hwf Hrf Hrt Hle Hcalc.
  destruct (@range_shape sch d from to rfrom rto range Hwf Hrf Hrt Hle Hcalc)
    as (ctx & lt & la & cs & S).
  pose proof (rs_idx S). rewrite (rs_start S), (rs_doc S). eexists.
  apply resolve_list_boundary; [exact (rs_ctx S) | | lia].
  apply positive_firstn, normals_positive. exact (@normal_children _ _ _ (rs_normal S)).
Qed.

(** C3: when the selection resolves but has no item range, and when its
    item range starts at the first item of a list that has no previous
    sibling, or whose previous sibling is not a list, [indentList] returns
    [false] and hands back the transaction as it was: the same document, no
    step added. *)
Theorem indentList_nothing_to_indent sch tr rfrom rto :
  wellFormed sch (doc tr) = true ->
  resolve (doc tr) (selFrom tr) = Some rfrom ->
  resolve (doc tr) (selTo tr) = Some rto ->
  (calculateItemRange sch rfrom rto = None \/
   exists range, calculateItemRange sch rfrom rto = Some range
                 /\ noPreviousSibling sch rfrom range) ->
  indentList sch tr = Returned false tr.
Proof.
  intros Hwf Hrf Hrt [Hnone | (range & Hcalc & Hidx & Hprev)].
  - unfold indentList. rewrite Hrf, Hrt, Hnone. reflexivity.
  - destruct (@range_start_resolves sch (doc tr) _ _ rfrom rto range Hwf Hrf Hrt
                (sel_min_max tr) Hcalc) as (rs & Hrs).
    unfold indentList. rewrite Hrf, Hrt, Hcalc, Hrs. cbv zeta.
    destruct (isListNode sch (parent rs)); cbn [negb]; [| reflexivity].
    unfold findPreviousItem. rewrite Hidx. change (1 <=? 0)%nat with false.
    cbv iota zeta in Hprev |- *.
    destruct Hprev as [H0 | (pl & Hpl & Hnl)].
    + rewrite H0. reflexivity.
    + destruct (1 <=? index rfrom
        (resolveDepth rfrom (Z.of_nat (rDepth range) - 1)))%nat; [| reflexivity].
      unfold child. rewrite Hpl, Hnl. reflexivity.
Qed.

Lemma indentList_nothing_to_indent_witness :
  (indentList listSchema (startTr (threeItems OrderedList) 3 3)
   = Returned false (startTr (threeItems OrderedList) 3 3)
   /\ indentList listSchema (startTr (threeItems UnorderedList) 3 3)
      = Returned false (startTr (threeItems UnorderedList) 3 3))
  /\ (indentList listSchema (startTr (threeItems TaskListChecked) 3 3)
      = Returned false (startTr (threeItems TaskListChecked) 3 3)
      /\ indentList listSchema (startTr (threeItems TaskListUnchecked) 3 3)
         = Returned false (startTr (threeItems TaskListUnchecked) 3 3))
  /\ indentList listSchema (startTr paragraphThenList 6 6)
     = Returned false (startTr paragraphThenList 6 6)
  /\ indentList listSchema (startTr (docN [p "x"]) 1 1)
     = Returned false (startTr (docN [p "x"]) 1 1).
Proof.
  assert (first : forall k,
    indentList listSchema (startTr (threeItems k) 3 3)
    = Returned false (startTr (threeItems k) 3 3)).
  { intros k.
    apply (@indentList_nothing_to_indent listSchema (startTr (threeItems k) 3 3)
             (resolvedAt (threeItems k) 3) (resolvedAt (threeItems k) 3)).
    - destruct k; reflexivity.
    - destruct k; reflexivity.
    - destruct k; reflexivity.
    - right. exists (itemRangeAt listSchema (threeItems k) 3 3).
      split; [destruct k; reflexivity |].
      split; [destruct k; reflexivity |]. left. destruct k; reflexivity. }
  split; [split; apply first |]. split; [split; apply first |]. split.
  - apply (@indentList_nothing_to_indent listSchema (startTr paragraphThenList 6 6)
             (resolvedAt paragraphThenList 6) (resolvedAt paragraphThenList 6));
      try reflexivity.
    right. exists (itemRangeAt listSchema paragraphThenList 6 6).
    split; [reflexivity |]. split; [reflexivity |].
    right. exists (p "x"). split; reflexivity.
  - apply (@indentList_nothing_to_indent listSchema (startTr (docN [p "x"]) 1 1)
             (resolvedAt (docN [p "x"]) 1) (resolvedAt (docN [p "x"]) 1));
      try reflexivity.
    left. reflexivity.
Defined.

(** C5: for a run of [indentList] that returns [true], the composition of
    the position maps of the steps that the run added keeps the order of any
    two positions: [p1 < p2] gives [map p1 <= map p2]. *)
Theorem indent_mapping_monotone sch tr tr' p1 p2 :
  indentList sch tr = Returned true tr' ->
  p1 < p2 ->
  mappingMap (map getMap (emitted tr tr')) p1
  <= mappingMap (map getMap (emitted tr tr')) p2.
Proof.
  intros E Hlt. apply indentList_adds, adds_emitted in E.
  apply mappingMap_weakly; [| lia].
  apply Forall_map. exact E.
Qed.

Lemma indent_mapping_monotone_witness :
  mappingMap (map getMap (emitted (secondItemRun UnorderedList)
                            (secondItemResult UnorderedList))) 19
  <= mappingMap (map getMap (emitted (secondItemRun UnorderedList)
                               (secondItemResult UnorderedList))) 21.
Proof.
  apply (@indent_mapping_monotone listSchema (secondItemRun UnorderedList)
           (secondItemResult UnorderedList) 19 21).
  - reflexivity.
  - reflexivity.
Defined.

(** C6: [findPreviousItem].  When the start index of the range is at least
    1 it returns the child of the selected list just before the range (with
    the selected list as its list).  When the start index is 0 and the
    list has a previous sibling that is a list whose last child is a list
    item, it returns that last child (with the sibling as its list).  When
    the start index is 0 and there is no previous sibling, or the previous
    sibling is not a list, or its last child is not a list item, it returns
    [false]. *)
Theorem findPreviousItem_cases sch selectedList rfrom range :
  (forall item rs,
     (1 <= startIndex range)%nat ->
     nth_error (contentOf selectedList) (startIndex range - 1) = Some item ->
     resolve (node rfrom 0) (rStart range) = Some rs ->
     findPreviousItem sch selectedList rfrom range
     = Ok (Some (mkPrevious item selectedList
                   (start rs (rDepth range) + 1
                    + fragSize (firstn (startIndex range - 1) (contentOf selectedList)))
                   (start rs (rDepth range)) true)))
  /\ (forall prevList item,
        startIndex range = 0%nat ->
        let d1 := resolveDepth rfrom (Z.of_nat (rDepth range) - 1) in
        let listParent := node rfrom d1 in
        let prevListStart :=
          start rfrom d1 + 1 + fragSize (firstn (index rfrom d1 - 1) (contentOf listParent)) in
        (1 <= index rfrom d1)%nat ->
        nth_error (contentOf listParent) (index rfrom d1 - 1) = Some prevList ->
        isListNode sch prevList = true ->
        nth_error (contentOf prevList) (childCount prevList - 1) = Some item ->
        isListItemNode sch item = true ->
        findPreviousItem sch selectedList rfrom range
        = Ok (Some (mkPrevious item prevList
                      (prevListStart + nodeSize prevList - nodeSize item - 1)
                      prevListStart false)))
  /\ (startIndex range = 0%nat ->
      let d1 := resolveDepth rfrom (Z.of_nat (rDepth range) - 1) in
      let listParent := node rfrom d1 in
      (index rfrom d1 = 0%nat
       \/ exists prevList,
            nth_error (contentOf listParent) (index rfrom d1 - 1) = Some prevList
            /\ (isListNode sch prevList = false
                \/ exists item,
                     nth_error (contentOf prevList) (childCount prevList - 1) = Some item
                     /\ isListItemNode sch item = false)) ->
      findPreviousItem sch selectedList rfrom range = Ok None).
Proof.
  assert (Hsizes : forall n k x acc,
    nth_error (contentOf n) k = Some x ->
    addSizes n k acc = Ok (acc + fragSize (firstn k (contentOf n)))).
  { intros n k x acc Hx. destruct n as [s | t a c].
    - destruct k; discriminate.
    - cbn [contentOf] in *. apply addSizes_ok.
      apply Nat.lt_le_incl, nth_error_Some. congruence. }
  split; [| split].
  - intros item rs Hge Hitem Hrs. unfold findPreviousItem.
    destruct (Nat.leb_spec 1 (startIndex range)); [| lia].
    unfold child. rewrite Hitem, Hrs. cbv zeta.
    rewrite (Hsizes _ _ _ _ Hitem). reflexivity.
  - intros prevList item H0 d1 listParent prevListStart Hge Hprev Hlist Hitem Hli.
    unfold findPreviousItem. rewrite H0. change (1 <=? 0)%nat with false.
    cbv iota zeta. fold d1. fold listParent.
    destruct (Nat.leb_spec 1 (index rfrom d1)); [| lia].
    unfold child. rewrite Hprev, Hlist. cbn [negb].
    rewrite (Hsizes _ _ _ _ Hprev), Hitem, Hli. reflexivity.
  - intros H0 d1 listParent Hcases.
    unfold findPreviousItem. rewrite H0. change (1 <=? 0)%nat with false.
    cbv iota zeta. fold d1. fold listParent.
    destruct Hcases as [Hi | (prevList & Hprev & [Hnl | (item & Hitem & Hni)])].
    + rewrite Hi. reflexivity.
    + destruct (1 <=? index rfrom d1)%nat; [| reflexivity].
      unfold child. rewrite Hprev, Hnl. reflexivity.
    + destruct (1 <=? index rfrom d1)%nat; [| reflexivity].
      unfold child. rewrite Hprev.
      destruct (negb (isListNode sch prevList)); [reflexivity |].
      rewrite (Hsizes _ _ _ _ Hprev), Hitem, Hni. reflexivity.
Qed.

Lemma findPreviousItem_cases_witness :
  findPreviousItem listSchema (threeItemList UnorderedList)
    (resolvedAt (threeItems UnorderedList) 13)
    (itemRangeAt listSchema (threeItems UnorderedList) 13 13)
  = Ok (Some (mkPrevious (li [p "item 1"]) (threeItemList UnorderedList) 2 1 true))
  /\ findPreviousItem listSchema (ol [li [p "B"]])
       (resolvedAt adjacentCrossType 10)
       (itemRangeAt listSchema adjacentCrossType 10 10)
     = Ok (Some (mkPrevious (li [p "A"]) (ul [li [p "A"]]) 2 1 false))
  /\ findPreviousItem listSchema (ul [li [p "A"]])
       (resolvedAt paragraphThenList 6)
       (itemRangeAt listSchema paragraphThenList 6 6)
     = Ok None.
Proof.
  split; [| split].
  - apply (proj1 (findPreviousItem_cases listSchema (threeItemList UnorderedList)
                    (resolvedAt (threeItems UnorderedList) 13)
                    (itemRangeAt listSchema (threeItems UnorderedList) 13 13))
             (li [p "item 1"]) (resolvedAt (threeItems UnorderedList) 11)).
    + vm_compute. lia.
    + reflexivity.
    + reflexivity.
  - apply (proj1 (proj2 (findPreviousItem_cases listSchema (ol [li [p "B"]])
                    (resolvedAt adjacentCrossType 10)
                    (itemRangeAt listSchema adjacentCrossType 10 10)))
             (ul [li [p "A"]]) (li [p "A"])).
    + reflexivity.
    + vm_compute. lia.
    + reflexivity.
    + reflexivity.
    + reflexivity.
    + reflexivity.
  - apply (proj2 (proj2 (findPreviousItem_cases listSchema (ul [li [p "A"]])
                    (resolvedAt paragraphThenList 6)
                    (itemRangeAt listSchema paragraphThenList 6 6)))).
    + reflexivity.
    + right. exists (p "x"). split; [reflexivity | left; reflexivity].
Defined.

(** C9, at two concrete inputs: the second item of the three-item list
    selected from the start of its text (13) up to the boundary behind it
    (21), and the second and third items selected backwards (anchor 27,
    head 13).  Both runs take the first branch.  In the first the new head
    is 21, while the step maps 21 to 23; in the second the new anchor is 13,
    the start of the selection, while the old anchor 27 is mapped to 27.
    So the new anchor and head are not the mapped original positions. *)
Lemma selection_not_mapped :
  ~ selectionClaim listSchema itemEndRun
  /\ ~ selectionClaim listSchema backwardsRun.
Proof.
  split; intros H.
  - assert (E : indentList listSchema itemEndRun = Returned true itemEndResult)
      by (vm_compute; reflexivity).
    assert (Hl : located listSchema itemEndRun = Some itemEndLocated)
      by (vm_compute; reflexivity).
    specialize (H _ _ E Hl). vm_compute in H. destruct H as [_ H]. discriminate H.
  - assert (E : indentList listSchema backwardsRun
                = Returned true (twoItemsResult UnorderedList))
      by (vm_compute; reflexivity).
    assert (Hl : located listSchema backwardsRun = Some (twoItemsLocated UnorderedList))
      by (vm_compute; reflexivity).
    specialize (H _ _ E Hl). vm_compute in H. destruct H as [H _]. discriminate H.
Qed.

(** C9, amended: the selection after a run that returned [true].  When the
    previous item is in the selected list (start index at least 1, Case A)
    the new anchor and head are the start and the end of the original
    selection, unchanged; these are also the positions that the maps of the
    added steps give for them, as long as the selection ends before the end
    of the range; and every position of the selection that lies inside a
    selected item is, in the new document, in the same node at the same
    offset, two levels deeper.  When the list starts the range (start index
    0), which includes every run that rebuilds the previous item (Case B),
    the new anchor and head are the start and the end of the original
    selection minus two; and every position [p] of the selection that lies
    inside a block of a selected item is found at [p - 2] of the new
    document in the same node at the same offset, two levels deeper, below
    the copy of the selected list that holds the selected slice, which is
    a child of the rebuilt previous item. *)
Theorem indent_selection sch tr tr' l :
  indentList sch tr = Returned true tr' ->
  located sch tr = Some l ->
  ((1 <= startIndex (lRange l))%nat ->
     anchor tr' = selFrom tr /\ head tr' = selTo tr
     /\ (selTo tr < rEnd (lRange l) ->
         mappingMap (map getMap (emitted tr tr')) (selFrom tr) = anchor tr'
         /\ mappingMap (map getMap (emitted tr tr')) (selTo tr) = head tr')
     /\ (wellFormed sch (doc tr) = true ->
         forall p r,
           selFrom tr <= p <= selTo tr ->
           resolve (doc tr) p = Some r ->
           (rDepth (lRange l) < depth r)%nat ->
           exists r',
             resolve (doc tr') p = Some r'
             /\ depth r' = (depth r + 2)%nat
             /\ parent r' = parent r
             /\ parentOffset r' = parentOffset r
             /\ textOffset r' = textOffset r))
  /\ (startIndex (lRange l) = 0%nat ->
        anchor tr' = selFrom tr - 2 /\ head tr' = selTo tr - 2
        /\ (wellFormed sch (doc tr) = true ->
            exists sel unsel,
              sliceSelectedItems (doc tr) (lTo l) (lRange l) = Ok (sel, unsel)
              /\ forall p r,
                   selFrom tr <= p <= selTo tr ->
                   resolve (doc tr) p = Some r ->
                   (rDepth (lRange l) + 2 <= depth r)%nat ->
                   exists r',
                     resolve (doc tr') (p - 2) = Some r'
                     /\ depth r' = (depth r + 2)%nat
                     /\ parent r' = parent r
                     /\ parentOffset r' = parentOffset r
                     /\ textOffset r' = textOffset r
                     /\ node r' (rDepth (lRange l) + 1)
                        = copy (previousItem (lFound l))
                            (newPreviousItemContent (previousItem (lFound l))
                               (lList l) sel unsel)
                     /\ node r' (rDepth (lRange l) + 2)
                        = copy (lList l) (sContent sel)))
  /\ (sameType l = false -> startIndex (lRange l) = 0%nat).
Proof.
  intros E Hl. pose proof E as E0. apply indentList_true in E.
  destruct E as (l' & tr1 & Hl' & Hb & _ & _ & _ & Hs & Ha & Hh).
  assert (l' = l) by congruence. subst l'.
  destruct (located_inv _ _ Hl) as (rs & Hrf & Hrt & Hcalc & _ & _ & _ & Hf).
  pose proof Hf as Hf0.
  apply findPreviousItem_branch in Hf.
  split; [| split].
  - intros Hge. destruct Hf as [(Hp & _ & Hsame) | (_ & H0)]; [| lia].
    assert (Hty : sameType l = true).
    { unfold sameType. rewrite Hsame. apply String.eqb_refl. }
    rewrite Hp in Ha, Hh. split; [exact Ha |]. split; [exact Hh |].
    split.
    + intros Hend.
      rewrite Hty in Hb. apply step_steps in Hb.
      unfold emitted. rewrite Hs, Hb, skipn_app, skipn_all, Nat.sub_diag.
      cbn [skipn app map mappingMap fold_left]. rewrite !mapPos_indentStep, Ha, Hh.
      pose proof (sel_min_max tr).
      destruct (Z.ltb_spec (selFrom tr) (rEnd (lRange l))); [| lia].
      destruct (Z.ltb_spec (selTo tr) (rEnd (lRange l))); [| lia].
      rewrite !orb_true_r. split; reflexivity.
    + intros Hwf p r Hp' Hr Hd.
      destruct (@range_shape sch (doc tr) _ _ _ _ _ Hwf Hrf Hrt (sel_min_max tr) Hcalc)
        as (ctx & lt & la & cs & Sh).
      pose proof (rs_from_in Sh). pose proof (rs_to_in Sh).
      destruct (@wrapped_cursor sch tr tr' l p r Hwf Hl Hty E0 ltac:(lia) Hr Hd)
        as (r' & H1 & H2 & H3 & H4 & H5 & _).
      exists r'. repeat (split; [assumption |]). assumption.
  - intros H0. destruct Hf as [(_ & Hge & _) | (Hp & _)]; [lia |].
    rewrite Hp in Ha, Hh. split; [exact Ha |]. split; [exact Hh |].
    intros Hwf.
    destruct (@range_shape sch (doc tr) _ _ _ _ _ Hwf Hrf Hrt (sel_min_max tr) Hcalc)
      as (ctx0 & lt0 & la0 & cs0 & Sh0).
    assert (Hty : sameType l = false).
    { destruct (sameType l) eqn:Hty; [| reflexivity]. exfalso.
      rewrite (indentList_first_branch _ _ Hl Hty) in E0.
      rewrite (@step_first_item_fails sch tr _ _ _ ctx0 lt0 la0 cs0 (lList l) Hwf Sh0 H0)
        in E0.
      discriminate. }
    destruct (@located_across sch tr l Hwf Hl H0)
      as (ctx & ft & fa & fl & plt & pla & pis & pit & pia & pic & lt & la & cs & fr & Sh).
    destruct (across_cursor Sh Hl Hty E0) as (sel & unsel & Hsl & Hto & Hcur).
    exists sel, unsel. split; [exact Hsl |].
    intros p r Hp' Hr Hd.
    pose proof (rs_from_in Sh0).
    destruct (Hcur p r ltac:(lia) Hr Hd)
      as (r' & H1 & H2 & H3 & H4 & H5 & H6 & H7 & _).
    exists r'. rewrite (ac_found Sh), (ac_list Sh). cbn [previousItem].
    repeat (split; [assumption |]). exact H7.
  - intros Hty. destruct Hf as [(_ & _ & Hsame) | (_ & H0)]; [| exact H0].
    unfold sameType in Hty. rewrite Hsame, String.eqb_refl in Hty. discriminate.
Qed.

(** The located part of the first run of the tests. *)
Lemma located_second_item :
  located listSchema (secondItemRun UnorderedList)
  = Some (mkLocated (resolvedAt (threeItems UnorderedList) 13)
            (resolvedAt (threeItems UnorderedList) 13)
            (itemRangeAt listSchema (threeItems UnorderedList) 13 13)
            (threeItemList UnorderedList)
            (mkPrevious (li [p "item 1"]) (threeItemList UnorderedList) 2 1 true)).
Proof. reflexivity. Qed.

Lemma indent_selection_witness :
  (anchor (secondItemResult UnorderedList) = 13
   /\ head (secondItemResult UnorderedList) = 13
   /\ (13 < 21 ->
       mappingMap (map getMap (emitted (secondItemRun UnorderedList)
                                 (secondItemResult UnorderedList))) 13 = 13
       /\ mappingMap (map getMap (emitted (secondItemRun UnorderedList)
                                    (secondItemResult UnorderedList))) 13 = 13))
  /\ anchor trailingBlocksResult = 10 - 2
  /\ head trailingBlocksResult = 10 - 2
  /\ exists r',
       resolve (doc trailingBlocksResult) (10 - 2) = Some r'
       /\ depth r' = (depth (resolvedAt trailingBlocks 10) + 2)%nat
       /\ parent r' = parent (resolvedAt trailingBlocks 10)
       /\ parentOffset r' = parentOffset (resolvedAt trailingBlocks 10)
       /\ textOffset r' = textOffset (resolvedAt trailingBlocks 10)
       /\ node r' (rDepth (lRange trailingBlocksLocated) + 2)
          = ol [li [p "B"]].
Proof.
  split.
  { destruct (proj1 (@indent_selection listSchema (secondItemRun UnorderedList)
                       (secondItemResult UnorderedList) _ eq_refl located_second_item))
      as (Ha & Hh & Hm & _).
    - vm_compute. lia.
    - split; [exact Ha |]. split; [exact Hh |]. exact Hm. }
  assert (E : indentList listSchema trailingBlocksRun = Returned true trailingBlocksResult)
    by (vm_compute; reflexivity).
  assert (Hl : located listSchema trailingBlocksRun = Some trailingBlocksLocated)
    by (vm_compute; reflexivity).
  assert (H0 : startIndex (lRange trailingBlocksLocated) = 0%nat)
    by (vm_compute; reflexivity).
  assert (Hwf : wellFormed listSchema (doc trailingBlocksRun) = true)
    by (vm_compute; reflexivity).
  destruct (proj1 (proj2 (@indent_selection listSchema trailingBlocksRun
                            trailingBlocksResult trailingBlocksLocated E Hl)) H0)
    as (Ha & Hh & Hc).
  split; [exact Ha |]. split; [exact Hh |].
  destruct (Hc Hwf) as (sel & unsel & Hsl & Hcur).
  assert (Hs : sel = mkSlice [li [p "B"]] 0 2).
  { assert (Hv : sliceSelectedItems (doc trailingBlocksRun) (lTo trailingBlocksLocated)
                   (lRange trailingBlocksLocated)
                 = Ok (mkSlice [li [p "B"]] 0 2, Some (mkSlice [ul [li [p "C"]]] 0 0)))
      by (vm_compute; reflexivity).
    rewrite Hv in Hsl. injection Hsl as Hsel _. symmetry. exact Hsel. }
  destruct (Hcur 10 (resolvedAt trailingBlocks 10)) as (r' & H1 & H2 & H3 & H4 & H5 & _ & H7).
  - vm_compute. split; discriminate.
  - vm_compute; reflexivity.
  - vm_compute. lia.
  - exists r'. rewrite Hs in H7.
    repeat (split; [assumption |]). exact H7.
Defined.

(** C8, at a concrete input: with a schema whose list items hold paragraphs
    only, the indent of the first item of an ordered list that follows a
    bullet list builds an invalid previous item; the specification asks for
    [false] on the untouched transaction, but the call raises after the
    step of [tr.deleteRange] was applied. *)
Lemma abort_before_mutation_fails :
  ~ abortClaim flatSchema (startTr adjacentCrossType 10 10).
Proof.
  intros H.
  specialize (H (li [p "A"; ol [li [p "B"]]]) eq_refl eq_refl).
  vm_compute in H. discriminate H.
Qed.

Lemma raised_after_delete :
  indentList flatSchema (startTr adjacentCrossType 10 10)
  = Threw RangeError (mkTr (docN [ul [li [p "A"]]]) [ReplaceStep 7 14 emptySlice] 10 10).
Proof. reflexivity. Qed.

(** C8, amended: when the previous item that the second branch builds fails
    [check], [indentList] does not return [false]: the call ends where
    [newPreviousItem.check()] raises, on the transaction that
    [tr.deleteRange] left, or earlier with what [tr.deleteRange] itself
    raised. *)
Theorem invalid_rebuilt_item_raises sch tr n :
  rebuiltPreviousItem sch tr = Some n ->
  check sch n = false ->
  exists l, located sch tr = Some l /\
    indentList sch tr
    = match deleteRange sch tr (rStart (lRange l)) (rEnd (lRange l)) with
      | TrOk tr1 => Threw RangeError tr1
      | TrThrow e tr1 => Threw e tr1
      | TrUnmodelled tr1 => Unmodelled tr1
      end.
Proof.
  unfold rebuiltPreviousItem. intros Hn Hc.
  destruct (located sch tr) as [l |] eqn:Hl; [| discriminate].
  exists l. split; [reflexivity |].
  destruct (located_inv _ _ Hl) as (rs & Hrf & Hrt & Hcalc & Hrs & Hlist & Hisl & Hf).
  unfold sameType in Hn. unfold indentList.
  rewrite Hrf, Hrt, Hcalc, Hrs. cbv zeta. rewrite <- Hlist, Hisl. cbn [negb].
  rewrite Hf.
  destruct (String.eqb (typeOf (previousList (lFound l))) (typeOf (lList l)));
    [discriminate |].
  destruct (sliceSelectedItems (doc tr) (lTo l) (lRange l)) as [[sel unsel] | e];
    [| discriminate].
  inversion Hn; subst n.
  destruct (deleteRange sch tr (rStart (lRange l)) (rEnd (lRange l)));
    cbn [andThen]; try reflexivity.
  rewrite Hc. reflexivity.
Qed.

Lemma invalid_rebuilt_item_raises_witness :
  exists l, located flatSchema (startTr adjacentCrossType 10 10) = Some l /\
    indentList flatSchema (startTr adjacentCrossType 10 10)
    = match deleteRange flatSchema (startTr adjacentCrossType 10 10)
              (rStart (lRange l)) (rEnd (lRange l)) with
      | TrOk tr1 => Threw RangeError tr1
      | TrThrow e tr1 => Threw e tr1
      | TrUnmodelled tr1 => Unmodelled tr1
      end.
Proof.
  apply (@invalid_rebuilt_item_raises flatSchema (startTr adjacentCrossType 10 10)
           (li [p "A"; ol [li [p "B"]]])).
  - reflexivity.
  - reflexivity.
Defined.

(** C7, at a concrete input: the previous item already ends with a nested
    list of the type of the selected list; the specification asks for the
    moved item at the tail of that list, but the run puts a second nested
    list after it. *)
Lemma splice_into_existing_fails :
  ~ spliceClaim listSchema (startTr existingNested 16 16).
Proof.
  intros H.
  specialize (H (mkLocated (resolvedAt existingNested 16) (resolvedAt existingNested 16)
                   (itemRangeAt listSchema existingNested 16 16)
                   (ul [li [p "A"; ul [li [p "X"]]]; li [p "B"]])
                   (mkPrevious (li [p "A"; ul [li [p "X"]]])
                      (ul [li [p "A"; ul [li [p "X"]]]; li [p "B"]]) 2 1 true))
                (mkTr secondNestedList
                   [ReplaceAroundStep 12 17 13 18 (mkSlice [ul []] 0 0) 1] 16 16)
                (li [p "A"; ul [li [p "X"]; li [p "B"]]])
                eq_refl eq_refl eq_refl eq_refl).
  vm_compute in H. discriminate H.
Qed.

(** C7, amended: when the list of the previous item and the selected list
    have the same type and the run returns [true], the previous item is the
    sibling just before the selected items in the same list, and the run
    wraps the selected items in a new list of that type (a copy of the
    selected list without content) that becomes the last child of the
    previous item, after whatever the item held; for a schema whose lists
    accept every non-empty run of an accepted sequence, the result is valid
    when the document was. *)
Theorem indent_same_type sch tr tr' l :
  wellFormed sch (doc tr) = true ->
  check sch (doc tr) = true ->
  runsStayValid sch ->
  located sch tr = Some l ->
  sameType l = true ->
  indentList sch tr = Returned true tr' ->
  exists ctx lt la pre pt pa pc post,
    doc tr = plug ctx (Elem lt la (pre ++ Elem pt pa pc :: selectedItems l ++ post))
    /\ lList l = Elem lt la (pre ++ Elem pt pa pc :: selectedItems l ++ post)
    /\ previousItem (lFound l) = Elem pt pa pc
    /\ selectedItems l <> []
    /\ doc tr'
       = plug ctx (Elem lt la
           (pre ++ Elem pt pa (pc ++ [Elem lt la (selectedItems l)]) :: post))
    /\ check sch (doc tr') = true.
Proof.
  intros Hwf Hchk Hruns Hl Hty E.
  destruct (@indentList_wrap sch tr tr' l Hwf Hl Hty E)
    as (ctx & lt & la & pre & pt & pa & pc & post & Hd & HL & Hp & Hne & Hd' & Ep & Ev
        & Hlist & _).
  exists ctx, lt, la, pre, pt, pa, pc, post.
  repeat (split; [assumption |]).
  rewrite Hd in Hchk. rewrite Hd'.
  pose proof (check_in_hole _ _ _ Hchk) as HcL.
  rewrite check_Elem in HcL. apply andb_true_iff in HcL. destruct HcL as [HvL Hall].
  rewrite forallb_app in Hall. apply andb_true_iff in Hall. destruct Hall as [Hpre Hall].
  cbn [forallb] in Hall. apply andb_true_iff in Hall. destruct Hall as [Hprev Hall].
  rewrite forallb_app in Hall. apply andb_true_iff in Hall. destruct Hall as [Hsl Hpost].
  rewrite check_Elem in Hprev. apply andb_true_iff in Hprev. destruct Hprev as [_ Hpc].
  apply (@check_replaced sch ctx _ _ Hchk); [| reflexivity].
  rewrite check_Elem, Ev, forallb_app. cbn [forallb andb].
  rewrite Hpre, Hpost, check_Elem, Ep, forallb_app. cbn [forallb andb].
  rewrite Hpc, check_Elem, Hsl, !andb_true_r. cbn [andb].
  apply (Hruns lt (childTypes (pre ++ [Elem pt pa pc]))
           (childTypes (selectedItems l)) (childTypes post) Hlist).
  - rewrite <- !childTypes_app, <- app_assoc. exact HvL.
  - intros Hnil. apply map_eq_nil in Hnil. contradiction.
Qed.

Lemma indent_same_type_witness :
  exists ctx lt la pre pt pa pc post,
    doc (secondItemRun UnorderedList)
    = plug ctx (Elem lt la (pre ++ Elem pt pa pc :: [li [p "item 2"]] ++ post))
    /\ threeItemList UnorderedList
       = Elem lt la (pre ++ Elem pt pa pc :: [li [p "item 2"]] ++ post)
    /\ li [p "item 1"] = Elem pt pa pc
    /\ [li [p "item 2"]] <> []
    /\ doc (secondItemResult UnorderedList)
       = plug ctx (Elem lt la
           (pre ++ Elem pt pa (pc ++ [Elem lt la [li [p "item 2"]]]) :: post))
    /\ check listSchema (doc (secondItemResult UnorderedList)) = true.
Proof.
  apply (@indent_same_type listSchema (secondItemRun UnorderedList)
           (secondItemResult UnorderedList)
           (mkLocated (resolvedAt (threeItems UnorderedList) 13)
              (resolvedAt (threeItems UnorderedList) 13)
              (itemRangeAt listSchema (threeItems UnorderedList) 13 13)
              (threeItemList UnorderedList)
              (mkPrevious (li [p "item 1"]) (threeItemList UnorderedList) 2 1 true))).
  - reflexivity.
  - reflexivity.
  - exact listSchema_runs.
  - reflexivity.
  - reflexivity.
  - reflexivity.
Defined.

(** C4: when the content expressions of the list types ask for at least one
    item, and every list of the document has an item, then after a run that
    returns [true] every list of the resulting document (the new nested
    list, the lists that lost items, and all others) has at least one child
    of a list-item type.  The only list that can lose all its items is the
    selected list of a run that rebuilds the previous item: when the range
    ends at its last item, that list is no longer a child of its parent (the
    parent holds the previous list with the rebuilt item, and what followed
    the selected list); otherwise the list stays with the items behind the
    range. *)
Theorem indent_keeps_lists_nonempty sch tr tr' :
  wellFormed sch (doc tr) = true ->
  listsNeedItems sch ->
  noEmptyList sch (doc tr) = true ->
  indentList sch tr = Returned true tr' ->
  noEmptyList sch (doc tr') = true
  /\ forall l,
       located sch tr = Some l -> sameType l = false ->
       exists ctx ft fa fl plt pla pis fr sel unsel,
         doc tr
         = plug ctx (Elem ft fa
             (fl ++ Elem plt pla (pis ++ [previousItem (lFound l)]) :: lList l :: fr))
         /\ sliceSelectedItems (doc tr) (lTo l) (lRange l) = Ok (sel, unsel)
         /\ doc tr'
            = plug ctx (Elem ft fa
                (fl ++ Elem plt pla
                         (pis ++ [copy (previousItem (lFound l))
                                    (newPreviousItemContent (previousItem (lFound l))
                                       (lList l) sel unsel)])
                    :: (if (endIndex (lRange l) =? childCount (lList l))%nat
                        then []
                        else [copy (lList l)
                                (skipn (endIndex (lRange l)) (contentOf (lList l)))])
                       ++ fr)).
Proof.
  intros Hwf Hneed Hinv E.
  assert (H1 : noEmptyList sch (doc tr') = true).
  { destruct (@indentList_true sch tr tr' E) as (l & _ & Hl & _).
    destruct (sameType l) eqn:Hty.
    - destruct (@indentList_wrap sch tr tr' l Hwf Hl Hty E)
        as (ctx & lt & la & pre & pt & pa & pc & post & Hd & HL & Hp & Hne & Hd' & Ep & Ev
            & Hlist & _).
      assert (Hitems : Forall (fun x => isItem sch x = true)
                         (pre ++ Elem pt pa pc :: selectedItems l ++ post)).
      { unfold wellFormed in Hwf. apply andb_true_iff in Hwf. destruct Hwf as [_ Hio].
        rewrite Hd in Hio. apply itemsOnly_plug in Hio.
        exact (@itemsOnly_items sch _ _ _ Hio Hlist). }
      rewrite Hd in Hinv. rewrite Hd'.
      apply (@noEmptyList_replaced sch ctx _ _ Hinv); [| reflexivity].
      apply noEmptyList_in_hole in Hinv. rewrite noEmptyList_Elem in Hinv.
      apply andb_true_iff in Hinv. destruct Hinv as [_ Hall].
      rewrite forallb_app in Hall. apply andb_true_iff in Hall. destruct Hall as [Hpre Hall].
      cbn [forallb] in Hall. apply andb_true_iff in Hall. destruct Hall as [Hprev Hall].
      rewrite forallb_app in Hall. apply andb_true_iff in Hall. destruct Hall as [Hsl Hpost].
      rewrite noEmptyList_Elem in Hprev. apply andb_true_iff in Hprev.
      destruct Hprev as [_ Hpc].
      rewrite noEmptyList_Elem, (Hneed lt _ Hlist Ev), orb_true_r, forallb_app.
      cbn [forallb andb]. rewrite Hpre, Hpost, andb_true_r. cbn [andb].
      rewrite noEmptyList_Elem, forallb_app. cbn [forallb].
      rewrite Hpc, noEmptyList_Elem, Hsl, Hlist, !andb_true_r. cbn [negb orb andb].
      apply andb_true_iff. split.
      + destruct (isList sch pt) eqn:Hpt; [| reflexivity].
        rewrite (Hneed pt _ Hpt Ep). reflexivity.
      + apply Forall_app in Hitems. destruct Hitems as [_ Hitems].
        inversion Hitems as [| ? ? _ Hrest]; subst.
        apply Forall_app in Hrest. destruct Hrest as [Hsel _].
        destruct (selectedItems l) as [| x sel]; [contradiction |].
        inversion Hsel as [| ? ? Hx _]; subst. cbn [childTypes map existsb].
        unfold isItem in Hx. apply andb_true_iff in Hx. destruct Hx as [_ ->].
        reflexivity.
    - destruct (@indentList_rebuild sch tr tr' l Hwf Hl Hty E)
        as (ctx & ft & fa & fl & plt & pla & pis & prev & lt & la & cs & fr & n & rest & Rb).
      destruct (rb_lists Rb) as [Hplist Hlist].
      rewrite (rb_doc Rb) in Hinv. rewrite (rb_doc' Rb).
      apply (@noEmptyList_replaced sch ctx _ _ Hinv); [| reflexivity].
      apply noEmptyList_in_hole in Hinv. rewrite noEmptyList_Elem in Hinv.
      apply andb_true_iff in Hinv. destruct Hinv as [Hhere Hall].
      rewrite forallb_app in Hall. apply andb_true_iff in Hall. destruct Hall as [Hfl Hall].
      cbn [forallb] in Hall. apply andb_true_iff in Hall. destruct Hall as [HPL Hall].
      apply andb_true_iff in Hall. destruct Hall as [HL Hfr].
      rewrite noEmptyList_Elem in HPL. apply andb_true_iff in HPL. destruct HPL as [_ Hpis].
      rewrite forallb_app in Hpis. apply andb_true_iff in Hpis. destruct Hpis as [Hpis _].
      rewrite noEmptyList_Elem in HL. apply andb_true_iff in HL. destruct HL as [_ Hcs].
      assert (HPL' : noEmptyList sch (Elem plt pla (pis ++ [n])) = true).
      { rewrite noEmptyList_Elem, (Hneed plt _ Hplist (rb_valid Rb)), orb_true_r.
        rewrite forallb_app. cbn [forallb andb].
        rewrite Hpis, (check_noEmptyList Hneed _ (rb_check Rb)). reflexivity. }
      rewrite noEmptyList_Elem, forallb_app. cbn [forallb]. rewrite Hfl, HPL', forallb_app, Hfr.
      rewrite !andb_true_r. cbn [andb].
      destruct (rb_rest Rb) as [(-> & _ & Hv) | (-> & Hv)].
      + cbn [forallb app andb]. rewrite andb_true_r.
        destruct (isList sch ft) eqn:Hft; [| reflexivity].
        cbn [negb orb]. rewrite <- (Hneed ft _ Hft Hv).
        rewrite !childTypes_app. reflexivity.
      + cbn [forallb app]. rewrite noEmptyList_Elem, (Hneed lt _ Hlist Hv), orb_true_r.
        rewrite (forallb_skipn _ _ _ Hcs). cbn [andb]. rewrite andb_true_r.
        rewrite <- Hhere. rewrite !childTypes_app. reflexivity. }
  split; [exact H1 |].
  intros l Hl Hty.
  pose proof (sameType_false_first _ _ Hl Hty) as H0.
  destruct (@located_across sch tr l Hwf Hl H0)
    as (ctx & ft & fa & fl & plt & pla & pis & pit & pia & pic & lt & la & cs & fr & Sh).
  destruct (across_result Sh Hl Hty E) as (sel & unsel & rest & Hsl & Hd' & Hrest).
  exists ctx, ft, fa, fl, plt, pla, pis, fr, sel, unsel.
  rewrite (ac_found Sh), (ac_list Sh). unfold childCount. cbn [previousItem contentOf].
  split; [exact (ac_doc Sh) |]. split; [exact Hsl |].
  assert (Hr : rest = if (endIndex (lRange l) =? List.length cs)%nat
                      then []
                      else [copy (Elem lt la cs) (skipn (endIndex (lRange l)) cs)]).
  { destruct (Nat.eqb_spec (endIndex (lRange l)) (List.length cs)) as [Heq | Hne].
    - destruct Hrest as [[Hnil _] | Hone]; [exact Hnil |]. exfalso.
      rewrite Hone, Heq, skipn_all in Hd'. rewrite Hd' in H1.
      apply noEmptyList_in_hole in H1. rewrite noEmptyList_Elem in H1.
      apply andb_true_iff in H1. destruct H1 as [_ H1].
      rewrite forallb_app in H1. apply andb_true_iff in H1. destruct H1 as [_ H1].
      cbn [forallb app] in H1. apply andb_true_iff in H1. destruct H1 as [_ H1].
      apply andb_true_iff in H1. destruct H1 as [H1 _].
      rewrite noEmptyList_Elem, (rs_list (ac_range Sh)) in H1. discriminate.
    - destruct Hrest as [[_ Heq] | Hone]; [lia | exact Hone]. }
  rewrite Hd', Hr. reflexivity.
Qed.

Lemma indent_keeps_lists_nonempty_witness :
  noEmptyList listSchema (doc (secondItemResult UnorderedList)) = true
  /\ noEmptyList listSchema (doc crossTypeResult) = true
  /\ exists ctx ft fa fl plt pla pis fr sel unsel,
       doc crossTypeRun
       = plug ctx (Elem ft fa
           (fl ++ Elem plt pla (pis ++ [previousItem (lFound crossTypeLocated)])
               :: lList crossTypeLocated :: fr))
       /\ sliceSelectedItems (doc crossTypeRun) (lTo crossTypeLocated)
            (lRange crossTypeLocated) = Ok (sel, unsel)
       /\ doc crossTypeResult
          = plug ctx (Elem ft fa
              (fl ++ Elem plt pla
                       (pis ++ [copy (previousItem (lFound crossTypeLocated))
                                  (newPreviousItemContent
                                     (previousItem (lFound crossTypeLocated))
                                     (lList crossTypeLocated) sel unsel)])
                  :: fr)).
Proof.
  split.
  { apply (@indent_keeps_lists_nonempty listSchema (secondItemRun UnorderedList)
             (secondItemResult UnorderedList)).
    - reflexivity.
    - exact listSchema_needs_items.
    - reflexivity.
    - reflexivity. }
  assert (E : indentList listSchema crossTypeRun = Returned true crossTypeResult)
    by (vm_compute; reflexivity).
  assert (Hl : located listSchema crossTypeRun = Some crossTypeLocated)
    by (vm_compute; reflexivity).
  destruct (@indent_keeps_lists_nonempty listSchema crossTypeRun crossTypeResult
              eq_refl listSchema_needs_items eq_refl E) as [H1 H2].
  split; [exact H1 |].
  destruct (H2 crossTypeLocated Hl eq_refl)
    as (ctx & ft & fa & fl & plt & pla & pis & fr & sel & unsel & Hd & Hs & Hd').
  exists ctx, ft, fa, fl, plt, pla, pis, fr, sel, unsel.
  split; [exact Hd |]. split; [exact Hs |]. exact Hd'.
Defined.

(** C10: after a run that returns [true], the tokens of the document before
    the previous item (its opening token is at [previousItemStart - 1]) and
    the tokens from the end of the item range on are the tokens the document
    had there before: the new document is the old prefix, a new window, and
    the old suffix.  The window is not empty in the old document, and the
    range ends inside it. *)
Theorem indent_frame sch tr tr' l :
  wellFormed sch (doc tr) = true ->
  located sch tr = Some l ->
  indentList sch tr = Returned true tr' ->
  0 <= previousItemStart (lFound l) - 1 < rEnd (lRange l)
  /\ rEnd (lRange l) <= Z.of_nat (List.length (docTokens (doc tr)))
  /\ exists W,
       docTokens (doc tr')
       = firstn (Z.to_nat (previousItemStart (lFound l) - 1)) (docTokens (doc tr))
         ++ W ++ skipn (Z.to_nat (rEnd (lRange l))) (docTokens (doc tr)).
Proof.
  intros Hwf Hl E. destruct (sameType l) eqn:Hty.
  - destruct (@indentList_wrap sch tr tr' l Hwf Hl Hty E)
      as (ctx & lt & la & pre & pt & pa & pc & post & Hd & _ & _ & _ & Hd' & _ & _ & _
          & HP & HE).
    destruct (docTokens_plug lt la ctx) as (A & B & Hc & Hlen).
    pose proof (nodeSize_Elem_ge pt pa pc) as Hpi.
    pose proof (fragSize_nonneg (selectedItems l)) as Hsel.
    pose proof (length_fragTokens pre) as Lpre.
    pose proof (length_tokens (Elem pt pa pc)) as Lpi.
    pose proof (length_fragTokens (selectedItems l)) as Lsel.
    destruct (@frame_from_split Token (A ++ fragTokens pre)
                (tokens (Elem pt pa pc) ++ fragTokens (selectedItems l))
                (tokens (Elem pt pa (pc ++ [Elem lt la (selectedItems l)])))
                (fragTokens post ++ B)
                (docTokens (doc tr)) (docTokens (doc tr'))
                (previousItemStart (lFound l) - 1) (rEnd (lRange l)))
      as [Hle Heq].
    + rewrite Hd, Hc, !fragTokens_app. cbn [fragTokens].
      rewrite fragTokens_app, <- !app_assoc. reflexivity.
    + rewrite Hd', Hc, !fragTokens_app. cbn [fragTokens].
      rewrite <- !app_assoc. reflexivity.
    + rewrite length_app. lia.
    + rewrite !length_app. lia.
    + split; [lia |]. split; [exact Hle |]. eexists. exact Heq.
  - destruct (@indentList_rebuild sch tr tr' l Hwf Hl Hty E)
      as (ctx & ft & fa & fl & plt & pla & pis & prev & lt & la & cs & fr & n & rest & Rb).
    destruct (docTokens_plug ft fa ctx) as (A & B & Hc & Hlen).
    pose proof (rb_from Rb) as HP. pose proof (rb_to Rb) as HE.
    pose proof (rb_idx Rb) as Hidx.
    rewrite nodeSize_Elem, fragSize_app in HE. cbn [fragSize] in HE.
    pose proof (nodeSize_nonneg prev) as Hprev.
    pose proof (fragSize_nonneg fl) as Hfl. pose proof (fragSize_nonneg pis) as Hpis.
    pose proof (fragSize_nonneg (firstn (endIndex (lRange l)) cs)) as Hfirst.
    pose proof (ctxStart_ge 0 ctx) as Hctx0.
    pose proof (length_fragTokens fl) as Lfl.
    pose proof (length_fragTokens pis) as Lpis.
    pose proof (length_tokens prev) as Lprev.
    pose proof (length_fragTokens (firstn (endIndex (lRange l)) cs)) as Lfirst.
    assert (Hdoc : docTokens (doc tr)
              = (A ++ fragTokens fl ++ [TOpen plt pla] ++ fragTokens pis)
                ++ (tokens prev ++ [TClose] ++ [TOpen lt la]
                    ++ fragTokens (firstn (endIndex (lRange l)) cs))
                ++ (fragTokens (skipn (endIndex (lRange l)) cs) ++ [TClose]
                    ++ fragTokens fr ++ B)).
    { rewrite (rb_doc Rb), Hc, !fragTokens_app. cbn [fragTokens].
      rewrite !tokens_Elem, fragTokens_app. cbn [fragTokens].
      rewrite <- (firstn_skipn (endIndex (lRange l)) cs) at 1.
      rewrite fragTokens_app, app_nil_r.
      repeat (rewrite <- ?app_assoc; cbn [app]). reflexivity. }
    assert (Hsplit : exists W,
              docTokens (doc tr')
              = (A ++ fragTokens fl ++ [TOpen plt pla] ++ fragTokens pis)
                ++ W
                ++ (fragTokens (skipn (endIndex (lRange l)) cs) ++ [TClose]
                    ++ fragTokens fr ++ B)).
    { rewrite (rb_doc' Rb), Hc, !fragTokens_app. cbn [fragTokens].
      rewrite !tokens_Elem, !fragTokens_app. cbn [fragTokens]. rewrite app_nil_r.
      destruct (rb_rest Rb) as [(-> & Hall & _) | (-> & _)].
      - exists (tokens n). rewrite Hall, skipn_all. cbn [fragTokens app].
        repeat (rewrite <- ?app_assoc; cbn [app]). reflexivity.
      - exists (tokens n ++ [TClose; TOpen lt la]). cbn [fragTokens].
        rewrite tokens_Elem, app_nil_r.
        repeat (rewrite <- ?app_assoc; cbn [app]). reflexivity. }
    destruct Hsplit as (W & Hdoc').
    destruct (@frame_from_split Token _ _ W _ _ _
                (previousItemStart (lFound l) - 1) (rEnd (lRange l)) Hdoc Hdoc')
      as [Hle Heq].
    + rewrite !length_app. cbn [List.length]. lia.
    + rewrite !length_app. cbn [List.length]. lia.
    + split; [lia |]. split; [exact Hle |]. exists W. exact Heq.
Qed.

Lemma indent_frame_witness :
  0 <= 2 - 1 < 21
  /\ 21 <= Z.of_nat (List.length (docTokens (doc (secondItemRun UnorderedList))))
  /\ exists W,
       docTokens (doc (secondItemResult UnorderedList))
       = firstn (Z.to_nat (2 - 1)) (docTokens (doc (secondItemRun UnorderedList)))
         ++ W ++ skipn (Z.to_nat 21) (docTokens (doc (secondItemRun UnorderedList))).
Proof.
  apply (@indent_frame listSchema (secondItemRun UnorderedList)
           (secondItemResult UnorderedList)
           (mkLocated (resolvedAt (threeItems UnorderedList) 13)
              (resolvedAt (threeItems UnorderedList) 13)
              (itemRangeAt listSchema (threeItems UnorderedList) 13 13)
              (threeItemList UnorderedList)
              (mkPrevious (li [p "item 1"]) (threeItemList UnorderedList) 2 1 true))).
  - reflexivity.
  - reflexivity.
  - reflexivity.
Defined.

(** C2, at a concrete input: the first item of an ordered list that follows
    a bullet list is indented into the last item of the bullet list; the
    dedent of the nested item then makes it an item of the bullet list, so
    the two lists of the original document are not restored. *)
Lemma round_trip_fails_across_lists :
  ~ roundTripClaim listSchema (startTr adjacentCrossType 10 10).
Proof.
  intros H.
  assert (E : indentList listSchema (startTr adjacentCrossType 10 10)
              = Returned true
                  (mkTr crossTypeIndented
                     [ReplaceStep 7 14 emptySlice;
                      ReplaceStep 1 6 (mkSlice [li [p "A"; ol [li [p "B"]]]] 0 0)] 8 8))
    by (vm_compute; reflexivity).
  destruct (H _ E) as (tr2 & Hd & Hdoc).
  vm_compute in Hd. injection Hd as <-. vm_compute in Hdoc. discriminate Hdoc.
Qed.

(** C2, amended: on a well-formed and valid document, when the list of the
    previous item and the selected list have the same type and [indentList]
    returns [true], [dedentList] on the resulting transaction (the
    selection that the indent left, on the now-nested items) returns [true]
    and its document is the original document. *)
Theorem indent_then_dedent sch tr tr1 l :
  wellFormed sch (doc tr) = true ->
  check sch (doc tr) = true ->
  located sch tr = Some l ->
  sameType l = true ->
  indentList sch tr = Returned true tr1 ->
  exists tr2, dedentList sch tr1 = Returned true tr2 /\ doc tr2 = doc tr.
Proof.
  intros Hwf Hchk Hl Hty E.
  destruct (located_inv _ _ Hl) as (rs & Hrf & Hrt & Hcalc & Hrs & HL & Hisl & Hf).
  destruct (Nat.eq_dec (startIndex (lRange l)) 0) as [H0 | Hne].
  { exfalso.
    destruct (@range_shape sch (doc tr) _ _ _ _ _ Hwf Hrf Hrt (sel_min_max tr) Hcalc)
      as (ctx & lt & la & cs & Sh).
    apply indentList_true in E. destruct E as (l' & tr0 & Hl' & Hb & _).
    assert (l' = l) by congruence. subst l'. rewrite Hty in Hb.
    exact (@indentStep_from_first_item sch tr _ _ _ ctx lt la cs Hwf Sh H0 _ _ Hb). }
  assert (Hsi : (1 <= startIndex (lRange l))%nat) by lia.
  destruct (@same_list_shape sch tr _ _ _ Hwf Hrf Hrt Hcalc Hsi)
    as (ctx & lt & la & pre & pt & pa & pc & sel0 & st & sa & sc & post & Sh).
  rewrite (@indentList_same_list sch tr _ _ _ ctx lt la pre pt pa pc sel0 st sa sc post
             Hrf Hrt Hcalc Hsi Sh) in E.
  destruct (joinChecks sch pt st && _ && _); [| discriminate].
  injection E as <-.
  pose proof (sl_doc Sh) as Hdoc. pose proof (sl_normal Sh) as Hnorm.
  pose proof (rs_idx (sl_range Sh)) as Hidx.
  pose proof (sel_min_max tr) as Hmm.
  assert (Hpos : positive (pre ++ Elem pt pa pc :: (sel0 ++ [Elem st sa sc]) ++ post)).
  { apply normals_positive. exact (@normal_children _ _ _ Hnorm). }
  assert (Hpn : normal (Elem pt pa pc) = true).
  { apply (normals_In _ _ (@normal_children _ _ _ Hnorm)).
    apply in_or_app. right. left. reflexivity. }
  assert (Hpc : positive pc).
  { apply normals_positive. exact (@normal_children _ _ _ Hpn). }
  assert (Hitem : isListItem sch pt = true).
  { unfold wellFormed in Hwf. apply andb_true_iff in Hwf. destruct Hwf as [_ Hio].
    rewrite Hdoc in Hio. apply itemsOnly_plug in Hio.
    pose proof (@itemsOnly_items sch _ _ _ Hio (sl_list Sh)) as Hi.
    apply Forall_app in Hi. destruct Hi as [_ Hi]. inversion Hi as [| ? ? Hp _]; subst.
    unfold isItem in Hp. apply andb_true_iff in Hp. tauto. }
  rewrite Hdoc in Hchk, Hrf, Hrt.
  rewrite Hdoc.
  apply (@dedent_nested sch ctx lt la pre pt pa pc (sel0 ++ [Elem st sa sc]) post
           (sl_ctx Sh) Hpos Hpc _ (lFrom l) (lTo l) (lRange l)).
  - reflexivity.
  - unfold selFrom at 1. cbn [anchor head]. rewrite <- (sl_start Sh).
    pose proof (sl_from Sh). lia.
  - unfold selTo at 1. cbn [anchor head].
    pose proof (sl_to Sh) as Ht. rewrite (sl_end Sh) in Ht. lia.
  - exact (sl_items Sh).
  - intros Hnil. apply app_eq_nil in Hnil. destruct Hnil; discriminate.
  - exact (sl_list Sh).
  - exact Hitem.
  - exact (check_in_hole _ _ _ Hchk).
  - unfold selFrom at 1. cbn [anchor head]. rewrite Z.min_l by lia. exact Hrf.
  - unfold selTo at 1. cbn [anchor head]. rewrite Z.max_r by lia. exact Hrt.
  - exact Hcalc.
  - symmetry. exact (sl_depth Sh).
  - pose proof (sl_pre Sh). lia.
  - pose proof (sl_pre Sh). pose proof (sl_sel Sh). lia.
  - exact (sl_start Sh).
Qed.

Lemma indent_then_dedent_witness :
  exists tr2,
    dedentList listSchema (secondItemResult UnorderedList) = Returned true tr2
    /\ doc tr2 = doc (secondItemRun UnorderedList).
Proof.
  apply (@indent_then_dedent listSchema (secondItemRun UnorderedList)
           (secondItemResult UnorderedList)
           (mkLocated (resolvedAt (threeItems UnorderedList) 13)
              (resolvedAt (threeItems UnorderedList) 13)
              (itemRangeAt listSchema (threeItems UnorderedList) 13 13)
              (threeItemList UnorderedList)
              (mkPrevious (li [p "item 1"]) (threeItemList UnorderedList) 2 1 true))).
  - reflexivity.
  - reflexivity.
  - reflexivity.
  - reflexivity.
  - reflexivity.
Defined.

End Claims.
(* ================================================================== *)
(** * Further properties of the command *)
(* ================================================================== *)

Module Properties.
Import Model Resolve Replace Transform Context Indent Dedent Setup Shapes Statements.
Import RunShapes Runs Command Branches Examples.
Import ModelFacts ResolveFacts PathFacts RangeFacts FragmentFacts ReplaceFacts.
Import SameListFacts IndentFacts FlatFacts RunFacts AcrossFacts CheckFacts.
Import FlatSteps RebuildFacts RebuildRun LocatedFacts MapFacts TokenFacts.
Import SchemaFacts BranchFacts AcrossRun SliceFacts AcrossResult EdgeFacts.
Import WindowFacts RoundTripFacts AgainFacts TextFacts.

Lemma emitted_app (tr : Transaction) l : skipn (List.length (steps tr)) (steps tr ++ l) = l.
Proof.
  rewrite skipn_app, skipn_all, Nat.sub_diag. reflexivity.
Qed.

Lemma wrapped_selected_size sch tr tr' l ctx lt la pre pt pa pc post :
  Wrapped sch tr tr' l ctx lt la pre pt pa pc post ->
  0 < fragSize (selectedItems l).
Proof.
  intros W. apply positive_fragSize; [| exact (wr_sel W)].
  pose proof (normals_positive _ (@normal_children _ _ _ (wr_normal W))) as Hp.
  apply positive_app in Hp. destruct Hp as [_ Hp]. inversion Hp as [| ? ? _ Hq]; subst.
  apply positive_app in Hq. tauto.
Qed.

(** X1.  A same-list indent adds one step; its position map leaves every
    position in front of the end of the item range where it is and moves
    every other position by two, so that distinct positions stay distinct
    and in order. *)
Theorem same_list_positions sch tr tr' l :
  wellFormed sch (doc tr) = true ->
  located sch tr = Some l ->
  sameType l = true ->
  indentList sch tr = Returned true tr' ->
  emitted tr tr' = [indentStep (lList l) (lRange l)]
  /\ (forall p, runMap tr tr' p = if p <? rEnd (lRange l) then p else p + 2)
  /\ strictly (runMap tr tr').
Proof.
  intros Hwf Hl Hty E.
  destruct (@indentList_wrapped sch tr tr' l Hwf Hl Hty E)
    as (ctx & lt & la & pre & pt & pa & pc & post & W).
  pose proof (wrapped_selected_size W) as Hsz.
  pose proof (wr_end W) as He.
  assert (Hem : emitted tr tr' = [indentStep (lList l) (lRange l)]).
  { unfold emitted. rewrite (wr_tr W). cbn [steps]. apply emitted_app. }
  assert (Hmap : forall p, runMap tr tr' p
                           = if p <? rEnd (lRange l) then p else p + 2).
  { intros p. unfold runMap. rewrite Hem. cbn [map mappingMap fold_left].
    rewrite mapPos_indentStep, (wr_list W). cbn [copy]. rewrite nodeSize_Elem.
    cbn [fragSize].
    destruct (Z.leb_spec p (rStart (lRange l))); destruct (Z.ltb_spec p (rEnd (lRange l)));
      cbn [orb]; lia. }
  split; [exact Hem |]. split; [exact Hmap |].
  intros p1 p2 Hlt. rewrite !Hmap.
  destruct (Z.ltb_spec p1 (rEnd (lRange l))); destruct (Z.ltb_spec p2 (rEnd (lRange l))); lia.
Qed.

Lemma same_list_positions_witness :
  emitted (twoItemsRun OrderedList) (twoItemsResult OrderedList)
  = [indentStep (lList (twoItemsLocated OrderedList)) (lRange (twoItemsLocated OrderedList))]
  /\ (forall p, runMap (twoItemsRun OrderedList) (twoItemsResult OrderedList) p
                = if p <? rEnd (lRange (twoItemsLocated OrderedList)) then p else p + 2)
  /\ strictly (runMap (twoItemsRun OrderedList) (twoItemsResult OrderedList)).
Proof.
  apply (@same_list_positions listSchema (twoItemsRun OrderedList)
           (twoItemsResult OrderedList) (twoItemsLocated OrderedList));
    vm_compute; reflexivity.
Defined.

Lemma splice_tokens (A : Type) (X S Y : list A) (c o : A) (s e : Z) :
  Z.of_nat (List.length X) = s - 1 -> Z.of_nat (List.length S) = e - s ->
  nth_error (X ++ c :: S ++ Y) (Z.to_nat (s - 1)) = Some c
  /\ X ++ o :: S ++ c :: c :: Y
     = firstn (Z.to_nat (s - 1)) (X ++ c :: S ++ Y)
       ++ o :: firstn (Z.to_nat (e - s)) (skipn (Z.to_nat s) (X ++ c :: S ++ Y))
       ++ c :: c :: skipn (Z.to_nat e) (X ++ c :: S ++ Y).
Proof.
  intros HX HS.
  assert (H1 : firstn (Z.to_nat (s - 1)) (X ++ c :: S ++ Y) = X)
    by (apply firstn_prefix; exact HX).
  assert (H2 : skipn (Z.to_nat s) (X ++ c :: S ++ Y) = S ++ Y).
  { change (X ++ c :: S ++ Y) with (X ++ [c] ++ S ++ Y). rewrite app_assoc.
    apply skipn_prefix. rewrite length_app. cbn [List.length]. lia. }
  assert (H3 : skipn (Z.to_nat e) (X ++ c :: S ++ Y) = Y).
  { change (X ++ c :: S ++ Y) with (X ++ [c] ++ S ++ Y). rewrite !app_assoc.
    apply skipn_prefix. rewrite !length_app. cbn [List.length]. lia. }
  rewrite H1, H2, H3, (firstn_prefix S Y HS). split; [| reflexivity].
  replace (Z.to_nat (s - 1)) with (List.length X) by lia.
  rewrite nth_error_app2, Nat.sub_diag by lia. reflexivity.
Qed.

Lemma contentSize_tokens d : contentSize d = Z.of_nat (List.length (docTokens d)).
Proof. unfold contentSize, docTokens. symmetry. apply length_fragTokens. Qed.

(** X2.  What a same-list indent does to the token stream of the document:
    the closing token of the previous item, in front of the range, becomes
    the opening token of a copy of the list, and two closing tokens are
    added behind the selected items; every other token stays.  The document
    grows by two positions. *)
Theorem same_list_tokens sch tr tr' l :
  wellFormed sch (doc tr) = true ->
  located sch tr = Some l ->
  sameType l = true ->
  indentList sch tr = Returned true tr' ->
  nth_error (docTokens (doc tr)) (Z.to_nat (rStart (lRange l) - 1)) = Some TClose
  /\ docTokens (doc tr')
     = wrapTokens (docTokens (doc tr)) (rStart (lRange l)) (rEnd (lRange l))
         (typeOf (lList l)) (attrsOf (lList l))
  /\ contentSize (doc tr') = contentSize (doc tr) + 2.
Proof.
  intros Hwf Hl Hty E.
  destruct (@indentList_wrapped sch tr tr' l Hwf Hl Hty E)
    as (ctx & lt & la & pre & pt & pa & pc & post & W).
  destruct (docTokens_plug lt la ctx) as (A & B & HT & HA).
  pose proof (wr_start W) as Hs. pose proof (wr_end W) as He.
  rewrite nodeSize_Elem in Hs.
  set (X := A ++ fragTokens pre ++ TOpen pt pa :: fragTokens pc).
  set (S := fragTokens (selectedItems l)).
  set (Y := fragTokens post ++ B).
  assert (H1 : docTokens (doc tr) = X ++ TClose :: S ++ Y).
  { rewrite (wr_doc W), HT, fragTokens_app. cbn [fragTokens].
    rewrite fragTokens_app, tokens_Elem. unfold X, S, Y.
    repeat (rewrite <- app_assoc; cbn [app]). reflexivity. }
  assert (H2 : docTokens (doc tr') = X ++ TOpen lt la :: S ++ TClose :: TClose :: Y).
  { rewrite (wr_tr W). cbn [doc]. rewrite HT, fragTokens_app. cbn [fragTokens].
    rewrite tokens_Elem, fragTokens_app. cbn [fragTokens]. rewrite tokens_Elem.
    unfold X, S, Y. repeat (rewrite <- app_assoc; cbn [app]). reflexivity. }
  assert (HX : Z.of_nat (List.length X) = rStart (lRange l) - 1).
  { unfold X. rewrite !length_app. cbn [List.length].
    rewrite !Nat2Z.inj_add, Nat2Z.inj_succ, !length_fragTokens. lia. }
  assert (HS : Z.of_nat (List.length S) = rEnd (lRange l) - rStart (lRange l)).
  { unfold S. rewrite length_fragTokens. lia. }
  destruct (@splice_tokens _ X S Y TClose (TOpen lt la) _ _ HX HS) as [Hn Heq].
  unfold wrapTokens. rewrite (wr_list W). cbn [typeOf attrsOf].
  rewrite H1. split; [exact Hn |]. split; [rewrite H2; exact Heq |].
  rewrite !contentSize_tokens, H1, H2, !length_app. cbn [List.length].
  rewrite !length_app. cbn [List.length]. lia.
Qed.

Lemma same_list_tokens_witness :
  nth_error (docTokens (doc (secondItemRun TaskListChecked)))
    (Z.to_nat (rStart (lRange (secondItemLocated TaskListChecked)) - 1)) = Some TClose
  /\ docTokens (doc (secondItemResult TaskListChecked))
     = wrapTokens (docTokens (doc (secondItemRun TaskListChecked)))
         (rStart (lRange (secondItemLocated TaskListChecked)))
         (rEnd (lRange (secondItemLocated TaskListChecked)))
         (typeOf (lList (secondItemLocated TaskListChecked)))
         (attrsOf (lList (secondItemLocated TaskListChecked)))
  /\ contentSize (doc (secondItemResult TaskListChecked))
     = contentSize (doc (secondItemRun TaskListChecked)) + 2.
Proof.
  apply (@same_list_tokens listSchema (secondItemRun TaskListChecked)
           (secondItemResult TaskListChecked) (secondItemLocated TaskListChecked));
    vm_compute; reflexivity.
Defined.

(** X3.  The positions that [findPreviousItem] returns address the nodes it
    returns: the previous item starts at [previousItemStart - 1] and the
    previous list at [previousListStart - 1].  The previous item ends at the
    start of the range when it is in the selected list, and two positions
    in front of it when it is the last item of the list before. *)
Theorem previous_item_addressed sch tr l :
  wellFormed sch (doc tr) = true ->
  located sch tr = Some l ->
  nodeAt (doc tr) (previousItemStart (lFound l) - 1) = Some (previousItem (lFound l))
  /\ nodeAt (doc tr) (previousListStart (lFound l) - 1) = Some (previousList (lFound l))
  /\ rStart (lRange l)
     = previousItemStart (lFound l) - 1 + nodeSize (previousItem (lFound l))
       + (if previousIsSelected (lFound l) then 0 else 2).
Proof.
  intros Hwf Hl.
  destruct (Nat.eq_dec (startIndex (lRange l)) 0) as [H0 | Hne].
  - destruct (@located_across sch tr l Hwf Hl H0)
      as (ctx & ft & fa & fl & plt & pla & pis & pit & pia & pic & lt & la & cs & fr & Sh).
    pose proof (@normal_children _ _ _ (ac_parent Sh)) as Hcs.
    pose proof (normals_positive _ Hcs) as Hpos.
    apply positive_app in Hpos. destruct Hpos as [Hfl Hrest].
    assert (Hpl : normal (Elem plt pla (pis ++ [Elem pit pia pic])) = true).
    { apply (normals_In _ _ Hcs). apply in_or_app. right. left. reflexivity. }
    pose proof (normals_positive _ (@normal_children _ _ _ Hpl)) as Hpp.
    apply positive_app in Hpp. destruct Hpp as [Hpis _].
    rewrite (ac_found Sh), (ac_start Sh), (ac_doc Sh).
    cbn [previousItem previousList previousItemStart previousListStart previousIsSelected].
    split; [| split].
    + pose proof (@nodeAt_child (ctx ++ [mkFrame ft fa fl (Elem lt la cs :: fr)])
                    plt pla pis (Elem pit pia pic) []) as N.
      rewrite plug_app, ctxStart_snoc in N. cbn [plug fLeft] in N. unfold fill in N.
      cbn [fType fAttrs fLeft fRight] in N.
      replace (ctxStart 0 ctx + 1 + fragSize fl + fragSize pis + 1 - 1)
        with (ctxStart 0 ctx + fragSize fl + 1 + fragSize pis) by lia.
      apply N; [| exact Hpis]. apply ctxPositive_snoc; [exact (ac_ctx Sh) | exact Hfl].
    + replace (ctxStart 0 ctx + 1 + fragSize fl - 1)
        with (ctxStart 0 ctx + fragSize fl) by lia.
      exact (@nodeAt_child ctx ft fa fl _ _ (ac_ctx Sh) Hfl).
    + rewrite (nodeSize_Elem plt), fragSize_app. cbn [fragSize]. lia.
  - destruct (located_inv _ _ Hl) as (rs & Hrf & Hrt & Hcalc & Hrs & HL & Hisl & Hf).
    assert (Hsi : (1 <= startIndex (lRange l))%nat) by lia.
    destruct (@same_list_shape sch tr _ _ _ Hwf Hrf Hrt Hcalc Hsi)
      as (ctx & lt & la & pre & pt & pa & pc & sel0 & st & sa & sc & post & Sh).
    pose proof (@located_same_list sch tr _ _ _ ctx lt la pre pt pa pc sel0 st sa sc post
                  Hrf Hrt Hcalc Hsi Sh) as Hloc.
    rewrite Hl in Hloc. injection Hloc as Hleq.
    apply (f_equal lFound) in Hleq. cbn [lFound] in Hleq. rewrite Hleq.
    cbn [previousItem previousList previousItemStart previousListStart previousIsSelected].
    pose proof (normals_positive _ (@normal_children _ _ _ (sl_normal Sh))) as Hpos.
    apply positive_app in Hpos. destruct Hpos as [Hpre _].
    split; [| split].
    + rewrite (sl_doc Sh).
      replace (ctxStart 0 ctx + 1 + fragSize pre - 1)
        with (ctxStart 0 ctx + fragSize pre) by lia.
      exact (@nodeAt_child ctx lt la pre _ _ (sl_ctx Sh) Hpre).
    + destruct (snoc_cases ctx) as [Hnil | (ctx' & f & Hctx)].
      { exfalso. pose proof (sl_doc Sh) as Hdoc. rewrite Hnil in Hdoc.
        cbn [plug] in Hdoc. unfold wellFormed in Hwf. rewrite Hdoc in Hwf.
        cbn [isText typeOf negb andb] in Hwf. rewrite (sl_list Sh) in Hwf.
        discriminate. }
      pose proof (sl_ctx Sh) as Hc. rewrite Hctx in Hc. unfold ctxPositive in Hc.
      apply Forall_app in Hc. destruct Hc as [Hc' Hf'].
      inversion Hf' as [| ? ? Hfl _]; subst.
      rewrite (sl_doc Sh), plug_app, ctxStart_snoc. cbn [plug]. unfold fill.
      replace (ctxStart 0 ctx' + fragSize (fLeft f) + 1 - 1)
        with (ctxStart 0 ctx' + fragSize (fLeft f)) by lia.
      exact (@nodeAt_child ctx' (fType f) (fAttrs f) (fLeft f) _ _ Hc' Hfl).
    + rewrite (sl_start Sh). lia.
Qed.

Lemma previous_item_addressed_witness :
  nodeAt (doc crossTypeRun) (previousItemStart (lFound crossTypeLocated) - 1)
  = Some (previousItem (lFound crossTypeLocated))
  /\ nodeAt (doc crossTypeRun) (previousListStart (lFound crossTypeLocated) - 1)
     = Some (previousList (lFound crossTypeLocated))
  /\ rStart (lRange crossTypeLocated)
     = previousItemStart (lFound crossTypeLocated) - 1
       + nodeSize (previousItem (lFound crossTypeLocated))
       + (if previousIsSelected (lFound crossTypeLocated) then 0 else 2).
Proof.
  apply (@previous_item_addressed listSchema crossTypeRun crossTypeLocated);
    vm_compute; reflexivity.
Defined.

Lemma mapPos_delete a b p :
  a <= p <= b -> mapPos (getMap (ReplaceStep a b emptySlice)) p = a.
Proof.
  intros Hp. unfold mapPos, getMap, sliceSize. cbn [mapRanges sContent openStart openEnd
    emptySlice fragSize Z.of_nat].
  destruct (Z.ltb_spec p a); [lia |].
  destruct (Z.leb_spec p (a + (b - a))); [| lia].
  destruct (b - a =? 0); destruct (p =? a); destruct (p =? a + (b - a));
    cbn [Z.ltb Z.compare]; lia.
Qed.

(** The steps of a run of the second branch that returns [true]. *)
Lemma across_steps sch tr tr' l :
  wellFormed sch (doc tr) = true ->
  located sch tr = Some l ->
  sameType l = false ->
  indentList sch tr = Returned true tr' ->
  exists a b n,
    rebuiltPreviousItem sch tr = Some n
    /\ emitted tr tr'
       = [ReplaceStep a b emptySlice;
          ReplaceStep (previousItemStart (lFound l) - 1)
            (previousItemStart (lFound l) - 1 + nodeSize (previousItem (lFound l)))
            (mkSlice [n] 0 0)]
    /\ ((a = rStart (lRange l) /\ b = rEnd (lRange l))
        \/ (endIndex (lRange l) = childCount (lList l)
            /\ a = rStart (lRange l) - 1 /\ b = rEnd (lRange l) + 1))
    /\ rStart (lRange l) < rEnd (lRange l).
Proof.
  intros Hwf Hl Hty E.
  pose proof (sameType_false_first _ _ Hl Hty) as H0.
  destruct (@located_across sch tr l Hwf Hl H0)
    as (ctx & ft & fa & fl & plt & pla & pis & pit & pia & pic & lt & la & cs & fr & Sh).
  pose proof (ac_range Sh) as Rs.
  pose proof (rs_idx Rs) as Hidx. pose proof (rs_start Rs) as Hs.
  pose proof (rs_end Rs) as He. rewrite H0 in Hs, Hidx.
  cbn [firstn fragSize] in Hs. rewrite Z.add_0_r in Hs.
  assert (Hpos : positive cs).
  { apply normals_positive. exact (@normal_children _ _ _ (rs_normal Rs)). }
  pose proof (@fragSize_firstn_strict cs 0 (endIndex (lRange l)) Hpos ltac:(lia) ltac:(lia))
    as Hlt. cbn [firstn fragSize] in Hlt.
  apply indentList_true in E.
  destruct E as (l' & tr1 & Hl' & Hb & _ & _ & _ & Hst' & _).
  assert (l' = l) by congruence. subst l'. rewrite Hty in Hb.
  destruct Hb as (sel & unsel & tr0 & Hsl & Hdel & Hchk & Hrep).
  rewrite (ac_found Sh) in Hrep. cbn [previousItem previousItemStart] in Hrep.
  pose proof (nodeSize_Elem_ge pit pia pic) as Hp2.
  apply replaceRangeWith_steps in Hrep; [| lia | reflexivity].
  assert (Hleft : 0 < fragSize (fLeft (mkFrame ft fa
                    (fl ++ [Elem plt pla (pis ++ [Elem pit pia pic])]) fr))).
  { cbn [fLeft]. rewrite fragSize_app. cbn [fragSize].
    pose proof (nodeSize_Elem_ge plt pla (pis ++ [Elem pit pia pic])).
    pose proof (fragSize_nonneg fl). lia. }
  assert (Hei : (0 < endIndex (lRange l) <= List.length cs)%nat) by lia.
  assert (Hitem : rebuiltPreviousItem sch tr
                  = Some (copy (Elem pit pia pic)
                            (newPreviousItemContent (Elem pit pia pic) (lList l) sel unsel))).
  { unfold rebuiltPreviousItem. rewrite Hl, Hty, Hsl, (ac_found Sh). reflexivity. }
  assert (Hfin : forall a b,
    a < b -> trDelete sch tr a b = TrOk tr0 ->
    emitted tr tr'
    = [ReplaceStep a b emptySlice;
       ReplaceStep (previousItemStart (lFound l) - 1)
         (previousItemStart (lFound l) - 1 + nodeSize (previousItem (lFound l)))
         (mkSlice [copy (Elem pit pia pic)
                     (newPreviousItemContent (Elem pit pia pic) (lList l) sel unsel)] 0 0)]).
  { intros a b Hab Hd. apply trDelete_steps in Hd; [| exact Hab].
    unfold emitted. rewrite Hst', Hrep, Hd, <- app_assoc, emitted_app.
    rewrite (ac_found Sh). cbn [previousItem previousItemStart app].
    do 2 f_equal. f_equal; lia. }
  destruct (@deleteRange_cases sch tr ctx _ lt la cs (endIndex (lRange l))
              (rs_doc Rs) (rs_ctx Rs) Hpos Hleft Hei) as [Ed | [Hall Ed]];
    rewrite <- He, <- Hs in Ed; rewrite Ed in Hdel.
  - eexists (rStart (lRange l)), (rEnd (lRange l)), _.
    split; [exact Hitem |].
    pose proof (Hfin (rStart (lRange l)) (rEnd (lRange l)) ltac:(lia) Hdel) as Hem.
    split; [exact Hem |]. split; [left; split; reflexivity |]. lia.
  - eexists (rStart (lRange l) - 1), (rEnd (lRange l) + 1), _.
    split; [exact Hitem |].
    pose proof (Hfin (rStart (lRange l) - 1) (rEnd (lRange l) + 1) ltac:(lia) Hdel) as Hem.
    split; [exact Hem |].
    split; [right; rewrite (ac_list Sh); unfold childCount; cbn [contentOf]; tauto |].
    lia.
Qed.


(** X4.  A cross-list indent is recorded as two replace steps: the deletion
    of the selected items (of the whole list when all its items are
    selected), and the replacement of the previous item by the rebuilt one.
    The position map therefore sends all positions of the deleted range to
    one position: positions inside the moved items are not kept apart. *)
Theorem cross_list_steps sch tr tr' l :
  wellFormed sch (doc tr) = true ->
  located sch tr = Some l ->
  sameType l = false ->
  indentList sch tr = Returned true tr' ->
  exists a b n,
    rebuiltPreviousItem sch tr = Some n
    /\ emitted tr tr'
       = [ReplaceStep a b emptySlice;
          ReplaceStep (previousItemStart (lFound l) - 1)
            (previousItemStart (lFound l) - 1 + nodeSize (previousItem (lFound l)))
            (mkSlice [n] 0 0)]
    /\ ((a = rStart (lRange l) /\ b = rEnd (lRange l))
        \/ (endIndex (lRange l) = childCount (lList l)
            /\ a = rStart (lRange l) - 1 /\ b = rEnd (lRange l) + 1))
    /\ rStart (lRange l) < rEnd (lRange l)
    /\ forall p1 p2, a <= p1 <= b -> a <= p2 <= b -> runMap tr tr' p1 = runMap tr tr' p2.
Proof.
  intros Hwf Hl Hty E.
  destruct (@across_steps sch tr tr' l Hwf Hl Hty E) as (a & b & n & Hn & Hem & Hab & Hlt).
  exists a, b, n. split; [exact Hn |]. split; [exact Hem |]. split; [exact Hab |].
  split; [exact Hlt |].
  intros p1 p2 H1 H2. unfold runMap. rewrite Hem.
  cbn [map mappingMap fold_left]. rewrite !mapPos_delete by assumption. reflexivity.
Qed.

Lemma cross_list_steps_witness :
  exists a b n,
    rebuiltPreviousItem listSchema trailingBlocksRun = Some n
    /\ emitted trailingBlocksRun trailingBlocksResult
       = [ReplaceStep a b emptySlice;
          ReplaceStep (previousItemStart (lFound trailingBlocksLocated) - 1)
            (previousItemStart (lFound trailingBlocksLocated) - 1
             + nodeSize (previousItem (lFound trailingBlocksLocated)))
            (mkSlice [n] 0 0)]
    /\ ((a = rStart (lRange trailingBlocksLocated)
         /\ b = rEnd (lRange trailingBlocksLocated))
        \/ (endIndex (lRange trailingBlocksLocated)
            = childCount (lList trailingBlocksLocated)
            /\ a = rStart (lRange trailingBlocksLocated) - 1
            /\ b = rEnd (lRange trailingBlocksLocated) + 1))
    /\ rStart (lRange trailingBlocksLocated) < rEnd (lRange trailingBlocksLocated)
    /\ forall p1 p2, a <= p1 <= b -> a <= p2 <= b ->
       runMap trailingBlocksRun trailingBlocksResult p1
       = runMap trailingBlocksRun trailingBlocksResult p2.
Proof.
  apply (@cross_list_steps listSchema trailingBlocksRun trailingBlocksResult
           trailingBlocksLocated); vm_compute; reflexivity.
Defined.

(** X5.  What [sliceSelectedItems] returns on the item range of a selection.
    When the selection ends inside a block of the last selected item, the
    selected slice holds the selected items with the last one cut behind
    that block (and open there by two levels), and the unselected slice
    holds the blocks of the last item that follow; otherwise the selected
    slice holds the selected items as they are and there is no unselected
    slice.  The function does not raise. *)
Theorem sliceSelectedItems_parts sch d from to rfrom rto range :
  wellFormed sch d = true ->
  resolve d from = Some rfrom -> resolve d to = Some rto -> from <= to ->
  calculateItemRange sch rfrom rto = Some range ->
  if (rDepth range + 2 <=? depth rto)%nat
  then exists items0 it ia b0 blk b1,
         rangeItems range = items0 ++ [Elem it ia (b0 ++ blk :: b1)]
         /\ node rto (rDepth range + 2) = blk
         /\ index rto (rDepth range + 1) = List.length b0
         /\ sliceSelectedItems d rto range
            = Ok (mkSlice (items0 ++ [Elem it ia (b0 ++ [blk])]) 0 2,
                  Some (mkSlice b1 0 0))
  else sliceSelectedItems d rto range = Ok (mkSlice (rangeItems range) 0 0, None).
Proof.
  intros Hwf Hrf Hrt Hft Hcalc.
  destruct (@range_shape sch d _ _ _ _ _ Hwf Hrf Hrt Hft Hcalc)
    as (ctx & lt & la & cs & Sh).
  destruct (rangeItems_shape Sh Hft) as [_ Hitems]. rewrite Hitems.
  destruct (Nat.leb_spec (rDepth range + 2) (depth rto)) as [Hdeep | Hshallow].
  - destruct (sliceSelectedItems_deep Sh Hdeep)
      as (items0 & it & ia & b0 & blk & b1 & H1 & _ & H3 & H4 & H5).
    exists items0, it, ia, b0, blk, b1. repeat split; assumption.
  - exact (sliceSelectedItems_shallow Sh Hshallow).
Qed.

Lemma sliceSelectedItems_parts_witness :
  exists items0 it ia b0 blk b1,
    rangeItems (itemRangeAt listSchema trailingBlocks 10 10)
    = items0 ++ [Elem it ia (b0 ++ blk :: b1)]
    /\ node (resolvedAt trailingBlocks 10)
         (rDepth (itemRangeAt listSchema trailingBlocks 10 10) + 2) = blk
    /\ index (resolvedAt trailingBlocks 10)
         (rDepth (itemRangeAt listSchema trailingBlocks 10 10) + 1) = List.length b0
    /\ sliceSelectedItems trailingBlocks (resolvedAt trailingBlocks 10)
         (itemRangeAt listSchema trailingBlocks 10 10)
       = Ok (mkSlice (items0 ++ [Elem it ia (b0 ++ [blk])]) 0 2, Some (mkSlice b1 0 0)).
Proof.
  assert (Hwf : wellFormed listSchema trailingBlocks = true) by (vm_compute; reflexivity).
  assert (Hr : resolve trailingBlocks 10 = Some (resolvedAt trailingBlocks 10))
    by (vm_compute; reflexivity).
  assert (Hc : calculateItemRange listSchema (resolvedAt trailingBlocks 10)
                 (resolvedAt trailingBlocks 10)
               = Some (itemRangeAt listSchema trailingBlocks 10 10))
    by (vm_compute; reflexivity).
  assert (Hd : (rDepth (itemRangeAt listSchema trailingBlocks 10 10) + 2
                <=? depth (resolvedAt trailingBlocks 10))%nat = true)
    by (vm_compute; reflexivity).
  pose proof (@sliceSelectedItems_parts listSchema trailingBlocks 10 10 _ _ _
                Hwf Hr Hr (Z.le_refl 10) Hc) as H.
  rewrite Hd in H. exact H.
Defined.

(** X6.  The document after a cross-list indent.  The previous item, the
    last item of the list in front, gains a copy of the selected list that
    holds the moved items, followed by the trailing blocks; the items of the
    selected list behind the range stay where they are.  When the selection
    ends inside a block of the last selected item, the blocks of that item
    behind this block are the trailing blocks: they leave their item and
    keep their depth. *)
Theorem cross_list_result sch tr tr' l :
  wellFormed sch (doc tr) = true ->
  located sch tr = Some l ->
  sameType l = false ->
  indentList sch tr = Returned true tr' ->
  exists ctx ft fa fl plt pla pis pit pia pic lt la cs fr moved trailing rest,
    doc tr = plug ctx (Elem ft fa
               (fl ++ Elem plt pla (pis ++ [Elem pit pia pic]) :: Elem lt la cs :: fr))
    /\ previousItem (lFound l) = Elem pit pia pic
    /\ lList l = Elem lt la cs
    /\ doc tr'
       = plug ctx (Elem ft fa
           (fl ++ Elem plt pla
                    (pis ++ [Elem pit pia (pic ++ Elem lt la moved :: trailing)])
               :: rest ++ fr))
    /\ ((rest = [] /\ endIndex (lRange l) = List.length cs)
        \/ rest = [Elem lt la (skipn (endIndex (lRange l)) cs)])
    /\ (if (rDepth (lRange l) + 2 <=? depth (lTo l))%nat
        then exists items0 it ia b0 blk b1,
               firstn (endIndex (lRange l)) cs = items0 ++ [Elem it ia (b0 ++ blk :: b1)]
               /\ node (lTo l) (rDepth (lRange l) + 2) = blk
               /\ moved = items0 ++ [Elem it ia (b0 ++ [blk])]
               /\ trailing = b1
        else moved = firstn (endIndex (lRange l)) cs /\ trailing = []).
Proof.
  intros Hwf Hl Hty E.
  pose proof (sameType_false_first _ _ Hl Hty) as H0.
  destruct (@located_across sch tr l Hwf Hl H0)
    as (ctx & ft & fa & fl & plt & pla & pis & pit & pia & pic & lt & la & cs & fr & Sh).
  destruct (across_result Sh Hl Hty E) as (sel & unsel & rest & Hsl & Hd' & Hrest).
  pose proof (ac_range Sh) as Rs.
  exists ctx, ft, fa, fl, plt, pla, pis, pit, pia, pic, lt, la, cs, fr.
  destruct (Nat.leb_spec (rDepth (lRange l) + 2) (depth (lTo l))) as [Hdeep | Hshallow].
  - destruct (sliceSelectedItems_deep Rs Hdeep)
      as (items0 & it & ia & b0 & blk & b1 & H1 & _ & H3 & _ & H5).
    rewrite H0, Nat.sub_0_r in H1. cbn [skipn] in H1.
    rewrite Hsl in H5. injection H5 as Hsel Hunsel. subst sel unsel.
    exists (items0 ++ [Elem it ia (b0 ++ [blk])]), b1, rest.
    split; [exact (ac_doc Sh) |]. split; [rewrite (ac_found Sh); reflexivity |].
    split; [exact (ac_list Sh) |]. split.
    { rewrite Hd'. unfold newPreviousItemContent. cbn [copy contentOf sContent].
      rewrite append_single_elem by reflexivity.
      rewrite append_snoc_nonText by reflexivity. reflexivity. }
    split; [exact Hrest |]. exists items0, it, ia, b0, blk, b1.
    split; [exact H1 |]. split; [exact H3 |]. split; reflexivity.
  - pose proof (sliceSelectedItems_shallow Rs Hshallow) as H5.
    rewrite H0, Nat.sub_0_r in H5. cbn [skipn] in H5.
    rewrite Hsl in H5. injection H5 as Hsel Hunsel. subst sel unsel.
    exists (firstn (endIndex (lRange l)) cs), [], rest.
    split; [exact (ac_doc Sh) |]. split; [rewrite (ac_found Sh); reflexivity |].
    split; [exact (ac_list Sh) |]. split.
    { rewrite Hd'. unfold newPreviousItemContent. cbn [copy contentOf sContent].
      rewrite append_nil_r, append_single_elem by reflexivity. reflexivity. }
    split; [exact Hrest |]. split; reflexivity.
Qed.

Lemma cross_list_result_witness :
  exists ctx ft fa fl plt pla pis pit pia pic lt la cs fr moved trailing rest,
    doc trailingBlocksRun
    = plug ctx (Elem ft fa
        (fl ++ Elem plt pla (pis ++ [Elem pit pia pic]) :: Elem lt la cs :: fr))
    /\ previousItem (lFound trailingBlocksLocated) = Elem pit pia pic
    /\ lList trailingBlocksLocated = Elem lt la cs
    /\ doc trailingBlocksResult
       = plug ctx (Elem ft fa
           (fl ++ Elem plt pla
                    (pis ++ [Elem pit pia (pic ++ Elem lt la moved :: trailing)])
               :: rest ++ fr))
    /\ ((rest = [] /\ endIndex (lRange trailingBlocksLocated) = List.length cs)
        \/ rest = [Elem lt la (skipn (endIndex (lRange trailingBlocksLocated)) cs)])
    /\ (if (rDepth (lRange trailingBlocksLocated) + 2
            <=? depth (lTo trailingBlocksLocated))%nat
        then exists items0 it ia b0 blk b1,
               firstn (endIndex (lRange trailingBlocksLocated)) cs
               = items0 ++ [Elem it ia (b0 ++ blk :: b1)]
               /\ node (lTo trailingBlocksLocated)
                    (rDepth (lRange trailingBlocksLocated) + 2) = blk
               /\ moved = items0 ++ [Elem it ia (b0 ++ [blk])]
               /\ trailing = b1
        else moved = firstn (endIndex (lRange trailingBlocksLocated)) cs
             /\ trailing = []).
Proof.
  apply (@cross_list_result listSchema trailingBlocksRun trailingBlocksResult
           trailingBlocksLocated); vm_compute; reflexivity.
Defined.

Lemma wellFormed_context sch d ctx lt :
  wellFormed sch d = true -> isList sch lt = true ->
  forall la cs, d = plug ctx (Elem lt la cs) -> exists ctx' f, ctx = ctx' ++ [f].
Proof.
  intros Hwf Hlist la cs Hdoc.
  destruct (snoc_cases ctx) as [Hnil | (ctx' & f & Hctx)]; [| eauto].
  exfalso. rewrite Hnil in Hdoc. cbn [plug] in Hdoc. unfold wellFormed in Hwf.
  rewrite Hdoc in Hwf. cbn [isText typeOf negb andb] in Hwf.
  rewrite Hlist in Hwf. discriminate.
Qed.

Lemma range_parent sch d from to rfrom rto range ctx lt la cs rs :
  RangeShape sch d from to rfrom rto range ctx lt la cs ->
  resolve d (rStart range) = Some rs ->
  parent rs = Elem lt la cs.
Proof.
  intros Sh Hrs. pose proof (rs_idx Sh) as Hidx.
  assert (Hpos : positive cs).
  { apply normals_positive. exact (@normal_children _ _ _ (rs_normal Sh)). }
  pose proof (@flat_from ctx lt la cs (startIndex range) (rs_ctx Sh) Hpos ltac:(lia)) as Hp.
  rewrite <- (rs_doc Sh), <- (rs_start Sh), Hrs in Hp. injection Hp as ->.
  unfold parent. rewrite hole_depth. cbn [List.length].
  rewrite Nat.add_0_r, hole_node. reflexivity.
Qed.

(** X7.  Two lists of the same type next to each other, and a selection
    that starts in the first item of the second: the command takes its
    first branch, the step does not apply, and the command ends with the
    [TransformError] of [tr.step]; the transaction is as it was. *)
Theorem adjacent_same_type_raises sch tr l :
  wellFormed sch (doc tr) = true ->
  located sch tr = Some l ->
  sameType l = true ->
  startIndex (lRange l) = 0%nat ->
  indentList sch tr = Threw TransformError tr.
Proof.
  intros Hwf Hl Hty H0.
  destruct (located_inv _ _ Hl) as (rs & Hrf & Hrt & Hcalc & _).
  destruct (@range_shape sch (doc tr) _ _ _ _ _ Hwf Hrf Hrt (sel_min_max tr) Hcalc)
    as (ctx & lt & la & cs & Sh).
  rewrite (indentList_first_branch _ _ Hl Hty).
  rewrite (@step_first_item_fails sch tr _ _ _ ctx lt la cs (lList l) Hwf Sh H0).
  reflexivity.
Qed.

Lemma adjacent_same_type_raises_witness :
  indentList listSchema sameTypeRun = Threw TransformError sameTypeRun.
Proof.
  apply (@adjacent_same_type_raises listSchema sameTypeRun sameTypeLocated);
    vm_compute; reflexivity.
Defined.

(** X8.  On a well-formed document [findPreviousItem] raises in one
    situation only: the range starts at the first item of its list and the
    node in front of that list is a list without children (the lookup of
    its last child fails).  The exception is a [RangeError], and
    [indentList] ends with it, the transaction as it was. *)
Theorem findPreviousItem_raises sch tr rfrom rto range rs :
  wellFormed sch (doc tr) = true ->
  resolve (doc tr) (selFrom tr) = Some rfrom ->
  resolve (doc tr) (selTo tr) = Some rto ->
  calculateItemRange sch rfrom rto = Some range ->
  resolve (doc tr) (rStart range) = Some rs ->
  (forall e, findPreviousItem sch (parent rs) rfrom range = Raise e ->
     e = RangeError /\ emptyPreviousList sch rfrom range
     /\ indentList sch tr = Threw RangeError tr)
  /\ (emptyPreviousList sch rfrom range ->
      findPreviousItem sch (parent rs) rfrom range = Raise RangeError).
Proof.
  intros Hwf Hrf Hrt Hcalc Hrs.
  split; [| apply emptyPreviousList_raises].
  intros e Hraise.
  destruct (@range_shape sch (doc tr) _ _ _ _ _ Hwf Hrf Hrt (sel_min_max tr) Hcalc)
    as (ctx & lt & la & cs & Sh).
  pose proof (range_parent Sh Hrs) as HP.
  assert (He : e = RangeError /\ emptyPreviousList sch rfrom range).
  { destruct (Nat.eq_dec (startIndex range) 0) as [H0 | Hne].
    - destruct (@wellFormed_context sch (doc tr) ctx lt Hwf (rs_list Sh) la cs (rs_doc Sh))
        as (ctx' & f & ->).
      rewrite HP in Hraise.
      exact (@findPreviousItem_raise_first sch _ _ _ _ _ _ ctx' f lt la cs e Sh H0 Hraise).
    - exfalso. assert (Hsi : (1 <= startIndex range)%nat) by lia.
      destruct (@same_list_shape sch tr _ _ _ Hwf Hrf Hrt Hcalc Hsi)
        as (c2 & lt2 & la2 & pre & pt & pa & pc & sel0 & st & sa & sc & post & Sh2).
      pose proof (@located_same_list sch tr _ _ _ c2 lt2 la2 pre pt pa pc sel0 st sa sc post
                    Hrf Hrt Hcalc Hsi Sh2) as Hloc.
      destruct (located_inv _ _ Hloc) as (rs' & _ & _ & _ & Hrs' & HL' & _ & Hf).
      cbn [lFrom lTo lRange lList lFound] in Hrs', HL', Hf.
      rewrite Hrs in Hrs'. injection Hrs' as <-.
      rewrite HL', Hraise in Hf. discriminate. }
  destruct He as [-> Hempty]. split; [reflexivity |]. split; [exact Hempty |].
  unfold indentList. rewrite Hrf, Hrt, Hcalc, Hrs.
  replace (isListNode sch (parent rs)) with true
    by (rewrite HP; symmetry; exact (rs_list Sh)).
  cbn [negb]. rewrite Hraise. reflexivity.
Qed.

Lemma findPreviousItem_raises_witness :
  (forall e,
     findPreviousItem listSchema (parent (resolvedAt emptyThenList 3))
       (resolvedAt emptyThenList 5) (itemRangeAt listSchema emptyThenList 5 5)
     = Raise e ->
     e = RangeError
     /\ emptyPreviousList listSchema (resolvedAt emptyThenList 5)
          (itemRangeAt listSchema emptyThenList 5 5)
     /\ indentList listSchema (startTr emptyThenList 5 5)
        = Threw RangeError (startTr emptyThenList 5 5))
  /\ (emptyPreviousList listSchema (resolvedAt emptyThenList 5)
        (itemRangeAt listSchema emptyThenList 5 5) ->
      findPreviousItem listSchema (parent (resolvedAt emptyThenList 3))
        (resolvedAt emptyThenList 5) (itemRangeAt listSchema emptyThenList 5 5)
      = Raise RangeError).
Proof.
  apply (@findPreviousItem_raises listSchema (startTr emptyThenList 5 5)
           (resolvedAt emptyThenList 5) (resolvedAt emptyThenList 5)
           (itemRangeAt listSchema emptyThenList 5 5) (resolvedAt emptyThenList 3));
    vm_compute; reflexivity.
Defined.

(** X9.  In the schema of the list editor the indent of items that have a
    previous item in their list always goes through: on a document that
    matches the schema, a selection whose item range does not start at the
    first item of its list makes [indentList] return [true]. *)
Theorem list_schema_indent_succeeds tr rfrom rto range :
  wellFormed listSchema (doc tr) = true ->
  check listSchema (doc tr) = true ->
  resolve (doc tr) (selFrom tr) = Some rfrom ->
  resolve (doc tr) (selTo tr) = Some rto ->
  calculateItemRange listSchema rfrom rto = Some range ->
  (1 <= startIndex range)%nat ->
  exists tr', indentList listSchema tr = Returned true tr'.
Proof.
  intros Hwf Hchk Hrf Hrt Hcalc Hsi.
  destruct (@same_list_shape listSchema tr _ _ _ Hwf Hrf Hrt Hcalc Hsi)
    as (ctx & lt & la & pre & pt & pa & pc & sel0 & st & sa & sc & post & Sh).
  rewrite (@indentList_same_list listSchema tr _ _ _ ctx lt la pre pt pa pc sel0 st sa sc
             post Hrf Hrt Hcalc Hsi Sh).
  rewrite (sl_doc Sh) in Hchk.
  pose proof (check_in_hole _ _ _ Hchk) as HcL.
  rewrite check_Elem in HcL. apply andb_true_iff in HcL. destruct HcL as [HvL Hall].
  destruct (@listSchema_list_valid lt _ (sl_list Sh) HvL) as (it & Hit & Hty & Hre).
  rewrite !childTypes_app in Hty. cbn [childTypes map] in Hty.
  rewrite map_app, map_app in Hty. cbn [map typeOf] in Hty.
  assert (Hpt : pt = it).
  { apply (@allOf_eqb_In it _ pt Hty). apply in_or_app. right. left. reflexivity. }
  assert (Hst : st = it).
  { apply (@allOf_eqb_In it _ st Hty). apply in_or_app. right. right.
    apply in_or_app. left. apply in_or_app. right. left. reflexivity. }
  subst pt st.
  rewrite forallb_app in Hall. apply andb_true_iff in Hall. destruct Hall as [_ Hall].
  cbn [forallb] in Hall. apply andb_true_iff in Hall. destruct Hall as [Hprev _].
  rewrite check_Elem in Hprev. apply andb_true_iff in Hprev. destruct Hprev as [Hvp _].
  rewrite (@listSchema_item_valid it _ Hit) in Hvp.
  assert (H1 : joinChecks listSchema it it = true).
  { unfold joinChecks. cbn [compatibleContent listSchema].
    rewrite compatible_refl. reflexivity. }
  assert (H2 : validContent listSchema it
                 (childTypes (pc ++ [Elem lt la (sel0 ++ [Elem it sa sc])])) = true).
  { rewrite (@listSchema_item_valid it _ Hit), childTypes_app. cbn [childTypes map typeOf].
    apply itemContent_snoc; [exact Hvp |]. apply isBlock_list. exact (sl_list Sh). }
  assert (H3 : validContent listSchema lt
                 (childTypes (pre ++ Elem it pa (pc ++ [Elem lt la (sel0 ++ [Elem it sa sc])])
                              :: post)) = true).
  { apply Hre.
    - intros Hnil. apply map_eq_nil in Hnil. apply app_eq_nil in Hnil.
      destruct Hnil; discriminate.
    - rewrite childTypes_app. cbn [childTypes map typeOf].
      unfold allOf in *. rewrite forallb_app in Hty |- *.
      apply andb_true_iff in Hty. destruct Hty as [Hp Hr]. rewrite Hp. cbn [andb forallb].
      cbn [forallb] in Hr. apply andb_true_iff in Hr. destruct Hr as [Hi Hr].
      rewrite Hi. cbn [andb]. rewrite forallb_app in Hr.
      apply andb_true_iff in Hr. tauto. }
  rewrite H1, H2, H3. cbn [andb]. eexists. reflexivity.
Qed.

Lemma list_schema_indent_succeeds_witness :
  exists tr', indentList listSchema (twoItemsRun TaskListUnchecked) = Returned true tr'.
Proof.
  apply (@list_schema_indent_succeeds (twoItemsRun TaskListUnchecked)
           (resolvedAt (threeItems TaskListUnchecked) 13)
           (resolvedAt (threeItems TaskListUnchecked) 27)
           (itemRangeAt listSchema (threeItems TaskListUnchecked) 13 27));
    vm_compute; reflexivity.
Defined.

(** X10.  A same-list indent leaves every position inside the selected items
    where it is in its node: the position resolves, after the run, two
    levels deeper, in the same parent node and at the same offset, below
    the same chain of ancestors up to the item.  In particular the cursor
    does not move in the text. *)
Theorem same_list_cursor sch tr tr' l p r :
  wellFormed sch (doc tr) = true ->
  located sch tr = Some l ->
  sameType l = true ->
  indentList sch tr = Returned true tr' ->
  rStart (lRange l) <= p <= rEnd (lRange l) ->
  resolve (doc tr) p = Some r ->
  (rDepth (lRange l) < depth r)%nat ->
  exists r',
    resolve (doc tr') p = Some r'
    /\ depth r' = (depth r + 2)%nat
    /\ parent r' = parent r
    /\ parentOffset r' = parentOffset r
    /\ textOffset r' = textOffset r
    /\ forall x, (rDepth (lRange l) < x <= depth r)%nat -> node r' (x + 2) = node r x.
Proof.
  intros Hwf Hl Hty E Hp Hr Hd.
  destruct (@indentList_wrapped sch tr tr' l Hwf Hl Hty E)
    as (ctx & lt & la & pre & pt & pa & pc & post & W).
  pose proof (@normal_children _ _ _ (wr_normal W)) as Hcs.
  pose proof (normals_positive _ Hcs) as Hpos.
  assert (Hpc : positive pc).
  { assert (Hn : normal (Elem pt pa pc) = true).
    { apply (normals_In _ _ Hcs). apply in_or_app. right. left. reflexivity. }
    exact (normals_positive _ (@normal_children _ _ _ Hn)). }
  pose proof (wr_start W) as Hs. pose proof (wr_end W) as He.
  destruct (@window_paths ctx lt la pre pt pa pc (selectedItems l) post
              (wr_ctx W) Hpos Hpc p ltac:(lia) ltac:(lia))
    as (idx & off & tail & _ & _ & Hold & Hnew).
  rewrite (wr_doc W), Hold in Hr. injection Hr as <-.
  rewrite levels_depth_r, <- (wr_depth W) in Hd.
  assert (Htail : tail <> []).
  { intros Hnil. rewrite Hnil in Hd. cbn [List.length] in Hd. lia. }
  eexists. rewrite (wr_tr W). cbn [doc]. split; [exact Hnew |].
  match goal with
  | |- depth ?a = (depth ?b + 2)%nat /\ _ =>
      assert (Hdep : depth a = (depth b + 2)%nat) by apply levels_depth
  end.
  split; [exact Hdep |]. split; [apply levels_parent; exact Htail |].
  split.
  { unfold parentOffset. rewrite Hdep, levels_depth_r. cbn [pos]. f_equal.
    replace (List.length ctx + List.length tail + 2)%nat
      with (List.length ctx + 2 + List.length tail)%nat by lia.
    apply levels_start; [reflexivity |].
    destruct tail; [contradiction | cbn [List.length]; lia]. }
  split; [apply levels_textOffset; reflexivity |].
  intros x Hx. rewrite levels_depth_r, <- (wr_depth W) in Hx.
  replace (x + 2)%nat with (List.length ctx + 2 + (x - List.length ctx))%nat by lia.
  replace x with (List.length ctx + (x - List.length ctx))%nat at 2 by lia.
  apply levels_node. lia.
Qed.

Lemma same_list_cursor_witness :
  exists r',
    resolve (doc (secondItemResult UnorderedList)) 13 = Some r'
    /\ depth r' = (depth (resolvedAt (threeItems UnorderedList) 13) + 2)%nat
    /\ parent r' = parent (resolvedAt (threeItems UnorderedList) 13)
    /\ parentOffset r' = parentOffset (resolvedAt (threeItems UnorderedList) 13)
    /\ textOffset r' = textOffset (resolvedAt (threeItems UnorderedList) 13)
    /\ forall x,
         (rDepth (lRange (secondItemLocated UnorderedList)) < x
          <= depth (resolvedAt (threeItems UnorderedList) 13))%nat ->
         node r' (x + 2) = node (resolvedAt (threeItems UnorderedList) 13) x.
Proof.
  apply (@same_list_cursor listSchema (secondItemRun UnorderedList)
           (secondItemResult UnorderedList) (secondItemLocated UnorderedList) 13
           (resolvedAt (threeItems UnorderedList) 13));
    vm_compute; try reflexivity.
  - split; discriminate.
  - lia.
Defined.

Lemma indentList_false_same sch tr tr' :
  indentList sch tr = Returned false tr' -> tr' = tr.
Proof.
  unfold indentList.
  destruct (resolve (doc tr) (selFrom tr)) as [rfrom |]; [| discriminate].
  destruct (resolve (doc tr) (selTo tr)) as [rto |]; [| discriminate].
  destruct (calculateItemRange sch rfrom rto) as [range |]; [| congruence].
  destruct (resolve (doc tr) (rStart range)) as [rs |]; [| discriminate].
  destruct (negb (isListNode sch (parent rs))); [congruence |].
  destruct (findPreviousItem sch (parent rs) rfrom range) as [[found |] | e];
    [| congruence | discriminate].
  assert (Hfin : forall r,
    andThen r (fun tr1 =>
      andThen (if previousIsSelected found
               then setSelection tr1 (pos rfrom) (pos rto)
               else setSelection tr1 (pos rfrom - 2) (pos rto - 2))
        (fun tr2 => Returned true tr2)) = Returned false tr' -> tr' = tr).
  { intros r H. apply andThen_returned in H. destruct H as (tr1 & _ & H).
    apply andThen_returned in H. destruct H as (tr2 & _ & H). discriminate. }
  destruct (String.eqb _ _); [apply Hfin |].
  destruct (sliceSelectedItems (doc tr) rto range) as [[sel unsel] | e]; [| discriminate].
  intros H. apply andThen_returned in H. destruct H as (tr1 & _ & H).
  destruct (negb (check sch _)); [discriminate |]. exact (Hfin _ H).
Qed.

Lemma indentList_emits sch tr tr' :
  wellFormed sch (doc tr) = true ->
  indentList sch tr = Returned true tr' -> emitted tr tr' <> [].
Proof.
  intros Hwf E. pose proof E as E0.
  apply indentList_true in E0. destruct E0 as (l & _ & Hl & _).
  destruct (sameType l) eqn:Hty.
  - destruct (@indentList_wrapped sch tr tr' l Hwf Hl Hty E)
      as (ctx & lt & la & pre & pt & pa & pc & post & W).
    unfold emitted. rewrite (wr_tr W). cbn [steps]. rewrite emitted_app. discriminate.
  - destruct (@across_steps sch tr tr' l Hwf Hl Hty E) as (a & b & n & _ & Hem & _).
    rewrite Hem. discriminate.
Qed.

(** X11.  The command function reports the key as handled whatever the
    outcome: whenever it returns, it returns [true].  Either [indentList]
    returned [false], then nothing is dispatched and the transaction is as
    it was; or [indentList] returned [true], then the transaction has gained
    at least one step, and it is dispatched exactly when a [dispatch]
    function was passed (without one it is transformed all the same). *)
Theorem indentListCommand_handles sch tr hasDispatch result dispatched tr' :
  wellFormed sch (doc tr) = true ->
  indentListCommand sch tr hasDispatch = Handled result dispatched tr' ->
  result = true
  /\ ((indentList sch tr = Returned false tr /\ tr' = tr /\ dispatched = None)
      \/ (indentList sch tr = Returned true tr' /\ emitted tr tr' <> []
          /\ dispatched = if hasDispatch then Some tr' else None)).
Proof.
  intros Hwf. unfold indentListCommand.
  destruct (indentList sch tr) as [b tr1 | e tr1 | tr1] eqn:E; try discriminate.
  intros H. injection H as <- <- <-. split; [reflexivity |].
  destruct b.
  - right. split; [reflexivity |]. split; [| reflexivity].
    exact (@indentList_emits sch tr tr1 Hwf E).
  - left. pose proof (@indentList_false_same sch tr tr1 E) as ->.
    split; [reflexivity |]. split; reflexivity.
Qed.

Lemma indentListCommand_handles_witness :
  true = true
  /\ ((indentList listSchema (secondItemRun OrderedList)
       = Returned false (secondItemRun OrderedList)
       /\ secondItemResult OrderedList = secondItemRun OrderedList
       /\ Some (secondItemResult OrderedList) = None)
      \/ (indentList listSchema (secondItemRun OrderedList)
          = Returned true (secondItemResult OrderedList)
          /\ emitted (secondItemRun OrderedList) (secondItemResult OrderedList) <> []
          /\ Some (secondItemResult OrderedList)
             = if true then Some (secondItemResult OrderedList) else None)).
Proof.
  apply (@indentListCommand_handles listSchema (secondItemRun OrderedList) true true
           (Some (secondItemResult OrderedList)) (secondItemResult OrderedList));
    vm_compute; reflexivity.
Defined.

(** X12.  The indent does not repeat: after a same-list indent the selected
    items are the first items of the new nested list, and a second call of
    [indentList] on the resulting transaction returns [false] and leaves it
    as it is, provided the last child of the previous item was not a list
    node (there is then no list in front of the new one). *)
Theorem second_indent_returns_false sch tr tr' l :
  wellFormed sch (doc tr) = true ->
  located sch tr = Some l ->
  sameType l = true ->
  indentList sch tr = Returned true tr' ->
  (forall x,
     nth_error (contentOf (previousItem (lFound l)))
       (childCount (previousItem (lFound l)) - 1) = Some x ->
     isListNode sch x = false) ->
  indentList sch tr' = Returned false tr'.
Proof.
  intros Hwf Hl Hty E Hlast.
  destruct (@indentList_wrapped sch tr tr' l Hwf Hl Hty E)
    as (ctx & lt & la & pre & pt & pa & pc & post & W).
  destruct (located_inv _ _ Hl) as (rs & Hrf & Hrt & Hcalc & _ & _ & Hisl & _).
  pose proof (@normal_children _ _ _ (wr_normal W)) as Hcs.
  pose proof (normals_positive _ Hcs) as Hpos.
  assert (Hpc : positive pc).
  { assert (Hn : normal (Elem pt pa pc) = true).
    { apply (normals_In _ _ Hcs). apply in_or_app. right. left. reflexivity. }
    exact (normals_positive _ (@normal_children _ _ _ Hn)). }
  pose proof (sel_min_max tr) as Hmm.
  assert (HsF : selFrom tr' = selFrom tr).
  { rewrite (wr_tr W). unfold selFrom at 1. cbn [anchor head]. lia. }
  assert (HsT : selTo tr' = selTo tr).
  { rewrite (wr_tr W). unfold selTo at 1. cbn [anchor head]. lia. }
  pose proof (wr_start W) as Hs. pose proof (wr_end W) as He.
  pose proof (wr_from W) as Hfrom. pose proof (wr_to W) as Hto.
  rewrite (wr_found W) in Hlast. cbn [previousItem contentOf] in Hlast.
  unfold childCount in Hlast. cbn [contentOf] in Hlast.
  rewrite (wr_list W) in Hisl. rewrite (wr_doc W) in Hrf, Hrt.
  apply (@indent_again sch ctx lt la pre pt pa pc (selectedItems l) post
           (wr_ctx W) Hpos Hpc tr' (lFrom l) (lTo l) (lRange l)).
  - rewrite (wr_tr W). reflexivity.
  - rewrite HsF. lia.
  - rewrite HsT. lia.
  - exact Hisl.
  - rewrite HsF. exact Hrf.
  - rewrite HsT. exact Hrt.
  - exact Hcalc.
  - symmetry. exact (wr_depth W).
  - pose proof (wr_pre W). pose proof (wr_first W). lia.
  - exact Hlast.
Qed.

Lemma second_indent_returns_false_witness :
  indentList listSchema (secondItemResult UnorderedList)
  = Returned false (secondItemResult UnorderedList).
Proof.
  apply (@second_indent_returns_false listSchema (secondItemRun UnorderedList)
           (secondItemResult UnorderedList) (secondItemLocated UnorderedList)).
  - vm_compute; reflexivity.
  - vm_compute; reflexivity.
  - vm_compute; reflexivity.
  - vm_compute; reflexivity.
  - intros x Hx. vm_compute in Hx. injection Hx as <-. vm_compute; reflexivity.
Defined.

(** X13.  In every run that returns [true] the two tests of the command
    agree: [previousList === selectedList], which chooses the new selection,
    holds exactly when [previousList.type === selectedList.type], which
    chooses the branch.  So the selection is left at its positions in the
    first branch and moved back by two in the second. *)
Theorem selection_test_agrees sch tr tr' l :
  wellFormed sch (doc tr) = true ->
  located sch tr = Some l ->
  indentList sch tr = Returned true tr' ->
  previousIsSelected (lFound l) = sameType l
  /\ anchor tr' = (if sameType l then selFrom tr else selFrom tr - 2)
  /\ head tr' = (if sameType l then selTo tr else selTo tr - 2).
Proof.
  intros Hwf Hl E.
  destruct (located_inv _ _ Hl) as (rs & Hrf & Hrt & Hcalc & _ & _ & _ & Hf).
  assert (Heq : previousIsSelected (lFound l) = sameType l).
  { destruct (findPreviousItem_branch _ _ _ _ Hf) as [(Hp & _ & Hsame) | (Hp & H0)].
    - rewrite Hp. unfold sameType. rewrite Hsame, String.eqb_refl. reflexivity.
    - rewrite Hp. destruct (sameType l) eqn:Hty; [| reflexivity]. exfalso.
      destruct (@range_shape sch (doc tr) _ _ _ _ _ Hwf Hrf Hrt (sel_min_max tr) Hcalc)
        as (ctx & lt & la & cs & Sh).
      rewrite (indentList_first_branch _ _ Hl Hty) in E.
      rewrite (@step_first_item_fails sch tr _ _ _ ctx lt la cs (lList l) Hwf Sh H0) in E.
      discriminate. }
  split; [exact Heq |]. rewrite <- Heq.
  apply indentList_true in E.
  destruct E as (l' & tr1 & Hl' & _ & _ & _ & _ & _ & Ha & Hh).
  assert (l' = l) by congruence. subst l'. split; assumption.
Qed.

Lemma selection_test_agrees_witness :
  previousIsSelected (lFound crossTypeLocated) = sameType crossTypeLocated
  /\ anchor crossTypeResult
     = (if sameType crossTypeLocated
        then selFrom crossTypeRun else selFrom crossTypeRun - 2)
  /\ head crossTypeResult
     = (if sameType crossTypeLocated
        then selTo crossTypeRun else selTo crossTypeRun - 2).
Proof.
  apply (@selection_test_agrees listSchema crossTypeRun crossTypeResult crossTypeLocated);
    vm_compute; reflexivity.
Defined.

(** X14.  A cross-list indent keeps the document valid, whatever the
    schema: when the document matches the schema and the second branch
    returns [true], the resulting document matches the schema too (the
    deletion and the replacement only go through when the content they
    leave is valid, and the rebuilt item is checked). *)
Theorem cross_list_keeps_schema sch tr tr' l :
  wellFormed sch (doc tr) = true ->
  check sch (doc tr) = true ->
  located sch tr = Some l ->
  sameType l = false ->
  indentList sch tr = Returned true tr' ->
  check sch (doc tr') = true.
Proof.
  intros Hwf Hchk Hl Hty E.
  destruct (@indentList_rebuild sch tr tr' l Hwf Hl Hty E)
    as (ctx & ft & fa & fl & plt & pla & pis & prev & lt & la & cs & fr & n & rest & R).
  rewrite (rb_doc R) in Hchk. rewrite (rb_doc' R).
  pose proof (check_in_hole _ _ _ Hchk) as Hc.
  rewrite check_Elem in Hc. apply andb_true_iff in Hc. destruct Hc as [Hv Hall].
  rewrite forallb_app in Hall. apply andb_true_iff in Hall. destruct Hall as [Hfl Hall].
  cbn [forallb] in Hall. apply andb_true_iff in Hall. destruct Hall as [HPL Hall].
  apply andb_true_iff in Hall. destruct Hall as [HL Hfr].
  rewrite check_Elem in HPL. apply andb_true_iff in HPL. destruct HPL as [_ Hpis].
  rewrite forallb_app in Hpis. apply andb_true_iff in Hpis. destruct Hpis as [Hpis _].
  rewrite check_Elem in HL. apply andb_true_iff in HL. destruct HL as [_ Hcs].
  assert (HPL' : check sch (Elem plt pla (pis ++ [n])) = true).
  { rewrite check_Elem, (rb_valid R), forallb_app, Hpis. cbn [forallb andb].
    rewrite (rb_check R). reflexivity. }
  apply (@check_replaced sch ctx _ _ Hchk); [| reflexivity].
  rewrite check_Elem.
  destruct (rb_rest R) as [(-> & _ & Hv') | (-> & Hv')].
  - cbn [app]. rewrite forallb_app. cbn [forallb]. rewrite Hfl, HPL', Hfr. cbn [andb].
    rewrite andb_true_r.
    rewrite childTypes_app in Hv' |- *. cbn [childTypes map typeOf] in Hv' |- *.
    exact Hv'.
  - cbn [app]. rewrite forallb_app. cbn [forallb]. rewrite Hfl, HPL', Hfr. cbn [andb].
    rewrite check_Elem, Hv', (forallb_skipn _ _ _ Hcs). cbn [andb].
    rewrite andb_true_r.
    rewrite childTypes_app in Hv |- *. cbn [childTypes map typeOf] in Hv |- *.
    exact Hv.
Qed.

Lemma cross_list_keeps_schema_witness :
  check listSchema (doc crossTypeResult) = true.
Proof.
  apply (@cross_list_keeps_schema listSchema crossTypeRun crossTypeResult crossTypeLocated);
    vm_compute; reflexivity.
Defined.

Ltac text_norm :=
  repeat (rewrite ?textContent_Elem, ?fragText_app, ?fragText_cons, ?sappend_assoc,
            ?sappend_nil_r, ?sappend_nil_l;
          cbn [fragText]).

(** X15.  The indent keeps the text of the document.  Whatever
    [indentList] returns, and whichever branch it takes, the text content of
    the document of the transaction is the text content of the document it
    started from: items and blocks are moved with their text, in the same
    order, and nothing is lost or repeated. *)
Theorem indentList_keeps_text sch tr b tr' :
  wellFormed sch (doc tr) = true ->
  indentList sch tr = Returned b tr' ->
  textContent (doc tr') = textContent (doc tr).
Proof.
  intros Hwf E. destruct b.
  2:{ now rewrite (@indentList_false_same sch tr tr' E). }
  destruct (@indentList_true sch tr tr' E) as (l & tr1 & Hl & _).
  destruct (sameType l) eqn:Hty.
  - destruct (@indentList_wrapped sch tr tr' l Hwf Hl Hty E)
      as (ctx & lt & la & pre & pt & pa & pc & post & W).
    rewrite (wr_tr W), (wr_doc W). cbn [doc]. apply textContent_plug.
    text_norm. reflexivity.
  - pose proof (sameType_false_first _ _ Hl Hty) as H0.
    destruct (@located_across sch tr l Hwf Hl H0)
      as (ctx & ft & fa & fl & plt & pla & pis & pit & pia & pic & lt & la & cs & fr & Sh).
    destruct (across_result Sh Hl Hty E) as (sel & unsel & rest & Hsl & Hd' & Hrest).
    pose proof (ac_range Sh) as Rs.
    assert (Hcs : fragText cs
                  = String.append (fragText (firstn (endIndex (lRange l)) cs))
                      (fragText rest)).
    { destruct Hrest as [(-> & Hall) | ->].
      - rewrite Hall, firstn_all. text_norm. reflexivity.
      - text_norm. rewrite <- fragText_app, firstn_skipn. reflexivity. }
    assert (Hnew : fragText (newPreviousItemContent (Elem pit pia pic) (Elem lt la cs)
                               sel unsel)
                   = String.append (fragText pic)
                       (fragText (firstn (endIndex (lRange l)) cs))).
    { destruct (Nat.leb_spec (rDepth (lRange l) + 2) (depth (lTo l))) as [Hdeep | Hshallow].
      - destruct (sliceSelectedItems_deep Rs Hdeep)
          as (items0 & it & ia & b0 & blk & b1 & H1 & _ & _ & _ & H5).
        rewrite H0, Nat.sub_0_r in H1. cbn [skipn] in H1.
        rewrite Hsl in H5. injection H5 as Hsel Hunsel. subst sel unsel.
        unfold newPreviousItemContent. cbn [copy contentOf sContent].
        rewrite append_single_elem by reflexivity.
        rewrite append_snoc_nonText by reflexivity.
        rewrite H1. text_norm. reflexivity.
      - pose proof (sliceSelectedItems_shallow Rs Hshallow) as H5.
        rewrite H0, Nat.sub_0_r in H5. cbn [skipn] in H5.
        rewrite Hsl in H5. injection H5 as Hsel Hunsel. subst sel unsel.
        unfold newPreviousItemContent. cbn [copy contentOf sContent].
        rewrite append_nil_r, append_single_elem by reflexivity.
        text_norm. reflexivity. }
    rewrite Hd', (ac_doc Sh). apply textContent_plug.
    cbn [copy]. text_norm. rewrite Hnew, Hcs. text_norm. reflexivity.
Qed.

Lemma indentList_keeps_text_witness :
  textContent (doc trailingBlocksResult) = textContent (doc trailingBlocksRun).
Proof.
  apply (@indentList_keeps_text listSchema trailingBlocksRun true trailingBlocksResult);
    vm_compute; reflexivity.
Defined.

Ltac tok_norm :=
  repeat (rewrite ?tokens_Elem, ?fragTokens_app, <- ?app_assoc, ?app_nil_r;
          cbn [fragTokens app]).

(** Two streams that agree up to a prefix, in which the second drops two
    tokens in front of a window. *)
Lemma shift_tokens (A : Type) (P I R R' : list A) (c1 c2 o : A) (s n : Z) :
  Z.of_nat (List.length P) = s - 3 ->
  n <= Z.of_nat (List.length I) ->
  nth_error (P ++ c1 :: c2 :: o :: I ++ R) (Z.to_nat (s - 3)) = Some c1
  /\ nth_error (P ++ c1 :: c2 :: o :: I ++ R) (Z.to_nat (s - 2)) = Some c2
  /\ nth_error (P ++ o :: I ++ R') (Z.to_nat (s - 3))
     = nth_error (P ++ c1 :: c2 :: o :: I ++ R) (Z.to_nat (s - 1))
  /\ (forall p, 0 <= p < s - 3 ->
        nth_error (P ++ o :: I ++ R') (Z.to_nat p)
        = nth_error (P ++ c1 :: c2 :: o :: I ++ R) (Z.to_nat p))
  /\ (forall p, s <= p < s + n ->
        nth_error (P ++ o :: I ++ R') (Z.to_nat (p - 2))
        = nth_error (P ++ c1 :: c2 :: o :: I ++ R) (Z.to_nat p)).
Proof.
  intros HP HI.
  assert (Hat : forall (X : list A) k,
            nth_error (P ++ X) (List.length P + k) = nth_error X k).
  { intros X k. rewrite nth_error_app2 by lia. f_equal. lia. }
  split.
  { replace (Z.to_nat (s - 3)) with (List.length P + 0)%nat by lia. now rewrite Hat. }
  split.
  { replace (Z.to_nat (s - 2)) with (List.length P + 1)%nat by lia. now rewrite Hat. }
  split.
  { replace (Z.to_nat (s - 3)) with (List.length P + 0)%nat by lia.
    replace (Z.to_nat (s - 1)) with (List.length P + 2)%nat by lia.
    now rewrite !Hat. }
  split.
  - intros p Hp. rewrite !nth_error_app1 by lia. reflexivity.
  - intros p Hp.
    replace (Z.to_nat (p - 2)) with (List.length P + S (Z.to_nat (p - s)))%nat by lia.
    replace (Z.to_nat p) with (List.length P + S (S (S (Z.to_nat (p - s)))))%nat by lia.
    rewrite !Hat. cbn [nth_error]. rewrite !nth_error_app1 by lia. reflexivity.
Qed.

(** X16.  What a cross-list indent does to the token stream in front of
    the selection.  The two closing tokens in front of the selected list,
    those of the previous item and of the previous list, go; the tokens in
    front of them stay, the opening token of the selected list follows them
    directly, and every token of the selected slice is found two positions
    earlier.  This is the shift by two that the command applies to the
    selection. *)
Theorem cross_list_tokens sch tr tr' l :
  wellFormed sch (doc tr) = true ->
  located sch tr = Some l ->
  sameType l = false ->
  indentList sch tr = Returned true tr' ->
  exists sel unsel,
    sliceSelectedItems (doc tr) (lTo l) (lRange l) = Ok (sel, unsel)
    /\ nth_error (docTokens (doc tr)) (Z.to_nat (rStart (lRange l) - 3)) = Some TClose
    /\ nth_error (docTokens (doc tr)) (Z.to_nat (rStart (lRange l) - 2)) = Some TClose
    /\ nth_error (docTokens (doc tr)) (Z.to_nat (rStart (lRange l) - 1))
       = Some (TOpen (typeOf (lList l)) (attrsOf (lList l)))
    /\ nth_error (docTokens (doc tr')) (Z.to_nat (rStart (lRange l) - 3))
       = Some (TOpen (typeOf (lList l)) (attrsOf (lList l)))
    /\ (forall p, 0 <= p < rStart (lRange l) - 3 ->
          nth_error (docTokens (doc tr')) (Z.to_nat p)
          = nth_error (docTokens (doc tr)) (Z.to_nat p))
    /\ (forall p, rStart (lRange l) <= p < rStart (lRange l) + sliceSize sel ->
          nth_error (docTokens (doc tr')) (Z.to_nat (p - 2))
          = nth_error (docTokens (doc tr)) (Z.to_nat p)).
Proof.
  intros Hwf Hl Hty E.
  pose proof (sameType_false_first _ _ Hl Hty) as H0.
  destruct (@located_across sch tr l Hwf Hl H0)
    as (ctx & ft & fa & fl & plt & pla & pis & pit & pia & pic & lt & la & cs & fr & Sh).
  destruct (across_result Sh Hl Hty E) as (sel & unsel & rest & Hsl & Hd' & Hrest).
  pose proof (ac_range Sh) as Rs. pose proof (ac_start Sh) as Hs.
  rewrite nodeSize_Elem, fragSize_app in Hs. cbn [fragSize] in Hs.
  rewrite nodeSize_Elem in Hs.
  destruct (docTokens_plug ft fa ctx) as (A & B & HT & HA).
  set (P := A ++ fragTokens fl ++ TOpen plt pla :: fragTokens pis
              ++ TOpen pit pia :: fragTokens pic).
  assert (HP : Z.of_nat (List.length P) = rStart (lRange l) - 3).
  { unfold P. rewrite !length_app. cbn [List.length]. rewrite !length_app.
    cbn [List.length].
    pose proof (length_fragTokens fl). pose proof (length_fragTokens pis).
    pose proof (length_fragTokens pic). lia. }
  assert (HcsT : fragTokens cs
                 = fragTokens (firstn (endIndex (lRange l)) cs)
                   ++ fragTokens (skipn (endIndex (lRange l)) cs)).
  { rewrite <- fragTokens_app, firstn_skipn. reflexivity. }
  assert (Hgoal : exists I R R',
            docTokens (doc tr) = P ++ TClose :: TClose :: TOpen lt la :: I ++ R
            /\ docTokens (doc tr') = P ++ TOpen lt la :: I ++ R'
            /\ sliceSize sel <= Z.of_nat (List.length I)).
  { destruct (Nat.leb_spec (rDepth (lRange l) + 2) (depth (lTo l))) as [Hdeep | Hshallow].
    - destruct (sliceSelectedItems_deep Rs Hdeep)
        as (items0 & it & ia & b0 & blk & b1 & H1 & _ & _ & _ & H5).
      rewrite H0, Nat.sub_0_r in H1. cbn [skipn] in H1.
      rewrite Hsl in H5. injection H5 as Hsel Hunsel. subst sel unsel.
      exists (fragTokens items0 ++ TOpen it ia :: fragTokens b0 ++ tokens blk),
        (fragTokens b1 ++ TClose :: fragTokens (skipn (endIndex (lRange l)) cs)
           ++ TClose :: fragTokens fr ++ B),
        (TClose :: TClose :: fragTokens b1 ++ TClose :: TClose
           :: fragTokens rest ++ fragTokens fr ++ B).
      split; [| split].
      + rewrite (ac_doc Sh), HT. unfold P. tok_norm. rewrite HcsT, H1. tok_norm.
        reflexivity.
      + rewrite Hd', HT. unfold newPreviousItemContent.
        cbn [copy contentOf sContent].
        rewrite append_single_elem by reflexivity.
        rewrite append_snoc_nonText by reflexivity.
        unfold P. tok_norm. reflexivity.
      + unfold sliceSize. cbn [sContent openStart openEnd].
        rewrite fragSize_app. cbn [fragSize]. rewrite nodeSize_Elem, fragSize_app.
        cbn [fragSize]. rewrite length_app. cbn [List.length]. rewrite length_app.
        pose proof (length_fragTokens items0). pose proof (length_fragTokens b0).
        pose proof (length_tokens blk). lia.
    - pose proof (sliceSelectedItems_shallow Rs Hshallow) as H5.
      rewrite H0, Nat.sub_0_r in H5. cbn [skipn] in H5.
      rewrite Hsl in H5. injection H5 as Hsel Hunsel. subst sel unsel.
      exists (fragTokens (firstn (endIndex (lRange l)) cs)),
        (fragTokens (skipn (endIndex (lRange l)) cs) ++ TClose :: fragTokens fr ++ B),
        (TClose :: TClose :: TClose :: fragTokens rest ++ fragTokens fr ++ B).
      split; [| split].
      + rewrite (ac_doc Sh), HT. unfold P. tok_norm. rewrite HcsT. tok_norm.
        reflexivity.
      + rewrite Hd', HT. unfold newPreviousItemContent.
        cbn [copy contentOf sContent].
        rewrite append_nil_r, append_single_elem by reflexivity.
        unfold P. tok_norm. reflexivity.
      + unfold sliceSize. cbn [sContent openStart openEnd].
        pose proof (length_fragTokens (firstn (endIndex (lRange l)) cs)). lia. }
  destruct Hgoal as (I & R & R' & HT1 & HT2 & HI).
  destruct (@shift_tokens _ P I R R' TClose TClose (TOpen lt la) _ _ HP HI)
    as (G1 & G2 & G3 & G4 & G5).
  assert (G0 : nth_error (P ++ TClose :: TClose :: TOpen lt la :: I ++ R)
                 (Z.to_nat (rStart (lRange l) - 1)) = Some (TOpen lt la)).
  { replace (Z.to_nat (rStart (lRange l) - 1)) with (List.length P + 2)%nat by lia.
    rewrite nth_error_app2 by lia.
    replace (List.length P + 2 - List.length P)%nat with 2%nat by lia. reflexivity. }
  exists sel, unsel. rewrite HT1, HT2, (ac_list Sh). cbn [typeOf attrsOf].
  split; [exact Hsl |]. split; [exact G1 |]. split; [exact G2 |].
  split; [exact G0 |]. split; [rewrite G3; exact G0 |]. split; assumption.
Qed.

Lemma cross_list_tokens_witness :
  exists sel unsel,
    sliceSelectedItems (doc trailingBlocksRun) (lTo trailingBlocksLocated)
      (lRange trailingBlocksLocated) = Ok (sel, unsel)
    /\ nth_error (docTokens (doc trailingBlocksRun))
         (Z.to_nat (rStart (lRange trailingBlocksLocated) - 3)) = Some TClose
    /\ nth_error (docTokens (doc trailingBlocksRun))
         (Z.to_nat (rStart (lRange trailingBlocksLocated) - 2)) = Some TClose
    /\ nth_error (docTokens (doc trailingBlocksRun))
         (Z.to_nat (rStart (lRange trailingBlocksLocated) - 1))
       = Some (TOpen (typeOf (lList trailingBlocksLocated))
                 (attrsOf (lList trailingBlocksLocated)))
    /\ nth_error (docTokens (doc trailingBlocksResult))
         (Z.to_nat (rStart (lRange trailingBlocksLocated) - 3))
       = Some (TOpen (typeOf (lList trailingBlocksLocated))
                 (attrsOf (lList trailingBlocksLocated)))
    /\ (forall p, 0 <= p < rStart (lRange trailingBlocksLocated) - 3 ->
          nth_error (docTokens (doc trailingBlocksResult)) (Z.to_nat p)
          = nth_error (docTokens (doc trailingBlocksRun)) (Z.to_nat p))
    /\ (forall p,
          rStart (lRange trailingBlocksLocated) <= p
          < rStart (lRange trailingBlocksLocated) + sliceSize sel ->
          nth_error (docTokens (doc trailingBlocksResult)) (Z.to_nat (p - 2))
          = nth_error (docTokens (doc trailingBlocksRun)) (Z.to_nat p)).
Proof.
  apply (@cross_list_tokens listSchema trailingBlocksRun trailingBlocksResult
           trailingBlocksLocated);
    vm_compute; reflexivity.
Defined.

End Properties.
